(** * gemu-c: cluster scheduling simulators (ar-sim.c, mixed-sim.c)

    A shallow embedding of the two simulators and the properties of
    their schedulers, executors and trace steps.

    Modelling conventions.
    - [int] and [long int] fields are values of [Z].  Signed overflow is
      undefined in C; the model computes on [Z], which agrees with C
      wherever C defines the result.
    - The [float] fields [total_time] and [used_time] only ever hold the
      result of repeated [x++] from 0.  In IEEE binary32 every integer up
      to 2^24 is exact and 2^24 + 1 rounds back to 2^24 (ties to even), so
      such a counter is the integer [x] until it sticks at 2^24; this is
      [float_incr].  The statistics [mean_usage] and [mean_wait_time] are
      floating-point values that no control flow reads; they are left out.
    - Each pool is the chain reachable from [first_res] / [first_job],
      as a list in chain order.  A node carries the address [malloc]
      returned for it; addresses are never reused, so a pointer to a freed
      node is recognisable (it hits no live node).  Pointers kept across
      calls ([last_res], [last_job], [run_on], [job_to_run]) are addresses;
      dereferencing one that hits no live node is undefined behaviour and
      the model returns [None] / [Undefined].  The removal passes do not
      update [last_res] / [last_job]: once the last node of a pool has
      been freed, the next [add_res] / [add_job] on the non-empty pool
      writes [last->next] through the dangling pointer, and the modelled
      run ends in [Undefined] there.
    - [random()] and [malloc()] are oracles read off the state: the k-th
      call of [random] returns [random_src k], the k-th call of [malloc]
      succeeds iff [malloc_src k]. *)

From Stdlib Require Import ZArith Lia.
From stdpp Require Import base tactics option numbers list.

Local Open Scope Z_scope.

(** ** Shared definitions *)

(** What a tick (or a whole run) leaves behind: the loop goes on, the
    process has called [exit], or the C semantics gives no meaning. *)
Inductive outcome (S : Type) : Type :=
  | Running (s : S)
  | Exited (s : S)
  | Undefined.
Arguments Running {S} s.
Arguments Exited {S} s.
Arguments Undefined {S}.

(** Largest value a [float] counter incremented by one can reach. *)
Definition FLT_STICK : Z := 16777216.

(** [x++] on a [float] holding a non-negative integer. *)
Definition float_incr (x : Z) : Z := if x <? FLT_STICK then x + 1 else x.

(** The node an address points to, if it is live. *)
Definition deref {A} (addr : A → nat) (a : nat) (l : list A) : option A :=
  List.find (λ y, Nat.eqb (addr y) a) l.

(** [p->field = ...] through an address. *)
Definition store_at {A} (addr : A → nat) (a : nat) (f : A → A) (l : list A) : list A :=
  (λ y, if Nat.eqb (addr y) a then f y else y) <$> l.

(** [last->next = x] with [x->next = NULL]: the chain is cut after the
    node at address [a] and continues with [x].  [None] when [a] is not
    a node of the chain. *)
Fixpoint link_after {A} (addr : A → nat) (a : nat) (x : A) (l : list A) : option (list A) :=
  match l with
  | [] => None
  | y :: l' =>
      if Nat.eqb (addr y) a then Some [y; x]
      else cons y <$> link_after addr a x l'
  end.

(** Position of the first node satisfying [p], as a traversal
    [while (p) { if (...) break; p = p->next; }] finds it. *)
Fixpoint first_index {A} (p : A → bool) (l : list A) : option nat :=
  match l with
  | [] => None
  | y :: l' => if p y then Some O else S <$> first_index p l'
  end.

(** ** The mixed (LWF + FCFS) simulator, mixed-sim.c *)
Module Mixed.

Inductive res_state := AVAILABLE | USED | LEAVING | RECEIVING_DATA.
Inductive job_state := WAITING | RUNNING | DONE | SENDING_DATA.

#[global] Instance res_state_eq_dec : EqDecision res_state.
Proof. solve_decision. Defined.
#[global] Instance job_state_eq_dec : EqDecision job_state.
Proof. solve_decision. Defined.

Definition FCFS_W : Z := 1.
Definition LWF_W : Z := 1.
Definition MAX_JOBS : Z := 100000.
Definition RECORD_INTERVAL : Z := 500.
Definition RL_PROB : Z := 300.
Definition ADD_RESOURCE_PROB : Z := 50.
Definition ADD_JOB_PROB : Z := 800.

Record resource := mkResource {
  r_addr : nat;
  r_code : Z;
  r_state : res_state;
  r_level : Z;
  r_total_time : Z;
  r_used_time : Z }.

Record job := mkJob {
  j_addr : nat;
  j_code : Z;
  j_state : job_state;
  j_workload : Z;
  j_send_data : Z;
  j_wait_time : Z;
  j_run_on : option nat }.

Record sim := mkSim {
  first_res : list resource;
  last_res : option nat;
  first_job : list job;
  last_job : option nat;
  resource_number : Z;
  job_number : Z;
  resources_gone : Z;
  jobs_done : Z;
  begin : bool;
  records : list (Z * Z);
  heap_next : nat;
  random_src : nat → N;
  random_pos : nat;
  malloc_src : nat → bool;
  malloc_pos : nat }.

Definition set_r_state (v : res_state) (r : resource) : resource :=
  mkResource (r_addr r) (r_code r) v (r_level r) (r_total_time r) (r_used_time r).
Definition set_r_total_time (v : Z) (r : resource) : resource :=
  mkResource (r_addr r) (r_code r) (r_state r) (r_level r) v (r_used_time r).
Definition set_r_used_time (v : Z) (r : resource) : resource :=
  mkResource (r_addr r) (r_code r) (r_state r) (r_level r) (r_total_time r) v.

Definition set_j_state (v : job_state) (j : job) : job :=
  mkJob (j_addr j) (j_code j) v (j_workload j) (j_send_data j) (j_wait_time j) (j_run_on j).
Definition set_j_workload (v : Z) (j : job) : job :=
  mkJob (j_addr j) (j_code j) (j_state j) v (j_send_data j) (j_wait_time j) (j_run_on j).
Definition set_j_send_data (v : Z) (j : job) : job :=
  mkJob (j_addr j) (j_code j) (j_state j) (j_workload j) v (j_wait_time j) (j_run_on j).
Definition set_j_wait_time (v : Z) (j : job) : job :=
  mkJob (j_addr j) (j_code j) (j_state j) (j_workload j) (j_send_data j) v (j_run_on j).
Definition set_j_run_on (v : option nat) (j : job) : job :=
  mkJob (j_addr j) (j_code j) (j_state j) (j_workload j) (j_send_data j) (j_wait_time j) v.

Definition set_res (rs : list resource) (la : option nat) (s : sim) : sim :=
  mkSim rs la (first_job s) (last_job s) (resource_number s) (job_number s)
    (resources_gone s) (jobs_done s) (begin s) (records s) (heap_next s)
    (random_src s) (random_pos s) (malloc_src s) (malloc_pos s).
Definition set_jobs (js : list job) (la : option nat) (s : sim) : sim :=
  mkSim (first_res s) (last_res s) js la (resource_number s) (job_number s)
    (resources_gone s) (jobs_done s) (begin s) (records s) (heap_next s)
    (random_src s) (random_pos s) (malloc_src s) (malloc_pos s).
Definition set_first_res (rs : list resource) (s : sim) : sim := set_res rs (last_res s) s.
Definition set_first_job (js : list job) (s : sim) : sim := set_jobs js (last_job s) s.
Definition set_resource_number (v : Z) (s : sim) : sim :=
  mkSim (first_res s) (last_res s) (first_job s) (last_job s) v (job_number s)
    (resources_gone s) (jobs_done s) (begin s) (records s) (heap_next s)
    (random_src s) (random_pos s) (malloc_src s) (malloc_pos s).
Definition set_job_number (v : Z) (s : sim) : sim :=
  mkSim (first_res s) (last_res s) (first_job s) (last_job s) (resource_number s) v
    (resources_gone s) (jobs_done s) (begin s) (records s) (heap_next s)
    (random_src s) (random_pos s) (malloc_src s) (malloc_pos s).
Definition set_trace (gone done : Z) (recs : list (Z * Z)) (s : sim) : sim :=
  mkSim (first_res s) (last_res s) (first_job s) (last_job s) (resource_number s)
    (job_number s) gone done (begin s) recs (heap_next s)
    (random_src s) (random_pos s) (malloc_src s) (malloc_pos s).
Definition set_begin (v : bool) (s : sim) : sim :=
  mkSim (first_res s) (last_res s) (first_job s) (last_job s) (resource_number s)
    (job_number s) (resources_gone s) (jobs_done s) v (records s) (heap_next s)
    (random_src s) (random_pos s) (malloc_src s) (malloc_pos s).

(** [random()]: the next value of the source. *)
Definition random (s : sim) : Z * sim :=
  (Z.of_N (random_src s (random_pos s)),
   mkSim (first_res s) (last_res s) (first_job s) (last_job s) (resource_number s)
     (job_number s) (resources_gone s) (jobs_done s) (begin s) (records s) (heap_next s)
     (random_src s) (S (random_pos s)) (malloc_src s) (malloc_pos s)).

(** [malloc()]: a fresh address, or [None] for a null result. *)
Definition malloc (s : sim) : option nat * sim :=
  let ok := malloc_src s (malloc_pos s) in
  ((if ok then Some (heap_next s) else None),
   mkSim (first_res s) (last_res s) (first_job s) (last_job s) (resource_number s)
     (job_number s) (resources_gone s) (jobs_done s) (begin s) (records s)
     (if ok then S (heap_next s) else heap_next s)
     (random_src s) (random_pos s) (malloc_src s) (S (malloc_pos s))).

(** The state the globals are initialised to. *)
Definition init (rnd : nat → N) (mal : nat → bool) : sim :=
  mkSim [] None [] None 0 0 0 0 true [] 1%nat rnd 0%nat mal 0%nat.

(** *** add_res, add_job *)

Definition add_res (s : sim) : option sim :=
  match malloc s with
  | (None, s1) => Some s1
  | (Some a, s1) =>
      let n := resource_number s1 + 1 in
      let s2 := set_resource_number n s1 in
      let '(x, s3) := random s2 in
      let r := mkResource a n AVAILABLE (1 + Z.rem x 5) 0 0 in
      match first_res s3 with
      | [] => Some (set_res [r] (Some a) s3)
      | _ :: _ =>
          la ← last_res s3;
          rs ← link_after r_addr la r (first_res s3);
          Some (set_res rs (Some a) s3)
      end
  end.

Definition add_job (s : sim) : option sim :=
  match malloc s with
  | (None, s1) => Some s1
  | (Some a, s1) =>
      let n := job_number s1 + 1 in
      let s2 := set_job_number n s1 in
      let '(x, s3) := random s2 in
      let '(y, s4) := random s3 in
      let j := mkJob a n WAITING (50 + Z.rem x 950) (Z.rem y 30) 0 None in
      match first_job s4 with
      | [] => Some (set_jobs [j] (Some a) s4)
      | _ :: _ =>
          la ← last_job s4;
          js ← link_after j_addr la j (first_job s4);
          Some (set_jobs js (Some a) s4)
      end
  end.

(** *** remove_done_jobs, remove_leaving_resources

    Both unlink and free every node in the terminal state; neither
    touches [last_job] / [last_res]. *)

Definition remove_done_jobs (s : sim) : sim :=
  set_first_job (filter (λ j, j_state j ≠ DONE) (first_job s)) s.

Definition remove_leaving_resources (s : sim) : sim :=
  set_first_res (filter (λ r, r_state r ≠ LEAVING) (first_res s)) s.

(** *** add_remove *)

Inductive admission := AddResource | AddJob | AddNothing.

(** The decision taken on the draw [i = 1 + random() % 1000]. *)
Definition admission_of_draw (i : Z) : admission :=
  if i <=? ADD_RESOURCE_PROB then AddResource
  else if i >? ADD_JOB_PROB then AddJob
  else AddNothing.

Definition add_on_draw (i : Z) (s : sim) : option sim :=
  match admission_of_draw i with
  | AddResource => add_res s
  | AddJob => add_job s
  | AddNothing => Some s
  end.

Fixpoint repeat_add_res (n : nat) (s : sim) : option sim :=
  match n with
  | O => Some s
  | S n' => s1 ← add_res s; repeat_add_res n' s1
  end.

Definition add_remove (s : sim) : option sim :=
  s1 ← (if begin s then set_begin false <$> repeat_add_res 5 s else Some s);
  let s2 := remove_done_jobs s1 in
  let s3 := remove_leaving_resources s2 in
  let '(x, s4) := random s3 in
  add_on_draw (1 + Z.rem x 1000) s4.

(** *** schedule *)

Definition is_available (r : resource) : bool := bool_decide (r_state r = AVAILABLE).
Definition is_waiting (j : job) : bool := bool_decide (j_state j = WAITING).

Definition score (j : job) : Z := FCFS_W * j_wait_time j + LWF_W * j_workload j.

(** The loop "select best job": [pos] is the position of the node [js]
    starts at, [best] the position [best_job] points to.  [best_score]
    is compared against and never assigned. *)
Fixpoint select_best (best_score : Z) (js : list job) (pos best : nat) : nat :=
  match js with
  | [] => best
  | j :: js' =>
      select_best best_score js' (S pos)
        (if is_waiting j && (score j >? best_score) then pos else best)
  end.

Definition schedule (s : sim) : sim :=
  match first_index is_available (first_res s) with
  | None => s
  | Some ri =>
      match first_index is_waiting (first_job s) with
      | None => s
      | Some k =>
          match first_res s !! ri, first_job s !! k with
          | Some r, Some j0 =>
              let best := select_best (score j0) (drop k (first_job s)) k k in
              let js := alter (λ j, set_j_state SENDING_DATA (set_j_run_on (Some (r_addr r)) j))
                          best (first_job s) in
              let rs := alter (set_r_state RECEIVING_DATA) ri (first_res s) in
              set_first_res rs (set_first_job js s)
          | _, _ => s
          end
      end
  end.

(** *** run_send *)

(** [j->run_on->...]: the resource [run_on] points to; undefined when
    [run_on] is null or the resource has been freed. *)
Definition run_on_res (j : job) (s : sim) : option (nat * resource) :=
  a ← j_run_on j; r ← deref r_addr a (first_res s); Some (a, r).

Definition store_res (a : nat) (f : resource → resource) (s : sim) : sim :=
  set_first_res (store_at r_addr a f (first_res s)) s.

(** The body of the loop over the jobs, for the job [j]. *)
Definition run_send_job (j : job) (s : sim) : option (job * sim) :=
  match j_state j with
  | SENDING_DATA =>
      let j1 := set_j_send_data (j_send_data j - 1) j in
      if j_send_data j1 <=? 0 then
        '(a, _) ← run_on_res j1 s;
        Some (set_j_state RUNNING j1, store_res a (set_r_state USED) s)
      else Some (j1, s)
  | RUNNING =>
      '(a, r) ← run_on_res j s;
      let j1 := set_j_workload (j_workload j - r_level r) j in
      let s1 := store_res a (λ r, set_r_used_time (float_incr (r_used_time r)) r) s in
      if j_workload j1 <=? 0 then
        let j2 := set_j_state DONE j1 in
        let s2 := store_res a (set_r_state AVAILABLE) s1 in
        let '(x, s3) := random s2 in
        if Z.rem x 1000 <=? RL_PROB
        then Some (j2, store_res a (set_r_state LEAVING) s3)
        else Some (j2, s3)
      else Some (j1, s1)
  | _ => Some (j, s)
  end.

Fixpoint run_send_loop (js : list job) (s : sim) : option (list job * sim) :=
  match js with
  | [] => Some ([], s)
  | j :: js' =>
      '(j', s1) ← run_send_job j s;
      '(js'', s2) ← run_send_loop js' s1;
      Some (j' :: js'', s2)
  end.

Definition run_send (s : sim) : option sim :=
  '(js, s1) ← run_send_loop (first_job s) s;
  Some (set_first_job js s1).

(** *** traceall *)

(** The loop over the jobs.  [record_mean_usage] appends one line to the
    output file; [records] keeps its integer columns
    [(jobs_done, job_number)], newest first. *)
Fixpoint trace_jobs (njobs : Z) (js : list job) (done : Z) (recs : list (Z * Z))
  : list job * Z * list (Z * Z) :=
  match js with
  | [] => ([], done, recs)
  | j :: js' =>
      match j_state j with
      | WAITING =>
          let '(out, d, rc) := trace_jobs njobs js' done recs in
          (set_j_wait_time (j_wait_time j + 1) j :: out, d, rc)
      | DONE =>
          let done1 := done + 1 in
          let recs1 := if Z.rem done1 RECORD_INTERVAL =? 0 then (done1, njobs) :: recs else recs in
          let '(out, d, rc) := trace_jobs njobs js' done1 recs1 in
          (j :: out, d, rc)
      | _ =>
          let '(out, d, rc) := trace_jobs njobs js' done recs in
          (j :: out, d, rc)
      end
  end.

(** The loop over the resources. *)
Fixpoint trace_res (rs : list resource) (gone : Z) : list resource * Z :=
  match rs with
  | [] => ([], gone)
  | r :: rs' =>
      let r1 := set_r_total_time (float_incr (r_total_time r)) r in
      let gone1 := match r_state r1 with LEAVING => gone + 1 | _ => gone end in
      let '(out, g) := trace_res rs' gone1 in
      (r1 :: out, g)
  end.

(** Everything [traceall] does before its final test. *)
Definition trace_body (s : sim) : sim :=
  let '(js, done, recs) := trace_jobs (job_number s) (first_job s) (jobs_done s) (records s) in
  let '(rs, gone) := trace_res (first_res s) (resources_gone s) in
  set_trace gone done recs (set_first_res rs (set_first_job js s)).

Definition traceall (s : sim) : outcome sim :=
  let s1 := trace_body s in
  if jobs_done s1 =? MAX_JOBS then Exited s1 else Running s1.

(** *** main: one pass of the loop, and [n] passes *)

Definition tick (s : sim) : outcome sim :=
  match traceall s with
  | Running s1 =>
      match add_remove s1 with
      | Some s2 =>
          match run_send s2 with
          | Some s3 => Running (schedule s3)
          | None => Undefined
          end
      | None => Undefined
      end
  | o => o
  end.

Fixpoint run (n : nat) (s : sim) : outcome sim :=
  match n with
  | O => Running s
  | S n' =>
      match tick s with
      | Running s1 => run n' s1
      | o => o
      end
  end.

End Mixed.

(** ** The advance-reservation simulator, ar-sim.c *)
Module AR.

Inductive res_state := AVAILABLE | HAS_JOBS | LEAVING | NO_ACCEPT_JOBS.
Inductive job_state :=
  WAITING | RUNNING | DONE | SENDING_DATA | WAITING_TO_SEND_DATA | READY_TO_RUN.

#[global] Instance res_state_eq_dec : EqDecision res_state.
Proof. solve_decision. Defined.
#[global] Instance job_state_eq_dec : EqDecision job_state.
Proof. solve_decision. Defined.

Definition MAX_JOBS : Z := 100000.
Definition RECORD_INTERVAL : Z := 500.
Definition RL_PROB : Z := 300.
Definition ADD_RESOURCE_PROB : Z := 50.
Definition ADD_JOB_PROB : Z := 50.

(** [r_rsv] is the chain of reservations from [first_rsv], each given by
    the address in its [job_to_run].  Reservations are unlinked at the
    head only, so whenever the chain is not empty [last_rsv] is its last
    node and linking after [last_rsv] appends to the list. *)
Record resource := mkResource {
  r_addr : nat;
  r_code : Z;
  r_state : res_state;
  r_level : Z;
  r_total_time : Z;
  r_used_time : Z;
  r_total_workload : Z;
  r_rsv : list nat }.

Record job := mkJob {
  j_addr : nat;
  j_code : Z;
  j_state : job_state;
  j_workload : Z;
  j_send_data : Z;
  j_wait_time : Z;
  j_run_on : option nat }.

Record sim := mkSim {
  first_res : list resource;
  last_res : option nat;
  first_job : list job;
  last_job : option nat;
  resource_number : Z;
  job_number : Z;
  resources_gone : Z;
  jobs_done : Z;
  begin : bool;
  records : list (Z * Z);
  heap_next : nat;
  random_src : nat → N;
  random_pos : nat;
  malloc_src : nat → bool;
  malloc_pos : nat }.

Definition set_r_state (v : res_state) (r : resource) : resource :=
  mkResource (r_addr r) (r_code r) v (r_level r) (r_total_time r) (r_used_time r)
    (r_total_workload r) (r_rsv r).
Definition set_r_total_time (v : Z) (r : resource) : resource :=
  mkResource (r_addr r) (r_code r) (r_state r) (r_level r) v (r_used_time r)
    (r_total_workload r) (r_rsv r).
Definition set_r_used_time (v : Z) (r : resource) : resource :=
  mkResource (r_addr r) (r_code r) (r_state r) (r_level r) (r_total_time r) v
    (r_total_workload r) (r_rsv r).
Definition set_r_total_workload (v : Z) (r : resource) : resource :=
  mkResource (r_addr r) (r_code r) (r_state r) (r_level r) (r_total_time r) (r_used_time r)
    v (r_rsv r).
Definition set_r_rsv (v : list nat) (r : resource) : resource :=
  mkResource (r_addr r) (r_code r) (r_state r) (r_level r) (r_total_time r) (r_used_time r)
    (r_total_workload r) v.

Definition set_j_state (v : job_state) (j : job) : job :=
  mkJob (j_addr j) (j_code j) v (j_workload j) (j_send_data j) (j_wait_time j) (j_run_on j).
Definition set_j_workload (v : Z) (j : job) : job :=
  mkJob (j_addr j) (j_code j) (j_state j) v (j_send_data j) (j_wait_time j) (j_run_on j).
Definition set_j_send_data (v : Z) (j : job) : job :=
  mkJob (j_addr j) (j_code j) (j_state j) (j_workload j) v (j_wait_time j) (j_run_on j).
Definition set_j_wait_time (v : Z) (j : job) : job :=
  mkJob (j_addr j) (j_code j) (j_state j) (j_workload j) (j_send_data j) v (j_run_on j).

Definition set_res (rs : list resource) (la : option nat) (s : sim) : sim :=
  mkSim rs la (first_job s) (last_job s) (resource_number s) (job_number s)
    (resources_gone s) (jobs_done s) (begin s) (records s) (heap_next s)
    (random_src s) (random_pos s) (malloc_src s) (malloc_pos s).
Definition set_jobs (js : list job) (la : option nat) (s : sim) : sim :=
  mkSim (first_res s) (last_res s) js la (resource_number s) (job_number s)
    (resources_gone s) (jobs_done s) (begin s) (records s) (heap_next s)
    (random_src s) (random_pos s) (malloc_src s) (malloc_pos s).
Definition set_first_res (rs : list resource) (s : sim) : sim := set_res rs (last_res s) s.
Definition set_first_job (js : list job) (s : sim) : sim := set_jobs js (last_job s) s.
Definition set_resource_number (v : Z) (s : sim) : sim :=
  mkSim (first_res s) (last_res s) (first_job s) (last_job s) v (job_number s)
    (resources_gone s) (jobs_done s) (begin s) (records s) (heap_next s)
    (random_src s) (random_pos s) (malloc_src s) (malloc_pos s).
Definition set_job_number (v : Z) (s : sim) : sim :=
  mkSim (first_res s) (last_res s) (first_job s) (last_job s) (resource_number s) v
    (resources_gone s) (jobs_done s) (begin s) (records s) (heap_next s)
    (random_src s) (random_pos s) (malloc_src s) (malloc_pos s).
Definition set_trace (gone done : Z) (recs : list (Z * Z)) (s : sim) : sim :=
  mkSim (first_res s) (last_res s) (first_job s) (last_job s) (resource_number s)
    (job_number s) gone done (begin s) recs (heap_next s)
    (random_src s) (random_pos s) (malloc_src s) (malloc_pos s).
Definition set_begin (v : bool) (s : sim) : sim :=
  mkSim (first_res s) (last_res s) (first_job s) (last_job s) (resource_number s)
    (job_number s) (resources_gone s) (jobs_done s) v (records s) (heap_next s)
    (random_src s) (random_pos s) (malloc_src s) (malloc_pos s).

Definition random (s : sim) : Z * sim :=
  (Z.of_N (random_src s (random_pos s)),
   mkSim (first_res s) (last_res s) (first_job s) (last_job s) (resource_number s)
     (job_number s) (resources_gone s) (jobs_done s) (begin s) (records s) (heap_next s)
     (random_src s) (S (random_pos s)) (malloc_src s) (malloc_pos s)).

Definition malloc (s : sim) : option nat * sim :=
  let ok := malloc_src s (malloc_pos s) in
  ((if ok then Some (heap_next s) else None),
   mkSim (first_res s) (last_res s) (first_job s) (last_job s) (resource_number s)
     (job_number s) (resources_gone s) (jobs_done s) (begin s) (records s)
     (if ok then S (heap_next s) else heap_next s)
     (random_src s) (random_pos s) (malloc_src s) (S (malloc_pos s))).

Definition init (rnd : nat → N) (mal : nat → bool) : sim :=
  mkSim [] None [] None 0 0 0 0 true [] 1%nat rnd 0%nat mal 0%nat.

(** *** add_res, add_job *)

Definition add_res (s : sim) : option sim :=
  match malloc s with
  | (None, s1) => Some s1
  | (Some a, s1) =>
      let n := resource_number s1 + 1 in
      let s2 := set_resource_number n s1 in
      let '(x, s3) := random s2 in
      let r := mkResource a n AVAILABLE (1 + Z.rem x 5) 0 0 0 [] in
      match first_res s3 with
      | [] => Some (set_res [r] (Some a) s3)
      | _ :: _ =>
          la ← last_res s3;
          rs ← link_after r_addr la r (first_res s3);
          Some (set_res rs (Some a) s3)
      end
  end.

Definition add_job (s : sim) : option sim :=
  match malloc s with
  | (None, s1) => Some s1
  | (Some a, s1) =>
      let n := job_number s1 + 1 in
      let s2 := set_job_number n s1 in
      let '(x, s3) := random s2 in
      let '(y, s4) := random s3 in
      let j := mkJob a n WAITING (50 + Z.rem x 950) (Z.rem y 30) 0 None in
      match first_job s4 with
      | [] => Some (set_jobs [j] (Some a) s4)
      | _ :: _ =>
          la ← last_job s4;
          js ← link_after j_addr la j (first_job s4);
          Some (set_jobs js (Some a) s4)
      end
  end.

(** *** remove_done_jobs, remove_leaving_resources *)

Definition remove_done_jobs (s : sim) : sim :=
  set_first_job (filter (λ j, j_state j ≠ DONE) (first_job s)) s.

Definition remove_leaving_resources (s : sim) : sim :=
  set_first_res (filter (λ r, r_state r ≠ LEAVING) (first_res s)) s.

(** *** add_remove *)

Inductive admission := AddResource | AddJob | AddNothing.

Definition admission_of_draw (i : Z) : admission :=
  if i <=? ADD_RESOURCE_PROB then AddResource
  else if i >? ADD_JOB_PROB then AddJob
  else AddNothing.

Definition add_on_draw (i : Z) (s : sim) : option sim :=
  match admission_of_draw i with
  | AddResource => add_res s
  | AddJob => add_job s
  | AddNothing => Some s
  end.

Fixpoint repeat_add_res (n : nat) (s : sim) : option sim :=
  match n with
  | O => Some s
  | S n' => s1 ← add_res s; repeat_add_res n' s1
  end.

Definition add_remove (s : sim) : option sim :=
  s1 ← (if begin s then set_begin false <$> repeat_add_res 5 s else Some s);
  let s2 := remove_done_jobs s1 in
  let s3 := remove_leaving_resources s2 in
  let '(x, s4) := random s3 in
  add_on_draw (1 + Z.rem x 1000) s4.

(** *** schedule *)

Definition is_waiting (j : job) : bool := bool_decide (j_state j = WAITING).
Definition accepts (r : resource) : bool := negb (bool_decide (r_state r = NO_ACCEPT_JOBS)).

(** The second loop of "select best resource": [pos] is the position of
    the node [rs] starts at, [best] the position and the contents of the
    node [best_r] points to. *)
Fixpoint select_best_res (rs : list resource) (pos : nat) (best : nat * resource)
  : nat * resource :=
  match rs with
  | [] => best
  | r :: rs' =>
      select_best_res rs' (S pos)
        (if accepts r && (r_total_workload r <? r_total_workload (snd best))
         then (pos, r) else best)
  end.

(** "match job with resource", for the job at position [k] and the
    resource at position [bi]. *)
Definition bind_job (k bi : nat) (j : job) (s : sim) : sim :=
  let js := alter (set_j_state WAITING_TO_SEND_DATA) k (first_job s) in
  let rs := alter (λ r, set_r_rsv (r_rsv r ++ [j_addr j])
                          (set_r_total_workload (r_total_workload r + j_workload j)
                             (set_r_state HAS_JOBS r)))
              bi (first_res s) in
  set_first_res rs (set_first_job js s).

Definition schedule (s : sim) : sim :=
  match first_index is_waiting (first_job s) with
  | None => s
  | Some k =>
      match malloc s with
      | (None, s1) => s1
      | (Some _, s1) =>
          match first_index accepts (first_res s1) with
          | None => s1
          | Some i0 =>
              match first_job s1 !! k, first_res s1 !! i0 with
              | Some j, Some r0 =>
                  let '(bi, _) := select_best_res (drop i0 (first_res s1)) i0 (i0, r0) in
                  bind_job k bi j s1
              | _, _ => s1
              end
          end
      end
  end.

(** *** run_send *)

Definition job_at (a : nat) (s : sim) : option job := deref j_addr a (first_job s).

Definition store_job (a : nat) (f : job → job) (s : sim) : sim :=
  set_first_job (store_at j_addr a f (first_job s)) s.

(** "run job": the [switch] on the job of the head reservation, whose
    [job_to_run] is [a] and whose [next_rsv] chain is [q]. *)
Definition run_head (r : resource) (a : nat) (q : list nat) (s : sim)
  : option (resource * sim) :=
  j ← job_at a s;
  match j_state j with
  | RUNNING =>
      let w := j_workload j - r_level r in
      let s1 := store_job a (set_j_workload w) s in
      let r1 := set_r_used_time (float_incr (r_used_time r))
                  (set_r_total_workload (r_total_workload r - r_level r) r) in
      if w <? 0 then
        let s2 := store_job a (set_j_state DONE) s1 in
        let r2 := set_r_rsv q r1 in
        let '(x, s3) := random s2 in
        Some (if Z.rem x 1000 <=? RL_PROB then set_r_state NO_ACCEPT_JOBS r2 else r2, s3)
      else Some (r1, s1)
  | READY_TO_RUN => Some (r, store_job a (set_j_state RUNNING) s)
  | _ => Some (r, s)
  end.

(** "send input data": the walk along the reservations. *)
Fixpoint send_walk (q : list nat) (s : sim) : option sim :=
  match q with
  | [] => Some s
  | a :: q' =>
      j ← job_at a s;
      match j_state j with
      | SENDING_DATA =>
          let sd := j_send_data j - 1 in
          let s1 := store_job a (set_j_send_data sd) s in
          if sd <=? 0 then
            let s2 := store_job a (set_j_state READY_TO_RUN) s1 in
            match q' with
            | [] => Some s2
            | b :: _ => _ ← job_at b s2; Some (store_job b (set_j_state SENDING_DATA) s2)
            end
          else Some s1
      | WAITING_TO_SEND_DATA => Some (store_job a (set_j_state SENDING_DATA) s)
      | _ => send_walk q' s
      end
  end.

(** The passes of the loop over one resource node.  When the node is
    [NO_ACCEPT_JOBS] with no reservation it becomes [LEAVING] and
    [continue] re-enters the loop on the same node; the first test then
    fails and, the chain being empty, the loop moves on. *)
Definition run_send_res (r : resource) (s : sim) : option (resource * sim) :=
  let r0 := if bool_decide (r_state r = NO_ACCEPT_JOBS) && bool_decide (r_rsv r = [])
            then set_r_state LEAVING r else r in
  match r_rsv r0 with
  | [] => Some (r0, s)
  | a :: q =>
      '(r1, s1) ← run_head r0 a q s;
      s2 ← send_walk (r_rsv r1) s1;
      Some (r1, s2)
  end.

Fixpoint run_send_loop (rs : list resource) (s : sim) : option (list resource * sim) :=
  match rs with
  | [] => Some ([], s)
  | r :: rs' =>
      '(r', s1) ← run_send_res r s;
      '(rs'', s2) ← run_send_loop rs' s1;
      Some (r' :: rs'', s2)
  end.

Definition run_send (s : sim) : option sim :=
  '(rs, s1) ← run_send_loop (first_res s) s;
  Some (set_first_res rs s1).

(** *** traceall *)

Fixpoint trace_jobs (njobs : Z) (js : list job) (done : Z) (recs : list (Z * Z))
  : list job * Z * list (Z * Z) :=
  match js with
  | [] => ([], done, recs)
  | j :: js' =>
      match j_state j with
      | WAITING | WAITING_TO_SEND_DATA | READY_TO_RUN =>
          let '(out, d, rc) := trace_jobs njobs js' done recs in
          (set_j_wait_time (j_wait_time j + 1) j :: out, d, rc)
      | DONE =>
          let done1 := done + 1 in
          let recs1 := if Z.rem done1 RECORD_INTERVAL =? 0 then (done1, njobs) :: recs else recs in
          let '(out, d, rc) := trace_jobs njobs js' done1 recs1 in
          (j :: out, d, rc)
      | _ =>
          let '(out, d, rc) := trace_jobs njobs js' done recs in
          (j :: out, d, rc)
      end
  end.

Fixpoint trace_res (rs : list resource) (gone : Z) : list resource * Z :=
  match rs with
  | [] => ([], gone)
  | r :: rs' =>
      let r1 := set_r_total_time (float_incr (r_total_time r)) r in
      let gone1 := match r_state r1 with LEAVING => gone + 1 | _ => gone end in
      let '(out, g) := trace_res rs' gone1 in
      (r1 :: out, g)
  end.

Definition trace_body (s : sim) : sim :=
  let '(js, done, recs) := trace_jobs (job_number s) (first_job s) (jobs_done s) (records s) in
  let '(rs, gone) := trace_res (first_res s) (resources_gone s) in
  set_trace gone done recs (set_first_res rs (set_first_job js s)).

Definition traceall (s : sim) : outcome sim :=
  let s1 := trace_body s in
  if jobs_done s1 >=? MAX_JOBS then Exited s1 else Running s1.

(** *** main *)

Definition tick (s : sim) : outcome sim :=
  match traceall s with
  | Running s1 =>
      match add_remove s1 with
      | Some s2 =>
          match run_send s2 with
          | Some s3 => Running (schedule s3)
          | None => Undefined
          end
      | None => Undefined
      end
  | o => o
  end.

Fixpoint run (n : nat) (s : sim) : outcome sim :=
  match n with
  | O => Running s
  | S n' =>
      match tick s with
      | Running s1 => run n' s1
      | o => o
      end
  end.

End AR.

(** * Specification-level definitions *)

(** ** Concrete states used as test inputs *)

(** The draws [i = 1 + random() % 1000] can take. *)
Definition draws : list Z := List.map Z.of_nat (List.seq 1 1000).

Definition mixed_is_add_job (i : Z) : bool :=
  match Mixed.admission_of_draw i with Mixed.AddJob => true | _ => false end.
Definition mixed_is_add_resource (i : Z) : bool :=
  match Mixed.admission_of_draw i with Mixed.AddResource => true | _ => false end.
Definition ar_is_add_job (i : Z) : bool :=
  match AR.admission_of_draw i with AR.AddJob => true | _ => false end.
Definition ar_is_add_resource (i : Z) : bool :=
  match AR.admission_of_draw i with AR.AddResource => true | _ => false end.

(** Mixed: one free resource and three waiting jobs with scores
    102, 301 and 200. *)
Definition three_waiting_jobs : list Mixed.job :=
  [ Mixed.mkJob 6 1 Mixed.WAITING 100 5 2 None;
    Mixed.mkJob 7 2 Mixed.WAITING 300 5 1 None;
    Mixed.mkJob 8 3 Mixed.WAITING 200 5 0 None ].

Definition mixed_three_waiting : Mixed.sim :=
  Mixed.mkSim [Mixed.mkResource 1 1 Mixed.AVAILABLE 5 9 4] (Some 1%nat)
    three_waiting_jobs (Some 8%nat) 1 3 0 0 false [] 9%nat
    (λ _, 0%N) 0%nat (λ _, true) 0%nat.

(** Mixed: the jobs of the specification's example, (wait_time, workload)
    = (0, 900) and (10, 100). *)
Definition mixed_spec_example : Mixed.sim :=
  Mixed.mkSim [Mixed.mkResource 1 1 Mixed.AVAILABLE 5 12 0] (Some 1%nat)
    [ Mixed.mkJob 6 1 Mixed.WAITING 900 5 0 None;
      Mixed.mkJob 7 2 Mixed.WAITING 100 5 10 None ] (Some 7%nat) 1 2 0 0 false [] 8%nat
    (λ _, 0%N) 0%nat (λ _, true) 0%nat.

(** AR: a resource of level 5 whose head job is running with 5 units of
    work left. *)
Definition ar_exact_finish : AR.sim :=
  AR.mkSim [AR.mkResource 1 1 AR.HAS_JOBS 5 10 4 5 [6%nat]] (Some 1%nat)
    [AR.mkJob 6 1 AR.RUNNING 5 0 3 None] (Some 6%nat) 1 1 0 0 false [] 8%nat
    (λ _, 999%N) 0%nat (λ _, true) 0%nat.

(** AR: a resource of level 5 whose only job is running with 4 units of
    work left. *)
Definition ar_overshoot : AR.sim :=
  AR.mkSim [AR.mkResource 1 1 AR.HAS_JOBS 5 10 4 4 [6%nat]] (Some 1%nat)
    [AR.mkJob 6 1 AR.RUNNING 4 0 3 None] (Some 6%nat) 1 1 0 0 false [] 8%nat
    (λ _, 999%N) 0%nat (λ _, true) 0%nat.

(** Mixed: 99999 jobs counted so far and two jobs that completed in the
    last executor pass. *)
Definition mixed_two_done : Mixed.sim :=
  Mixed.mkSim
    [ Mixed.mkResource 1 1 Mixed.AVAILABLE 5 40 30;
      Mixed.mkResource 2 2 Mixed.AVAILABLE 5 40 30 ] (Some 2%nat)
    [ Mixed.mkJob 6 1 Mixed.DONE (-1) 0 0 (Some 1%nat);
      Mixed.mkJob 7 2 Mixed.DONE (-3) 0 0 (Some 2%nat) ] (Some 7%nat)
    2 100004 0 99999 false [] 8%nat (λ _, 500%N) 0%nat (λ _, true) 0%nat.

(** The same in the AR simulator. *)
Definition ar_two_done : AR.sim :=
  AR.mkSim
    [ AR.mkResource 1 1 AR.HAS_JOBS 5 40 30 (-1) [];
      AR.mkResource 2 2 AR.HAS_JOBS 5 40 30 (-3) [] ] (Some 2%nat)
    [ AR.mkJob 6 1 AR.DONE (-1) 0 0 None;
      AR.mkJob 7 2 AR.DONE (-3) 0 0 None ] (Some 7%nat)
    2 100004 0 99999 false [] 8%nat (λ _, 500%N) 0%nat (λ _, true) 0%nat.

(** Mixed: a job whose input data is being sent. *)
Definition mixed_sending : Mixed.sim :=
  Mixed.mkSim [Mixed.mkResource 1 1 Mixed.RECEIVING_DATA 5 7 0] (Some 1%nat)
    [Mixed.mkJob 6 1 Mixed.SENDING_DATA 400 12 4 (Some 1%nat)] (Some 6%nat)
    1 1 0 0 false [] 7%nat (λ _, 500%N) 0%nat (λ _, true) 0%nat.

(** ** Properties as the specification words them *)

(** The trace step ages every job that is neither running nor done
    (mixed simulator). *)
Definition mixed_trace_ages_all_pending : Prop :=
  ∀ (s : Mixed.sim) (i : nat) (j : Mixed.job),
    Mixed.first_job s !! i = Some j →
    Mixed.j_state j ≠ Mixed.RUNNING → Mixed.j_state j ≠ Mixed.DONE →
    Mixed.j_wait_time <$> (Mixed.first_job (Mixed.trace_body s) !! i)
    = Some (Mixed.j_wait_time j + 1).

(** The states in which the trace step counts a tick of waiting. *)
Definition mixed_waits (j : Mixed.job) : bool :=
  match Mixed.j_state j with
  | Mixed.WAITING => true
  | _ => false
  end.
Definition ar_waits (j : AR.job) : bool :=
  match AR.j_state j with
  | AR.WAITING | AR.WAITING_TO_SEND_DATA | AR.READY_TO_RUN => true
  | _ => false
  end.

(** Remaining workload of the jobs in the reservation chain of [r]. *)
Definition queue_workload (s : AR.sim) (r : AR.resource) : Z :=
  foldr (λ a acc, from_option AR.j_workload 0 (AR.job_at a s) + acc) 0 (AR.r_rsv r).

(** [rs !! bi = Some r] is the accepting resource with the least
    [total_workload], the earliest in pool order among equals. *)
Definition least_loaded (rs : list AR.resource) (bi : nat) (r : AR.resource) : Prop :=
  rs !! bi = Some r ∧ AR.r_state r ≠ AR.NO_ACCEPT_JOBS ∧
  ∀ i r', rs !! i = Some r' → AR.r_state r' ≠ AR.NO_ACCEPT_JOBS →
    AR.r_total_workload r < AR.r_total_workload r' ∨
    (AR.r_total_workload r = AR.r_total_workload r' ∧ (bi ≤ i)%nat).

(** AR: two accepting resources with [total_workload] 100 and 300 (the
    lighter one second in the pool) and one waiting job. *)
Definition ar_two_resources : AR.sim :=
  AR.mkSim
    [ AR.mkResource 1 1 AR.HAS_JOBS 3 50 20 300 [6%nat];
      AR.mkResource 2 2 AR.HAS_JOBS 4 50 20 100 [7%nat] ] (Some 2%nat)
    [ AR.mkJob 6 1 AR.RUNNING 300 0 3 None;
      AR.mkJob 7 2 AR.RUNNING 100 0 3 None;
      AR.mkJob 8 3 AR.WAITING 250 7 0 None ] (Some 8%nat)
    2 3 0 0 false [] 11%nat (λ _, 500%N) 0%nat (λ _, true) 0%nat.

(** What the second selection loop has established once it stands at
    position [pos] with [best_r] at position [b]. *)
Definition best_so_far (rs : list AR.resource) (pos : nat) (best : nat * AR.resource) : Prop :=
  rs !! best.1 = Some best.2 ∧ AR.r_state best.2 ≠ AR.NO_ACCEPT_JOBS ∧ (best.1 ≤ pos)%nat ∧
  ∀ i r', (i < pos)%nat → rs !! i = Some r' → AR.r_state r' ≠ AR.NO_ACCEPT_JOBS →
    AR.r_total_workload best.2 < AR.r_total_workload r' ∨
    (AR.r_total_workload best.2 = AR.r_total_workload r' ∧ (best.1 ≤ i)%nat).

(** The resource a job is attached to by "match job with resource". *)
Definition ar_bound (r : AR.resource) (j : AR.job) : AR.resource :=
  AR.mkResource (AR.r_addr r) (AR.r_code r) AR.HAS_JOBS (AR.r_level r)
    (AR.r_total_time r) (AR.r_used_time r)
    (AR.r_total_workload r + AR.j_workload j) (AR.r_rsv r ++ [AR.j_addr j]).


(** ** Well-formedness of a pool *)

(** The tail pointer [la] is null, points to a freed node, or points to
    the last node of the chain. *)
Definition tail_ok {A} (addr : A → nat) (la : option nat) (l : list A) : Prop :=
  ∀ a x, la = Some a → x ∈ l → addr x = a → last l = Some x.

(** The nodes of a pool have distinct addresses, all handed out by
    [malloc] before [next]. *)
Definition pool_ok {A} (addr : A → nat) (next : nat) (l : list A) : Prop :=
  NoDup (addr <$> l) ∧ Forall (λ x, (addr x < next)%nat) l.

(** ** The mixed simulator: jobs and the resources they run on *)

(** The state a job's resource is in while the job is being served. *)
Definition mixed_served_state (st : Mixed.job_state) : option Mixed.res_state :=
  match st with
  | Mixed.SENDING_DATA => Some Mixed.RECEIVING_DATA
  | Mixed.RUNNING => Some Mixed.USED
  | _ => None
  end.

(** A job that holds a resource: SENDING_DATA or RUNNING. *)
Definition mixed_active (j : Mixed.job) : Prop :=
  is_Some (mixed_served_state (Mixed.j_state j)).

#[global] Instance mixed_active_dec (j : Mixed.job) : Decision (mixed_active j).
Proof. unfold mixed_active. apply _. Defined.

(** [run_on] of an active job points to a live resource in the state
    that goes with the job's state. *)
Definition mixed_serves (rs : list Mixed.resource) (j : Mixed.job) : Prop :=
  ∀ st, mixed_served_state (Mixed.j_state j) = Some st →
    ∃ a r, Mixed.j_run_on j = Some a ∧ deref Mixed.r_addr a rs = Some r ∧
           Mixed.r_state r = st.

(** The [run_on] pointers of the active jobs, in pool order. *)
Definition mixed_claims (js : list Mixed.job) : list (option nat) :=
  Mixed.j_run_on <$> filter mixed_active js.

Definition mixed_time_ok (r : Mixed.resource) : Prop :=
  Mixed.r_used_time r ≤ Mixed.r_total_time r.

(** The invariant of the mixed simulator between two ticks. *)
Record mixed_wf (s : Mixed.sim) : Prop := {
  mwf_pool : pool_ok Mixed.r_addr (Mixed.heap_next s) (Mixed.first_res s);
  mwf_tail : tail_ok Mixed.r_addr (Mixed.last_res s) (Mixed.first_res s);
  mwf_serves : Forall (mixed_serves (Mixed.first_res s)) (Mixed.first_job s);
  mwf_claims : NoDup (mixed_claims (Mixed.first_job s));
  mwf_time : Forall mixed_time_ok (Mixed.first_res s) }.

(** After the trace step a resource that is not free can take one more
    tick of use. *)
Definition mixed_slack (r : Mixed.resource) : Prop :=
  Mixed.r_state r = Mixed.AVAILABLE ∨
  float_incr (Mixed.r_used_time r) ≤ Mixed.r_total_time r.

(** The invariant inside a tick, before the executor runs. *)
Definition mixed_mid (s : Mixed.sim) : Prop :=
  mixed_wf s ∧ Forall mixed_slack (Mixed.first_res s).

(** The invariant of the executor's loop: [pre] are the jobs already
    visited, [js] the jobs still to visit, [rs] the resources. *)
Definition mixed_loop_inv (next : nat) (la : option nat)
    (pre js : list Mixed.job) (rs : list Mixed.resource) : Prop :=
  pool_ok Mixed.r_addr next rs ∧ tail_ok Mixed.r_addr la rs ∧
  Forall (mixed_serves rs) (pre ++ js) ∧
  NoDup (mixed_claims (pre ++ js)) ∧
  Forall mixed_time_ok rs ∧
  Forall (λ j, ∀ a r, mixed_active j → Mixed.j_run_on j = Some a →
                deref Mixed.r_addr a rs = Some r →
                float_incr (Mixed.r_used_time r) ≤ Mixed.r_total_time r) js.

(** ** The AR simulator: reservation chains *)

(** Every [job_to_run] of every reservation, resource by resource. *)
Definition ar_queued (rs : list AR.resource) : list nat := rs ≫= AR.r_rsv.

(** The reservation at position [i] of a chain points to a live job
    that has been scheduled and is not finished; behind the head no job
    is running. *)
Definition ar_entry_ok (jobs : list AR.job) (i : nat) (b : nat) : Prop :=
  ∃ j, deref AR.j_addr b jobs = Some j ∧
       AR.j_state j ≠ AR.WAITING ∧ AR.j_state j ≠ AR.DONE ∧
       (i ≠ 0%nat → AR.j_state j ≠ AR.RUNNING).

Definition ar_queue_ok (jobs : list AR.job) (r : AR.resource) : Prop :=
  ∀ i b, AR.r_rsv r !! i = Some b → ar_entry_ok jobs i b.

Definition ar_time_ok (r : AR.resource) : Prop :=
  AR.r_used_time r ≤ AR.r_total_time r.

(** The invariant of the AR simulator between two ticks. *)
Record ar_wf (s : AR.sim) : Prop := {
  awf_res : pool_ok AR.r_addr (AR.heap_next s) (AR.first_res s);
  awf_jobs : pool_ok AR.j_addr (AR.heap_next s) (AR.first_job s);
  awf_job_tail : tail_ok AR.j_addr (AR.last_job s) (AR.first_job s);
  awf_queued : NoDup (ar_queued (AR.first_res s));
  awf_queues : Forall (ar_queue_ok (AR.first_job s)) (AR.first_res s);
  awf_time : Forall ar_time_ok (AR.first_res s) }.

(** After the trace step a resource with a reservation can take one
    more tick of use. *)
Definition ar_slack (r : AR.resource) : Prop :=
  AR.r_rsv r = [] ∨ float_incr (AR.r_used_time r) ≤ AR.r_total_time r.

Definition ar_mid (s : AR.sim) : Prop :=
  ar_wf s ∧ Forall ar_slack (AR.first_res s).

(** The invariant of the executor's loop: [pre] are the resources
    already visited, [rs] those still to visit. *)
Definition ar_loop_inv (next : nat) (la : option nat)
    (pre rs : list AR.resource) (jobs : list AR.job) : Prop :=
  pool_ok AR.r_addr next (pre ++ rs) ∧
  pool_ok AR.j_addr next jobs ∧ tail_ok AR.j_addr la jobs ∧
  NoDup (ar_queued (pre ++ rs)) ∧
  Forall (ar_queue_ok jobs) (pre ++ rs) ∧
  Forall ar_time_ok (pre ++ rs) ∧
  Forall ar_slack rs.

(** What the data-transfer walk may do to a job's state. *)
Definition ar_soft (j j' : AR.job) : Prop :=
  AR.j_state j' = AR.j_state j ∨ AR.j_state j' = AR.READY_TO_RUN ∨
  AR.j_state j' = AR.SENDING_DATA.

(** The effect of one pass of the executor's loop, on the resource [r]
    it visits and on the jobs, [H] being what happens to each job. *)
Definition ar_pass (r r' : AR.resource) (H : AR.job → AR.job) : Prop :=
  (∀ x, AR.j_addr (H x) = AR.j_addr x) ∧
  (∀ x, AR.j_addr x ∉ AR.r_rsv r → H x = x) ∧
  AR.r_addr r' = AR.r_addr r ∧ AR.r_total_time r' = AR.r_total_time r ∧
  (AR.r_used_time r' = AR.r_used_time r ∨
   (AR.r_rsv r ≠ [] ∧ AR.r_used_time r' = float_incr (AR.r_used_time r))) ∧
  ((AR.r_rsv r' = AR.r_rsv r ∧
    ∀ x, ar_soft x (H x) ∨
         (head (AR.r_rsv r) = Some (AR.j_addr x) ∧ AR.j_state (H x) = AR.RUNNING)) ∨
   (∃ a, AR.r_rsv r = a :: AR.r_rsv r' ∧
      (∀ x, AR.j_addr x = a → AR.j_state (H x) = AR.DONE) ∧
      (∀ x, AR.j_addr x ≠ a → ar_soft x (H x)))).

(** What a store through the address [a] does to each node. *)
Definition at_addr {A} (addr : A → nat) (a : nat) (f : A → A) : A → A :=
  λ y, if Nat.eqb (addr y) a then f y else y.

(** How one pass of the executor changes a reservation chain: not at
    all, or the head reservation is unlinked and its job is DONE. *)
Definition ar_popped (H : AR.job → AR.job) (r r' : AR.resource) : Prop :=
  (AR.r_addr r' = AR.r_addr r ∧ AR.r_total_time r' = AR.r_total_time r ∧
   (AR.r_used_time r' = AR.r_used_time r ∨
    AR.r_used_time r' = float_incr (AR.r_used_time r))) ∧
  (AR.r_rsv r' = AR.r_rsv r ∨
   ∃ a, AR.r_rsv r = a :: AR.r_rsv r' ∧ ∀ x, AR.j_addr x = a → AR.j_state (H x) = AR.DONE).

(** Mixed: every LEAVING resource of [rs] is the [run_on] of a DONE job
    of [js]. *)
Definition mixed_leaving_done (js : list Mixed.job) (rs : list Mixed.resource) : Prop :=
  ∀ r, r ∈ rs → Mixed.r_state r = Mixed.LEAVING →
    ∃ j, j ∈ js ∧ Mixed.j_state j = Mixed.DONE ∧ Mixed.j_run_on j = Some (Mixed.r_addr r).

(** Mixed: what the executor's loop has done so far to the resource that
    was [r0] when the loop started, [js] being the jobs still to visit:
    [used_time] is as it was, or has been incremented once and no job
    still to visit runs on the resource. *)
Definition mixed_touch (js : list Mixed.job) (r0 r : Mixed.resource) : Prop :=
  Mixed.r_addr r = Mixed.r_addr r0 ∧ Mixed.r_total_time r = Mixed.r_total_time r0 ∧
  (Mixed.r_used_time r = Mixed.r_used_time r0 ∨
   (Mixed.r_used_time r = float_incr (Mixed.r_used_time r0) ∧
    Some (Mixed.r_addr r) ∉ mixed_claims js)).

(** ** The utilisation counters from one step to the next *)

(** The trace step: [total_time++], [used_time] untouched. *)
Definition mixed_traced (r r' : Mixed.resource) : Prop :=
  Mixed.r_total_time r' = float_incr (Mixed.r_total_time r) ∧
  Mixed.r_used_time r' = Mixed.r_used_time r.
Definition ar_traced (r r' : AR.resource) : Prop :=
  AR.r_total_time r' = float_incr (AR.r_total_time r) ∧
  AR.r_used_time r' = AR.r_used_time r.

(** The executor: [total_time] untouched, [used_time++] at most once. *)
Definition mixed_executed (r r' : Mixed.resource) : Prop :=
  Mixed.r_total_time r' = Mixed.r_total_time r ∧
  (Mixed.r_used_time r' = Mixed.r_used_time r ∨
   Mixed.r_used_time r' = float_incr (Mixed.r_used_time r)).
Definition ar_executed (r r' : AR.resource) : Prop :=
  AR.r_total_time r' = AR.r_total_time r ∧
  (AR.r_used_time r' = AR.r_used_time r ∨
   AR.r_used_time r' = float_incr (AR.r_used_time r)).

(** ** A run to test against: [random()] always returns 999 and
    [malloc()] always succeeds, so every resource has level 5 and every
    tick adds a job of workload 99. *)
Definition demo_random : nat → N := λ _, 999%N.
Definition demo_malloc : nat → bool := λ _, true.

(** ** The AR simulator: reservation chains over time *)

(** The job that was at address [a] is DONE or has been freed. *)
Definition ar_gone (a : nat) (s : AR.sim) : Prop :=
  ∀ j, AR.job_at a s = Some j → AR.j_state j = AR.DONE.

(** [s'] comes after [s]: a job that is gone stays gone, and the chain
    of every resource of [s'] that existed in [s] is what is left of its
    chain in [s] after unlinking [k] reservations at the head, whose jobs
    are gone, followed by the reservations [new] linked at the tail. *)
Definition ar_fifo (s s' : AR.sim) : Prop :=
  (AR.heap_next s ≤ AR.heap_next s')%nat ∧
  (∀ a, (a < AR.heap_next s)%nat → ar_gone a s → ar_gone a s') ∧
  ∀ r', r' ∈ AR.first_res s' → (AR.r_addr r' < AR.heap_next s)%nat →
    ∃ r, r ∈ AR.first_res s ∧ AR.r_addr r = AR.r_addr r' ∧
      ∃ k new, AR.r_rsv r' = drop k (AR.r_rsv r) ++ new ∧
               ∀ a, a ∈ take k (AR.r_rsv r) → ar_gone a s'.

(** The states of that run of the AR simulator after 12 and after 40
    ticks. *)
Definition ar_demo_12 : AR.sim :=
  Eval vm_compute in
    match AR.run 12 (AR.init demo_random demo_malloc) with
    | Running s => s
    | _ => AR.init demo_random demo_malloc
    end.
Definition ar_demo_40 : AR.sim :=
  Eval vm_compute in
    match AR.run 28 ar_demo_12 with
    | Running s => s
    | _ => AR.init demo_random demo_malloc
    end.

(** The first resource of the pool in these two states. *)
Definition ar_demo_12_first : AR.resource :=
  Eval vm_compute in
    match AR.first_res ar_demo_12 with
    | r :: _ => r
    | [] => AR.mkResource 0 0 AR.AVAILABLE 0 0 0 0 []
    end.
Definition ar_demo_40_first : AR.resource :=
  Eval vm_compute in
    match AR.first_res ar_demo_40 with
    | r :: _ => r
    | [] => AR.mkResource 0 0 AR.AVAILABLE 0 0 0 0 []
    end.

(** A run of the mixed simulator in which the last resource of the pool
    leaves: [malloc] fails for three of the five initial resources, two
    jobs of workload 50 are created and bound, the second resource
    draws LEAVING when its job completes, and the draw of the next tick
    asks for a new resource. *)
Definition tail_leaves_random : nat → N :=
  λ k, nth k ([4; 4; 999; 0; 0; 999; 0; 0] ++ replicate 12 500 ++ [0; 0])%N 500%N.
Definition tail_leaves_malloc : nat → bool :=
  λ k, negb (Nat.leb 2 k && Nat.leb k 4).

(** * Definitions for the further properties *)

(** ** What [add_res] and [add_job] build *)

(** The node [add_res] fills in when [malloc] succeeds, and the state it
    leaves when the node is linked behind the last node of the pool (or
    is the first node of an empty pool). *)
Definition mixed_new_res (s : Mixed.sim) : Mixed.resource :=
  Mixed.mkResource (Mixed.heap_next s) (Mixed.resource_number s + 1) Mixed.AVAILABLE
    (1 + Z.rem (Z.of_N (Mixed.random_src s (Mixed.random_pos s))) 5) 0 0.

Definition mixed_with_new_res (s : Mixed.sim) : Mixed.sim :=
  Mixed.mkSim (Mixed.first_res s ++ [mixed_new_res s]) (Some (Mixed.heap_next s))
    (Mixed.first_job s) (Mixed.last_job s) (Mixed.resource_number s + 1) (Mixed.job_number s)
    (Mixed.resources_gone s) (Mixed.jobs_done s) (Mixed.begin s) (Mixed.records s)
    (S (Mixed.heap_next s)) (Mixed.random_src s) (S (Mixed.random_pos s))
    (Mixed.malloc_src s) (S (Mixed.malloc_pos s)).

Definition mixed_new_job (s : Mixed.sim) : Mixed.job :=
  Mixed.mkJob (Mixed.heap_next s) (Mixed.job_number s + 1) Mixed.WAITING
    (50 + Z.rem (Z.of_N (Mixed.random_src s (Mixed.random_pos s))) 950)
    (Z.rem (Z.of_N (Mixed.random_src s (S (Mixed.random_pos s)))) 30) 0 None.

Definition mixed_with_new_job (s : Mixed.sim) : Mixed.sim :=
  Mixed.mkSim (Mixed.first_res s) (Mixed.last_res s)
    (Mixed.first_job s ++ [mixed_new_job s]) (Some (Mixed.heap_next s))
    (Mixed.resource_number s) (Mixed.job_number s + 1)
    (Mixed.resources_gone s) (Mixed.jobs_done s) (Mixed.begin s) (Mixed.records s)
    (S (Mixed.heap_next s)) (Mixed.random_src s) (S (S (Mixed.random_pos s)))
    (Mixed.malloc_src s) (S (Mixed.malloc_pos s)).

Definition ar_new_res (s : AR.sim) : AR.resource :=
  AR.mkResource (AR.heap_next s) (AR.resource_number s + 1) AR.AVAILABLE
    (1 + Z.rem (Z.of_N (AR.random_src s (AR.random_pos s))) 5) 0 0 0 [].

Definition ar_with_new_res (s : AR.sim) : AR.sim :=
  AR.mkSim (AR.first_res s ++ [ar_new_res s]) (Some (AR.heap_next s))
    (AR.first_job s) (AR.last_job s) (AR.resource_number s + 1) (AR.job_number s)
    (AR.resources_gone s) (AR.jobs_done s) (AR.begin s) (AR.records s)
    (S (AR.heap_next s)) (AR.random_src s) (S (AR.random_pos s))
    (AR.malloc_src s) (S (AR.malloc_pos s)).

Definition ar_new_job (s : AR.sim) : AR.job :=
  AR.mkJob (AR.heap_next s) (AR.job_number s + 1) AR.WAITING
    (50 + Z.rem (Z.of_N (AR.random_src s (AR.random_pos s))) 950)
    (Z.rem (Z.of_N (AR.random_src s (S (AR.random_pos s)))) 30) 0 None.

Definition ar_with_new_job (s : AR.sim) : AR.sim :=
  AR.mkSim (AR.first_res s) (AR.last_res s)
    (AR.first_job s ++ [ar_new_job s]) (Some (AR.heap_next s))
    (AR.resource_number s) (AR.job_number s + 1)
    (AR.resources_gone s) (AR.jobs_done s) (AR.begin s) (AR.records s)
    (S (AR.heap_next s)) (AR.random_src s) (S (S (AR.random_pos s)))
    (AR.malloc_src s) (S (AR.malloc_pos s)).

(** The tail pointer [la] of the pool [l] is in order: it points to the
    last node, if there is one. *)
Definition tail_live {A} (addr : A → nat) (la : option nat) (l : list A) : Prop :=
  ∀ t, last l = Some t → la = Some (addr t).

(** ** Test states: the last node of each pool is about to be removed *)

(** Mixed: the second of two resources is LEAVING and the second of two
    jobs, which ran on it, is DONE. *)
Definition mixed_tail_leaving : Mixed.sim :=
  Mixed.mkSim
    [ Mixed.mkResource 1 1 Mixed.AVAILABLE 5 40 30;
      Mixed.mkResource 2 2 Mixed.LEAVING 5 40 30 ] (Some 2%nat)
    [ Mixed.mkJob 6 1 Mixed.WAITING 300 4 7 None;
      Mixed.mkJob 7 2 Mixed.DONE (-3) 0 2 (Some 2%nat) ] (Some 7%nat)
    2 2 0 0 false [] 8%nat (λ _, 30%N) 0%nat (λ _, true) 0%nat.

(** AR: the same pools; the chains are empty. *)
Definition ar_tail_leaving : AR.sim :=
  AR.mkSim
    [ AR.mkResource 1 1 AR.AVAILABLE 5 40 30 0 [];
      AR.mkResource 2 2 AR.LEAVING 5 40 30 (-3) [] ] (Some 2%nat)
    [ AR.mkJob 6 1 AR.WAITING 300 4 7 None;
      AR.mkJob 7 2 AR.DONE (-3) 0 2 None ] (Some 7%nat)
    2 2 0 0 false [] 8%nat (λ _, 30%N) 0%nat (λ _, true) 0%nat.

(** ** The globals that only [traceall] and [add_remove] write *)

Definition mixed_ledger (s : Mixed.sim)
  : option nat * option nat * Z * Z * Z * Z * bool * list (Z * Z) :=
  (Mixed.last_res s, Mixed.last_job s, Mixed.resource_number s, Mixed.job_number s,
   Mixed.resources_gone s, Mixed.jobs_done s, Mixed.begin s, Mixed.records s).

Definition ar_ledger (s : AR.sim)
  : option nat * option nat * Z * Z * Z * Z * bool * list (Z * Z) :=
  (AR.last_res s, AR.last_job s, AR.resource_number s, AR.job_number s,
   AR.resources_gone s, AR.jobs_done s, AR.begin s, AR.records s).

(** ** Mixed: the executor, job by job *)

(** What the executor never changes of a resource. *)
Definition mixed_res_kept (r r' : Mixed.resource) : Prop :=
  Mixed.r_addr r' = Mixed.r_addr r ∧ Mixed.r_code r' = Mixed.r_code r ∧
  Mixed.r_level r' = Mixed.r_level r ∧ Mixed.r_total_time r' = Mixed.r_total_time r.

(** What one pass of the executor does to the job [j], [rs] being the
    resources when the pass starts: a job whose data is being sent has
    one unit less to send and runs once nothing is left; a running job
    has the level of its resource less to do and is done once nothing is
    left; any other job is left alone. *)
Definition mixed_job_step (rs : list Mixed.resource) (j j' : Mixed.job) : Prop :=
  Mixed.j_addr j' = Mixed.j_addr j ∧ Mixed.j_code j' = Mixed.j_code j ∧
  Mixed.j_wait_time j' = Mixed.j_wait_time j ∧ Mixed.j_run_on j' = Mixed.j_run_on j ∧
  match Mixed.j_state j with
  | Mixed.SENDING_DATA =>
      Mixed.j_workload j' = Mixed.j_workload j ∧
      Mixed.j_send_data j' = Mixed.j_send_data j - 1 ∧
      Mixed.j_state j' = (if Mixed.j_send_data j' <=? 0 then Mixed.RUNNING else Mixed.SENDING_DATA)
  | Mixed.RUNNING =>
      ∃ a r, Mixed.j_run_on j = Some a ∧ deref Mixed.r_addr a rs = Some r ∧
        Mixed.j_send_data j' = Mixed.j_send_data j ∧
        Mixed.j_workload j' = Mixed.j_workload j - Mixed.r_level r ∧
        Mixed.j_state j' = (if Mixed.j_workload j' <=? 0 then Mixed.DONE else Mixed.RUNNING)
  | _ => j' = j
  end.

(** ** Mixed: the scheduler *)

(** "match job with resource": the job at position [b] is sent to the
    resource [r], at position [ri]. *)
Definition mixed_bind (ri b : nat) (r : Mixed.resource) (s : Mixed.sim) : Mixed.sim :=
  Mixed.set_first_res (alter (Mixed.set_r_state Mixed.RECEIVING_DATA) ri (Mixed.first_res s))
    (Mixed.set_first_job
       (alter (λ j, Mixed.set_j_state Mixed.SENDING_DATA
                      (Mixed.set_j_run_on (Some (Mixed.r_addr r)) j)) b (Mixed.first_job s))
       s).

(** The job the selection loop ends on, [j0] at position [k] being the
    first WAITING job: the last WAITING job whose score is above that of
    [j0], or [j0] when there is none. *)
Definition mixed_chosen (js : list Mixed.job) (k : nat) (j0 : Mixed.job)
    (b : nat) (jb : Mixed.job) : Prop :=
  js !! b = Some jb ∧ Mixed.j_state jb = Mixed.WAITING ∧
  ((b = k ∧ jb = j0) ∨ ((k < b)%nat ∧ Mixed.score j0 < Mixed.score jb)) ∧
  ∀ i j, (b < i)%nat → js !! i = Some j → Mixed.j_state j = Mixed.WAITING →
    Mixed.score j ≤ Mixed.score j0.

(** ** Codes, ranges and counts *)

(** The codes [l] are strictly increasing, above [lo] and at most [hi]. *)
Fixpoint codes_between (lo hi : Z) (l : list Z) : Prop :=
  match l with
  | [] => lo ≤ hi
  | c :: l' => lo < c ∧ codes_between c hi l'
  end.

(** Mixed: the values a job's fields can hold in each state. *)
Definition mixed_job_range (j : Mixed.job) : Prop :=
  0 ≤ Mixed.j_wait_time j ∧
  match Mixed.j_state j with
  | Mixed.WAITING =>
      50 ≤ Mixed.j_workload j ≤ 999 ∧ 0 ≤ Mixed.j_send_data j ≤ 29 ∧ Mixed.j_run_on j = None
  | Mixed.SENDING_DATA =>
      50 ≤ Mixed.j_workload j ≤ 999 ∧ 0 ≤ Mixed.j_send_data j ≤ 29
  | Mixed.RUNNING =>
      1 ≤ Mixed.j_workload j ≤ 999 ∧ -1 ≤ Mixed.j_send_data j ≤ 0
  | Mixed.DONE =>
      -4 ≤ Mixed.j_workload j ≤ 0 ∧ -1 ≤ Mixed.j_send_data j ≤ 0
  end.

(** Mixed: the job pool is a well-formed list, the codes of both pools
    are in order, and every field is in range. *)
Record mixed_books (s : Mixed.sim) : Prop := {
  mb_jobs : pool_ok Mixed.j_addr (Mixed.heap_next s) (Mixed.first_job s);
  mb_job_tail : tail_ok Mixed.j_addr (Mixed.last_job s) (Mixed.first_job s);
  mb_job_codes : codes_between 0 (Mixed.job_number s) (Mixed.j_code <$> Mixed.first_job s);
  mb_res_codes :
    codes_between 0 (Mixed.resource_number s) (Mixed.r_code <$> Mixed.first_res s);
  mb_levels : Forall (λ r, 1 ≤ Mixed.r_level r ≤ 5) (Mixed.first_res s);
  mb_ranges : Forall mixed_job_range (Mixed.first_job s) }.

(** Mixed: every job submitted is in the pool or has been counted as
    done, and every resource added is in the pool or has been counted as
    gone.  Between two ticks ([counted = false]) the DONE jobs and the
    LEAVING resources of the pools are still to be counted; between the
    trace step and the removal passes ([counted = true]) they have
    been. *)
Definition mixed_census (counted : bool) (s : Mixed.sim) : Prop :=
  Mixed.job_number s
  = Mixed.jobs_done s
    + Z.of_nat (length (if counted
                        then filter (λ j, Mixed.j_state j ≠ Mixed.DONE) (Mixed.first_job s)
                        else Mixed.first_job s)) ∧
  Mixed.resource_number s
  = Mixed.resources_gone s
    + Z.of_nat (length (if counted
                        then filter (λ r, Mixed.r_state r ≠ Mixed.LEAVING) (Mixed.first_res s)
                        else Mixed.first_res s)).

(** ** AR: the executor *)

(** What the executor never changes of a job and of a resource. *)
Definition ar_job_kept (j j' : AR.job) : Prop :=
  AR.j_addr j' = AR.j_addr j ∧ AR.j_code j' = AR.j_code j ∧
  AR.j_wait_time j' = AR.j_wait_time j ∧ AR.j_run_on j' = AR.j_run_on j.

Definition ar_res_kept (r r' : AR.resource) : Prop :=
  AR.r_addr r' = AR.r_addr r ∧ AR.r_code r' = AR.r_code r ∧
  AR.r_level r' = AR.r_level r ∧ AR.r_total_time r' = AR.r_total_time r.

(** What a step inside the executor leaves of the state: the job pool
    node by node, and every global but the position in [random]'s
    sequence. *)
Definition ar_exec_frame (s s' : AR.sim) : Prop :=
  Forall2 ar_job_kept (AR.first_job s) (AR.first_job s') ∧
  AR.first_res s' = AR.first_res s ∧ ar_ledger s' = ar_ledger s ∧
  AR.heap_next s' = AR.heap_next s ∧ AR.malloc_pos s' = AR.malloc_pos s.

(** ** AR: codes and counts *)

(** AR: the tail pointer of the resource pool is in order, the codes of
    both pools are in order, and every level is in range. *)
Record ar_books (s : AR.sim) : Prop := {
  ab_res_tail : tail_ok AR.r_addr (AR.last_res s) (AR.first_res s);
  ab_job_codes : codes_between 0 (AR.job_number s) (AR.j_code <$> AR.first_job s);
  ab_res_codes : codes_between 0 (AR.resource_number s) (AR.r_code <$> AR.first_res s);
  ab_levels : Forall (λ r, 1 ≤ AR.r_level r ≤ 5) (AR.first_res s) }.

(** AR: every job submitted is in the pool or has been counted as done,
    and every resource added is in the pool or has been counted as gone
    (see [mixed_census]). *)
Definition ar_census (counted : bool) (s : AR.sim) : Prop :=
  AR.job_number s
  = AR.jobs_done s
    + Z.of_nat (length (if counted
                        then filter (λ j, AR.j_state j ≠ AR.DONE) (AR.first_job s)
                        else AR.first_job s)) ∧
  AR.resource_number s
  = AR.resources_gone s
    + Z.of_nat (length (if counted
                        then filter (λ r, AR.r_state r ≠ AR.LEAVING) (AR.first_res s)
                        else AR.first_res s)).

(** ** AR: the executor as a function of the jobs of one chain *)

(** [L] are the jobs the reservations [q] point to, in chain order. *)
Definition ar_chain_at (jobs : list AR.job) (q : list nat) (L : list AR.job) : Prop :=
  Forall2 (λ a j, deref AR.j_addr a jobs = Some j) q L.

(** "run job" on a resource of level [lv] whose chain points to the jobs
    [L]: the jobs the chain points to afterwards and the job whose
    reservation has been unlinked, if any. *)
Definition ar_head_step (lv : Z) (L : list AR.job) : list AR.job * option AR.job :=
  match L with
  | [] => ([], None)
  | j :: L' =>
      match AR.j_state j with
      | AR.RUNNING =>
          let j1 := AR.set_j_workload (AR.j_workload j - lv) j in
          if AR.j_workload j - lv <? 0 then (L', Some (AR.set_j_state AR.DONE j1))
          else (j1 :: L', None)
      | AR.READY_TO_RUN => (AR.set_j_state AR.RUNNING j :: L', None)
      | _ => (L, None)
      end
  end.

(** The head of the chain is running: "run job" charges one tick. *)
Definition ar_head_runs (L : list AR.job) : bool :=
  match L with
  | j :: _ => bool_decide (AR.j_state j = AR.RUNNING)
  | [] => false
  end.

(** "send input data" on the jobs [L] of a chain. *)
Fixpoint ar_walk_step (L : list AR.job) : list AR.job :=
  match L with
  | [] => []
  | j :: L' =>
      match AR.j_state j with
      | AR.SENDING_DATA =>
          let j1 := AR.set_j_send_data (AR.j_send_data j - 1) j in
          if AR.j_send_data j - 1 <=? 0
          then AR.set_j_state AR.READY_TO_RUN j1
               :: match L' with
                  | [] => []
                  | n :: L'' => AR.set_j_state AR.SENDING_DATA n :: L''
                  end
          else j1 :: L'
      | AR.WAITING_TO_SEND_DATA => AR.set_j_state AR.SENDING_DATA j :: L'
      | _ => j :: ar_walk_step L'
      end
  end.

(** The states along a chain: jobs that are READY_TO_RUN, then at most
    one job whose data is being sent, then jobs waiting to send theirs;
    the first job of the chain may be RUNNING instead. *)
Fixpoint ar_ready_then (L : list AR.job) : Prop :=
  match L with
  | [] => True
  | j :: L' =>
      match AR.j_state j with
      | AR.READY_TO_RUN => ar_ready_then L'
      | AR.SENDING_DATA | AR.WAITING_TO_SEND_DATA =>
          Forall (λ x, AR.j_state x = AR.WAITING_TO_SEND_DATA) L'
      | _ => False
      end
  end.

Definition ar_pattern (L : list AR.job) : Prop :=
  match L with
  | [] => True
  | j :: L' => (AR.j_state j = AR.RUNNING ∧ ar_ready_then L') ∨ ar_ready_then L
  end.

(** Work left in the jobs [L]. *)
Definition ar_load (L : list AR.job) : Z := foldr (λ j acc, AR.j_workload j + acc) 0 L.

(** AR: the values a job's fields can hold in each state; [run_on] is
    never assigned after [add_job]. *)
Definition ar_job_range (j : AR.job) : Prop :=
  0 ≤ AR.j_wait_time j ∧ AR.j_run_on j = None ∧
  match AR.j_state j with
  | AR.WAITING | AR.WAITING_TO_SEND_DATA | AR.SENDING_DATA =>
      50 ≤ AR.j_workload j ≤ 999 ∧ 0 ≤ AR.j_send_data j ≤ 29
  | AR.READY_TO_RUN =>
      50 ≤ AR.j_workload j ≤ 999 ∧ -1 ≤ AR.j_send_data j ≤ 0
  | AR.RUNNING =>
      0 ≤ AR.j_workload j ≤ 999 ∧ -1 ≤ AR.j_send_data j ≤ 0
  | AR.DONE =>
      -5 ≤ AR.j_workload j ≤ -1 ∧ -1 ≤ AR.j_send_data j ≤ 0
  end.

(** A job that has been scheduled and is not finished. *)
Definition ar_in_service (j : AR.job) : Prop :=
  AR.j_state j ≠ AR.WAITING ∧ AR.j_state j ≠ AR.DONE.

(** The chain of the resource [r]: its jobs are in the order of service,
    [total_workload] does not exceed the work left in them, and a
    LEAVING resource has no reservation. *)
Definition ar_chain_ok (jobs : list AR.job) (r : AR.resource) : Prop :=
  (∃ L, ar_chain_at jobs (AR.r_rsv r) L ∧ ar_pattern L ∧ AR.r_total_workload r ≤ ar_load L) ∧
  (AR.r_state r = AR.LEAVING → AR.r_rsv r = []).

(** The pools [rs] and [jobs] together. *)
Record ar_audit (rs : list AR.resource) (jobs : list AR.job) : Prop := {
  au_chains : Forall (ar_chain_ok jobs) rs;
  au_ranges : Forall ar_job_range jobs;
  au_levels : Forall (λ r, 1 ≤ AR.r_level r ≤ 5) rs;
  au_served : ∀ j, j ∈ jobs → ar_in_service j → AR.j_addr j ∈ ar_queued rs }.

(** ** AR: one pass of the executor over a resource *)

(** The pass of the executor's loop over the resource [r], whose chain
    points to the jobs [L] of the pool [jobs]; [r'] is the resource and
    [jobs'] the pool when the executor returns.  The chain then points
    to the jobs "run job" and "send input data" make of [L];
    [total_workload] is charged one tick when the head was RUNNING; when
    the head has finished, its reservation is unlinked, its job is DONE
    in the pool and the resource may have drawn NO_ACCEPT_JOBS;
    otherwise the chain is the same and a resource in NO_ACCEPT_JOBS
    with no reservation becomes LEAVING. *)
Definition ar_res_pass (jobs jobs' : list AR.job) (r r' : AR.resource) : Prop :=
  ∃ L, ar_chain_at jobs (AR.r_rsv r) L ∧
    ar_chain_at jobs' (AR.r_rsv r') (ar_walk_step (ar_head_step (AR.r_level r) L).1) ∧
    AR.r_total_workload r'
    = AR.r_total_workload r - (if ar_head_runs L then AR.r_level r else 0) ∧
    match (ar_head_step (AR.r_level r) L).2 with
    | Some jd =>
        deref AR.j_addr (AR.j_addr jd) jobs' = Some jd ∧
        AR.r_rsv r = AR.j_addr jd :: AR.r_rsv r' ∧
        (AR.r_state r' = AR.r_state r ∨ AR.r_state r' = AR.NO_ACCEPT_JOBS)
    | None =>
        AR.r_rsv r' = AR.r_rsv r ∧
        AR.r_state r'
        = if bool_decide (AR.r_state r = AR.NO_ACCEPT_JOBS) && bool_decide (AR.r_rsv r = [])
          then AR.LEAVING else AR.r_state r
    end.

(** The state of the run [ar_demo_40] inside the next tick, when the
    executor is called. *)
Definition ar_demo_40_mid : AR.sim :=
  Eval vm_compute in
    match AR.traceall ar_demo_40 with
    | Running s1 =>
        match AR.add_remove s1 with
        | Some s2 => s2
        | None => ar_demo_40
        end
    | _ => ar_demo_40
    end.

(** ** The lines of the output file *)

(** What the trace step adds to [records] when it counts [k] DONE jobs:
    one record for each multiple of the interval [iv] the counter
    passes, newest first. *)
Fixpoint log_records (iv njobs : Z) (k : nat) (done : Z) (recs : list (Z * Z))
  : list (Z * Z) :=
  match k with
  | O => recs
  | S k' =>
      log_records iv njobs k' (done + 1)
        (if Z.rem (done + 1) iv =? 0 then (done + 1, njobs) :: recs else recs)
  end.

(** The records [recs], newest first, when [done] jobs have been counted
    and [njobs] submitted: there is one record for every multiple of
    [iv] up to [done] and no other, they are in the order of the counts,
    and each holds a number of submitted jobs that is at least its count
    of done jobs and at most [njobs]. *)
Definition records_ok (iv done njobs : Z) (recs : list (Z * Z)) : Prop :=
  (∀ d, d ∈ recs.*1 ↔ 0 < d ≤ done ∧ Z.rem d iv = 0) ∧
  (∀ i k a b, (i < k)%nat → recs !! i = Some a → recs !! k = Some b → b.1 < a.1) ∧
  (∀ a, a ∈ recs → a.1 ≤ a.2 ≤ njobs).

(** What only the trace step changes: the count of done jobs and the
    records; the number of submitted jobs never decreases. *)
Definition mixed_log_kept (s s' : Mixed.sim) : Prop :=
  Mixed.jobs_done s' = Mixed.jobs_done s ∧ Mixed.records s' = Mixed.records s ∧
  Mixed.job_number s ≤ Mixed.job_number s'.
Definition ar_log_kept (s s' : AR.sim) : Prop :=
  AR.jobs_done s' = AR.jobs_done s ∧ AR.records s' = AR.records s ∧
  AR.job_number s ≤ AR.job_number s'.

(** ** Mixed: resources that serve a job *)

(** A resource that has been bound to a job and not released. *)
Definition mixed_busy (r : Mixed.resource) : Prop :=
  Mixed.r_state r = Mixed.RECEIVING_DATA ∨ Mixed.r_state r = Mixed.USED.

(** Every busy resource of [rs] is the [run_on] of an active job of
    [js]. *)
Definition mixed_busy_claimed (js : list Mixed.job) (rs : list Mixed.resource) : Prop :=
  ∀ r, r ∈ rs → mixed_busy r →
    ∃ j, j ∈ js ∧ mixed_active j ∧ Mixed.j_run_on j = Some (Mixed.r_addr r).

(** ** The tail pointers and the newest nodes *)













(** ** The pools from one tick to the next *)

(** From [s] to [s'] nodes have only been linked at the ends of the
    pools: the resources [nr], all AVAILABLE, and the jobs [nj], all
    WAITING, with the codes handed out in between, in order. *)
Definition mixed_grown (s s' : Mixed.sim) : Prop :=
  ∃ nr nj,
    Mixed.first_res s' = Mixed.first_res s ++ nr ∧
    Mixed.first_job s' = Mixed.first_job s ++ nj ∧
    Forall (λ r, Mixed.r_state r = Mixed.AVAILABLE) nr ∧
    Forall (λ j, Mixed.j_state j = Mixed.WAITING) nj ∧
    Mixed.r_code <$> nr
    = seqZ (Mixed.resource_number s + 1) (Mixed.resource_number s' - Mixed.resource_number s) ∧
    Mixed.j_code <$> nj
    = seqZ (Mixed.job_number s + 1) (Mixed.job_number s' - Mixed.job_number s) ∧
    0 ≤ Mixed.resource_number s' - Mixed.resource_number s ∧
    0 ≤ Mixed.job_number s' - Mixed.job_number s.

(** The number of nodes created from [s] to [s']. *)
Definition mixed_created (s s' : Mixed.sim) : Z :=
  (Mixed.resource_number s' - Mixed.resource_number s)
  + (Mixed.job_number s' - Mixed.job_number s).

Definition ar_grown (s s' : AR.sim) : Prop :=
  ∃ nr nj,
    AR.first_res s' = AR.first_res s ++ nr ∧
    AR.first_job s' = AR.first_job s ++ nj ∧
    Forall (λ r, AR.r_state r = AR.AVAILABLE) nr ∧
    Forall (λ j, AR.j_state j = AR.WAITING) nj ∧
    AR.r_code <$> nr
    = seqZ (AR.resource_number s + 1) (AR.resource_number s' - AR.resource_number s) ∧
    AR.j_code <$> nj
    = seqZ (AR.job_number s + 1) (AR.job_number s' - AR.job_number s) ∧
    0 ≤ AR.resource_number s' - AR.resource_number s ∧
    0 ≤ AR.job_number s' - AR.job_number s.

Definition ar_created (s s' : AR.sim) : Z :=
  (AR.resource_number s' - AR.resource_number s)
  + (AR.job_number s' - AR.job_number s).

(** ** Mixed: the time a bound job needs *)

(** An upper bound on the number of executor passes after which the job
    [j] is DONE, once it has been bound to a resource: one pass for each
    unit of data still to send (at least one), and then at most one pass
    for each unit of work, the level of a resource being at least 1. *)
Definition mixed_left (j : Mixed.job) : Z :=
  match Mixed.j_state j with
  | Mixed.SENDING_DATA => Z.max (Mixed.j_send_data j) 1 + Mixed.j_workload j
  | Mixed.RUNNING => Mixed.j_workload j
  | _ => 0
  end.

(** The state of the run [demo_random], [demo_malloc] of the mixed
    simulator after 12 ticks. *)
Definition mixed_demo_12 : Mixed.sim :=
  Eval vm_compute in
    match Mixed.run 12 (Mixed.init demo_random demo_malloc) with
    | Running s => s
    | _ => Mixed.init demo_random demo_malloc
    end.

(** ** AR: the time a reserved job needs *)

(** An upper bound on the number of executor passes the job [j] needs
    once it is at the head of its chain: one pass to start sending, one
    for each unit of data (at least one), one to start running, and then
    one for each unit of work and one more, the job being DONE when its
    workload is below zero. *)
Definition ar_cost (j : AR.job) : Z :=
  match AR.j_state j with
  | AR.RUNNING => AR.j_workload j + 1
  | AR.READY_TO_RUN => AR.j_workload j + 2
  | AR.SENDING_DATA => Z.max (AR.j_send_data j) 1 + AR.j_workload j + 2
  | AR.WAITING_TO_SEND_DATA => Z.max (AR.j_send_data j) 1 + AR.j_workload j + 3
  | _ => 0
  end.

Definition ar_costs (L : list AR.job) : Z := foldr (λ j acc, ar_cost j + acc) 0 L.

(** [y] is the job [x] after a step that has not set it back. *)
Definition ar_nearer (x y : AR.job) : Prop :=
  AR.j_code y = AR.j_code x ∧ ar_cost y ≤ ar_cost x.

(** Every job of the pool [jobs] with the code [c] is DONE, or it is in
    the chain of a resource of [rs] and the jobs of the chain up to it
    need at most [p] passes. *)
Definition ar_within (c p : Z) (rs : list AR.resource) (jobs : list AR.job) : Prop :=
  ∀ j, j ∈ jobs → AR.j_code j = c →
    AR.j_state j = AR.DONE ∨
    ∃ r L (i : nat), r ∈ rs ∧ ar_chain_at jobs (AR.r_rsv r) L ∧ L !! i = Some j ∧
      ar_costs (take (S i) L) ≤ p.

(** The jobs of the chain of the first resource of [ar_demo_12]. *)
Definition ar_demo_12_chain : list AR.job :=
  Eval vm_compute in
    omap (λ a, deref AR.j_addr a (AR.first_job ar_demo_12)) (AR.r_rsv ar_demo_12_first).

(** * Proofs *)

(** ** Traversals *)

Lemma first_index_Some {A} (p : A → bool) (l : list A) (k : nat) :
  first_index p l = Some k →
  ∃ x, l !! k = Some x ∧ p x = true ∧
       ∀ i y, (i < k)%nat → l !! i = Some y → p y = false.
Proof.
  revert k. induction l as [|y l IH]; intros k; simpl; [done|].
  destruct (p y) eqn:Hp.
  - intros [= <-]. exists y. split_and!; [done..|]. intros; lia.
  - destruct (first_index p l) as [k'|] eqn:Hk; simpl; [|done].
    intros [= <-]. destruct (IH k' eq_refl) as (x & Hx & Hpx & Hlt).
    exists x. split_and!; [done..|].
    intros [|i] z Hi; simpl; [by intros [= <-]|]. apply Hlt. lia.
Qed.

Lemma first_index_None {A} (p : A → bool) (l : list A) :
  first_index p l = None ↔ ∀ x, x ∈ l → p x = false.
Proof.
  induction l as [|y l IH]; simpl.
  - split; [|done]. intros _ x Hx. by apply elem_of_nil in Hx.
  - destruct (p y) eqn:Hp.
    + split; [done|]. intros H. specialize (H y (list_elem_of_here _ _)). congruence.
    + destruct (first_index p l) eqn:Hk; simpl.
      * split; [done|]. intros H. exfalso.
        assert (Some n = None) as Hn; [|done].
        apply IH. intros x Hx. apply H. by right.
      * split; [|done]. intros _ x [->|Hx]%elem_of_cons; [done|]. by apply IH.
Qed.

Lemma first_index_is_Some {A} (p : A → bool) (l : list A) (x : A) :
  x ∈ l → p x = true → is_Some (first_index p l).
Proof.
  intros Hx Hp. destruct (first_index p l) eqn:H; [by eexists|].
  rewrite first_index_None in H. rewrite (H x Hx) in Hp. done.
Qed.

(** ** The completion counter *)

Ltac unfold_option :=
  repeat match goal with
  | H : _ ≫= _ = Some _ |- _ => apply bind_Some in H; destruct H as (? & ? & H)
  | H : _ <$> _ = Some _ |- _ => apply fmap_Some in H; destruct H as (? & ? & H)
  | H : Some _ = Some _ |- _ => injection H as H
  | H : (_, _) = (_, _) |- _ => injection H as ? ?
  end.

Lemma mixed_trace_jobs_done_mono n js d rc :
  d ≤ (Mixed.trace_jobs n js d rc).1.2.
Proof.
  revert d rc. induction js as [|j js IH]; intros d rc; simpl; [lia|].
  destruct (Mixed.j_state j).
  - specialize (IH d rc). destruct (Mixed.trace_jobs n js d rc) as [[? ?] ?]. done.
  - specialize (IH d rc). destruct (Mixed.trace_jobs n js d rc) as [[? ?] ?]. done.
  - match goal with |- context [Mixed.trace_jobs n js ?d' ?rc'] =>
      specialize (IH d' rc'); destruct (Mixed.trace_jobs n js d' rc') as [[? ?] ?] end.
    simpl in *. lia.
  - specialize (IH d rc). destruct (Mixed.trace_jobs n js d rc) as [[? ?] ?]. done.
Qed.

Lemma mixed_trace_body_done_mono s :
  Mixed.jobs_done s ≤ Mixed.jobs_done (Mixed.trace_body s).
Proof.
  unfold Mixed.trace_body.
  pose proof (mixed_trace_jobs_done_mono (Mixed.job_number s) (Mixed.first_job s)
                (Mixed.jobs_done s) (Mixed.records s)) as H.
  destruct (Mixed.trace_jobs _ _ _ _) as [[js d] rc].
  destruct (Mixed.trace_res _ _) as [rs g]. done.
Qed.

Lemma mixed_add_res_done s s' :
  Mixed.add_res s = Some s' → Mixed.jobs_done s' = Mixed.jobs_done s.
Proof.
  unfold Mixed.add_res. simpl.
  destruct (Mixed.malloc_src s (Mixed.malloc_pos s)); simpl; [|by intros [= <-]].
  destruct (Mixed.first_res s); simpl; [by intros [= <-]|].
  intros H. unfold_option. by subst.
Qed.

Lemma mixed_add_job_done s s' :
  Mixed.add_job s = Some s' → Mixed.jobs_done s' = Mixed.jobs_done s.
Proof.
  unfold Mixed.add_job. simpl.
  destruct (Mixed.malloc_src s (Mixed.malloc_pos s)); simpl; [|by intros [= <-]].
  destruct (Mixed.first_job s); simpl; [by intros [= <-]|].
  intros H. unfold_option. by subst.
Qed.

Lemma mixed_repeat_add_res_done n s s' :
  Mixed.repeat_add_res n s = Some s' → Mixed.jobs_done s' = Mixed.jobs_done s.
Proof.
  revert s. induction n as [|n IH]; intros s; simpl; [by intros [= <-]|].
  intros H. unfold_option. erewrite IH by done. by eapply mixed_add_res_done.
Qed.

Lemma mixed_add_remove_done s s' :
  Mixed.add_remove s = Some s' → Mixed.jobs_done s' = Mixed.jobs_done s.
Proof.
  unfold Mixed.add_remove. intros H. apply bind_Some in H as (s1 & H1 & H).
  assert (Mixed.jobs_done s1 = Mixed.jobs_done s) as <-.
  { destruct (Mixed.begin s); [|by injection H1 as <-].
    unfold_option. subst. simpl. by eapply mixed_repeat_add_res_done. }
  simpl in H. unfold Mixed.add_on_draw in H.
  destruct (Mixed.admission_of_draw _).
  - by apply mixed_add_res_done in H.
  - by apply mixed_add_job_done in H.
  - by injection H as <-.
Qed.

Lemma mixed_run_send_job_done j s j' s' :
  Mixed.run_send_job j s = Some (j', s') → Mixed.jobs_done s' = Mixed.jobs_done s.
Proof.
  unfold Mixed.run_send_job. intros H.
  repeat (case_match; simplify_eq/=); try done;
    unfold_option; repeat (case_match; simplify_eq/=); done.
Qed.

Lemma mixed_run_send_loop_done js s js' s' :
  Mixed.run_send_loop js s = Some (js', s') → Mixed.jobs_done s' = Mixed.jobs_done s.
Proof.
  revert s js'. induction js as [|j js IH]; intros s js'; simpl; [by intros [= <- <-]|].
  intros H. apply bind_Some in H as ([j1 s1] & H1 & H).
  apply bind_Some in H as ([js2 s2] & H2 & H). simplify_eq.
  erewrite IH by done. by eapply mixed_run_send_job_done.
Qed.

Lemma mixed_run_send_done s s' :
  Mixed.run_send s = Some s' → Mixed.jobs_done s' = Mixed.jobs_done s.
Proof.
  unfold Mixed.run_send. intros H. apply bind_Some in H as ([js s1] & H1 & H).
  simplify_eq. simpl. by eapply mixed_run_send_loop_done.
Qed.

Lemma mixed_schedule_done s : Mixed.jobs_done (Mixed.schedule s) = Mixed.jobs_done s.
Proof. unfold Mixed.schedule. by repeat case_match. Qed.

(** Once the counter is above [MAX_JOBS] the mixed simulator's test
    [jobs_done == MAX_JOBS] fails on every later tick. *)
Lemma mixed_never_exits_above_max n s :
  Mixed.MAX_JOBS < Mixed.jobs_done s → ∀ s', Mixed.run n s ≠ Exited s'.
Proof.
  revert s. induction n as [|n IH]; intros s Hs s'; simpl; [done|].
  unfold Mixed.tick, Mixed.traceall.
  pose proof (mixed_trace_body_done_mono s) as Hm.
  destruct (Z.eqb_spec (Mixed.jobs_done (Mixed.trace_body s)) Mixed.MAX_JOBS) as [He|He]; [lia|].
  destruct (Mixed.add_remove _) as [s2|] eqn:H2; [|done].
  destruct (Mixed.run_send s2) as [s3|] eqn:H3; [|done].
  apply IH. rewrite mixed_schedule_done.
  apply mixed_run_send_done in H3. apply mixed_add_remove_done in H2. lia.
Qed.

(** ** The trace step as a map over the pools *)

Lemma mixed_trace_jobs_map n js d rc :
  (Mixed.trace_jobs n js d rc).1.1
  = List.map (λ j, if mixed_waits j
                   then Mixed.set_j_wait_time (Mixed.j_wait_time j + 1) j else j) js.
Proof.
  revert d rc. induction js as [|j js IH]; intros d rc; simpl; [done|].
  unfold mixed_waits at 1.
  destruct (Mixed.j_state j);
    match goal with |- context [Mixed.trace_jobs n js ?d' ?rc'] =>
      specialize (IH d' rc'); destruct (Mixed.trace_jobs n js d' rc') as [[? ?] ?] end;
    simpl in *; by rewrite IH.
Qed.

Lemma mixed_trace_res_map rs g :
  (Mixed.trace_res rs g).1
  = List.map (λ r, Mixed.set_r_total_time (float_incr (Mixed.r_total_time r)) r) rs.
Proof.
  revert g. induction rs as [|r rs IH]; intros g; simpl; [done|].
  match goal with |- context [Mixed.trace_res rs ?g'] =>
    specialize (IH g'); destruct (Mixed.trace_res rs g') as [? ?] end.
  simpl in *. by rewrite IH.
Qed.

Lemma mixed_trace_body_jobs s :
  Mixed.first_job (Mixed.trace_body s)
  = List.map (λ j, if mixed_waits j
                   then Mixed.set_j_wait_time (Mixed.j_wait_time j + 1) j else j)
      (Mixed.first_job s).
Proof.
  unfold Mixed.trace_body.
  pose proof (mixed_trace_jobs_map (Mixed.job_number s) (Mixed.first_job s)
                (Mixed.jobs_done s) (Mixed.records s)) as H.
  destruct (Mixed.trace_jobs _ _ _ _) as [[js d] rc].
  destruct (Mixed.trace_res _ _) as [rs g]. done.
Qed.

Lemma mixed_trace_body_res s :
  Mixed.first_res (Mixed.trace_body s)
  = List.map (λ r, Mixed.set_r_total_time (float_incr (Mixed.r_total_time r)) r)
      (Mixed.first_res s).
Proof.
  unfold Mixed.trace_body.
  pose proof (mixed_trace_res_map (Mixed.first_res s) (Mixed.resources_gone s)) as H.
  destruct (Mixed.trace_jobs _ _ _ _) as [[js d] rc].
  destruct (Mixed.trace_res _ _) as [rs g]. done.
Qed.

Lemma ar_trace_jobs_map n js d rc :
  (AR.trace_jobs n js d rc).1.1
  = List.map (λ j, if ar_waits j
                   then AR.set_j_wait_time (AR.j_wait_time j + 1) j else j) js.
Proof.
  revert d rc. induction js as [|j js IH]; intros d rc; simpl; [done|].
  unfold ar_waits at 1.
  destruct (AR.j_state j);
    match goal with |- context [AR.trace_jobs n js ?d' ?rc'] =>
      specialize (IH d' rc'); destruct (AR.trace_jobs n js d' rc') as [[? ?] ?] end;
    simpl in *; by rewrite IH.
Qed.

Lemma ar_trace_res_map rs g :
  (AR.trace_res rs g).1
  = List.map (λ r, AR.set_r_total_time (float_incr (AR.r_total_time r)) r) rs.
Proof.
  revert g. induction rs as [|r rs IH]; intros g; simpl; [done|].
  match goal with |- context [AR.trace_res rs ?g'] =>
    specialize (IH g'); destruct (AR.trace_res rs g') as [? ?] end.
  simpl in *. by rewrite IH.
Qed.

Lemma ar_trace_body_jobs s :
  AR.first_job (AR.trace_body s)
  = List.map (λ j, if ar_waits j
                   then AR.set_j_wait_time (AR.j_wait_time j + 1) j else j)
      (AR.first_job s).
Proof.
  unfold AR.trace_body.
  pose proof (ar_trace_jobs_map (AR.job_number s) (AR.first_job s)
                (AR.jobs_done s) (AR.records s)) as H.
  destruct (AR.trace_jobs _ _ _ _) as [[js d] rc].
  destruct (AR.trace_res _ _) as [rs g]. done.
Qed.

Lemma ar_trace_body_res s :
  AR.first_res (AR.trace_body s)
  = List.map (λ r, AR.set_r_total_time (float_incr (AR.r_total_time r)) r)
      (AR.first_res s).
Proof.
  unfold AR.trace_body.
  pose proof (ar_trace_res_map (AR.first_res s) (AR.resources_gone s)) as H.
  destruct (AR.trace_jobs _ _ _ _) as [[js d] rc].
  destruct (AR.trace_res _ _) as [rs g]. done.
Qed.

(** ** Pools: addresses, stores through an address, the tail pointer *)

Section pools.
Context {A : Type} (addr : A → nat).
Implicit Types (l : list A) (x y : A) (a b : nat) (f g : A → A).

Lemma deref_Some a l x : deref addr a l = Some x → x ∈ l ∧ addr x = a.
Proof.
  unfold deref. intros H. apply find_some in H as [Hin Heq].
  split; [by apply list_elem_of_In|]. by apply Nat.eqb_eq.
Qed.

Lemma deref_None a l x : deref addr a l = None → x ∈ l → addr x ≠ a.
Proof.
  unfold deref. intros H Hin Heq.
  apply list_elem_of_In in Hin. pose proof (find_none _ _ H x Hin) as Hn.
  simpl in Hn. apply Nat.eqb_neq in Hn. done.
Qed.

Lemma deref_cons a x l :
  deref addr a (x :: l) = if Nat.eqb (addr x) a then Some x else deref addr a l.
Proof. done. Qed.

Lemma deref_NoDup l x : NoDup (addr <$> l) → x ∈ l → deref addr (addr x) l = Some x.
Proof.
  induction l as [|y l IH]; intros Hnd Hin; [by apply elem_of_nil in Hin|].
  rewrite fmap_cons in Hnd. apply NoDup_cons in Hnd as [Hy Hnd].
  rewrite deref_cons. destruct (Nat.eqb_spec (addr y) (addr x)) as [Heq|Hne].
  - apply elem_of_cons in Hin as [->|Hin]; [done|].
    exfalso. apply Hy. rewrite Heq. by apply list_elem_of_fmap_2.
  - apply elem_of_cons in Hin as [->|Hin]; [done|]. by apply IH.
Qed.

Lemma deref_is_Some a l x : x ∈ l → addr x = a → is_Some (deref addr a l).
Proof.
  intros Hin Heq. destruct (deref addr a l) eqn:H; [by eexists|].
  by destruct (deref_None _ _ _ H Hin).
Qed.

Lemma deref_app_l a l l' x : deref addr a l = Some x → deref addr a (l ++ l') = Some x.
Proof.
  induction l as [|y l IH]; [done|]. rewrite <- app_comm_cons, !deref_cons.
  destruct (Nat.eqb (addr y) a); [done|]. apply IH.
Qed.

Lemma deref_fmap g a l :
  (∀ x, addr (g x) = addr x) → deref addr a (g <$> l) = g <$> deref addr a l.
Proof.
  intros Hg. induction l as [|y l IH]; [done|].
  rewrite fmap_cons, !deref_cons, Hg. by destruct (Nat.eqb (addr y) a).
Qed.

Lemma deref_store_at f a b l :
  (∀ x, addr (f x) = addr x) →
  deref addr b (store_at addr a f l)
  = if Nat.eqb b a then f <$> deref addr b l else deref addr b l.
Proof.
  intros Hf. unfold store_at. rewrite deref_fmap.
  - destruct (deref addr b l) as [x|] eqn:Hx; simpl; [|by destruct (Nat.eqb b a)].
    apply deref_Some in Hx as [_ <-]. by destruct (Nat.eqb (addr x) a).
  - intros x. by destruct (Nat.eqb (addr x) a).
Qed.

Lemma store_at_addr f a l :
  (∀ x, addr (f x) = addr x) → addr <$> store_at addr a f l = addr <$> l.
Proof.
  intros Hf. unfold store_at. rewrite <- list_fmap_compose.
  apply list_fmap_ext. intros i x _. simpl. by destruct (Nat.eqb (addr x) a).
Qed.

Lemma elem_of_store_at f a l y :
  y ∈ store_at addr a f l ↔ ∃ x, x ∈ l ∧ y = if Nat.eqb (addr x) a then f x else x.
Proof.
  unfold store_at. rewrite list_elem_of_fmap.
  split; intros (x & H1 & H2); exists x; done.
Qed.

Lemma store_at_length f a l : length (store_at addr a f l) = length l.
Proof. unfold store_at. by rewrite length_fmap. Qed.

Lemma NoDup_addr_filter (P : A → Prop) `{∀ x, Decision (P x)} l :
  NoDup (addr <$> l) → NoDup (addr <$> filter P l).
Proof.
  intros Hnd. eapply sublist_NoDup; [done|].
  apply fmap_sublist, sublist_filter.
Qed.

Lemma deref_filter (P : A → Prop) `{∀ x, Decision (P x)} a l x :
  NoDup (addr <$> l) → deref addr a l = Some x → P x →
  deref addr a (filter P l) = Some x.
Proof.
  intros Hnd Hx HP. apply deref_Some in Hx as [Hin <-].
  apply deref_NoDup; [by apply NoDup_addr_filter|].
  by apply list_elem_of_filter.
Qed.

Lemma deref_filter_Some (P : A → Prop) `{∀ x, Decision (P x)} a l x :
  NoDup (addr <$> l) → deref addr a (filter P l) = Some x → deref addr a l = Some x.
Proof.
  intros Hnd Hx. apply deref_Some in Hx as [Hin <-].
  apply list_elem_of_filter in Hin as [_ Hin]. by apply deref_NoDup.
Qed.

Lemma alter_None f l i : l !! i = None → alter f i l = l.
Proof.
  revert i. induction l as [|y l IH]; intros [|i]; simpl; try done.
  intros H. f_equal. by apply IH.
Qed.

Lemma alter_store_at f l i x :
  NoDup (addr <$> l) → l !! i = Some x → alter f i l = store_at addr (addr x) f l.
Proof.
  revert i. induction l as [|y l IH]; intros [|i] Hnd Hi; simpl in *; try done.
  - injection Hi as ->. rewrite Nat.eqb_refl. f_equal.
    apply NoDup_cons in Hnd as [Hx _].
    unfold store_at. symmetry. etransitivity; [|apply list_fmap_id].
    apply list_fmap_ext. intros k z Hz. simpl.
    destruct (Nat.eqb_spec (addr z) (addr x)) as [Heq|]; [|done].
    exfalso. apply Hx. rewrite <- Heq. apply list_elem_of_fmap_2.
    by eapply list_elem_of_lookup_2.
  - apply NoDup_cons in Hnd as [Hy Hnd].
    destruct (Nat.eqb_spec (addr y) (addr x)) as [Heq|].
    + exfalso. apply Hy. rewrite Heq. apply list_elem_of_fmap_2.
      by eapply list_elem_of_lookup_2.
    + f_equal. by apply IH.
Qed.

(** *** The tail pointer *)

Lemma link_after_cut a x l l' :
  link_after addr a x l = Some l' → ∃ k, l' = take k l ++ [x].
Proof.
  revert l'. induction l as [|y l IH]; intros l'; simpl; [done|].
  destruct (Nat.eqb (addr y) a).
  - intros [= <-]. by exists 1%nat.
  - intros H. apply fmap_Some in H as (l1 & H1 & ->).
    destruct (IH _ H1) as [k ->]. by exists (S k).
Qed.

Lemma link_after_append la a x l l' :
  NoDup (addr <$> l) → tail_ok addr la l → la = Some a →
  link_after addr a x l = Some l' → l' = l ++ [x].
Proof.
  intros Hnd Htl ->. revert l' Hnd Htl.
  induction l as [|y l IH]; intros l' Hnd Htl; simpl; [done|].
  rewrite fmap_cons in Hnd. apply NoDup_cons in Hnd as [Hy Hnd].
  destruct (Nat.eqb_spec (addr y) a) as [Heq|Hne].
  - intros [= <-].
    pose proof (Htl a y eq_refl (list_elem_of_here _ _) Heq) as Hl.
    destruct l as [|z l]; [done|]. exfalso.
    rewrite last_cons_cons in Hl. apply last_Some_elem_of in Hl.
    apply Hy. by apply list_elem_of_fmap_2.
  - intros H. apply fmap_Some in H as (l1 & H1 & ->). simpl. f_equal.
    apply IH; [done| |done].
    intros a' z [= <-] Hz Hza.
    pose proof (Htl a z eq_refl (list_elem_of_further _ _ _ Hz) Hza) as Hl.
    destruct l as [|w l]; [by apply elem_of_nil in Hz|].
    by rewrite last_cons_cons in Hl.
Qed.

Lemma tail_ok_fmap g la l :
  (∀ x, addr (g x) = addr x) → NoDup (addr <$> l) →
  tail_ok addr la l → tail_ok addr la (g <$> l).
Proof.
  intros Hg Hnd Htl a y Hla Hy Hya.
  apply list_elem_of_fmap in Hy as (x & -> & Hx).
  rewrite fmap_last, (Htl a x Hla Hx); [done|]. by rewrite <- Hg.
Qed.

Lemma tail_ok_store_at f b la l :
  (∀ x, addr (f x) = addr x) → NoDup (addr <$> l) →
  tail_ok addr la l → tail_ok addr la (store_at addr b f l).
Proof.
  intros Hf. apply tail_ok_fmap. intros x. by destruct (Nat.eqb (addr x) b).
Qed.

Lemma tail_ok_filter (P : A → Prop) `{∀ x, Decision (P x)} la l :
  tail_ok addr la l → tail_ok addr la (filter P l).
Proof.
  intros Htl a x Hla Hx Hxa.
  apply list_elem_of_filter in Hx as [HP Hx].
  pose proof (Htl a x Hla Hx Hxa) as Hl.
  apply last_Some in Hl as [l0 ->].
  rewrite filter_app, filter_cons_True, filter_nil by done.
  apply last_snoc.
Qed.

Lemma tail_ok_snoc l x :
  addr x ∉ addr <$> l → tail_ok addr (Some (addr x)) (l ++ [x]).
Proof.
  intros Hx a y [= <-] Hy Hya. rewrite last_snoc. f_equal.
  apply elem_of_app in Hy as [Hy|Hy%list_elem_of_singleton]; [|done].
  exfalso. apply Hx. rewrite <- Hya. by apply list_elem_of_fmap_2.
Qed.

Lemma tail_ok_alter f i la l :
  (∀ x, addr (f x) = addr x) → NoDup (addr <$> l) →
  tail_ok addr la l → tail_ok addr la (alter f i l).
Proof.
  intros Hf Hnd Htl. destruct (l !! i) as [x|] eqn:Hi.
  - erewrite alter_store_at by done. by apply tail_ok_store_at.
  - by rewrite alter_None.
Qed.

(** *** Distinct, allocated addresses *)

Lemma pool_ok_fmap g n l :
  (∀ x, addr (g x) = addr x) → pool_ok addr n l → pool_ok addr n (g <$> l).
Proof.
  intros Hg [Hnd Hfr]. split.
  - rewrite <- list_fmap_compose.
    erewrite list_fmap_ext; [exact Hnd|]. intros i x _. apply Hg.
  - apply Forall_fmap. eapply Forall_impl; [done|]. intros x Hx. simpl. by rewrite Hg.
Qed.

Lemma pool_ok_store_at f b n l :
  (∀ x, addr (f x) = addr x) → pool_ok addr n l → pool_ok addr n (store_at addr b f l).
Proof. intros Hf. apply pool_ok_fmap. intros x. by destruct (Nat.eqb (addr x) b). Qed.

Lemma pool_ok_alter f i n l :
  (∀ x, addr (f x) = addr x) → pool_ok addr n l → pool_ok addr n (alter f i l).
Proof.
  intros Hf Hok. destruct (l !! i) as [x|] eqn:Hi.
  - erewrite alter_store_at; [by apply pool_ok_store_at|apply Hok|done].
  - by rewrite alter_None.
Qed.

Lemma pool_ok_filter (P : A → Prop) `{∀ x, Decision (P x)} n l :
  pool_ok addr n l → pool_ok addr n (filter P l).
Proof.
  intros [Hnd Hfr]. split; [by apply NoDup_addr_filter|].
  apply Forall_forall. intros x [_ Hx]%list_elem_of_filter.
  by eapply Forall_forall in Hfr.
Qed.

Lemma pool_ok_take k n l : pool_ok addr n l → pool_ok addr n (take k l).
Proof.
  intros [Hnd Hfr]. split.
  - eapply sublist_NoDup; [done|]. apply fmap_sublist, sublist_take.
  - by apply Forall_take.
Qed.

Lemma pool_ok_mono n m l : (n ≤ m)%nat → pool_ok addr n l → pool_ok addr m l.
Proof.
  intros Hle [Hnd Hfr]. split; [done|].
  eapply Forall_impl; [done|]. intros x Hx. simpl in *. lia.
Qed.

Lemma pool_ok_fresh n l x : pool_ok addr n l → addr x = n → addr x ∉ addr <$> l.
Proof.
  intros [_ Hfr] Hx Hin. apply list_elem_of_fmap in Hin as (y & Hy & Hin).
  eapply Forall_forall in Hfr; [|done]. simpl in Hfr. lia.
Qed.

Lemma pool_ok_snoc n l x :
  pool_ok addr n l → addr x = n → pool_ok addr (S n) (l ++ [x]).
Proof.
  intros Hok Hx. pose proof (pool_ok_fresh _ _ _ Hok Hx) as Hfresh.
  destruct Hok as [Hnd Hfr]. split.
  - rewrite fmap_app. apply NoDup_app. split_and!; [done| |apply NoDup_singleton].
    intros a Ha Hax. apply list_elem_of_singleton in Hax as ->. done.
  - apply Forall_app. split.
    + eapply Forall_impl; [done|]. intros y Hy. simpl in *. lia.
    + apply Forall_singleton. lia.
Qed.
End pools.

(** ** AR scheduler: the least loaded accepting resource *)

Lemma alter_as_insert {A} (f : A → A) (l : list A) (i : nat) (x : A) :
  l !! i = Some x → alter f i l = <[i := f x]> l.
Proof.
  revert i. induction l as [|y l IH]; intros [|i]; simpl; try done.
  - by intros [= ->].
  - intros H. f_equal. by apply IH.
Qed.

Lemma ar_accepts_spec (r : AR.resource) :
  AR.accepts r = true ↔ AR.r_state r ≠ AR.NO_ACCEPT_JOBS.
Proof.
  unfold AR.accepts. rewrite negb_true_iff, bool_decide_eq_false. done.
Qed.

Lemma select_best_res_spec (rs rest : list AR.resource) (pos : nat) (best : nat * AR.resource) :
  rest = drop pos rs →
  best_so_far rs pos best →
  best_so_far rs (length rs) (AR.select_best_res rest pos best).
Proof.
  revert pos best. induction rest as [|r rest IH]; intros pos best Hrest Hinv; simpl.
  - destruct Hinv as (Hb & Hacc & Hle & Hmin). symmetry in Hrest.
    apply drop_nil_inv in Hrest. pose proof (lookup_lt_Some _ _ _ Hb) as Hlen.
    split_and!; [done..|lia|].
    intros i r' Hi Hr' Hacc'.
    destruct (decide (i < pos)%nat) as [Hlt|Hge]; [by eapply Hmin|].
    apply lookup_lt_Some in Hr'. lia.
  - assert (rs !! pos = Some r) as Hpos.
    { rewrite <- (Nat.add_0_r pos), <- lookup_drop, <- Hrest. done. }
    assert (rest = drop (S pos) rs) as Hrest'.
    { erewrite drop_S in Hrest by done. by injection Hrest. }
    apply IH; [done|].
    destruct Hinv as (Hb & Hacc & Hle & Hmin).
    destruct (AR.accepts r && (AR.r_total_workload r <? AR.r_total_workload best.2)) eqn:Hc.
    + apply andb_true_iff in Hc as [Ha Hlt]. apply ar_accepts_spec in Ha.
      apply Z.ltb_lt in Hlt. unfold best_so_far. simpl. split_and!; [done..|lia|].
      intros i r' Hi Hr' Hacc'.
      destruct (decide (i = pos)) as [->|Hne].
      * rewrite Hpos in Hr'. injection Hr' as <-. right. split; lia.
      * destruct (Hmin i r') as [?|[? ?]]; [lia|done..| |]; left; lia.
    + split_and!; [done..|lia|].
      intros i r' Hi Hr' Hacc'.
      destruct (decide (i = pos)) as [->|Hne].
      * rewrite Hpos in Hr'. injection Hr' as <-.
        apply andb_false_iff in Hc as [Ha|Hlt].
        -- apply ar_accepts_spec in Hacc'. congruence.
        -- apply Z.ltb_ge in Hlt. destruct (decide (AR.r_total_workload best.2 = AR.r_total_workload r)).
           ++ right. split; [done|lia].
           ++ left. lia.
      * apply Hmin; [lia|done..].
Qed.

Lemma select_best_res_least_loaded (rs : list AR.resource) (i0 : nat) (r0 : AR.resource) :
  first_index AR.accepts rs = Some i0 → rs !! i0 = Some r0 →
  least_loaded rs (AR.select_best_res (drop i0 rs) i0 (i0, r0)).1
    (AR.select_best_res (drop i0 rs) i0 (i0, r0)).2.
Proof.
  intros Hfi Hr0. apply first_index_Some in Hfi as (x & Hx & Hax & Hbefore).
  rewrite Hr0 in Hx. injection Hx as <-.
  pose proof (select_best_res_spec rs (drop i0 rs) i0 (i0, r0) eq_refl) as H.
  destruct H as (Hb & Hacc & _ & Hmin).
  { split_and!; simpl; [done|by apply ar_accepts_spec|lia|].
    intros i r' Hi Hr' Hacc'. apply ar_accepts_spec in Hacc'.
    rewrite (Hbefore i r' Hi Hr') in Hacc'. done. }
  split_and!; [done..|].
  intros i r' Hr' Hacc'. apply (Hmin i r'); [|done..].
  by apply lookup_lt_Some in Hr'.
Qed.

Lemma least_loaded_unique rs bi r bi' r' :
  least_loaded rs bi r → least_loaded rs bi' r' → bi = bi' ∧ r = r'.
Proof.
  intros (Hb & Ha & Hm) (Hb' & Ha' & Hm').
  destruct (Hm bi' r' Hb' Ha') as [?|[? ?]], (Hm' bi r Hb Ha) as [?|[? ?]]; try lia.
  assert (bi = bi') as -> by lia. split; [done|]. congruence.
Qed.

Lemma ar_schedule_unfold (s : AR.sim) (k : nat) (j : AR.job) :
  first_index AR.is_waiting (AR.first_job s) = Some k →
  AR.first_job s !! k = Some j →
  AR.malloc_src s (AR.malloc_pos s) = true →
  (first_index AR.accepts (AR.first_res s) = None ∧
   AR.first_res (AR.schedule s) = AR.first_res s ∧
   AR.first_job (AR.schedule s) = AR.first_job s) ∨
  (∃ bi r, least_loaded (AR.first_res s) bi r ∧
     AR.first_res (AR.schedule s) = <[bi := ar_bound r j]> (AR.first_res s) ∧
     AR.first_job (AR.schedule s)
     = <[k := AR.set_j_state AR.WAITING_TO_SEND_DATA j]> (AR.first_job s)).
Proof.
  intros Hk Hj Hm. unfold AR.schedule. rewrite Hk. unfold AR.malloc. rewrite Hm. simpl.
  destruct (first_index AR.accepts (AR.first_res s)) as [i0|] eqn:Hi0; [|by left].
  right. rewrite Hj.
  destruct (first_index_Some _ _ _ Hi0) as (r0 & Hr0 & _). rewrite Hr0.
  pose proof (select_best_res_least_loaded _ _ _ Hi0 Hr0) as Hll.
  destruct (AR.select_best_res _ _ _) as [bi rb]. simpl in Hll.
  exists bi, rb. split; [done|]. unfold AR.bind_job. simpl.
  destruct Hll as (Hb & _). split.
  - by erewrite alter_as_insert.
  - by erewrite alter_as_insert.
Qed.

(** ** The mixed simulator: the binding of jobs to resources *)

Lemma float_incr_le x : x ≤ float_incr x.
Proof. unfold float_incr. destruct (x <? FLT_STICK); lia. Qed.

Lemma float_incr_mono x y : x ≤ y → float_incr x ≤ float_incr y.
Proof.
  unfold float_incr. intros H.
  destruct (Z.ltb_spec x FLT_STICK), (Z.ltb_spec y FLT_STICK); lia.
Qed.

Section pool_stores.
Context {A : Type} (addr : A → nat).

Lemma store_at_compose (f g : A → A) a (l : list A) :
  (∀ x, addr (g x) = addr x) →
  store_at addr a f (store_at addr a g l) = store_at addr a (f ∘ g) l.
Proof.
  intros Hg. unfold store_at. rewrite <- list_fmap_compose.
  apply list_fmap_ext. intros i x _. simpl.
  destruct (Nat.eqb (addr x) a) eqn:E; [by rewrite Hg, E|by rewrite E].
Qed.

Lemma Forall_store_at (P : A → Prop) (f : A → A) a (l : list A) x0 :
  NoDup (addr <$> l) → deref addr a l = Some x0 →
  Forall P l → P (f x0) → Forall P (store_at addr a f l).
Proof.
  intros Hnd Hx0 Hall HP. apply Forall_forall. intros y Hy.
  apply elem_of_store_at in Hy as (x & Hx & ->).
  destruct (Nat.eqb_spec (addr x) a) as [Heq|_].
  - pose proof (deref_NoDup addr l x Hnd Hx) as Hd. rewrite Heq, Hx0 in Hd.
    by injection Hd as ->.
  - by eapply Forall_forall in Hall.
Qed.
End pool_stores.

Lemma mixed_claims_app l1 l2 : mixed_claims (l1 ++ l2) = mixed_claims l1 ++ mixed_claims l2.
Proof. unfold mixed_claims. by rewrite filter_app, fmap_app. Qed.

Lemma mixed_claims_cons j l :
  mixed_claims (j :: l)
  = if decide (mixed_active j) then Mixed.j_run_on j :: mixed_claims l else mixed_claims l.
Proof. unfold mixed_claims. rewrite filter_cons. by destruct (decide (mixed_active j)). Qed.

Lemma mixed_claims_elem j l : j ∈ l → mixed_active j → Mixed.j_run_on j ∈ mixed_claims l.
Proof.
  intros Hj Ha. unfold mixed_claims. apply list_elem_of_fmap_2.
  by apply list_elem_of_filter.
Qed.

(** The jobs around an active job hold other resources. *)
Lemma mixed_claims_others pre j js :
  NoDup (mixed_claims (pre ++ j :: js)) → mixed_active j →
  NoDup (mixed_claims (pre ++ js)) ∧
  ∀ j2, j2 ∈ pre ++ js → mixed_active j2 → Mixed.j_run_on j2 ≠ Mixed.j_run_on j.
Proof.
  intros Hnd Ha. rewrite mixed_claims_app, mixed_claims_cons in Hnd.
  destruct (decide (mixed_active j)); [|done].
  apply NoDup_app in Hnd as (Hpre & Hdis & Hjs).
  apply NoDup_cons in Hjs as [Hj Hjs]. split.
  - rewrite mixed_claims_app. apply NoDup_app. split_and!; [done| |done].
    intros x Hx Hx'. apply (Hdis x Hx). by right.
  - intros j2 Hj2 Ha2 Heq. apply elem_of_app in Hj2 as [Hj2|Hj2].
    + apply (Hdis (Mixed.j_run_on j2)); [by apply mixed_claims_elem|].
      rewrite Heq. by left.
    + apply Hj. rewrite <- Heq. by apply mixed_claims_elem.
Qed.

Lemma mixed_serves_store_other rs j2 a F :
  (∀ r, Mixed.r_addr (F r) = Mixed.r_addr r) →
  (mixed_active j2 → Mixed.j_run_on j2 ≠ Some a) →
  mixed_serves rs j2 → mixed_serves (store_at Mixed.r_addr a F rs) j2.
Proof.
  intros HF Hne Hs st Hst. destruct (Hs st Hst) as (b & r & Hb & Hr & Hrs).
  exists b, r. split_and!; [done| |done].
  rewrite deref_store_at by done.
  destruct (Nat.eqb_spec b a) as [->|]; [|done].
  exfalso. apply Hne; [|done]. unfold mixed_active. by rewrite Hst.
Qed.

Lemma mixed_serves_app_r rs r j : mixed_serves rs j → mixed_serves (rs ++ [r]) j.
Proof.
  intros Hs st Hst. destruct (Hs st Hst) as (b & r' & Hb & Hr & Hrs).
  exists b, r'. split_and!; [done| |done]. by apply deref_app_l.
Qed.

(** One pass of the executor's loop that stores through [run_on]. *)
Lemma mixed_loop_step next la pre j j' js rs a r0 F :
  mixed_loop_inv next la pre (j :: js) rs →
  mixed_active j → Mixed.j_run_on j = Some a → deref Mixed.r_addr a rs = Some r0 →
  (∀ r, Mixed.r_addr (F r) = Mixed.r_addr r) →
  mixed_time_ok (F r0) →
  Mixed.j_run_on j' = Some a →
  (∀ st, mixed_served_state (Mixed.j_state j') = Some st → Mixed.r_state (F r0) = st) →
  mixed_loop_inv next la (pre ++ [j']) js (store_at Mixed.r_addr a F rs).
Proof.
  intros (Hpool & Htail & Hserv & Hcl & Htime & Hslack) Hact Hrun Hr0 HF Ht Hrun' Hst'.
  destruct (mixed_claims_others _ _ _ Hcl Hact) as [Hcl' Hothers].
  rewrite Hrun in Hothers.
  apply Forall_app in Hserv as [Hspre Hsjs]. apply Forall_cons in Hsjs as [_ Hsjs].
  apply Forall_cons in Hslack as [_ Hslack].
  split_and!.
  - by apply pool_ok_store_at.
  - apply tail_ok_store_at; [done|apply Hpool|done].
  - rewrite <- app_assoc. simpl. apply Forall_app. split; [|apply Forall_cons; split].
    + apply Forall_forall. intros j2 Hj2. apply mixed_serves_store_other; [done| |].
      * intros Ha2. apply Hothers; [|done]. apply elem_of_app. by left.
      * by eapply Forall_forall in Hspre.
    + intros st Hst. exists a, (F r0). split_and!; [done| |by apply Hst'].
      rewrite deref_store_at, Nat.eqb_refl, Hr0 by done. done.
    + apply Forall_forall. intros j2 Hj2. apply mixed_serves_store_other; [done| |].
      * intros Ha2. apply Hothers; [|done]. apply elem_of_app. by right.
      * by eapply Forall_forall in Hsjs.
  - rewrite <- app_assoc. simpl. rewrite mixed_claims_app, mixed_claims_cons.
    rewrite mixed_claims_app, mixed_claims_cons in Hcl.
    destruct (decide (mixed_active j)); [|done].
    destruct (decide (mixed_active j')).
    + by rewrite Hrun', <- Hrun.
    + by rewrite <- mixed_claims_app.
  - eapply Forall_store_at; [apply Hpool|done..].
  - apply Forall_forall. intros j2 Hj2 b r Ha2 Hb Hr.
    rewrite deref_store_at in Hr by done.
    destruct (Nat.eqb_spec b a) as [->|].
    + exfalso. eapply Hothers; [|done..]. apply elem_of_app. by right.
    + eapply Forall_forall in Hslack; [|done]. by eapply Hslack.
Qed.

(** One pass of the loop that leaves the resources alone. *)
Lemma mixed_loop_skip next la pre j j' js rs :
  mixed_loop_inv next la pre (j :: js) rs →
  mixed_served_state (Mixed.j_state j') = mixed_served_state (Mixed.j_state j) →
  Mixed.j_run_on j' = Mixed.j_run_on j →
  mixed_loop_inv next la (pre ++ [j']) js rs.
Proof.
  intros (Hpool & Htail & Hserv & Hcl & Htime & Hslack) Hst Hrun.
  apply Forall_cons in Hslack as [_ Hslack].
  split_and!; [done..| | |done|done].
  - rewrite <- app_assoc. simpl.
    apply Forall_app in Hserv as [Hspre Hsjs]. apply Forall_cons in Hsjs as [Hsj Hsjs].
    apply Forall_app. split; [done|]. apply Forall_cons. split; [|done].
    unfold mixed_serves. rewrite Hst, Hrun. apply Hsj.
  - rewrite <- app_assoc. simpl.
    rewrite mixed_claims_app, mixed_claims_cons in Hcl.
    rewrite mixed_claims_app, mixed_claims_cons.
    assert (mixed_active j' ↔ mixed_active j) as Hiff.
    { unfold mixed_active. by rewrite Hst. }
    destruct (decide (mixed_active j)), (decide (mixed_active j')); try tauto.
    by rewrite Hrun.
Qed.

Lemma mixed_run_send_job_inv pre j js s :
  mixed_loop_inv (Mixed.heap_next s) (Mixed.last_res s) pre (j :: js) (Mixed.first_res s) →
  ∃ j' s', Mixed.run_send_job j s = Some (j', s') ∧
    Mixed.heap_next s' = Mixed.heap_next s ∧ Mixed.last_res s' = Mixed.last_res s ∧
    mixed_loop_inv (Mixed.heap_next s) (Mixed.last_res s) (pre ++ [j']) js (Mixed.first_res s').
Proof.
  intros Hinv.
  assert (mixed_serves (Mixed.first_res s) j) as Hsj.
  { destruct Hinv as (_ & _ & Hserv & _). apply Forall_app in Hserv as [_ Hserv].
    by apply Forall_cons in Hserv as [? _]. }
  assert (Forall mixed_time_ok (Mixed.first_res s)) as Htime by apply Hinv.
  assert (∀ a r, mixed_active j → Mixed.j_run_on j = Some a →
                 deref Mixed.r_addr a (Mixed.first_res s) = Some r →
                 float_incr (Mixed.r_used_time r) ≤ Mixed.r_total_time r) as Hsl.
  { destruct Hinv as (_ & _ & _ & _ & _ & Hslack). by apply Forall_cons in Hslack as [? _]. }
  unfold Mixed.run_send_job. destruct (Mixed.j_state j) eqn:Hst.
  - (* WAITING *)
    exists j, s. split_and!; [done..|]. by eapply mixed_loop_skip.
  - (* RUNNING *)
    destruct (Hsj Mixed.USED) as (a & r0 & Hrun & Hr0 & Hr0st); [by rewrite Hst|].
    assert (mixed_active j) as Hact by (unfold mixed_active; rewrite Hst; by eexists).
    specialize (Hsl a r0 Hact Hrun Hr0).
    unfold Mixed.run_on_res. rewrite Hrun. simpl. rewrite Hr0. simpl.
    destruct (Mixed.j_workload j - Mixed.r_level r0 <=? 0).
    + destruct (Z.rem _ 1000 <=? Mixed.RL_PROB); eexists _, _;
        (split_and!; [done..|]); simpl;
        rewrite !(store_at_compose Mixed.r_addr) by done;
        (eapply mixed_loop_step; [done..| | |done|done]); done.
    + eexists _, _. split_and!; [done..|]. simpl.
      eapply mixed_loop_step; [done..| | |done|]; [done|done|].
      simpl. rewrite Hst. by intros st [= <-].
  - (* DONE *)
    exists j, s. split_and!; [done..|]. by eapply mixed_loop_skip.
  - (* SENDING_DATA *)
    simpl. destruct (Mixed.j_send_data j - 1 <=? 0).
    + destruct (Hsj Mixed.RECEIVING_DATA) as (a & r0 & Hrun & Hr0 & Hr0st); [by rewrite Hst|].
      assert (mixed_active j) as Hact by (unfold mixed_active; rewrite Hst; by eexists).
      unfold Mixed.run_on_res. simpl. rewrite Hrun. simpl. rewrite Hr0. simpl.
      eexists _, _. split_and!; [done..|]. simpl.
      eapply mixed_loop_step; [done..| | |done|]; [done| |].
      * apply deref_Some in Hr0 as [Hin _].
        eapply Forall_forall in Htime; [|done]. exact Htime.
      * simpl. by intros st [= <-].
    + eexists _, _. split_and!; [done..|].
      eapply mixed_loop_skip; [done| |done]. simpl. by rewrite Hst.
Qed.

Lemma mixed_run_send_loop_inv js : ∀ pre s,
  mixed_loop_inv (Mixed.heap_next s) (Mixed.last_res s) pre js (Mixed.first_res s) →
  ∃ js' s', Mixed.run_send_loop js s = Some (js', s') ∧
    Mixed.heap_next s' = Mixed.heap_next s ∧ Mixed.last_res s' = Mixed.last_res s ∧
    mixed_loop_inv (Mixed.heap_next s) (Mixed.last_res s) (pre ++ js') [] (Mixed.first_res s').
Proof.
  induction js as [|j js IH]; intros pre s Hinv; simpl.
  - exists [], s. by rewrite app_nil_r in *.
  - destruct (mixed_run_send_job_inv _ _ _ _ Hinv) as (j' & s1 & -> & Hn1 & Hl1 & Hinv1).
    simpl. rewrite <- Hn1, <- Hl1 in Hinv1.
    destruct (IH _ _ Hinv1) as (js' & s2 & -> & Hn2 & Hl2 & Hinv2). simpl.
    exists (j' :: js'), s2. split_and!; [done|congruence..|].
    rewrite <- app_assoc in Hinv2. simpl in Hinv2. by rewrite <- Hn1, <- Hl1.
Qed.

(** The executor never follows a dangling [run_on]: from a state that
    satisfies the invariant it returns, and the invariant holds again. *)
Lemma mixed_run_send_wf s :
  mixed_mid s → ∃ s', Mixed.run_send s = Some s' ∧ mixed_wf s'.
Proof.
  intros [[Hpool Htail Hserv Hcl Htime] Hslack].
  destruct (mixed_run_send_loop_inv (Mixed.first_job s) [] s) as (js' & s1 & Hrun & Hn & Hl & Hinv).
  { split_and!; [done..|].
    apply Forall_forall. intros j Hj a r Hact Ha Hr.
    eapply Forall_forall in Hserv; [|done].
    destruct Hact as [st Hst]. destruct (Hserv st Hst) as (a' & r' & Ha' & Hr' & Hrst).
    rewrite Ha in Ha'. injection Ha' as <-. rewrite Hr in Hr'. injection Hr' as <-.
    apply deref_Some in Hr as [Hin _]. eapply Forall_forall in Hslack; [|done].
    destruct Hslack as [Hav|?]; [|done].
    rewrite Hav in Hrst. subst st. by destruct (Mixed.j_state j). }
  unfold Mixed.run_send. rewrite Hrun. simpl. eexists. split; [done|].
  destruct Hinv as (Hp & Ht & Hs & Hc & Hti & _). rewrite app_nil_r in *. simpl in *.
  split; simpl; [by rewrite Hn|by rewrite Hl|done..].
Qed.

Lemma mixed_claims_sublist l1 l2 :
  l1 `sublist_of` l2 → mixed_claims l1 `sublist_of` mixed_claims l2.
Proof.
  induction 1 as [|j l1 l2 _ IH|j l1 l2 _ IH]; [done|..]; rewrite ?mixed_claims_cons.
  - destruct (decide (mixed_active j)); [by constructor|done].
  - destruct (decide (mixed_active j)); [by constructor|done].
Qed.

Lemma mixed_claims_fmap (g : Mixed.job → Mixed.job) js :
  (∀ j, mixed_served_state (Mixed.j_state (g j)) = mixed_served_state (Mixed.j_state j) ∧
        Mixed.j_run_on (g j) = Mixed.j_run_on j) →
  mixed_claims (g <$> js) = mixed_claims js.
Proof.
  intros Hg. induction js as [|j js IH]; [done|].
  rewrite fmap_cons, !mixed_claims_cons, IH. destruct (Hg j) as [Hst Hrun].
  assert (mixed_active (g j) ↔ mixed_active j) as Hiff.
  { unfold mixed_active. by rewrite Hst. }
  destruct (decide (mixed_active j)), (decide (mixed_active (g j))); try tauto.
  by rewrite Hrun.
Qed.

(** States that differ only outside the pools. *)
Lemma mixed_mid_ext s s' :
  mixed_mid s →
  Mixed.first_res s' = Mixed.first_res s → Mixed.first_job s' = Mixed.first_job s →
  Mixed.last_res s' = Mixed.last_res s → (Mixed.heap_next s ≤ Mixed.heap_next s')%nat →
  mixed_mid s'.
Proof.
  intros [[Hpool Htail Hserv Hcl Htime] Hslack] Hr Hj Hl Hn.
  split; [split|]; rewrite ?Hr, ?Hj, ?Hl; try done.
  by eapply pool_ok_mono.
Qed.

(** *** traceall *)

Lemma mixed_trace_body_frame s :
  Mixed.heap_next (Mixed.trace_body s) = Mixed.heap_next s ∧
  Mixed.last_res (Mixed.trace_body s) = Mixed.last_res s.
Proof.
  unfold Mixed.trace_body.
  destruct (Mixed.trace_jobs _ _ _ _) as [[js d] rc].
  destruct (Mixed.trace_res _ _) as [rs g]. done.
Qed.

Lemma mixed_trace_body_mid s : mixed_wf s → mixed_mid (Mixed.trace_body s).
Proof.
  intros [Hpool Htail Hserv Hcl Htime].
  destruct (mixed_trace_body_frame s) as [Hn Hl].
  split; [split|]; rewrite ?Hn, ?Hl, ?mixed_trace_body_res, ?mixed_trace_body_jobs.
  - by apply pool_ok_fmap.
  - apply tail_ok_fmap; [done|apply Hpool|done].
  - apply Forall_fmap. eapply Forall_impl; [done|].
    intros j Hj st Hst. simpl in Hst.
    assert (mixed_served_state (Mixed.j_state j) = Some st) as Hst'.
    { by destruct (mixed_waits j). }
    destruct (Hj st Hst') as (a & r & Ha & Hr & Hrst).
    exists a, (Mixed.set_r_total_time (float_incr (Mixed.r_total_time r)) r).
    split_and!; [by destruct (mixed_waits j)| |done].
    rewrite deref_fmap by done. by rewrite Hr.
  - rewrite mixed_claims_fmap; [done|]. intros j. by destruct (mixed_waits j).
  - apply Forall_fmap. eapply Forall_impl; [done|].
    intros r Hr. unfold mixed_time_ok in *. simpl.
    pose proof (float_incr_le (Mixed.r_total_time r)). lia.
  - apply Forall_fmap. eapply Forall_impl; [done|].
    intros r Hr. right. simpl. by apply float_incr_mono.
Qed.

(** *** remove_done_jobs, remove_leaving_resources *)

Lemma mixed_remove_done_jobs_mid s : mixed_mid s → mixed_mid (Mixed.remove_done_jobs s).
Proof.
  intros [[Hpool Htail Hserv Hcl Htime] Hslack].
  split; [split|]; simpl; try done.
  - apply Forall_forall. intros j [_ Hj]%list_elem_of_filter.
    by eapply Forall_forall in Hserv.
  - eapply sublist_NoDup; [done|]. apply mixed_claims_sublist, sublist_filter.
Qed.

Lemma mixed_remove_leaving_resources_mid s :
  mixed_mid s → mixed_mid (Mixed.remove_leaving_resources s).
Proof.
  intros [[Hpool Htail Hserv Hcl Htime] Hslack].
  split; [split|]; simpl; try done.
  - by apply pool_ok_filter.
  - by apply tail_ok_filter.
  - eapply Forall_impl; [done|]. intros j Hj st Hst.
    destruct (Hj st Hst) as (a & r & Ha & Hr & Hrst). exists a, r.
    split_and!; [done| |done].
    apply deref_filter; [apply Hpool|done|]. rewrite Hrst. intros ->.
    by destruct (Mixed.j_state j).
  - apply Forall_forall. intros r [_ Hr]%list_elem_of_filter.
    by eapply Forall_forall in Htime.
  - apply Forall_forall. intros r [_ Hr]%list_elem_of_filter.
    by eapply Forall_forall in Hslack.
Qed.

(** *** add_res, add_job *)

#[local] Arguments link_after : simpl never.

Lemma mixed_mid_new_res s s' r :
  mixed_mid s →
  Mixed.r_addr r = Mixed.heap_next s → Mixed.r_state r = Mixed.AVAILABLE →
  Mixed.r_total_time r = 0 → Mixed.r_used_time r = 0 →
  Mixed.first_res s' = Mixed.first_res s ++ [r] →
  Mixed.first_job s' = Mixed.first_job s →
  Mixed.last_res s' = Some (Mixed.r_addr r) →
  Mixed.heap_next s' = S (Mixed.heap_next s) →
  mixed_mid s'.
Proof.
  intros [[Hpool Htail Hserv Hcl Htime] Hslack] Ha Hst Htt Hut Hr Hj Hl Hn.
  split; [split|]; rewrite ?Hr, ?Hj, ?Hl, ?Hn; try done.
  - by apply pool_ok_snoc.
  - apply tail_ok_snoc. by eapply pool_ok_fresh.
  - eapply Forall_impl; [done|]. intros j. apply mixed_serves_app_r.
  - apply Forall_app. split; [done|]. apply Forall_singleton.
    unfold mixed_time_ok. lia.
  - apply Forall_app. split; [done|]. apply Forall_singleton. by left.
Qed.

Lemma mixed_add_res_mid s s' : mixed_mid s → Mixed.add_res s = Some s' → mixed_mid s'.
Proof.
  intros Hmid. unfold Mixed.add_res, Mixed.malloc.
  destruct (Mixed.malloc_src s (Mixed.malloc_pos s)); simpl.
  - set (r := Mixed.mkResource (Mixed.heap_next s) _ _ _ _ _).
    destruct (Mixed.first_res s) as [|r0 rs] eqn:Hrs; simpl.
    + intros [= <-]. eapply (mixed_mid_new_res s _ r); try done. simpl. by rewrite Hrs.
    + intros H. apply bind_Some in H as (la & Hla & H).
      apply bind_Some in H as (rs' & Hlink & [= <-]).
      eapply (link_after_append Mixed.r_addr (Mixed.last_res s)) in Hlink;
        [|rewrite <- Hrs; apply Hmid..|done].
      eapply (mixed_mid_new_res s _ r); try done. simpl. by rewrite Hrs.
  - intros [= <-]. eapply mixed_mid_ext; [done..|simpl; lia].
Qed.

Lemma mixed_mid_new_jobs s s' js :
  mixed_mid s →
  js `sublist_of` Mixed.first_job s ++ [] →
  Mixed.first_res s' = Mixed.first_res s →
  (∃ j, Mixed.first_job s' = js ++ [j] ∧ Mixed.j_state j = Mixed.WAITING) →
  Mixed.last_res s' = Mixed.last_res s →
  (Mixed.heap_next s ≤ Mixed.heap_next s')%nat →
  mixed_mid s'.
Proof.
  intros [[Hpool Htail Hserv Hcl Htime] Hslack] Hsub Hr (j & Hj & Hst) Hl Hn.
  rewrite app_nil_r in Hsub.
  split; [split|]; rewrite ?Hr, ?Hj, ?Hl; try done.
  - by eapply pool_ok_mono.
  - apply Forall_app. split.
    + apply Forall_forall. intros j2 Hj2. eapply Forall_forall in Hserv; [done|].
      by eapply sublist_subseteq.
    + apply Forall_singleton. intros st. by rewrite Hst.
  - rewrite mixed_claims_app, mixed_claims_cons.
    destruct (decide (mixed_active j)) as [[st Hact]|_]; [by rewrite Hst in Hact|].
    rewrite app_nil_r. eapply sublist_NoDup; [done|]. by apply mixed_claims_sublist.
Qed.

Lemma mixed_add_job_mid s s' : mixed_mid s → Mixed.add_job s = Some s' → mixed_mid s'.
Proof.
  intros Hmid. unfold Mixed.add_job, Mixed.malloc.
  destruct (Mixed.malloc_src s (Mixed.malloc_pos s)); simpl.
  - destruct (Mixed.first_job s) as [|j0 js] eqn:Hjs; simpl.
    + intros [= <-]. eapply (mixed_mid_new_jobs s _ []); try done; simpl.
      * apply sublist_nil_l.
      * by eexists.
      * lia.
    + intros H. apply bind_Some in H as (la & Hla & H).
      apply bind_Some in H as (js' & Hlink & [= <-]).
      apply link_after_cut in Hlink as [k ->].
      eapply (mixed_mid_new_jobs s _ (take k (j0 :: js))); try done; simpl.
      * rewrite Hjs, app_nil_r. apply sublist_take.
      * by eexists.
      * lia.
  - intros [= <-]. eapply mixed_mid_ext; [done..|simpl; lia].
Qed.

Lemma mixed_repeat_add_res_mid n s s' :
  mixed_mid s → Mixed.repeat_add_res n s = Some s' → mixed_mid s'.
Proof.
  revert s. induction n as [|n IH]; intros s Hmid; simpl; [by intros [= <-]|].
  intros H. apply bind_Some in H as (s1 & H1 & H).
  eapply IH; [|done]. by eapply mixed_add_res_mid.
Qed.

Lemma mixed_add_remove_mid s s' : mixed_mid s → Mixed.add_remove s = Some s' → mixed_mid s'.
Proof.
  intros Hmid. unfold Mixed.add_remove. intros H.
  apply bind_Some in H as (s1 & H1 & H).
  assert (mixed_mid s1) as Hmid1.
  { destruct (Mixed.begin s); [|by injection H1 as <-].
    apply fmap_Some in H1 as (s0 & H0 & ->).
    eapply mixed_mid_ext; [by eapply mixed_repeat_add_res_mid|done..|simpl; lia]. }
  apply mixed_remove_done_jobs_mid, mixed_remove_leaving_resources_mid in Hmid1.
  simpl in H. unfold Mixed.add_on_draw in H.
  destruct (Mixed.admission_of_draw _).
  - eapply mixed_add_res_mid; [|done].
    eapply mixed_mid_ext; [exact Hmid1|done..|simpl; lia].
  - eapply mixed_add_job_mid; [|done].
    eapply mixed_mid_ext; [exact Hmid1|done..|simpl; lia].
  - injection H as <-. eapply mixed_mid_ext; [exact Hmid1|done..|simpl; lia].
Qed.

(** *** schedule *)

Lemma alter_middle {A} (f : A → A) (l : list A) (i : nat) (x : A) :
  l !! i = Some x → alter f i l = take i l ++ f x :: drop (S i) l.
Proof.
  intros H. erewrite alter_as_insert by done.
  apply insert_take_drop. by eapply lookup_lt_Some.
Qed.

Lemma mixed_is_waiting_spec j : Mixed.is_waiting j = true ↔ Mixed.j_state j = Mixed.WAITING.
Proof. unfold Mixed.is_waiting. apply bool_decide_eq_true. Qed.

Lemma mixed_is_available_spec r :
  Mixed.is_available r = true ↔ Mixed.r_state r = Mixed.AVAILABLE.
Proof. unfold Mixed.is_available. apply bool_decide_eq_true. Qed.

(** [best_job] always points to a WAITING job. *)
Lemma mixed_select_best_waiting js best_score rest : ∀ pos best,
  rest = drop pos js →
  (∃ j, js !! best = Some j ∧ Mixed.j_state j = Mixed.WAITING) →
  ∃ j, js !! Mixed.select_best best_score rest pos best = Some j ∧
       Mixed.j_state j = Mixed.WAITING.
Proof.
  induction rest as [|j rest IH]; intros pos best Hrest Hbest; simpl; [done|].
  assert (js !! pos = Some j) as Hpos.
  { rewrite <- (Nat.add_0_r pos), <- lookup_drop, <- Hrest. done. }
  apply IH.
  - erewrite drop_S in Hrest by done. by injection Hrest.
  - destruct (Mixed.is_waiting j) eqn:Hw; simpl; [|done].
    destruct (Mixed.score j >? best_score); [|done].
    exists j. split; [done|]. by apply mixed_is_waiting_spec.
Qed.

(** No active job runs on a resource that is AVAILABLE. *)
Lemma mixed_available_unclaimed rs js r :
  NoDup (Mixed.r_addr <$> rs) → Forall (mixed_serves rs) js →
  r ∈ rs → Mixed.r_state r = Mixed.AVAILABLE →
  ∀ j2, j2 ∈ js → mixed_active j2 → Mixed.j_run_on j2 ≠ Some (Mixed.r_addr r).
Proof.
  intros Hnd Hserv Hr Hav j2 Hj2 [st Hst] Hrun.
  eapply Forall_forall in Hserv; [|done].
  destruct (Hserv st Hst) as (a & r2 & Ha & Hr2 & Hst2).
  rewrite Hrun in Ha. injection Ha as <-.
  rewrite (deref_NoDup _ _ _ Hnd Hr) in Hr2. injection Hr2 as <-.
  rewrite Hav in Hst2. subst st. by destruct (Mixed.j_state j2).
Qed.

(** Binding the WAITING job at position [b] to the AVAILABLE resource at
    position [ri] keeps the invariant. *)
Lemma mixed_bind_wf s ri r b jb :
  mixed_wf s →
  Mixed.first_res s !! ri = Some r → Mixed.r_state r = Mixed.AVAILABLE →
  Mixed.first_job s !! b = Some jb → Mixed.j_state jb = Mixed.WAITING →
  mixed_wf
    (Mixed.set_first_res (alter (Mixed.set_r_state Mixed.RECEIVING_DATA) ri (Mixed.first_res s))
       (Mixed.set_first_job
          (alter (λ j, Mixed.set_j_state Mixed.SENDING_DATA
                         (Mixed.set_j_run_on (Some (Mixed.r_addr r)) j)) b (Mixed.first_job s))
          s)).
Proof.
  intros [Hpool Htail Hserv Hcl Htime] Hr Hav Hjb Hw.
  assert (r ∈ Mixed.first_res s) as Hrin by by eapply list_elem_of_lookup_2.
  pose proof (mixed_available_unclaimed _ _ _ (proj1 Hpool) Hserv Hrin Hav) as Hun.
  assert (¬ mixed_active jb) as Hna.
  { intros [st Hst]. by rewrite Hw in Hst. }
  split; simpl.
  - by apply pool_ok_alter.
  - apply tail_ok_alter; [done|apply Hpool|done].
  - rewrite (alter_store_at Mixed.r_addr _ _ _ r) by (done || apply Hpool).
    apply Forall_alter.
    + apply Forall_forall. intros j2 Hj2. apply mixed_serves_store_other; [done| |].
      * intros Ha2. by apply Hun.
      * by eapply Forall_forall in Hserv.
    + intros j Hj _ st Hst. simpl in Hst. injection Hst as <-.
      exists (Mixed.r_addr r), (Mixed.set_r_state Mixed.RECEIVING_DATA r).
      split_and!; [done| |done].
      rewrite deref_store_at, Nat.eqb_refl by done.
      by rewrite (deref_NoDup _ _ _ (proj1 Hpool) Hrin).
  - erewrite alter_middle by done.
    rewrite <- (take_drop_middle _ _ _ Hjb) in Hcl, Hun.
    rewrite mixed_claims_app, mixed_claims_cons in Hcl.
    rewrite mixed_claims_app, mixed_claims_cons.
    destruct (decide (mixed_active jb)); [done|].
    destruct (decide (mixed_active _)) as [_|Hn].
    2:{ exfalso. apply Hn. by eexists. }
    simpl. apply NoDup_app in Hcl as (Hpre & Hdis & Hpost).
    apply NoDup_app. split_and!; [done| |].
    + intros x Hx [->|Hx']%elem_of_cons; [|by eapply Hdis].
      apply list_elem_of_fmap in Hx as (j2 & Hrun & [Ha2 Hj2]%list_elem_of_filter).
      eapply Hun; [|done..]. apply elem_of_app. by left.
    + apply NoDup_cons. split; [|done].
      intros Hx. apply list_elem_of_fmap in Hx as (j2 & Hrun & [Ha2 Hj2]%list_elem_of_filter).
      eapply Hun; [|done..]. apply elem_of_app. right. by right.
  - apply Forall_alter; [done|]. by intros r' _ Hr'.
Qed.

Lemma mixed_schedule_wf s : mixed_wf s → mixed_wf (Mixed.schedule s).
Proof.
  intros Hwf. unfold Mixed.schedule.
  destruct (first_index Mixed.is_available (Mixed.first_res s)) as [ri|] eqn:Hri; [|done].
  destruct (first_index Mixed.is_waiting (Mixed.first_job s)) as [k|] eqn:Hk; [|done].
  apply first_index_Some in Hri as (r & Hr & Hav & _).
  apply first_index_Some in Hk as (j0 & Hj0 & Hw0 & _).
  rewrite Hr, Hj0.
  destruct (mixed_select_best_waiting (Mixed.first_job s) (Mixed.score j0)
              (drop k (Mixed.first_job s)) k k eq_refl) as (jb & Hjb & Hwb).
  { exists j0. split; [done|]. by apply mixed_is_waiting_spec. }
  eapply mixed_bind_wf; [done..| |done|done]. by apply mixed_is_available_spec.
Qed.

(** *** main *)

Lemma mixed_init_wf rnd mal : mixed_wf (Mixed.init rnd mal).
Proof.
  split; simpl.
  - split; [apply NoDup_nil_2|apply Forall_nil_2].
  - intros a x _ Hx. by apply elem_of_nil in Hx.
  - apply Forall_nil_2.
  - apply NoDup_nil_2.
  - apply Forall_nil_2.
Qed.

Lemma mixed_traceall_Running s s1 :
  Mixed.traceall s = Running s1 → s1 = Mixed.trace_body s.
Proof. unfold Mixed.traceall. by destruct (_ =? _); intros [= <-]. Qed.

(** A tick that goes on keeps the invariant; in between, the state the
    executor starts from satisfies [mixed_mid], so the executor returns. *)
Lemma mixed_tick_wf s :
  mixed_wf s →
  match Mixed.traceall s with
  | Running s1 =>
      match Mixed.add_remove s1 with
      | Some s2 => mixed_mid s2 ∧ ∃ s3, Mixed.run_send s2 = Some s3 ∧ mixed_wf s3 ∧
                     Mixed.tick s = Running (Mixed.schedule s3) ∧
                     mixed_wf (Mixed.schedule s3)
      | None => Mixed.tick s = Undefined
      end
  | Exited s1 => Mixed.tick s = Exited s1
  | Undefined => False
  end.
Proof.
  intros Hwf. unfold Mixed.tick.
  destruct (Mixed.traceall s) as [s1|s1|] eqn:Ht; [|done|].
  - apply mixed_traceall_Running in Ht as ->.
    pose proof (mixed_trace_body_mid s Hwf) as Hmid1.
    destruct (Mixed.add_remove _) as [s2|] eqn:Ha; [|done].
    pose proof (mixed_add_remove_mid _ _ Hmid1 Ha) as Hmid2.
    split; [done|].
    destruct (mixed_run_send_wf s2 Hmid2) as (s3 & Hrs & Hwf3).
    exists s3. rewrite Hrs. split_and!; [done..|]. by apply mixed_schedule_wf.
  - unfold Mixed.traceall in Ht. by destruct (_ =? _).
Qed.

Lemma mixed_tick_Running_wf s s' : mixed_wf s → Mixed.tick s = Running s' → mixed_wf s'.
Proof.
  intros Hwf Htick. pose proof (mixed_tick_wf s Hwf) as H.
  destruct (Mixed.traceall s) as [s1|s1|]; [|congruence|done].
  destruct (Mixed.add_remove s1) as [s2|]; [|congruence].
  destruct H as (_ & s3 & _ & _ & Ht & Hwf'). congruence.
Qed.

Lemma mixed_run_wf n : ∀ s s', mixed_wf s → Mixed.run n s = Running s' → mixed_wf s'.
Proof.
  induction n as [|n IH]; intros s s' Hwf; simpl; [by intros [= <-]|].
  destruct (Mixed.tick s) as [s1|s1|] eqn:Ht; [|done..].
  apply IH. by eapply mixed_tick_Running_wf.
Qed.

(** *** Resources that leave *)

Lemma mixed_leaving_done_skip pre rs j' :
  mixed_leaving_done pre rs → mixed_leaving_done (pre ++ [j']) rs.
Proof.
  intros H r Hr Hst. destruct (H r Hr Hst) as (j & Hj & ?).
  exists j. split; [|done]. apply elem_of_app. by left.
Qed.

Lemma mixed_leaving_done_store pre rs a F j' :
  mixed_leaving_done pre rs →
  (∀ r, Mixed.r_addr (F r) = Mixed.r_addr r) →
  (∀ r, Mixed.r_state (F r) = Mixed.LEAVING →
        Mixed.r_state r = Mixed.LEAVING ∨
        (Mixed.j_state j' = Mixed.DONE ∧ Mixed.j_run_on j' = Some a)) →
  mixed_leaving_done (pre ++ [j']) (store_at Mixed.r_addr a F rs).
Proof.
  intros H HF Hst r' Hr' Hl.
  apply elem_of_store_at in Hr' as (r & Hr & ->).
  destruct (Nat.eqb_spec (Mixed.r_addr r) a) as [Ha|_].
  - rewrite HF. destruct (Hst r Hl) as [Hl'|[Hd Hrun]].
    + destruct (H r Hr Hl') as (j & Hj & ?). exists j. split; [|done].
      apply elem_of_app. by left.
    + exists j'. split; [apply elem_of_app; right; by left|]. by rewrite Ha.
  - destruct (H r Hr Hl) as (j & Hj & ?). exists j. split; [|done].
    apply elem_of_app. by left.
Qed.

Lemma mixed_run_send_job_leaving pre j s j' s' :
  Mixed.run_send_job j s = Some (j', s') →
  mixed_leaving_done pre (Mixed.first_res s) →
  mixed_leaving_done (pre ++ [j']) (Mixed.first_res s').
Proof.
  unfold Mixed.run_send_job, Mixed.run_on_res. intros Hrun Hld.
  destruct (Mixed.j_state j) eqn:Hst; simplify_eq/=;
    try by apply mixed_leaving_done_skip.
  - (* RUNNING *)
    destruct (Mixed.j_run_on j) as [a|] eqn:Ha; simplify_eq/=.
    destruct (deref Mixed.r_addr a (Mixed.first_res s)) as [r|] eqn:Hr; simplify_eq/=.
    destruct (Mixed.j_workload j - Mixed.r_level r <=? 0).
    + destruct (Z.rem _ 1000 <=? Mixed.RL_PROB); simplify_eq/=;
        rewrite !(store_at_compose Mixed.r_addr) by done;
        (apply mixed_leaving_done_store; [done..|]); intros r0; simpl; auto.
    + simplify_eq/=. apply mixed_leaving_done_store; [done..|]. intros r0. simpl. auto.
  - (* SENDING_DATA *)
    destruct (Mixed.j_send_data j - 1 <=? 0); simplify_eq/=;
      [|by apply mixed_leaving_done_skip].
    destruct (Mixed.j_run_on j) as [a|] eqn:Ha; simplify_eq/=.
    destruct (deref Mixed.r_addr a (Mixed.first_res s)) as [r|] eqn:Hr; simplify_eq/=.
    apply mixed_leaving_done_store; [done..|]. intros r0. simpl. done.
Qed.

Lemma mixed_run_send_loop_leaving js : ∀ pre s js' s',
  Mixed.run_send_loop js s = Some (js', s') →
  mixed_leaving_done pre (Mixed.first_res s) →
  mixed_leaving_done (pre ++ js') (Mixed.first_res s').
Proof.
  induction js as [|j js IH]; intros pre s js' s'; simpl.
  - intros [= <- <-]. by rewrite app_nil_r.
  - intros H Hld. apply bind_Some in H as ([j1 s1] & H1 & H).
    apply bind_Some in H as ([js2 s2] & H2 & H). simplify_eq.
    replace (pre ++ j1 :: js2) with ((pre ++ [j1]) ++ js2) by by rewrite <- app_assoc.
    eapply IH; [done|]. by eapply mixed_run_send_job_leaving.
Qed.

Lemma mixed_add_res_no_leaving s s' :
  Forall (λ r, Mixed.r_state r ≠ Mixed.LEAVING) (Mixed.first_res s) →
  Mixed.add_res s = Some s' →
  Forall (λ r, Mixed.r_state r ≠ Mixed.LEAVING) (Mixed.first_res s').
Proof.
  intros Hnl. unfold Mixed.add_res, Mixed.malloc.
  destruct (Mixed.malloc_src s (Mixed.malloc_pos s)); simpl; [|by intros [= <-]].
  destruct (Mixed.first_res s) as [|r0 rs] eqn:Hrs; simpl.
  - intros [= <-]. simpl. by apply Forall_singleton.
  - intros H. apply bind_Some in H as (la & Hla & H).
    apply bind_Some in H as (rs' & Hlink & [= <-]).
    apply link_after_cut in Hlink as [k ->]. simpl.
    apply Forall_app. split; [by apply Forall_take|]. by apply Forall_singleton.
Qed.

Lemma mixed_add_job_res s s' :
  Mixed.add_job s = Some s' → Mixed.first_res s' = Mixed.first_res s.
Proof.
  unfold Mixed.add_job, Mixed.malloc.
  destruct (Mixed.malloc_src s (Mixed.malloc_pos s)); simpl; [|by intros [= <-]].
  destruct (Mixed.first_job s) as [|j0 js] eqn:Hjs; simpl; [by intros [= <-]|].
  intros H. apply bind_Some in H as (la & Hla & H).
  by apply bind_Some in H as (js' & Hlink & [= <-]).
Qed.

(** After the admission step no resource of the pool is LEAVING. *)
Lemma mixed_add_remove_no_leaving s s' :
  Mixed.add_remove s = Some s' →
  Forall (λ r, Mixed.r_state r ≠ Mixed.LEAVING) (Mixed.first_res s').
Proof.
  unfold Mixed.add_remove. intros H. apply bind_Some in H as (s1 & _ & H).
  simpl in H. unfold Mixed.add_on_draw in H.
  assert (Forall (λ r, Mixed.r_state r ≠ Mixed.LEAVING)
            (filter (λ r, Mixed.r_state r ≠ Mixed.LEAVING) (Mixed.first_res s1))) as Hnl.
  { apply Forall_forall. by intros r [? _]%list_elem_of_filter. }
  destruct (Mixed.admission_of_draw _).
  - by eapply mixed_add_res_no_leaving in H.
  - apply mixed_add_job_res in H. by rewrite H.
  - by injection H as <-.
Qed.

Lemma mixed_schedule_leaving s :
  mixed_leaving_done (Mixed.first_job s) (Mixed.first_res s) →
  mixed_leaving_done (Mixed.first_job (Mixed.schedule s)) (Mixed.first_res (Mixed.schedule s)).
Proof.
  intros Hld. unfold Mixed.schedule.
  destruct (first_index Mixed.is_available (Mixed.first_res s)) as [ri|] eqn:Hri; [|done].
  destruct (first_index Mixed.is_waiting (Mixed.first_job s)) as [k|] eqn:Hk; [|done].
  apply first_index_Some in Hri as (r & Hr & Hav & _).
  apply first_index_Some in Hk as (j0 & Hj0 & Hw0 & _).
  rewrite Hr, Hj0.
  destruct (mixed_select_best_waiting (Mixed.first_job s) (Mixed.score j0)
              (drop k (Mixed.first_job s)) k k eq_refl) as (jb & Hjb & Hwb).
  { exists j0. split; [done|]. by apply mixed_is_waiting_spec. }
  simpl. intros r' Hr' Hl.
  apply list_elem_of_lookup_1 in Hr' as [i Hi].
  destruct (decide (i = ri)) as [->|Hne].
  { rewrite list_lookup_alter_eq, Hr in Hi. simpl in Hi. injection Hi as <-. done. }
  rewrite list_lookup_alter_ne in Hi by done.
  destruct (Hld r' (list_elem_of_lookup_2 _ _ _ Hi) Hl) as (j & Hj & Hd & Hrun).
  exists j. split; [|done].
  apply list_elem_of_lookup_1 in Hj as [i' Hi'].
  apply (list_elem_of_lookup_2 _ i').
  rewrite list_lookup_alter_ne; [done|]. intros Heq. rewrite <- Heq in Hi'. congruence.
Qed.

(** At the end of a tick, a resource is LEAVING only if the job that ran
    on it went DONE in the executor pass of that tick. *)
Lemma mixed_tick_leaving s s' :
  Mixed.tick s = Running s' →
  mixed_leaving_done (Mixed.first_job s') (Mixed.first_res s').
Proof.
  unfold Mixed.tick. destruct (Mixed.traceall s) as [s1|s1|]; [|done..].
  destruct (Mixed.add_remove s1) as [s2|] eqn:Ha; [|done].
  destruct (Mixed.run_send s2) as [s3|] eqn:Hrs; [|done].
  intros [= <-]. apply mixed_schedule_leaving.
  unfold Mixed.run_send in Hrs. apply bind_Some in Hrs as ([js s4] & Hloop & [= <-]).
  simpl. apply (mixed_run_send_loop_leaving _ [] _ _ _ Hloop).
  intros r Hr Hl. apply mixed_add_remove_no_leaving in Ha.
  eapply Forall_forall in Ha; [|done]. done.
Qed.

Lemma mixed_run_leaving n : ∀ s s',
  mixed_leaving_done (Mixed.first_job s) (Mixed.first_res s) →
  Mixed.run n s = Running s' →
  mixed_leaving_done (Mixed.first_job s') (Mixed.first_res s').
Proof.
  induction n as [|n IH]; intros s s' Hld; simpl; [by intros [= <-]|].
  destruct (Mixed.tick s) as [s1|s1|] eqn:Ht; [|done..].
  apply IH. by eapply mixed_tick_leaving.
Qed.

(** *** [used_time] in the executor's loop *)

Lemma mixed_touch_weaken j js r0 r : mixed_touch (j :: js) r0 r → mixed_touch js r0 r.
Proof.
  intros (Ha & Ht & [Hu|[Hu Hc]]); split_and!; auto.
  right. split; [done|]. intros Hin. apply Hc. rewrite mixed_claims_cons.
  destruct (decide (mixed_active j)); [by right|done].
Qed.

Lemma mixed_touch_store j js rs0 rs a F :
  Forall2 (mixed_touch (j :: js)) rs0 rs →
  (∀ r, Mixed.r_addr (F r) = Mixed.r_addr r ∧
        Mixed.r_total_time (F r) = Mixed.r_total_time r) →
  ((∀ r, Mixed.r_used_time (F r) = Mixed.r_used_time r) ∨
   ((∀ r, Mixed.r_used_time (F r) = float_incr (Mixed.r_used_time r)) ∧
    Some a ∈ mixed_claims (j :: js) ∧ Some a ∉ mixed_claims js)) →
  Forall2 (mixed_touch js) rs0 (store_at Mixed.r_addr a F rs).
Proof.
  intros Hall HF Hused. unfold store_at. apply Forall2_fmap_r.
  eapply Forall2_impl; [done|]. intros r0 r Ht. simpl.
  destruct (Nat.eqb_spec (Mixed.r_addr r) a) as [Heq|_]; [|by eapply mixed_touch_weaken].
  destruct (HF r) as [HFa HFt].
  destruct Hused as [Hsame|(Hinc & Hin & Hnin)].
  - apply mixed_touch_weaken in Ht. destruct Ht as (Ha & Htt & Hu).
    split_and!; [congruence..|]. by rewrite HFa, Hsame.
  - destruct Ht as (Ha & Htt & [Hu|[_ Hc]]); [|by rewrite Heq in Hc].
    split_and!; [congruence..|]. right. rewrite HFa, Heq, Hinc, Hu. done.
Qed.

Lemma mixed_run_send_job_touch pre j js s j' s' rs0 :
  mixed_loop_inv (Mixed.heap_next s) (Mixed.last_res s) pre (j :: js) (Mixed.first_res s) →
  Mixed.run_send_job j s = Some (j', s') →
  Forall2 (mixed_touch (j :: js)) rs0 (Mixed.first_res s) →
  Forall2 (mixed_touch js) rs0 (Mixed.first_res s').
Proof.
  intros (_ & _ & _ & Hcl & _) Hrun Ht.
  assert (∀ a, mixed_active j → Mixed.j_run_on j = Some a →
               Some a ∈ mixed_claims (j :: js) ∧ Some a ∉ mixed_claims js) as Hmine.
  { intros a Hact Ha. rewrite mixed_claims_app, mixed_claims_cons in Hcl.
    rewrite mixed_claims_cons. destruct (decide (mixed_active j)); [|done].
    apply NoDup_app in Hcl as (_ & _ & Hcl). apply NoDup_cons in Hcl as [Hnin _].
    rewrite Ha in *. split; [by left|done]. }
  assert (Forall2 (mixed_touch js) rs0 (Mixed.first_res s)) as Hskip.
  { eapply Forall2_impl; [done|]. intros r0 r. apply mixed_touch_weaken. }
  unfold Mixed.run_send_job, Mixed.run_on_res in Hrun.
  destruct (Mixed.j_state j) eqn:Hst; simplify_eq/=; try done.
  - (* RUNNING *)
    destruct (Mixed.j_run_on j) as [a|] eqn:Ha; simplify_eq/=.
    destruct (deref Mixed.r_addr a (Mixed.first_res s)) as [r|] eqn:Hr; simplify_eq/=.
    assert (mixed_active j) as Hact by (unfold mixed_active; rewrite Hst; by eexists).
    destruct (Hmine a Hact eq_refl) as [Hin Hnin].
    destruct (Mixed.j_workload j - Mixed.r_level r <=? 0).
    + destruct (Z.rem _ 1000 <=? Mixed.RL_PROB); simplify_eq/=;
        rewrite !(store_at_compose Mixed.r_addr) by done;
        (eapply mixed_touch_store; [done|done|]); right; done.
    + simplify_eq/=. eapply mixed_touch_store; [done|done|]. right. done.
  - (* SENDING_DATA *)
    destruct (Mixed.j_send_data j - 1 <=? 0); simplify_eq/=; [|done].
    destruct (Mixed.j_run_on j) as [a|] eqn:Ha; simplify_eq/=.
    destruct (deref Mixed.r_addr a (Mixed.first_res s)) as [r|] eqn:Hr; simplify_eq/=.
    eapply mixed_touch_store; [done|done|]. by left.
Qed.

Lemma mixed_run_send_loop_touch js : ∀ pre s js' s' rs0,
  mixed_loop_inv (Mixed.heap_next s) (Mixed.last_res s) pre js (Mixed.first_res s) →
  Mixed.run_send_loop js s = Some (js', s') →
  Forall2 (mixed_touch js) rs0 (Mixed.first_res s) →
  Forall2 (mixed_touch []) rs0 (Mixed.first_res s').
Proof.
  induction js as [|j js IH]; intros pre s js' s' rs0 Hinv; simpl.
  - by intros [= <- <-].
  - intros H Ht. apply bind_Some in H as ([j1 s1] & H1 & H).
    apply bind_Some in H as ([js2 s2] & H2 & H). simplify_eq.
    destruct (mixed_run_send_job_inv _ _ _ _ Hinv) as (j1' & s1' & Hrun & Hn1 & Hl1 & Hinv1).
    rewrite H1 in Hrun. injection Hrun as <- <-.
    rewrite <- Hn1, <- Hl1 in Hinv1.
    eapply (IH _ _ _ _ _ Hinv1 H2). by eapply mixed_run_send_job_touch.
Qed.

(** In one executor pass the [used_time] of every resource is left as it
    is or incremented once; [total_time] is not touched. *)
Lemma mixed_run_send_used s s' :
  mixed_mid s → Mixed.run_send s = Some s' →
  Forall2 (λ r r', Mixed.r_addr r' = Mixed.r_addr r ∧
                   Mixed.r_total_time r' = Mixed.r_total_time r ∧
                   (Mixed.r_used_time r' = Mixed.r_used_time r ∨
                    Mixed.r_used_time r' = float_incr (Mixed.r_used_time r)))
    (Mixed.first_res s) (Mixed.first_res s').
Proof.
  intros [[Hpool Htail Hserv Hcl Htime] Hslack] Hrun.
  unfold Mixed.run_send in Hrun. apply bind_Some in Hrun as ([js s1] & Hloop & [= <-]).
  simpl.
  eapply Forall2_impl.
  - eapply (mixed_run_send_loop_touch _ [] s); [|done|].
    + split_and!; [done..|].
      apply Forall_forall. intros j Hj a r Hact Ha Hr.
      eapply Forall_forall in Hserv; [|done].
      destruct Hact as [st Hst]. destruct (Hserv st Hst) as (a' & r' & Ha' & Hr' & Hrst).
      rewrite Ha in Ha'. injection Ha' as <-. rewrite Hr in Hr'. injection Hr' as <-.
      apply deref_Some in Hr as [Hin _]. eapply Forall_forall in Hslack; [|done].
      destruct Hslack as [Hav|?]; [|done].
      rewrite Hav in Hrst. subst st. by destruct (Mixed.j_state j).
    + apply Forall2_same_length_lookup_2; [done|].
      intros i r r' Hi Hi'. rewrite Hi in Hi'. injection Hi' as <-.
      split_and!; [done..|by left].
  - intros r r' (Ha & Ht & [Hu|[Hu _]]); auto.
Qed.

(** *** The tail pointer after a removal

    After 13 ticks of this run the pool is [res 1; res 2] with res 2
    LEAVING and [last_res] pointing to it; tick 14 frees res 2 and then
    calls [add_res], which writes [last_res->next]. *)
Example mixed_add_res_after_tail_freed :
  (λ s, (Mixed.r_addr <$> Mixed.first_res s, Mixed.r_state <$> Mixed.first_res s,
         Mixed.last_res s))
    <$> (match Mixed.run 13 (Mixed.init tail_leaves_random tail_leaves_malloc) with
         | Running s => Some s
         | _ => None
         end)
  = Some ([1; 2]%nat, [Mixed.AVAILABLE; Mixed.LEAVING], Some 2%nat) ∧
  Mixed.run 14 (Mixed.init tail_leaves_random tail_leaves_malloc) = Undefined.
Proof. split; vm_compute; reflexivity. Qed.

(** ** The AR simulator: the executor's pass over one resource *)

Lemma store_at_id {A} (addr : A → nat) a (l : list A) : store_at addr a (λ x, x) l = l.
Proof.
  unfold store_at. etransitivity; [|apply list_fmap_id].
  apply list_fmap_ext. intros i x _. by destruct (Nat.eqb (addr x) a).
Qed.

Lemma ar_soft_refl j : ar_soft j j.
Proof. by left. Qed.

Lemma ar_soft_trans j1 j2 j3 : ar_soft j1 j2 → ar_soft j2 j3 → ar_soft j1 j3.
Proof. unfold ar_soft. intros [?|[?|?]] [?|[?|?]]; intuition congruence. Qed.

Lemma ar_job_at_store a b f s :
  (∀ x, AR.j_addr (f x) = AR.j_addr x) →
  AR.job_at b (AR.store_job a f s)
  = if Nat.eqb b a then f <$> AR.job_at b s else AR.job_at b s.
Proof. intros Hf. unfold AR.job_at, AR.store_job. simpl. by apply deref_store_at. Qed.

(** "run job" on the head reservation. *)
Lemma ar_run_head_spec r a q s j :
  AR.job_at a s = Some j →
  ∃ r' s' f, AR.run_head r a q s = Some (r', s') ∧
    AR.first_job s' = store_at AR.j_addr a f (AR.first_job s) ∧
    AR.heap_next s' = AR.heap_next s ∧ AR.last_job s' = AR.last_job s ∧
    (∀ x, AR.j_addr (f x) = AR.j_addr x) ∧
    AR.r_addr r' = AR.r_addr r ∧ AR.r_total_time r' = AR.r_total_time r ∧
    ((AR.j_state j = AR.RUNNING ∧
      AR.r_used_time r' = float_incr (AR.r_used_time r) ∧
      ((AR.r_rsv r' = q ∧ ∀ x, AR.j_state (f x) = AR.DONE) ∨
       (AR.r_rsv r' = AR.r_rsv r ∧ ∀ x, AR.j_state (f x) = AR.j_state x))) ∨
     (AR.j_state j = AR.READY_TO_RUN ∧ r' = r ∧ ∀ x, AR.j_state (f x) = AR.RUNNING) ∨
     (AR.j_state j ≠ AR.RUNNING ∧ AR.j_state j ≠ AR.READY_TO_RUN ∧ r' = r ∧ ∀ x, f x = x)).
Proof.
  intros Hj. unfold AR.run_head. rewrite Hj. simpl.
  destruct (AR.j_state j) eqn:Hst;
    try (exists r, s, (λ x, x); split_and!; [done|by rewrite store_at_id|done..|];
         right; right; done).
  - (* RUNNING *)
    destruct (AR.j_workload j - AR.r_level r <? 0).
    + simpl. destruct (Z.rem _ 1000 <=? AR.RL_PROB);
        eexists _, _, (AR.set_j_state AR.DONE ∘ AR.set_j_workload _);
        (split_and!; [done|simpl; by rewrite (store_at_compose AR.j_addr)|done..|]);
        left; split_and!; try done; left; done.
    + eexists _, _, _. split_and!; [done..|]. left. split_and!; try done. by right.
  - (* READY_TO_RUN *)
    eexists _, _, _. split_and!; [done..|]. right. by left.
Qed.

Lemma store_at_fmap {A} (addr : A → nat) a f (l : list A) :
  store_at addr a f l = at_addr addr a f <$> l.
Proof. done. Qed.

Lemma at_addr_addr {A} (addr : A → nat) a f x :
  (∀ y, addr (f y) = addr y) → addr (at_addr addr a f x) = addr x.
Proof. intros Hf. unfold at_addr. by destruct (Nat.eqb (addr x) a). Qed.

Lemma at_addr_ne {A} (addr : A → nat) a f x : addr x ≠ a → at_addr addr a f x = x.
Proof. intros Hne. unfold at_addr. by destruct (Nat.eqb_spec (addr x) a). Qed.

Lemma at_addr_eq {A} (addr : A → nat) a f x : addr x = a → at_addr addr a f x = f x.
Proof. intros Heq. unfold at_addr. by destruct (Nat.eqb_spec (addr x) a). Qed.

Lemma at_addr_soft a f x :
  (∀ y, ar_soft y (f y)) → ar_soft x (at_addr AR.j_addr a f x).
Proof. intros Hf. unfold at_addr. destruct (Nat.eqb (AR.j_addr x) a); [done|by left]. Qed.

(** "send input data": the walk returns, touches only jobs of the chain
    and moves them to READY_TO_RUN or SENDING_DATA at most. *)
Lemma ar_send_walk_spec q : ∀ s,
  (∀ b, b ∈ q → is_Some (AR.job_at b s)) →
  ∃ s' G, AR.send_walk q s = Some s' ∧ AR.first_job s' = G <$> AR.first_job s ∧
    AR.heap_next s' = AR.heap_next s ∧ AR.last_job s' = AR.last_job s ∧
    ∀ x, AR.j_addr (G x) = AR.j_addr x ∧ (AR.j_addr x ∉ q → G x = x) ∧ ar_soft x (G x).
Proof.
  induction q as [|a q IH]; intros s Hq; simpl.
  { exists s, id. rewrite list_fmap_id. split_and!; [done..|].
    intros x. split_and!; [done..|by left]. }
  destruct (Hq a) as [j Hj]; [by left|]. rewrite Hj. simpl.
  assert (∀ s' G, AR.send_walk q s = Some s' ∧ AR.first_job s' = G <$> AR.first_job s ∧
            AR.heap_next s' = AR.heap_next s ∧ AR.last_job s' = AR.last_job s ∧
            (∀ x, AR.j_addr (G x) = AR.j_addr x ∧ (AR.j_addr x ∉ q → G x = x) ∧ ar_soft x (G x)) →
          AR.send_walk q s = Some s' ∧ AR.first_job s' = G <$> AR.first_job s ∧
            AR.heap_next s' = AR.heap_next s ∧ AR.last_job s' = AR.last_job s ∧
            (∀ x, AR.j_addr (G x) = AR.j_addr x ∧ (AR.j_addr x ∉ a :: q → G x = x) ∧
                  ar_soft x (G x))) as Hweak.
  { intros s' G (? & ? & ? & ? & HG). split_and!; [done..|].
    intros x. destruct (HG x) as (? & Hout & ?). split_and!; [done| |done].
    intros Hx. apply Hout. intros Hx'. apply Hx. by right. }
  assert (∃ s' G, AR.send_walk q s = Some s' ∧ AR.first_job s' = G <$> AR.first_job s ∧
            AR.heap_next s' = AR.heap_next s ∧ AR.last_job s' = AR.last_job s ∧
            (∀ x, AR.j_addr (G x) = AR.j_addr x ∧ (AR.j_addr x ∉ a :: q → G x = x) ∧
                  ar_soft x (G x))) as Hrec.
  { destruct (IH s) as (s' & G & HG); [intros b Hb; apply Hq; by right|].
    exists s', G. by apply Hweak. }
  assert (∀ f, (∀ y, AR.j_addr (f y) = AR.j_addr y) → (∀ y, ar_soft y (f y)) →
            ∀ x, AR.j_addr (at_addr AR.j_addr a f x) = AR.j_addr x ∧
                 (AR.j_addr x ∉ a :: q → at_addr AR.j_addr a f x = x) ∧
                 ar_soft x (at_addr AR.j_addr a f x)) as Hone.
  { intros f Hf Hs x. split_and!; [by apply at_addr_addr| |by apply at_addr_soft].
    intros Hx. apply at_addr_ne. intros Heq. apply Hx. rewrite Heq. by left. }
  destruct (AR.j_state j) eqn:Hst; try done.
  - (* SENDING_DATA *)
    destruct (AR.j_send_data j - 1 <=? 0).
    + destruct q as [|b q'].
      * eexists _, (at_addr AR.j_addr a
                      (AR.set_j_state AR.READY_TO_RUN ∘ AR.set_j_send_data (AR.j_send_data j - 1))).
        split_and!; [done| |done..|].
        { simpl. by rewrite (store_at_compose AR.j_addr). }
        apply Hone; [done|]. intros y. right. by left.
      * destruct (Hq b) as [jb Hjb]; [right; by left|].
        rewrite !ar_job_at_store, Hjb by done. simpl.
        assert (is_Some (if (b =? a)%nat
                         then AR.set_j_state AR.READY_TO_RUN <$>
                              (if (b =? a)%nat
                               then Some (AR.set_j_send_data (AR.j_send_data j - 1) jb)
                               else Some jb)
                         else if (b =? a)%nat
                              then Some (AR.set_j_send_data (AR.j_send_data j - 1) jb)
                              else Some jb)) as [jb' ->].
        { by destruct (b =? a)%nat. }
        simpl.
        eexists _, (at_addr AR.j_addr b (AR.set_j_state AR.SENDING_DATA) ∘
                    at_addr AR.j_addr a
                      (AR.set_j_state AR.READY_TO_RUN ∘
                       AR.set_j_send_data (AR.j_send_data j - 1))).
        split_and!; [done| |done..|].
        { simpl. rewrite (store_at_compose AR.j_addr) by done.
          by rewrite !store_at_fmap, <- list_fmap_compose. }
        intros x. simpl. split_and!.
        -- rewrite !at_addr_addr; done.
        -- intros Hx.
           assert (AR.j_addr x ≠ a) as Hxa by (intros Heq; apply Hx; rewrite Heq; by left).
           assert (AR.j_addr x ≠ b) as Hxb
             by (intros Heq; apply Hx; rewrite Heq; right; by left).
           rewrite (at_addr_ne _ a) by done. by rewrite at_addr_ne.
        -- eapply ar_soft_trans; apply at_addr_soft; intros y; right; [by left|by right].
    + eexists _, (at_addr AR.j_addr a (AR.set_j_send_data (AR.j_send_data j - 1))).
      split_and!; [done..|]. apply Hone; [done|]. intros y. by left.
  - (* WAITING_TO_SEND_DATA *)
    eexists _, (at_addr AR.j_addr a (AR.set_j_state AR.SENDING_DATA)).
    split_and!; [done..|]. apply Hone; [done|]. intros y. right. by right.
Qed.

Lemma ar_run_send_res_spec r s :
  NoDup (AR.r_rsv r) → (∀ b, b ∈ AR.r_rsv r → is_Some (AR.job_at b s)) →
  ∃ r' s' H, AR.run_send_res r s = Some (r', s') ∧
    AR.first_job s' = H <$> AR.first_job s ∧
    AR.heap_next s' = AR.heap_next s ∧ AR.last_job s' = AR.last_job s ∧
    ar_pass r r' H.
Proof.
  intros Hnd Hq. unfold AR.run_send_res.
  destruct (AR.r_rsv r) as [|a q] eqn:Hrsv.
  { destruct (bool_decide (AR.r_state r = AR.NO_ACCEPT_JOBS)); simpl; rewrite Hrsv;
      eexists _, s, id; rewrite list_fmap_id;
      (split_and!; [done..|]); unfold ar_pass; simpl; rewrite Hrsv;
      (split_and!; [done..|by left|]); left; (split; [done|]); intros x; left; by left. }
  replace (bool_decide (a :: q = [])) with false by done.
  rewrite andb_false_r, Hrsv.
  destruct (Hq a) as [j Hj]; [by left|].
  destruct (ar_run_head_spec r a q s j Hj)
    as (r1 & s1 & f & -> & Hjobs1 & Hn1 & Hl1 & Hf & Ha1 & Ht1 & Hcases).
  simpl.
  assert (AR.r_rsv r1 = a :: q ∨ AR.r_rsv r1 = q) as Hrsv1.
  { rewrite Hrsv in Hcases. destruct Hcases as [(_ & _ & [[? _]|[? _]])|[(_ & -> & _)|(_ & _ & -> & _)]];
      auto. }
  destruct (ar_send_walk_spec (AR.r_rsv r1) s1) as (s2 & G & -> & Hjobs2 & Hn2 & Hl2 & HG).
  { intros b Hb. unfold AR.job_at. rewrite Hjobs1, deref_store_at by done.
    destruct (Hq b) as [jb Hjb].
    - destruct Hrsv1 as [Hr1|Hr1]; rewrite Hr1 in Hb; [done|by right].
    - unfold AR.job_at in Hjb. rewrite Hjb. by destruct (b =? a)%nat. }
  simpl. exists r1, s2, (G ∘ at_addr AR.j_addr a f).
  split_and!; [done| |congruence..|].
  { by rewrite Hjobs2, Hjobs1, store_at_fmap, <- list_fmap_compose. }
  apply NoDup_cons in Hnd as [Haq Hndq].
  unfold ar_pass. rewrite Hrsv. split_and!; [| |done..| |].
  - intros x. simpl. destruct (HG (at_addr AR.j_addr a f x)) as (-> & _ & _).
    by apply at_addr_addr.
  - intros x Hx. simpl.
    assert (AR.j_addr x ≠ a) as Hxa by (intros Heq; apply Hx; rewrite Heq; by left).
    rewrite at_addr_ne by done. apply HG. intros Hin. apply Hx.
    destruct Hrsv1 as [Hr1|Hr1]; rewrite Hr1 in Hin; [done|by right].
  - destruct Hcases as [(_ & -> & _)|[(_ & -> & _)|(_ & _ & -> & _)]]; auto.
  - destruct Hcases as [(Hst & _ & [[Hr1 Hdone]|[Hr1 Hsame]])|[(Hst & -> & Hrun)|(_ & _ & -> & Hid)]].
    + right. exists a. rewrite Hr1. split_and!; [done| |].
      * intros x Hx. simpl. rewrite at_addr_eq by done.
        destruct (HG (f x)) as (_ & HGx & _).
        rewrite HGx; [apply Hdone|]. by rewrite Hf, Hx, Hr1.
      * intros x Hx. simpl. rewrite at_addr_ne by done. apply HG.
    + left. split; [by rewrite Hr1|]. intros x. left. simpl.
      destruct (HG (at_addr AR.j_addr a f x)) as (_ & _ & Hs).
      eapply ar_soft_trans; [|done]. apply at_addr_soft. intros y. left. apply Hsame.
    + left. split; [done|]. intros x. simpl.
      destruct (HG (at_addr AR.j_addr a f x)) as (_ & _ & Hs).
      destruct (decide (AR.j_addr x = a)) as [Hxa|Hxa].
      * rewrite at_addr_eq in Hs |- * by done.
        destruct Hs as [Hs|[Hs|Hs]]; [|by left; right; left|by left; right; right].
        right. split; [by rewrite Hxa|]. by rewrite Hs.
      * rewrite at_addr_ne in Hs |- * by done. by left.
    + left. split; [done|]. intros x. left. simpl.
      destruct (HG (at_addr AR.j_addr a f x)) as (_ & _ & Hs).
      eapply ar_soft_trans; [|done]. apply at_addr_soft. intros y. left. by rewrite Hid.
Qed.

(** *** The loop of the executor *)

#[local] Arguments ar_queued : simpl never.

Lemma pool_ok_addrs {A} (addr : A → nat) n (l l' : list A) :
  addr <$> l' = addr <$> l → pool_ok addr n l → pool_ok addr n l'.
Proof.
  intros Heq [Hnd Hfr]. split; [by rewrite Heq|].
  apply (Forall_fmap addr (λ a, (a < n)%nat)). rewrite Heq.
  by apply (Forall_fmap addr (λ a, (a < n)%nat)).
Qed.

Lemma ar_queued_app l1 l2 : ar_queued (l1 ++ l2) = ar_queued l1 ++ ar_queued l2.
Proof. apply bind_app. Qed.

Lemma ar_queued_cons r l : ar_queued (r :: l) = AR.r_rsv r ++ ar_queued l.
Proof. done. Qed.

Lemma ar_queued_elem r l b : r ∈ l → b ∈ AR.r_rsv r → b ∈ ar_queued l.
Proof. intros Hr Hb. apply list_elem_of_bind. by exists r. Qed.

Lemma ar_entry_ok_fmap jobs H i b :
  (∀ x, AR.j_addr (H x) = AR.j_addr x) →
  (∀ x, AR.j_addr x = b → H x = x) →
  ar_entry_ok jobs i b → ar_entry_ok (H <$> jobs) i b.
Proof.
  intros Hadr Hid (j & Hj & Hst). exists j. split; [|done].
  rewrite deref_fmap, Hj by done. simpl. f_equal. apply Hid.
  by apply deref_Some in Hj as [_ ?].
Qed.

Lemma ar_pass_inv next la pre r r' rs jobs H :
  ar_loop_inv next la pre (r :: rs) jobs → ar_pass r r' H →
  ar_loop_inv next la (pre ++ [r']) rs (H <$> jobs).
Proof.
  intros (Hres & Hjobs & Htail & Hnd & Hq & Htime & Hslack)
         (Hadr & Hout & Ha & Htt & Hused & Hrsv).
  unfold ar_loop_inv. rewrite <- !app_assoc. simpl.
  rewrite ar_queued_app, ar_queued_cons in Hnd.
  apply NoDup_app in Hnd as (Hnd_pre & Hdis_pre & Hnd_r).
  apply NoDup_app in Hnd_r as (Hnd_r & Hdis_r & Hnd_rs).
  apply Forall_app in Hq as [Hq_pre Hq_r]. apply Forall_cons in Hq_r as [Hq_r Hq_rs].
  apply Forall_app in Htime as [Ht_pre Ht_r]. apply Forall_cons in Ht_r as [Ht_r Ht_rs].
  apply Forall_cons in Hslack as [Hsl_r Hsl_rs].
  assert (AR.r_rsv r' `sublist_of` AR.r_rsv r) as Hsub.
  { destruct Hrsv as [[-> _]|(a & -> & _)]; [done|by constructor]. }
  split_and!.
  - eapply pool_ok_addrs; [|done]. by rewrite !fmap_app, !fmap_cons, Ha.
  - by apply pool_ok_fmap.
  - apply tail_ok_fmap; [done|apply Hjobs|done].
  - rewrite ar_queued_app, ar_queued_cons.
    eapply sublist_NoDup.
    + apply NoDup_app. split_and!; [exact Hnd_pre|exact Hdis_pre|].
      apply NoDup_app. split_and!; [exact Hnd_r|exact Hdis_r|exact Hnd_rs].
    + apply sublist_app; [done|]. by apply sublist_app.
  - apply Forall_app. split; [|apply Forall_cons; split].
    + apply Forall_forall. intros r2 Hr2 i b Hb.
      eapply Forall_forall in Hq_pre; [|done].
      apply ar_entry_ok_fmap; [done| |by apply Hq_pre].
      intros x Hx. apply Hout. rewrite Hx. intros Hin.
      apply (Hdis_pre b); [|apply elem_of_app; by left].
      eapply ar_queued_elem; [done|]. by eapply list_elem_of_lookup_2.
    + intros i b Hb.
      destruct Hrsv as [[Heq Hsoft]|(a & Heq & Hdone & Hsoft)].
      * rewrite Heq in Hb. destruct (Hq_r i b Hb) as (j & Hj & Hw & Hd & Hrun).
        exists (H j). split; [by rewrite deref_fmap, Hj|].
        destruct (Hsoft j) as [[Hs|[Hs|Hs]]|[Hhead Hs]]; rewrite Hs;
          split_and!; try done.
        intros Hi _. apply deref_Some in Hj as [_ Hjb].
        rewrite Hjb in Hhead. destruct (AR.r_rsv r) as [|b0 q] eqn:Hrr; [done|].
        simpl in Hhead. injection Hhead as ->.
        destruct i as [|i]; [done|]. simpl in Hb.
        apply NoDup_cons in Hnd_r as [Hnin _]. apply Hnin.
        by eapply list_elem_of_lookup_2.
      * assert (AR.r_rsv r !! S i = Some b) as Hb' by by rewrite Heq.
        destruct (Hq_r (S i) b Hb') as (j & Hj & Hw & Hd & Hrun).
        exists (H j). split; [by rewrite deref_fmap, Hj|].
        assert (AR.j_addr j ≠ a) as Hne.
        { apply deref_Some in Hj as [_ ->]. intros ->.
          rewrite Heq in Hnd_r. apply NoDup_cons in Hnd_r as [Hnin _]. apply Hnin.
          by eapply list_elem_of_lookup_2. }
        specialize (Hrun ltac:(done)).
        destruct (Hsoft j Hne) as [Hs|[Hs|Hs]]; rewrite Hs; split_and!; done.
    + apply Forall_forall. intros r2 Hr2 i b Hb.
      eapply Forall_forall in Hq_rs; [|done].
      apply ar_entry_ok_fmap; [done| |by apply Hq_rs].
      intros x Hx. apply Hout. rewrite Hx. intros Hin.
      apply (Hdis_r b); [done|].
      eapply ar_queued_elem; [done|]. by eapply list_elem_of_lookup_2.
  - apply Forall_app. split; [done|]. apply Forall_cons. split; [|done].
    unfold ar_time_ok in *. rewrite Htt.
    destruct Hused as [->|[Hne ->]]; [done|]. by destruct Hsl_r.
  - done.
Qed.

Lemma ar_run_send_loop_inv rs : ∀ pre s,
  ar_loop_inv (AR.heap_next s) (AR.last_job s) pre rs (AR.first_job s) →
  ∃ rs' s' H, AR.run_send_loop rs s = Some (rs', s') ∧
    AR.first_job s' = H <$> AR.first_job s ∧
    AR.heap_next s' = AR.heap_next s ∧ AR.last_job s' = AR.last_job s ∧
    (∀ x, AR.j_addr (H x) = AR.j_addr x) ∧
    (∀ x, AR.j_addr x ∉ ar_queued rs → H x = x) ∧
    Forall2 (ar_popped H) rs rs' ∧
    ar_loop_inv (AR.heap_next s) (AR.last_job s) (pre ++ rs') [] (AR.first_job s').
Proof.
  induction rs as [|r rs IH]; intros pre s Hinv; simpl.
  { exists [], s, id. rewrite list_fmap_id, app_nil_r. split_and!; done. }
  assert (NoDup (AR.r_rsv r) ∧ (∀ b, b ∈ ar_queued rs → b ∉ AR.r_rsv r) ∧
          ∀ b, b ∈ AR.r_rsv r → is_Some (AR.job_at b s)) as (Hnd_r & Hdis & Hlive).
  { destruct Hinv as (_ & _ & _ & Hnd & Hq & _).
    rewrite ar_queued_app, ar_queued_cons in Hnd.
    apply NoDup_app in Hnd as (_ & _ & Hnd). apply NoDup_app in Hnd as (Hnd & Hdis & _).
    split_and!; [done|intros b Hb Hb'; by eapply Hdis|].
    intros b [i Hb]%list_elem_of_lookup_1.
    apply Forall_app in Hq as [_ Hq]. apply Forall_cons in Hq as [Hq _].
    destruct (Hq i b Hb) as (j & Hj & _). by exists j. }
  destruct (ar_run_send_res_spec r s Hnd_r Hlive) as (r' & s1 & H1 & -> & Hj1 & Hn1 & Hl1 & Hpass).
  simpl. pose proof (ar_pass_inv _ _ _ _ _ _ _ _ Hinv Hpass) as Hinv1.
  rewrite <- Hj1, <- Hn1, <- Hl1 in Hinv1.
  destruct (IH _ _ Hinv1) as (rs' & s2 & H2 & -> & Hj2 & Hn2 & Hl2 & Hadr2 & Hout2 & Hpop2 & Hinv2).
  simpl. exists (r' :: rs'), s2, (H2 ∘ H1).
  destruct Hpass as (Hadr1 & Hout1 & Ha1 & Htt1 & Hused1 & Hrsv1).
  split_and!; [done| |congruence..| | | |].
  - by rewrite Hj2, Hj1, <- list_fmap_compose.
  - intros x. simpl. by rewrite Hadr2, Hadr1.
  - intros x Hx. simpl. rewrite ar_queued_cons in Hx.
    rewrite Hout1; [|intros Hin; apply Hx, elem_of_app; by left].
    apply Hout2. intros Hin. apply Hx, elem_of_app. by right.
  - constructor.
    + split; [split_and!; [done..|destruct Hused1 as [?|[_ ?]]; auto]|].
      destruct Hrsv1 as [[Heq _]|(a & Heq & Hdone & _)]; [by left|].
      right. exists a. split; [done|]. intros x Hx. simpl.
      rewrite Hout2; [by apply Hdone|]. rewrite Hadr1, Hx. intros Hin.
      apply (Hdis a Hin). rewrite Heq. by left.
    + eapply Forall2_impl; [done|]. intros r2 r2' [Ha2 Hr2]. split; [done|].
      destruct Hr2 as [?|(a & Heq & Hdone)]; [by left|].
      right. exists a. split; [done|]. intros x Hx. simpl. apply Hdone.
      by rewrite Hadr1.
  - rewrite <- app_assoc in Hinv2. simpl in Hinv2. by rewrite <- Hn1, <- Hl1.
Qed.

(** The executor returns from a state that satisfies the invariant, and
    the invariant holds again. *)
Lemma ar_run_send_wf s :
  ar_mid s →
  ∃ s' H, AR.run_send s = Some s' ∧ ar_wf s' ∧
    AR.first_job s' = H <$> AR.first_job s ∧
    AR.heap_next s' = AR.heap_next s ∧
    (∀ x, AR.j_addr (H x) = AR.j_addr x) ∧
    (∀ x, AR.j_addr x ∉ ar_queued (AR.first_res s) → H x = x) ∧
    Forall2 (ar_popped H) (AR.first_res s) (AR.first_res s').
Proof.
  intros [[Hres Hjobs Htail Hnd Hq Htime] Hslack].
  destruct (ar_run_send_loop_inv (AR.first_res s) [] s)
    as (rs' & s1 & H & Hrun & Hj & Hn & Hl & Hadr & Hout & Hpop & Hinv).
  { split_and!; done. }
  unfold AR.run_send. rewrite Hrun. simpl. eexists _, H.
  split_and!; [done| |done..].
  destruct Hinv as (Hres' & Hjobs' & Htail' & Hnd' & Hq' & Htime' & _).
  rewrite app_nil_r in *. simpl in *.
  split; simpl; rewrite ?Hn, ?Hl; done.
Qed.

Lemma ar_mid_ext s s' :
  ar_mid s →
  AR.first_res s' = AR.first_res s → AR.first_job s' = AR.first_job s →
  AR.last_job s' = AR.last_job s → (AR.heap_next s ≤ AR.heap_next s')%nat →
  ar_mid s'.
Proof.
  intros [[Hres Hjobs Htail Hnd Hq Htime] Hslack] Hr Hj Hl Hn.
  split; [split|]; rewrite ?Hr, ?Hj, ?Hl; try done; by eapply pool_ok_mono.
Qed.

Lemma ar_wf_ext s s' :
  ar_wf s →
  AR.first_res s' = AR.first_res s → AR.first_job s' = AR.first_job s →
  AR.last_job s' = AR.last_job s → (AR.heap_next s ≤ AR.heap_next s')%nat →
  ar_wf s'.
Proof.
  intros [Hres Hjobs Htail Hnd Hq Htime] Hr Hj Hl Hn.
  split; rewrite ?Hr, ?Hj, ?Hl; try done; by eapply pool_ok_mono.
Qed.

(** *** traceall *)

Lemma ar_trace_body_frame s :
  AR.heap_next (AR.trace_body s) = AR.heap_next s ∧
  AR.last_job (AR.trace_body s) = AR.last_job s.
Proof.
  unfold AR.trace_body.
  destruct (AR.trace_jobs _ _ _ _) as [[js d] rc].
  destruct (AR.trace_res _ _) as [rs g]. done.
Qed.

Lemma ar_queued_fmap (g : AR.resource → AR.resource) rs :
  (∀ r, AR.r_rsv (g r) = AR.r_rsv r) → ar_queued (g <$> rs) = ar_queued rs.
Proof.
  intros Hg. induction rs as [|r rs IH]; [done|].
  by rewrite fmap_cons, !ar_queued_cons, IH, Hg.
Qed.

Lemma ar_entry_ok_fmap_state jobs G i b :
  (∀ x, AR.j_addr (G x) = AR.j_addr x ∧ AR.j_state (G x) = AR.j_state x) →
  ar_entry_ok jobs i b → ar_entry_ok (G <$> jobs) i b.
Proof.
  intros HG (j & Hj & Hst). exists (G j). destruct (HG j) as [_ ->].
  split; [|done]. rewrite deref_fmap, Hj; [done|]. intros x. apply HG.
Qed.

Lemma ar_trace_body_mid s : ar_wf s → ar_mid (AR.trace_body s).
Proof.
  intros [Hres Hjobs Htail Hnd Hq Htime].
  destruct (ar_trace_body_frame s) as [Hn Hl].
  split; [split|]; rewrite ?Hn, ?Hl, ?ar_trace_body_res, ?ar_trace_body_jobs.
  - by apply pool_ok_fmap.
  - apply pool_ok_fmap; [|done]. intros j. by destruct (ar_waits j).
  - apply tail_ok_fmap; [|apply Hjobs|done]. intros j. by destruct (ar_waits j).
  - by rewrite ar_queued_fmap.
  - apply Forall_fmap. eapply Forall_impl; [exact Hq|]. intros r Hr i b Hb.
    apply ar_entry_ok_fmap_state; [|by apply Hr].
    intros j. by destruct (ar_waits j).
  - apply Forall_fmap. eapply Forall_impl; [exact Htime|].
    intros r Hr. unfold ar_time_ok in *. simpl.
    pose proof (float_incr_le (AR.r_total_time r)). lia.
  - apply Forall_fmap. eapply Forall_impl; [exact Htime|].
    intros r Hr. right. simpl. by apply float_incr_mono.
Qed.

(** *** remove_done_jobs, remove_leaving_resources *)

Lemma ar_remove_done_jobs_mid s : ar_mid s → ar_mid (AR.remove_done_jobs s).
Proof.
  intros [[Hres Hjobs Htail Hnd Hq Htime] Hslack].
  split; [split|]; simpl; try done.
  - by apply pool_ok_filter.
  - by apply tail_ok_filter.
  - eapply Forall_impl; [exact Hq|]. intros r Hr i b Hb.
    destruct (Hr i b Hb) as (j & Hj & Hst). exists j. split; [|done].
    apply deref_filter; [apply Hjobs|done|]. apply Hst.
Qed.

Lemma ar_remove_leaving_resources_mid s : ar_mid s → ar_mid (AR.remove_leaving_resources s).
Proof.
  intros [[Hres Hjobs Htail Hnd Hq Htime] Hslack].
  split; [split|]; simpl; try done.
  - by apply pool_ok_filter.
  - eapply sublist_NoDup; [done|]. apply bind_sublist, sublist_filter.
  - apply Forall_forall. intros r [_ Hr]%list_elem_of_filter.
    by eapply Forall_forall in Hq.
  - apply Forall_forall. intros r [_ Hr]%list_elem_of_filter.
    by eapply Forall_forall in Htime.
  - apply Forall_forall. intros r [_ Hr]%list_elem_of_filter.
    by eapply Forall_forall in Hslack.
Qed.

(** *** add_res, add_job *)

#[local] Arguments link_after : simpl never.

Lemma ar_mid_new_res s s' k r :
  ar_mid s →
  AR.r_addr r = AR.heap_next s → AR.r_rsv r = [] →
  AR.r_total_time r = 0 → AR.r_used_time r = 0 →
  AR.first_res s' = take k (AR.first_res s) ++ [r] →
  AR.first_job s' = AR.first_job s →
  AR.last_job s' = AR.last_job s →
  AR.heap_next s' = S (AR.heap_next s) →
  ar_mid s'.
Proof.
  intros [[Hres Hjobs Htail Hnd Hq Htime] Hslack] Ha Hrsv Htt Hut Hr Hj Hl Hn.
  split; [split|]; rewrite ?Hr, ?Hj, ?Hl, ?Hn; try done.
  - apply pool_ok_snoc; [|done]. by apply pool_ok_take.
  - eapply pool_ok_mono; [|done]. lia.
  - rewrite ar_queued_app, ar_queued_cons, Hrsv. simpl. rewrite app_nil_r.
    eapply sublist_NoDup; [done|]. apply bind_sublist, sublist_take.
  - apply Forall_app. split; [by apply Forall_take|]. apply Forall_singleton.
    intros i b. by rewrite Hrsv.
  - apply Forall_app. split; [by apply Forall_take|]. apply Forall_singleton.
    unfold ar_time_ok. lia.
  - apply Forall_app. split; [by apply Forall_take|]. apply Forall_singleton. by left.
Qed.

Lemma ar_add_res_mid s s' : ar_mid s → AR.add_res s = Some s' → ar_mid s'.
Proof.
  intros Hmid. unfold AR.add_res, AR.malloc.
  destruct (AR.malloc_src s (AR.malloc_pos s)); simpl.
  - set (r := AR.mkResource (AR.heap_next s) _ _ _ _ _ _ _).
    destruct (AR.first_res s) as [|r0 rs] eqn:Hrs; simpl.
    + intros [= <-]. eapply (ar_mid_new_res s _ 0%nat r); try done; simpl; by rewrite Hrs.
    + intros H. apply bind_Some in H as (la & Hla & H).
      apply bind_Some in H as (rs' & Hlink & [= <-]).
      apply link_after_cut in Hlink as [k ->].
      eapply (ar_mid_new_res s _ k r); try done; simpl; by rewrite Hrs.
  - intros [= <-]. eapply ar_mid_ext; [done..|simpl; lia].
Qed.

Lemma ar_entry_ok_app jobs j i b : ar_entry_ok jobs i b → ar_entry_ok (jobs ++ [j]) i b.
Proof.
  intros (j0 & Hj0 & Hst). exists j0. split; [|done]. by apply deref_app_l.
Qed.

Lemma ar_mid_new_job s s' j :
  ar_mid s →
  AR.j_addr j = AR.heap_next s →
  AR.first_res s' = AR.first_res s →
  AR.first_job s' = AR.first_job s ++ [j] →
  AR.last_job s' = Some (AR.j_addr j) →
  AR.heap_next s' = S (AR.heap_next s) →
  ar_mid s'.
Proof.
  intros [[Hres Hjobs Htail Hnd Hq Htime] Hslack] Ha Hr Hj Hl Hn.
  split; [split|]; rewrite ?Hr, ?Hj, ?Hl, ?Hn; try done.
  - eapply pool_ok_mono; [|done]. lia.
  - by apply pool_ok_snoc.
  - apply tail_ok_snoc. by eapply pool_ok_fresh.
  - eapply Forall_impl; [exact Hq|]. intros r Hr' i b Hb. by apply ar_entry_ok_app, Hr'.
Qed.

Lemma ar_add_job_mid s s' : ar_mid s → AR.add_job s = Some s' → ar_mid s'.
Proof.
  intros Hmid. unfold AR.add_job, AR.malloc.
  destruct (AR.malloc_src s (AR.malloc_pos s)); simpl.
  - set (j := AR.mkJob (AR.heap_next s) _ _ _ _ _ _).
    destruct (AR.first_job s) as [|j0 js] eqn:Hjs; simpl.
    + intros [= <-]. eapply (ar_mid_new_job s _ j); try done; simpl; by rewrite Hjs.
    + intros H. apply bind_Some in H as (la & Hla & H).
      apply bind_Some in H as (js' & Hlink & [= <-]).
      eapply (link_after_append AR.j_addr (AR.last_job s)) in Hlink;
        [|rewrite <- Hjs; apply Hmid..|done].
      eapply (ar_mid_new_job s _ j); try done; simpl; by rewrite Hjs.
  - intros [= <-]. eapply ar_mid_ext; [done..|simpl; lia].
Qed.

Lemma ar_repeat_add_res_mid n s s' :
  ar_mid s → AR.repeat_add_res n s = Some s' → ar_mid s'.
Proof.
  revert s. induction n as [|n IH]; intros s Hmid; simpl; [by intros [= <-]|].
  intros H. apply bind_Some in H as (s1 & H1 & H).
  eapply IH; [|done]. by eapply ar_add_res_mid.
Qed.

Lemma ar_add_remove_mid s s' : ar_mid s → AR.add_remove s = Some s' → ar_mid s'.
Proof.
  intros Hmid. unfold AR.add_remove. intros H.
  apply bind_Some in H as (s1 & H1 & H).
  assert (ar_mid s1) as Hmid1.
  { destruct (AR.begin s); [|by injection H1 as <-].
    apply fmap_Some in H1 as (s0 & H0 & ->).
    eapply ar_mid_ext; [by eapply ar_repeat_add_res_mid|done..|simpl; lia]. }
  apply ar_remove_done_jobs_mid, ar_remove_leaving_resources_mid in Hmid1.
  simpl in H. unfold AR.add_on_draw in H.
  destruct (AR.admission_of_draw _).
  - eapply ar_add_res_mid; [|done].
    eapply ar_mid_ext; [exact Hmid1|done..|simpl; lia].
  - eapply ar_add_job_mid; [|done].
    eapply ar_mid_ext; [exact Hmid1|done..|simpl; lia].
  - injection H as <-. eapply ar_mid_ext; [exact Hmid1|done..|simpl; lia].
Qed.

(** *** schedule *)

Lemma ar_is_waiting_spec j : AR.is_waiting j = true ↔ AR.j_state j = AR.WAITING.
Proof. unfold AR.is_waiting. apply bool_decide_eq_true. Qed.

(** A WAITING job has no reservation. *)
Lemma ar_waiting_not_queued s j :
  ar_wf s → j ∈ AR.first_job s → AR.j_state j = AR.WAITING →
  AR.j_addr j ∉ ar_queued (AR.first_res s).
Proof.
  intros [Hres Hjobs Htail Hnd Hq Htime] Hj Hw Hin.
  apply list_elem_of_bind in Hin as (r & Hb & Hr).
  apply list_elem_of_lookup_1 in Hb as [i Hb].
  eapply Forall_forall in Hq; [|done].
  destruct (Hq i _ Hb) as (j' & Hj' & Hnw & _).
  rewrite (deref_NoDup AR.j_addr _ _ (proj1 Hjobs) Hj) in Hj'. by injection Hj' as <-.
Qed.

Lemma ar_entry_ok_store_other jobs a f i b :
  (∀ x, AR.j_addr (f x) = AR.j_addr x) → b ≠ a →
  ar_entry_ok jobs i b → ar_entry_ok (store_at AR.j_addr a f jobs) i b.
Proof.
  intros Hf Hne (j & Hj & Hst). exists j. split; [|done].
  rewrite deref_store_at by done. by destruct (Nat.eqb_spec b a).
Qed.

Lemma ar_bind_wf s k j bi r :
  ar_wf s →
  AR.first_job s !! k = Some j → AR.j_state j = AR.WAITING →
  AR.first_res s !! bi = Some r →
  ar_wf (AR.bind_job k bi j s).
Proof.
  intros Hwf Hj Hw Hr.
  assert (j ∈ AR.first_job s) as Hjin by by eapply list_elem_of_lookup_2.
  pose proof (ar_waiting_not_queued s j Hwf Hjin Hw) as Hfresh.
  destruct Hwf as [Hres Hjobs Htail Hnd Hq Htime].
  unfold AR.bind_job. split; simpl.
  - by apply pool_ok_alter.
  - by apply pool_ok_alter.
  - apply tail_ok_alter; [done|apply Hjobs|done].
  - erewrite alter_middle by done.
    rewrite <- (take_drop_middle _ _ _ Hr) in Hnd, Hfresh.
    rewrite ar_queued_app, ar_queued_cons in Hnd, Hfresh.
    rewrite ar_queued_app, ar_queued_cons. simpl.
    rewrite <- app_assoc. simpl.
    rewrite app_assoc. rewrite <- Permutation_middle.
    apply NoDup_cons. split; [|by rewrite <- app_assoc].
    by rewrite <- app_assoc.
  - rewrite (alter_store_at AR.j_addr _ _ _ j) by (done || apply Hjobs).
    assert (Forall (ar_queue_ok (store_at AR.j_addr (AR.j_addr j)
                                   (AR.set_j_state AR.WAITING_TO_SEND_DATA)
                                   (AR.first_job s))) (AR.first_res s)) as Hq'.
    { apply Forall_forall. intros r2 Hr2 i b Hb.
      eapply Forall_forall in Hq; [|done].
      apply ar_entry_ok_store_other; [done| |by apply Hq].
      intros ->. apply Hfresh. eapply ar_queued_elem; [done|].
      by eapply list_elem_of_lookup_2. }
    apply Forall_alter; [done|].
    intros r' Hr' Hok i b. simpl. intros Hb.
    apply lookup_app_Some in Hb as [Hb|[Hlen Hb]]; [by apply Hok|].
    apply list_lookup_singleton_Some in Hb as [_ <-].
    exists (AR.set_j_state AR.WAITING_TO_SEND_DATA j).
    split; [|done].
    rewrite deref_store_at, Nat.eqb_refl by done.
    by rewrite (deref_NoDup AR.j_addr _ _ (proj1 Hjobs) Hjin).
  - apply Forall_alter; [done|]. by intros r' _ Hr'.
Qed.

Lemma ar_malloc_frame s o s1 :
  AR.malloc s = (o, s1) →
  AR.first_res s1 = AR.first_res s ∧ AR.first_job s1 = AR.first_job s ∧
  AR.last_job s1 = AR.last_job s ∧ (AR.heap_next s ≤ AR.heap_next s1)%nat.
Proof.
  unfold AR.malloc. intros [= <- <-]. simpl.
  split_and!; [done..|]. destruct (AR.malloc_src _ _); lia.
Qed.

(** The scheduler leaves the pools alone or binds the first WAITING job
    to the least loaded accepting resource. *)
Lemma ar_schedule_cases s :
  ∃ s1, AR.first_res s1 = AR.first_res s ∧ AR.first_job s1 = AR.first_job s ∧
        AR.last_job s1 = AR.last_job s ∧ (AR.heap_next s ≤ AR.heap_next s1)%nat ∧
    (AR.schedule s = s1 ∨
     ∃ k j bi r, AR.first_job s !! k = Some j ∧ AR.j_state j = AR.WAITING ∧
       least_loaded (AR.first_res s) bi r ∧ AR.schedule s = AR.bind_job k bi j s1).
Proof.
  unfold AR.schedule.
  destruct (first_index AR.is_waiting (AR.first_job s)) as [k|] eqn:Hk.
  2:{ exists s. split_and!; [done..|]. by left. }
  apply first_index_Some in Hk as (j & Hj & Hw & _). apply ar_is_waiting_spec in Hw.
  destruct (AR.malloc s) as [o s1] eqn:Hm.
  destruct (ar_malloc_frame _ _ _ Hm) as (Hr1 & Hj1 & Hl1 & Hn1).
  exists s1. split_and!; [done..|].
  destruct o; [|by left].
  destruct (first_index AR.accepts (AR.first_res s1)) as [i0|] eqn:Hi0; [|by left].
  rewrite Hj1, Hj.
  destruct (first_index_Some _ _ _ Hi0) as (r0 & Hr0 & _). rewrite Hr0.
  pose proof (select_best_res_least_loaded _ _ _ Hi0 Hr0) as Hll.
  destruct (AR.select_best_res _ _ _) as [bi rb]. simpl in Hll.
  right. exists k, j, bi, rb. by rewrite <- Hr1.
Qed.

Lemma ar_schedule_wf s : ar_wf s → ar_wf (AR.schedule s).
Proof.
  intros Hwf.
  destruct (ar_schedule_cases s) as (s1 & Hr1 & Hj1 & Hl1 & Hn1 & Hcases).
  assert (ar_wf s1) as Hwf1 by by eapply ar_wf_ext.
  destruct Hcases as [->|(k & j & bi & r & Hj & Hw & (Hb & _) & ->)]; [done|].
  eapply ar_bind_wf; [done| |done|]; by rewrite ?Hj1, ?Hr1.
Qed.

(** *** main *)

Lemma ar_init_wf rnd mal : ar_wf (AR.init rnd mal).
Proof.
  split; simpl.
  - split; [apply NoDup_nil_2|apply Forall_nil_2].
  - split; [apply NoDup_nil_2|apply Forall_nil_2].
  - intros a x _ Hx. by apply elem_of_nil in Hx.
  - apply NoDup_nil_2.
  - apply Forall_nil_2.
  - apply Forall_nil_2.
Qed.

Lemma ar_traceall_Running s s1 : AR.traceall s = Running s1 → s1 = AR.trace_body s.
Proof. unfold AR.traceall. by destruct (_ >=? _); intros [= <-]. Qed.

Lemma ar_tick_wf s :
  ar_wf s →
  match AR.traceall s with
  | Running s1 =>
      match AR.add_remove s1 with
      | Some s2 => ar_mid s2 ∧ ∃ s3, AR.run_send s2 = Some s3 ∧ ar_wf s3 ∧
                     AR.tick s = Running (AR.schedule s3) ∧ ar_wf (AR.schedule s3)
      | None => AR.tick s = Undefined
      end
  | Exited s1 => AR.tick s = Exited s1
  | Undefined => False
  end.
Proof.
  intros Hwf. unfold AR.tick.
  destruct (AR.traceall s) as [s1|s1|] eqn:Ht; [|done|].
  - apply ar_traceall_Running in Ht as ->.
    pose proof (ar_trace_body_mid s Hwf) as Hmid1.
    destruct (AR.add_remove _) as [s2|] eqn:Ha; [|done].
    pose proof (ar_add_remove_mid _ _ Hmid1 Ha) as Hmid2.
    split; [done|].
    destruct (ar_run_send_wf s2 Hmid2) as (s3 & H & Hrs & Hwf3 & _).
    exists s3. rewrite Hrs. split_and!; [done..|]. by apply ar_schedule_wf.
  - unfold AR.traceall in Ht. by destruct (_ >=? _).
Qed.

Lemma ar_tick_Running_wf s s' : ar_wf s → AR.tick s = Running s' → ar_wf s'.
Proof.
  intros Hwf Htick. pose proof (ar_tick_wf s Hwf) as H.
  destruct (AR.traceall s) as [s1|s1|]; [|congruence|done].
  destruct (AR.add_remove s1) as [s2|]; [|congruence].
  destruct H as (_ & s3 & _ & _ & Ht & Hwf'). congruence.
Qed.

Lemma ar_run_wf n : ∀ s s', ar_wf s → AR.run n s = Running s' → ar_wf s'.
Proof.
  induction n as [|n IH]; intros s s' Hwf; simpl; [by intros [= <-]|].
  destruct (AR.tick s) as [s1|s1|] eqn:Ht; [|done..].
  apply IH. by eapply ar_tick_Running_wf.
Qed.

(** ** The AR simulator: reservation chains are queues *)

#[local] Arguments link_after : simpl never.
#[local] Arguments ar_queued : simpl never.

Lemma ar_wf_entry_bound s r a :
  ar_wf s → r ∈ AR.first_res s → a ∈ AR.r_rsv r → (a < AR.heap_next s)%nat.
Proof.
  intros [Hres Hjobs Htail Hnd Hq Htime] Hr Ha.
  apply list_elem_of_lookup_1 in Ha as [i Ha].
  eapply Forall_forall in Hq; [|done].
  destruct (Hq i a Ha) as (j & Hj & _). apply deref_Some in Hj as [Hj <-].
  destruct Hjobs as [_ Hfr]. by eapply Forall_forall in Hfr.
Qed.

Lemma ar_fifo_same_chain s s' r' r :
  r ∈ AR.first_res s → AR.r_addr r = AR.r_addr r' → AR.r_rsv r' = AR.r_rsv r →
  ∃ r0, r0 ∈ AR.first_res s ∧ AR.r_addr r0 = AR.r_addr r' ∧
    ∃ k new, AR.r_rsv r' = drop k (AR.r_rsv r0) ++ new ∧
             ∀ a, a ∈ take k (AR.r_rsv r0) → ar_gone a s'.
Proof.
  intros Hr Ha Hrsv. exists r. split_and!; [done..|].
  exists 0%nat, []. rewrite drop_0, app_nil_r. split; [done|].
  intros a Hin. rewrite take_0 in Hin. by apply elem_of_nil in Hin.
Qed.

Lemma ar_fifo_ext s s' :
  AR.first_res s' = AR.first_res s → AR.first_job s' = AR.first_job s →
  (AR.heap_next s ≤ AR.heap_next s')%nat → ar_fifo s s'.
Proof.
  intros Hr Hj Hn. split_and!; [done| |].
  - intros a _ Hg j. unfold AR.job_at. rewrite Hj. apply Hg.
  - intros r' Hr' _. rewrite Hr in Hr'. by eapply ar_fifo_same_chain.
Qed.

Lemma ar_fifo_refl s : ar_fifo s s.
Proof. by apply ar_fifo_ext. Qed.

Lemma ar_fifo_trans s s1 s2 :
  ar_wf s → ar_fifo s s1 → ar_fifo s1 s2 → ar_fifo s s2.
Proof.
  intros Hwf (Hn1 & Hg1 & Hq1) (Hn2 & Hg2 & Hq2). split_and!; [lia| |].
  - intros a Ha Hg. apply Hg2; [lia|]. by apply Hg1.
  - intros r2 Hr2 Ha2.
    destruct (Hq2 r2 Hr2) as (r1 & Hr1 & Ha1 & k2 & new2 & Hrsv2 & Hgone2); [lia|].
    destruct (Hq1 r1 Hr1) as (r & Hr & Ha & k1 & new1 & Hrsv1 & Hgone1); [lia|].
    exists r. split_and!; [done|congruence|].
    exists (k1 + k2)%nat, (drop (k2 - length (drop k1 (AR.r_rsv r))) new1 ++ new2).
    split.
    + by rewrite Hrsv2, Hrsv1, drop_app, drop_drop, app_assoc.
    + intros a Hin. rewrite <- take_take_drop in Hin.
      apply elem_of_app in Hin as [Hin|Hin].
      * apply Hg2; [|by apply Hgone1].
        assert (a < AR.heap_next s)%nat; [|lia].
        eapply ar_wf_entry_bound; [done..|].
        apply elem_of_take in Hin as (i & Hi & _). by eapply list_elem_of_lookup_2.
      * apply Hgone2. rewrite Hrsv1.
        apply elem_of_take in Hin as (i & Hi & Hlt).
        apply elem_of_take. exists i. split; [|done]. by apply lookup_app_l_Some.
Qed.

(** *** The steps of a tick *)

Lemma ar_fifo_trace_body s : ar_fifo s (AR.trace_body s).
Proof.
  destruct (ar_trace_body_frame s) as [Hn Hl]. split_and!; [lia| |].
  - intros a _ Hg j. unfold AR.job_at. rewrite ar_trace_body_jobs, deref_fmap.
    + intros Hj. apply fmap_Some in Hj as (j0 & Hj0 & ->).
      specialize (Hg j0 Hj0). by destruct (ar_waits j0).
    + intros x. by destruct (ar_waits x).
  - intros r' Hr' _. rewrite ar_trace_body_res in Hr'.
    apply list_elem_of_fmap in Hr' as (r & -> & Hr). by eapply ar_fifo_same_chain.
Qed.

Lemma ar_fifo_remove_done_jobs s : ar_mid s → ar_fifo s (AR.remove_done_jobs s).
Proof.
  intros [[_ [Hnd _] _ _ _ _] _]. split_and!; [done| |].
  - intros a _ Hg j Hj. apply Hg. unfold AR.job_at in *. simpl in Hj.
    by eapply deref_filter_Some.
  - intros r' Hr' _. by eapply ar_fifo_same_chain.
Qed.

Lemma ar_fifo_remove_leaving_resources s : ar_fifo s (AR.remove_leaving_resources s).
Proof.
  split_and!; [done..|].
  intros r' Hr' _. simpl in Hr'. apply list_elem_of_filter in Hr' as [_ Hr'].
  by eapply ar_fifo_same_chain.
Qed.

Lemma ar_add_res_jobs s s' :
  AR.add_res s = Some s' →
  AR.first_job s' = AR.first_job s ∧ (AR.heap_next s ≤ AR.heap_next s')%nat ∧
  ∀ r', r' ∈ AR.first_res s' → (AR.r_addr r' < AR.heap_next s)%nat → r' ∈ AR.first_res s.
Proof.
  unfold AR.add_res, AR.malloc.
  destruct (AR.malloc_src s (AR.malloc_pos s)); simpl.
  2:{ intros [= <-]. simpl. split_and!; [done..|]. by intros r' Hr' _. }
  destruct (AR.first_res s) as [|r0 rs] eqn:Hrs; simpl.
  - intros [= <-]. simpl. split_and!; [done|lia|].
    intros r' ->%list_elem_of_singleton. simpl. lia.
  - intros H. apply bind_Some in H as (la & Hla & H).
    apply bind_Some in H as (rs' & Hlink & [= <-]).
    apply link_after_cut in Hlink as [k ->]. simpl. split_and!; [done|lia|].
    intros r' [Hr'|Hr']%elem_of_app.
    + intros _. apply elem_of_take in Hr' as (i & Hi & _).
      by eapply list_elem_of_lookup_2.
    + apply list_elem_of_singleton in Hr' as ->. simpl. lia.
Qed.

Lemma ar_fifo_add_res s s' : AR.add_res s = Some s' → ar_fifo s s'.
Proof.
  intros H. destruct (ar_add_res_jobs s s' H) as (Hj & Hn & Hr).
  split_and!; [done| |].
  - intros a _ Hg j. unfold AR.job_at. rewrite Hj. apply Hg.
  - intros r' Hr' Ha. by eapply ar_fifo_same_chain; [apply Hr|..].
Qed.

Lemma deref_app {A} (addr : A → nat) a (l l' : list A) :
  deref addr a (l ++ l')
  = match deref addr a l with Some x => Some x | None => deref addr a l' end.
Proof.
  induction l as [|y l IH]; [done|].
  rewrite <- app_comm_cons, !deref_cons. by destruct (Nat.eqb (addr y) a).
Qed.

Lemma ar_add_job_res s s' :
  ar_mid s → AR.add_job s = Some s' →
  AR.first_res s' = AR.first_res s ∧ (AR.heap_next s ≤ AR.heap_next s')%nat ∧
  (AR.first_job s' = AR.first_job s ∨
   ∃ j, AR.first_job s' = AR.first_job s ++ [j] ∧ AR.j_addr j = AR.heap_next s).
Proof.
  intros Hmid. unfold AR.add_job, AR.malloc.
  destruct (AR.malloc_src s (AR.malloc_pos s)); simpl.
  2:{ intros [= <-]. simpl. split_and!; [done..|]. by left. }
  set (j := AR.mkJob (AR.heap_next s) _ _ _ _ _ _).
  destruct (AR.first_job s) as [|j0 js] eqn:Hjs; simpl.
  - intros [= <-]. simpl. split_and!; [done|lia|]. right. by exists j.
  - intros H. apply bind_Some in H as (la & Hla & H).
    apply bind_Some in H as (js' & Hlink & [= <-]).
    eapply (link_after_append AR.j_addr (AR.last_job s)) in Hlink;
      [|rewrite <- Hjs; apply Hmid..|done].
    simpl. split_and!; [done|lia|]. right. by exists j.
Qed.

Lemma ar_fifo_add_job s s' : ar_mid s → AR.add_job s = Some s' → ar_fifo s s'.
Proof.
  intros Hmid H. destruct (ar_add_job_res s s' Hmid H) as (Hr & Hn & Hj).
  split_and!; [done| |].
  - intros a Ha Hg j. unfold AR.job_at.
    destruct Hj as [->|(jn & -> & Hjn)]; [apply Hg|].
    rewrite deref_app. destruct (deref AR.j_addr a (AR.first_job s)) as [j0|] eqn:Hj0.
    + intros [= <-]. by apply Hg.
    + rewrite deref_cons. destruct (Nat.eqb_spec (AR.j_addr jn) a); [lia|done].
  - intros r' Hr' _. rewrite Hr in Hr'. by eapply ar_fifo_same_chain.
Qed.

Lemma ar_fifo_repeat_add_res n : ∀ s s',
  ar_mid s → AR.repeat_add_res n s = Some s' → ar_fifo s s'.
Proof.
  induction n as [|n IH]; intros s s' Hmid; simpl.
  - intros [= <-]. apply ar_fifo_refl.
  - intros H. apply bind_Some in H as (s1 & H1 & H).
    apply (ar_fifo_trans _ s1); [apply Hmid|by apply ar_fifo_add_res|].
    eapply IH; [|done]. by eapply ar_add_res_mid.
Qed.

Lemma ar_fifo_add_remove s s' : ar_mid s → AR.add_remove s = Some s' → ar_fifo s s'.
Proof.
  intros Hmid. unfold AR.add_remove. intros H.
  apply bind_Some in H as (s1 & H1 & H).
  assert (ar_mid s1 ∧ ar_fifo s s1) as [Hmid1 Hf1].
  { destruct (AR.begin s); [|injection H1 as <-; split; [done|apply ar_fifo_refl]].
    apply fmap_Some in H1 as (s0 & H0 & ->).
    pose proof (ar_repeat_add_res_mid _ _ _ Hmid H0) as Hmid0. split.
    - eapply ar_mid_ext; [exact Hmid0|done..|simpl; lia].
    - apply (ar_fifo_trans _ s0); [apply Hmid|by eapply ar_fifo_repeat_add_res|].
      by apply ar_fifo_ext. }
  pose proof (ar_remove_done_jobs_mid _ Hmid1) as Hmid2.
  pose proof (ar_remove_leaving_resources_mid _ Hmid2) as Hmid3.
  apply (ar_fifo_trans _ s1); [apply Hmid|exact Hf1|].
  apply (ar_fifo_trans _ (AR.remove_done_jobs s1));
    [apply Hmid1|by apply ar_fifo_remove_done_jobs|].
  apply (ar_fifo_trans _ (AR.remove_leaving_resources (AR.remove_done_jobs s1)));
    [apply Hmid2|by apply ar_fifo_remove_leaving_resources|].
  simpl in H. unfold AR.add_on_draw in H.
  match type of H with context [AR.admission_of_draw ?i] =>
    destruct (AR.admission_of_draw i) end.
  - match type of H with AR.add_res ?s4 = _ =>
      apply (ar_fifo_trans _ s4); [apply Hmid3|by apply ar_fifo_ext|] end.
    by apply ar_fifo_add_res.
  - match type of H with AR.add_job ?s4 = _ =>
      apply (ar_fifo_trans _ s4); [apply Hmid3|by apply ar_fifo_ext|] end.
    apply ar_fifo_add_job; [|done].
    eapply ar_mid_ext; [exact Hmid3|done..|simpl; lia].
  - injection H as <-. by apply ar_fifo_ext.
Qed.

(** A job that is DONE has no reservation. *)
Lemma ar_done_not_queued s j :
  ar_wf s → AR.job_at (AR.j_addr j) s = Some j → AR.j_state j = AR.DONE →
  AR.j_addr j ∉ ar_queued (AR.first_res s).
Proof.
  intros [Hres Hjobs Htail Hnd Hq Htime] Hj Hd Hin.
  apply list_elem_of_bind in Hin as (r & Hb & Hr).
  apply list_elem_of_lookup_1 in Hb as [i Hb].
  eapply Forall_forall in Hq; [|done].
  destruct (Hq i _ Hb) as (j' & Hj' & _ & Hnd' & _).
  unfold AR.job_at in Hj. rewrite Hj in Hj'. by injection Hj' as <-.
Qed.

Lemma ar_fifo_run_send s s' : ar_mid s → AR.run_send s = Some s' → ar_fifo s s'.
Proof.
  intros Hmid Hrs.
  destruct (ar_run_send_wf s Hmid) as (s'' & H & Hrs' & Hwf' & Hj & Hn & Hadr & Hout & Hpop).
  rewrite Hrs in Hrs'. injection Hrs' as <-.
  assert (∀ a, AR.job_at a s' = H <$> AR.job_at a s) as Hat.
  { intros a. unfold AR.job_at. by rewrite Hj, deref_fmap. }
  split_and!; [lia| |].
  - intros a _ Hg j'. rewrite Hat. intros Hj'.
    apply fmap_Some in Hj' as (j & Hj0 & ->).
    pose proof (Hg j Hj0) as Hd.
    pose proof Hj0 as Hj1. apply deref_Some in Hj1 as [_ Ha]. subst a.
    rewrite Hout; [done|]. eapply ar_done_not_queued; [apply Hmid|done..].
  - intros r' Hr' _. apply list_elem_of_lookup_1 in Hr' as [i Hi].
    destruct (Forall2_lookup_r _ _ _ _ _ Hpop Hi) as (r & Hr & (Ha & _ & _) & Hrsv).
    apply list_elem_of_lookup_2 in Hr.
    destruct Hrsv as [Heq|(a & Heq & Hdone)]; [by eapply ar_fifo_same_chain|].
    exists r. split_and!; [done..|]. exists 1%nat, [].
    rewrite Heq, app_nil_r. split; [done|].
    intros a' Ha'. simpl in Ha'. rewrite take_0 in Ha'.
    apply list_elem_of_singleton in Ha' as ->.
    intros j'. rewrite Hat. intros Hj'.
    apply fmap_Some in Hj' as (j & Hj0 & ->). apply Hdone.
    by apply deref_Some in Hj0 as [_ ?].
Qed.

Lemma ar_fifo_schedule s : ar_wf s → ar_fifo s (AR.schedule s).
Proof.
  intros Hwf.
  destruct (ar_schedule_cases s) as (s1 & Hr1 & Hj1 & Hl1 & Hn1 & Hcases).
  destruct Hcases as [->|(k & j & bi & r & Hj & Hw & (Hb & _) & ->)];
    [by apply ar_fifo_ext|].
  unfold AR.bind_job. split_and!; simpl; [done| |].
  - intros a _ Hg j'. unfold AR.job_at. simpl. rewrite Hj1.
    rewrite (alter_store_at AR.j_addr _ _ _ j) by (done || apply Hwf).
    rewrite deref_store_at by done.
    destruct (Nat.eqb_spec a (AR.j_addr j)) as [->|_]; [|apply Hg].
    assert (AR.job_at (AR.j_addr j) s = Some j) as Hat.
    { apply deref_NoDup; [apply Hwf|]. by eapply list_elem_of_lookup_2. }
    specialize (Hg j Hat). congruence.
  - intros r' Hr' _. rewrite Hr1 in Hr'.
    apply list_elem_of_lookup_1 in Hr' as [i Hi].
    destruct (decide (i = bi)) as [->|Hne].
    + rewrite list_lookup_alter_eq, Hb in Hi. simpl in Hi. injection Hi as <-.
      exists r. split_and!; [by eapply list_elem_of_lookup_2|done|].
      exists 0%nat, [AR.j_addr j]. rewrite drop_0. split; [done|].
      intros a Hin. rewrite take_0 in Hin. by apply elem_of_nil in Hin.
    + rewrite list_lookup_alter_ne in Hi by done.
      eapply ar_fifo_same_chain; [by eapply list_elem_of_lookup_2|done..].
Qed.

Lemma ar_tick_fifo s s' : ar_wf s → AR.tick s = Running s' → ar_fifo s s'.
Proof.
  intros Hwf Htick. pose proof (ar_tick_wf s Hwf) as H.
  destruct (AR.traceall s) as [s1|s1|] eqn:Ht; [|congruence|done].
  apply ar_traceall_Running in Ht as ->.
  pose proof (ar_trace_body_mid s Hwf) as Hmid1.
  destruct (AR.add_remove _) as [s2|] eqn:Ha; [|congruence].
  destruct H as (Hmid2 & s3 & Hrs & Hwf3 & Ht & _).
  rewrite Htick in Ht. injection Ht as ->.
  apply (ar_fifo_trans _ (AR.trace_body s)); [done|apply ar_fifo_trace_body|].
  apply (ar_fifo_trans _ s2); [apply Hmid1|by apply ar_fifo_add_remove|].
  apply (ar_fifo_trans _ s3); [apply Hmid2|by apply ar_fifo_run_send|].
  by apply ar_fifo_schedule.
Qed.

Lemma ar_run_fifo n : ∀ s s', ar_wf s → AR.run n s = Running s' → ar_fifo s s'.
Proof.
  induction n as [|n IH]; intros s s' Hwf; simpl.
  - intros [= <-]. apply ar_fifo_refl.
  - destruct (AR.tick s) as [s1|s1|] eqn:Ht; [|done..].
    intros Hrun. apply (ar_fifo_trans _ s1); [done|by apply ar_tick_fifo|].
    apply IH; [|done]. by eapply ar_tick_Running_wf.
Qed.

(** * The claims *)

(** ** Mixed scheduler: selection by score *)

(** On the specification's own example the first job (score 900) is
    kept against the second (score 110). *)
Example mixed_schedule_spec_example :
  List.map Mixed.score (Mixed.first_job mixed_spec_example) = [900; 110] ∧
  List.map Mixed.j_state (Mixed.first_job (Mixed.schedule mixed_spec_example))
  = [Mixed.SENDING_DATA; Mixed.WAITING].
Proof. split; reflexivity. Qed.

(** C1: with three waiting jobs of scores 102, 301 and 200 and a free
    resource, [schedule] binds the third job (score 200), not the job of
    maximal score 301: [best_score] keeps the score of the first waiting
    job, so every later waiting job that beats the first one replaces the
    current choice. *)
Theorem mixed_schedule_misses_best_score :
  List.map Mixed.score (Mixed.first_job mixed_three_waiting) = [102; 301; 200] ∧
  List.map Mixed.j_state (Mixed.first_job (Mixed.schedule mixed_three_waiting))
  = [Mixed.WAITING; Mixed.WAITING; Mixed.SENDING_DATA] ∧
  List.map Mixed.j_run_on (Mixed.first_job (Mixed.schedule mixed_three_waiting))
  = [None; None; Some 1%nat].
Proof. split_and!; reflexivity. Qed.

(** ** Admission: the draw against the two thresholds *)

Lemma draw_range (x : N) : 1 ≤ 1 + Z.rem (Z.of_N x) 1000 ≤ 1000.
Proof.
  assert (0 ≤ Z.rem (Z.of_N x) 1000 < 1000); [|lia].
  apply Z.rem_bound_pos; lia.
Qed.

Lemma draw_in_draws (x : N) : 1 + Z.rem (Z.of_N x) 1000 ∈ draws.
Proof.
  pose proof (draw_range x) as H. unfold draws.
  apply list_elem_of_In, in_map_iff.
  exists (Z.to_nat (1 + Z.rem (Z.of_N x) 1000)). split; [lia|].
  apply in_seq. lia.
Qed.

(** C2: of the 1000 draws, 50 create a resource in both simulators, but
    a job is created on the 200 draws above [ADD_JOB_PROB] = 800 in the
    mixed simulator and on the 950 draws above [ADD_JOB_PROB] = 50 in
    the AR simulator, not on [ADD_JOB_PROB] of them. *)
Theorem add_job_draw_counts :
  length (List.filter mixed_is_add_resource draws) = 50%nat ∧
  length (List.filter mixed_is_add_job draws) = 200%nat ∧
  length (List.filter ar_is_add_resource draws) = 50%nat ∧
  length (List.filter ar_is_add_job draws) = 950%nat.
Proof. split_and!; vm_compute; reflexivity. Qed.

(** ** Executor: completion of a running job *)

(** Mixed: the running job loses [level] units and is done iff what is
    left is at most 0. *)
Lemma mixed_running_job_step (j : Mixed.job) (s : Mixed.sim) (a : nat) (r : Mixed.resource) :
  Mixed.j_state j = Mixed.RUNNING →
  Mixed.run_on_res j s = Some (a, r) →
  ∃ j' s', Mixed.run_send_job j s = Some (j', s') ∧
    Mixed.j_workload j' = Mixed.j_workload j - Mixed.r_level r ∧
    Mixed.j_state j' = (if Mixed.j_workload j' <=? 0 then Mixed.DONE else Mixed.RUNNING).
Proof.
  intros Hst Hr. unfold Mixed.run_send_job. rewrite Hst, Hr. simpl.
  destruct (Mixed.j_workload j - Mixed.r_level r <=? 0) eqn:Hw.
  - destruct (Z.rem _ 1000 <=? Mixed.RL_PROB);
      eexists _, _; (split; [done|]); simpl; by rewrite Hw.
  - eexists _, _; split; [done|]. simpl. by rewrite Hw.
Qed.

(** AR: the running head job loses [level] units and is done iff what
    is left is below 0. *)
Lemma ar_running_head_step (r : AR.resource) (a : nat) (q : list nat) (s : AR.sim) (j : AR.job) :
  AR.job_at a s = Some j → AR.j_state j = AR.RUNNING →
  ∃ r' s', AR.run_head r a q s = Some (r', s') ∧
    AR.r_rsv r' = (if AR.j_workload j - AR.r_level r <? 0 then q else AR.r_rsv r) ∧
    AR.r_total_workload r' = AR.r_total_workload r - AR.r_level r.
Proof.
  intros Hj Hst. unfold AR.run_head. rewrite Hj. simpl. rewrite Hst.
  destruct (AR.j_workload j - AR.r_level r <? 0).
  - simpl. destruct (Z.rem _ 1000 <=? AR.RL_PROB); eexists _, _; done.
  - eexists _, _; done.
Qed.

(** C3: in the AR simulator a running job with exactly [level] units
    left is decremented to 0 and stays RUNNING with its reservation at
    the head; the test is [workload < 0]. *)
Theorem ar_run_send_zero_workload_not_done :
  (λ s, (AR.first_job s, List.map AR.r_rsv (AR.first_res s))) <$> AR.run_send ar_exact_finish
  = Some ([AR.mkJob 6 1 AR.RUNNING 0 0 3 None], [[6%nat]]).
Proof. reflexivity. Qed.

(** ** Termination test of the trace step *)

(** C4: in the mixed simulator, with 99999 completions counted and two
    more DONE jobs in the pool, the trace step counts up to 100001, the
    test [jobs_done == MAX_JOBS] fails, and no later tick exits; the AR
    simulator, which tests [jobs_done >= MAX_JOBS], exits on the same
    input. *)
Theorem mixed_traceall_jumps_past_max_jobs :
  (∃ s, Mixed.traceall mixed_two_done = Running s ∧ Mixed.jobs_done s = 100001 ∧
        ∀ n s', Mixed.run n s ≠ Exited s') ∧
  (∃ s, AR.traceall ar_two_done = Exited s ∧ AR.jobs_done s = 100001).
Proof.
  split.
  - eexists. split; [reflexivity|]. split; [reflexivity|].
    intros n s'. apply mixed_never_exits_above_max. simpl. unfold Mixed.MAX_JOBS. lia.
  - eexists. split; reflexivity.
Qed.

(** ** Ageing of jobs in the trace step *)

(** A job whose input data is being sent is not running yet, and the
    mixed trace step leaves its [wait_time] at 4. *)
Lemma mixed_trace_skips_sending_job : ¬ mixed_trace_ages_all_pending.
Proof.
  intros H.
  specialize (H mixed_sending 0%nat (Mixed.mkJob 6 1 Mixed.SENDING_DATA 400 12 4 (Some 1%nat))
                eq_refl).
  simpl in H. discriminate H; done.
Qed.

(** C5 (amended): the trace step adds exactly 1 to [wait_time] of every
    job that is WAITING and, in the AR simulator, also of every job that
    is WAITING_TO_SEND_DATA or READY_TO_RUN; the [wait_time] of jobs in
    SENDING_DATA, RUNNING or DONE, and the state of every job, are left
    as they are. *)
Theorem trace_ages_idle_jobs :
  (∀ s : Mixed.sim,
     List.map Mixed.j_wait_time (Mixed.first_job (Mixed.trace_body s))
     = List.map (λ j, match Mixed.j_state j with
                      | Mixed.WAITING => Mixed.j_wait_time j + 1
                      | _ => Mixed.j_wait_time j
                      end) (Mixed.first_job s) ∧
     List.map Mixed.j_state (Mixed.first_job (Mixed.trace_body s))
     = List.map Mixed.j_state (Mixed.first_job s)) ∧
  (∀ s : AR.sim,
     List.map AR.j_wait_time (AR.first_job (AR.trace_body s))
     = List.map (λ j, match AR.j_state j with
                      | AR.WAITING | AR.WAITING_TO_SEND_DATA | AR.READY_TO_RUN =>
                          AR.j_wait_time j + 1
                      | _ => AR.j_wait_time j
                      end) (AR.first_job s) ∧
     List.map AR.j_state (AR.first_job (AR.trace_body s))
     = List.map AR.j_state (AR.first_job s)).
Proof.
  split; intros s.
  - rewrite mixed_trace_body_jobs, !List.map_map.
    split; apply List.map_ext; intros j; unfold mixed_waits;
      destruct (Mixed.j_state j) eqn:E; simpl; by rewrite ?E.
  - rewrite ar_trace_body_jobs, !List.map_map.
    split; apply List.map_ext; intros j; unfold ar_waits;
      destruct (AR.j_state j) eqn:E; simpl; by rewrite ?E.
Qed.

(** ** AR: total_workload against the reservation chain *)

(** C6: a resource of level 5 with [total_workload] 4 whose only job is
    running with 4 units left: the executor completes the job and
    unlinks its reservation, the chain is empty, and [total_workload] is
    -1; in the run with [random()] constantly 999 the same drift shows
    after 40 ticks from the initial state. *)
Theorem ar_total_workload_drifts :
  (λ s, List.map (λ r, (AR.r_rsv r, queue_workload s r, AR.r_total_workload r)) (AR.first_res s))
    <$> AR.run_send ar_overshoot = Some [([], 0, -1)] ∧
  ∃ s, AR.run 40 (AR.init (λ _, 999%N) (λ _, true)) = Running s ∧
       List.map (λ r, (queue_workload s r, AR.r_total_workload r)) (AR.first_res s)
       = [(658, 657); (663, 662); (668, 667); (673, 672); (678, 677)].
Proof.
  split; [reflexivity|].
  eexists. split; vm_compute; reflexivity.
Qed.

(** ** AR scheduler: least loaded accepting resource *)

(** The specification's example: of two accepting resources with
    [total_workload] 300 and 100 the waiting job goes to the second. *)
Example ar_schedule_spec_example :
  List.map (λ r, (AR.r_total_workload r, AR.r_rsv r)) (AR.first_res (AR.schedule ar_two_resources))
  = [(300, [6%nat]); (350, [7%nat; 8%nat])] ∧
  List.map AR.j_state (AR.first_job (AR.schedule ar_two_resources))
  = [AR.RUNNING; AR.RUNNING; AR.WAITING_TO_SEND_DATA].
Proof. split; reflexivity. Qed.

(** C8: when [j], at position [k], is the first WAITING job and the
    reservation can be allocated, the AR scheduler binds [j] to the
    resource of least [total_workload] among those not in
    NO_ACCEPT_JOBS, the earliest in pool order among equals: that
    resource becomes HAS_JOBS, its [total_workload] grows by the job's
    workload, the reservation is appended to its chain and the job
    becomes WAITING_TO_SEND_DATA, nothing else in the pools changing; if
    every resource is in NO_ACCEPT_JOBS both pools are left as they
    are. *)
Theorem ar_schedule_least_loaded (s : AR.sim) (k : nat) (j : AR.job) :
  first_index AR.is_waiting (AR.first_job s) = Some k →
  AR.first_job s !! k = Some j →
  AR.malloc_src s (AR.malloc_pos s) = true →
  ((∃ r, r ∈ AR.first_res s ∧ AR.r_state r ≠ AR.NO_ACCEPT_JOBS) →
   ∃ bi r, least_loaded (AR.first_res s) bi r ∧
     AR.first_res (AR.schedule s) = <[bi := ar_bound r j]> (AR.first_res s) ∧
     AR.first_job (AR.schedule s)
     = <[k := AR.set_j_state AR.WAITING_TO_SEND_DATA j]> (AR.first_job s)) ∧
  ((∀ r, r ∈ AR.first_res s → AR.r_state r = AR.NO_ACCEPT_JOBS) →
   AR.first_res (AR.schedule s) = AR.first_res s ∧
   AR.first_job (AR.schedule s) = AR.first_job s).
Proof.
  intros Hk Hj Hm.
  destruct (ar_schedule_unfold s k j Hk Hj Hm) as [(Hnone & Hr & Hjs)|Hbind]; split.
  - intros (r & Hr' & Hacc). exfalso.
    rewrite first_index_None in Hnone. specialize (Hnone r Hr').
    apply ar_accepts_spec in Hacc. congruence.
  - done.
  - done.
  - intros Hall. destruct Hbind as (bi & r & (Hb & Hacc & _) & _).
    exfalso. apply Hacc, Hall. by eapply list_elem_of_lookup_2.
Qed.

Lemma ar_schedule_least_loaded_witness :
  ∃ bi r, least_loaded (AR.first_res ar_two_resources) bi r ∧
    AR.r_total_workload r = 100 ∧
    AR.first_res (AR.schedule ar_two_resources)
    = <[bi := ar_bound r (AR.mkJob 8 3 AR.WAITING 250 7 0 None)]> (AR.first_res ar_two_resources).
Proof.
  destruct (ar_schedule_least_loaded ar_two_resources 2%nat
              (AR.mkJob 8 3 AR.WAITING 250 7 0 None) eq_refl eq_refl eq_refl) as [H _].
  destruct H as (bi & r & Hll & Hres & _).
  { exists (AR.mkResource 1 1 AR.HAS_JOBS 3 50 20 300 [6%nat]). split; [|done].
    apply list_elem_of_here. }
  exists bi, r. split; [done|]. split; [|done].
  assert (least_loaded (AR.first_res ar_two_resources) 1%nat
            (AR.mkResource 2 2 AR.HAS_JOBS 4 50 20 100 [7%nat])) as Hll'.
  { split_and!; [done..|].
    intros [|[|i]] r'; simpl; intros [= <-] _; simpl; [left; lia|right; split; lia]. }
  destruct (least_loaded_unique _ _ _ _ _ Hll Hll') as [_ ->]. done.
Defined.

(** ** Utilisation counters *)

(** C7: in both simulators, in every state a run reaches between two
    ticks, every resource of the pool has [used_time ≤ total_time]; and
    in the next tick the trace step increments [total_time] of every
    resource once and leaves [used_time], while the executor leaves
    [total_time] and increments [used_time] of a resource at most once
    (an increment being [x++] on a [float]). *)
Theorem used_time_le_total_time :
  (∀ rnd mal n s, Mixed.run n (Mixed.init rnd mal) = Running s →
     (∀ r, r ∈ Mixed.first_res s → Mixed.r_used_time r ≤ Mixed.r_total_time r) ∧
     (∀ s1 s2 s3, Mixed.traceall s = Running s1 → Mixed.add_remove s1 = Some s2 →
        Mixed.run_send s2 = Some s3 →
        Forall2 mixed_traced (Mixed.first_res s) (Mixed.first_res s1) ∧
        Forall2 mixed_executed (Mixed.first_res s2) (Mixed.first_res s3))) ∧
  (∀ rnd mal n s, AR.run n (AR.init rnd mal) = Running s →
     (∀ r, r ∈ AR.first_res s → AR.r_used_time r ≤ AR.r_total_time r) ∧
     (∀ s1 s2 s3, AR.traceall s = Running s1 → AR.add_remove s1 = Some s2 →
        AR.run_send s2 = Some s3 →
        Forall2 ar_traced (AR.first_res s) (AR.first_res s1) ∧
        Forall2 ar_executed (AR.first_res s2) (AR.first_res s3))).
Proof.
  split; intros rnd mal n s Hrun.
  - pose proof (mixed_run_wf n _ _ (mixed_init_wf rnd mal) Hrun) as Hwf.
    split.
    + intros r Hr. destruct Hwf as [_ _ _ _ Htime].
      by eapply Forall_forall in Htime.
    + intros s1 s2 s3 Ht Ha Hrs.
      apply mixed_traceall_Running in Ht as ->. split.
      * rewrite mixed_trace_body_res. apply Forall2_fmap_r.
        apply Forall2_same_length_lookup_2; [done|].
        intros i r r' Hi Hi'. rewrite Hi in Hi'. by injection Hi' as <-.
      * pose proof (mixed_add_remove_mid _ _ (mixed_trace_body_mid s Hwf) Ha) as Hmid.
        eapply Forall2_impl; [by eapply mixed_run_send_used|].
        intros r r' (_ & ? & ?). done.
  - pose proof (ar_run_wf n _ _ (ar_init_wf rnd mal) Hrun) as Hwf.
    split.
    + intros r Hr. destruct Hwf as [_ _ _ _ _ Htime].
      by eapply Forall_forall in Htime.
    + intros s1 s2 s3 Ht Ha Hrs.
      apply ar_traceall_Running in Ht as ->. split.
      * rewrite ar_trace_body_res. apply Forall2_fmap_r.
        apply Forall2_same_length_lookup_2; [done|].
        intros i r r' Hi Hi'. rewrite Hi in Hi'. by injection Hi' as <-.
      * pose proof (ar_add_remove_mid _ _ (ar_trace_body_mid s Hwf) Ha) as Hmid.
        destruct (ar_run_send_wf s2 Hmid) as (s3' & H & Hrs' & _ & _ & _ & _ & _ & Hpop).
        rewrite Hrs in Hrs'. injection Hrs' as <-.
        eapply Forall2_impl; [done|]. intros r r' [(_ & ? & ?) _]. done.
Qed.

Lemma used_time_le_total_time_witness :
  (∃ s, Mixed.run 12 (Mixed.init demo_random demo_malloc) = Running s ∧
        Forall (λ r, Mixed.r_used_time r ≤ Mixed.r_total_time r) (Mixed.first_res s)) ∧
  (∃ s, AR.run 12 (AR.init demo_random demo_malloc) = Running s ∧
        Forall (λ r, AR.r_used_time r ≤ AR.r_total_time r) (AR.first_res s)).
Proof.
  split.
  - eexists. split; [vm_compute; reflexivity|].
    apply Forall_forall.
    apply (proj1 used_time_le_total_time demo_random demo_malloc 12%nat).
    vm_compute; reflexivity.
  - eexists. split; [vm_compute; reflexivity|].
    apply Forall_forall.
    apply (proj2 used_time_le_total_time demo_random demo_malloc 12%nat).
    vm_compute; reflexivity.
Defined.

(** ** Mixed: jobs and the resources they run on *)

(** C10: in every state a run of the mixed simulator reaches between
    two ticks, the [run_on] of every SENDING_DATA job is the address of
    a resource of the pool in state RECEIVING_DATA and the [run_on] of
    every RUNNING job that of a resource in state USED; every
    resource that is LEAVING is the [run_on] of a job that is DONE; and
    in the next tick the executor returns, that is, every [run_on] it
    follows points to a resource of the pool. *)
Theorem mixed_run_on_never_dangles (rnd : nat → N) (mal : nat → bool) (n : nat) (s : Mixed.sim) :
  Mixed.run n (Mixed.init rnd mal) = Running s →
  (∀ j, j ∈ Mixed.first_job s → Mixed.j_state j = Mixed.SENDING_DATA →
     ∃ r, r ∈ Mixed.first_res s ∧ Mixed.j_run_on j = Some (Mixed.r_addr r) ∧
          Mixed.r_state r = Mixed.RECEIVING_DATA) ∧
  (∀ j, j ∈ Mixed.first_job s → Mixed.j_state j = Mixed.RUNNING →
     ∃ r, r ∈ Mixed.first_res s ∧ Mixed.j_run_on j = Some (Mixed.r_addr r) ∧
          Mixed.r_state r = Mixed.USED) ∧
  mixed_leaving_done (Mixed.first_job s) (Mixed.first_res s) ∧
  (∀ s1 s2, Mixed.traceall s = Running s1 → Mixed.add_remove s1 = Some s2 →
     is_Some (Mixed.run_send s2)).
Proof.
  intros Hrun.
  pose proof (mixed_run_wf n _ _ (mixed_init_wf rnd mal) Hrun) as Hwf.
  assert (∀ j st, j ∈ Mixed.first_job s → mixed_served_state (Mixed.j_state j) = Some st →
            ∃ r, r ∈ Mixed.first_res s ∧ Mixed.j_run_on j = Some (Mixed.r_addr r) ∧
                 Mixed.r_state r = st) as Hserved.
  { intros j st Hj Hst. destruct Hwf as [_ _ Hserv _ _].
    eapply Forall_forall in Hserv; [|done].
    destruct (Hserv st Hst) as (a & r & Ha & Hr & Hrst).
    apply deref_Some in Hr as [Hin <-]. by exists r. }
  split_and!.
  - intros j Hj Hst. apply Hserved; [done|]. by rewrite Hst.
  - intros j Hj Hst. apply Hserved; [done|]. by rewrite Hst.
  - eapply mixed_run_leaving; [|done]. intros r Hr. by apply elem_of_nil in Hr.
  - intros s1 s2 Ht Ha. apply mixed_traceall_Running in Ht as ->.
    pose proof (mixed_add_remove_mid _ _ (mixed_trace_body_mid s Hwf) Ha) as Hmid.
    destruct (mixed_run_send_wf s2 Hmid) as (s3 & -> & _). by eexists.
Qed.

Lemma mixed_run_on_never_dangles_witness :
  ∃ s, Mixed.run 12 (Mixed.init demo_random demo_malloc) = Running s ∧
       mixed_leaving_done (Mixed.first_job s) (Mixed.first_res s).
Proof.
  eexists. split; [vm_compute; reflexivity|].
  apply (mixed_run_on_never_dangles demo_random demo_malloc 12%nat).
  vm_compute; reflexivity.
Defined.

(** ** AR: reservations are served first in, first out *)

(** C9: in every state [s] a run of the AR simulator reaches between
    two ticks, every reservation points to a live job that has been
    scheduled and is not DONE, no job is RUNNING behind the head of a
    chain, and no job has two reservations; and in every later state
    [s'] the chain of a resource is what is left of its chain in [s]
    after unlinking some reservations at the head, all of whose jobs are
    DONE or already freed, followed by the reservations linked at the
    tail since: the jobs of a chain complete in the order of the
    chain. *)
Theorem ar_reservations_fifo (rnd : nat → N) (mal : nat → bool) (n : nat) (s : AR.sim) :
  AR.run n (AR.init rnd mal) = Running s →
  (∀ r i a, r ∈ AR.first_res s → AR.r_rsv r !! i = Some a →
     ∃ j, j ∈ AR.first_job s ∧ AR.j_addr j = a ∧
          AR.j_state j ≠ AR.WAITING ∧ AR.j_state j ≠ AR.DONE ∧
          (i ≠ 0%nat → AR.j_state j ≠ AR.RUNNING)) ∧
  NoDup (ar_queued (AR.first_res s)) ∧
  ∀ m s' r r', AR.run m s = Running s' →
    r ∈ AR.first_res s → r' ∈ AR.first_res s' → AR.r_addr r' = AR.r_addr r →
    ∃ k new, AR.r_rsv r' = drop k (AR.r_rsv r) ++ new ∧
             ∀ a, a ∈ take k (AR.r_rsv r) → ar_gone a s'.
Proof.
  intros Hrun.
  pose proof (ar_run_wf n _ _ (ar_init_wf rnd mal) Hrun) as Hwf.
  split_and!.
  - intros r i a Hr Ha. destruct Hwf as [_ _ _ _ Hq _].
    eapply Forall_forall in Hq; [|done].
    destruct (Hq i a Ha) as (j & Hj & Hst). apply deref_Some in Hj as [Hj Hja].
    by exists j.
  - apply Hwf.
  - intros m s' r r' Hrun' Hr Hr' Ha.
    destruct (ar_run_fifo m _ _ Hwf Hrun') as (_ & _ & Hq).
    destruct (Hq r' Hr') as (r0 & Hr0 & Ha0 & Hchain).
    { rewrite Ha. destruct Hwf as [[_ Hfr] _ _ _ _ _]. by eapply Forall_forall in Hfr. }
    assert (r0 = r) as ->; [|done].
    destruct Hwf as [[Hnd _] _ _ _ _ _].
    pose proof (deref_NoDup AR.r_addr _ _ Hnd Hr0) as H0.
    pose proof (deref_NoDup AR.r_addr _ _ Hnd Hr) as H1.
    rewrite Ha0, Ha in H0. rewrite H1 in H0. by injection H0.
Qed.

Lemma ar_reservations_fifo_witness :
  AR.r_rsv ar_demo_12_first = [6; 16; 26]%nat ∧
  AR.r_rsv ar_demo_40_first = [16; 26; 36; 46; 56; 66; 76]%nat ∧
  ∃ k new, AR.r_rsv ar_demo_40_first = drop k (AR.r_rsv ar_demo_12_first) ++ new ∧
           ∀ a, a ∈ take k (AR.r_rsv ar_demo_12_first) → ar_gone a ar_demo_40.
Proof.
  split; [reflexivity|]. split; [reflexivity|].
  assert (AR.run 12 (AR.init demo_random demo_malloc) = Running ar_demo_12) as H12
    by (vm_compute; reflexivity).
  assert (AR.run 28 ar_demo_12 = Running ar_demo_40) as H28
    by (vm_compute; reflexivity).
  apply (proj2 (proj2 (ar_reservations_fifo demo_random demo_malloc 12%nat ar_demo_12 H12))
           28%nat ar_demo_40 ar_demo_12_first ar_demo_40_first H28).
  - apply list_elem_of_here.
  - apply list_elem_of_here.
  - reflexivity.
Defined.

(** * Further properties *)

(** ** Linking a node behind the tail *)

Section link.
Context {A : Type} (addr : A → nat).

Lemma link_after_None a x l : (∀ y, y ∈ l → addr y ≠ a) → link_after addr a x l = None.
Proof.
  induction l as [|y l IH]; intros Hl; [done|].
  unfold link_after; fold (link_after addr a x l).
  destruct (Nat.eqb_spec (addr y) a) as [Heq|Hne].
  - exfalso. eapply Hl; [apply list_elem_of_here|done].
  - rewrite IH; [done|]. intros z Hz. apply Hl. by apply list_elem_of_further.
Qed.

Lemma link_after_is_Some a x l y : y ∈ l → addr y = a → is_Some (link_after addr a x l).
Proof.
  intros Hy Ha. induction l as [|z l IH]; [by apply elem_of_nil in Hy|].
  unfold link_after; fold (link_after addr a x l).
  destruct (Nat.eqb_spec (addr z) a) as [Heq|Hne]; [by eexists|].
  apply elem_of_cons in Hy as [->|Hy]; [done|].
  destruct (IH Hy) as [l' ->]. by eexists.
Qed.

Lemma tail_live_ok la l : NoDup (addr <$> l) → tail_live addr la l → tail_ok addr la l.
Proof.
  intros Hnd Hlive a x -> Hx Hax.
  destruct (last l) as [t|] eqn:Ht.
  - f_equal. specialize (Hlive t Ht). injection Hlive as Hta.
    apply last_Some_elem_of in Ht.
    pose proof (deref_NoDup addr l t Hnd Ht) as H1.
    pose proof (deref_NoDup addr l x Hnd Hx) as H2.
    assert (addr x = addr t) as Heq by congruence.
    rewrite Heq in H2. congruence.
  - apply last_None in Ht. subst l. by apply elem_of_nil in Hx.
Qed.

Lemma link_after_last la x l t :
  NoDup (addr <$> l) → tail_live addr la l → last l = Some t →
  link_after addr (addr t) x l = Some (l ++ [x]).
Proof.
  intros Hnd Hlive Ht.
  destruct (link_after_is_Some (addr t) x l t) as [l' Hl'];
    [by apply last_Some_elem_of|done|].
  rewrite Hl'. f_equal.
  eapply link_after_append; [done|by apply tail_live_ok| |done].
  by apply Hlive.
Qed.

End link.

(** ** add_res and add_job *)

Lemma rem_range (x : N) (m : Z) : 0 < m → 0 ≤ Z.rem (Z.of_N x) m < m.
Proof. intros Hm. apply Z.rem_bound_pos; lia. Qed.

Lemma last_is_Some {A} (l : list A) : l ≠ [] → is_Some (last l).
Proof.
  intros Hl. destruct (last l) eqn:E; [by eexists|].
  by apply last_None in E.
Qed.

Lemma mixed_add_res_fail s :
  Mixed.malloc_src s (Mixed.malloc_pos s) = false → Mixed.add_res s = Some (Mixed.malloc s).2.
Proof. intros H. unfold Mixed.add_res, Mixed.malloc. by rewrite H. Qed.

Lemma mixed_add_res_live s :
  NoDup (Mixed.r_addr <$> Mixed.first_res s) →
  tail_live Mixed.r_addr (Mixed.last_res s) (Mixed.first_res s) →
  Mixed.malloc_src s (Mixed.malloc_pos s) = true →
  Mixed.add_res s = Some (mixed_with_new_res s).
Proof.
  intros Hnd Hlive Hm. unfold Mixed.add_res, Mixed.malloc. rewrite Hm. simpl.
  unfold mixed_with_new_res, mixed_new_res.
  destruct (Mixed.first_res s) as [|r0 rs] eqn:Hrs; simpl; [done|].
  destruct (last_is_Some (r0 :: rs)) as [t Ht]; [done|].
  rewrite (Hlive t Ht). simpl.
  rewrite (link_after_last Mixed.r_addr (Mixed.last_res s) _ (r0 :: rs) t); [done..|].
  done.
Qed.

Lemma mixed_add_res_inv s s' :
  NoDup (Mixed.r_addr <$> Mixed.first_res s) →
  tail_ok Mixed.r_addr (Mixed.last_res s) (Mixed.first_res s) →
  Mixed.add_res s = Some s' →
  (Mixed.malloc_src s (Mixed.malloc_pos s) = false ∧ s' = (Mixed.malloc s).2) ∨
  (Mixed.malloc_src s (Mixed.malloc_pos s) = true ∧ s' = mixed_with_new_res s).
Proof.
  intros Hnd Htl. unfold Mixed.add_res, Mixed.malloc.
  destruct (Mixed.malloc_src s (Mixed.malloc_pos s)); simpl; [|intros [= <-]; by left].
  intros H. right. split; [done|]. unfold mixed_with_new_res, mixed_new_res.
  destruct (Mixed.first_res s) as [|r0 rs] eqn:Hrs; simpl in *; [by injection H as <-|].
  apply bind_Some in H as (la & Hla & H).
  apply bind_Some in H as (rs' & Hlink & [= <-]).
  eapply (link_after_append Mixed.r_addr (Mixed.last_res s)) in Hlink; [|done..].
  by rewrite Hlink.
Qed.

Lemma mixed_add_res_dangling s :
  Mixed.malloc_src s (Mixed.malloc_pos s) = true → Mixed.first_res s ≠ [] →
  (∀ r, r ∈ Mixed.first_res s → Mixed.last_res s ≠ Some (Mixed.r_addr r)) →
  Mixed.add_res s = None.
Proof.
  intros Hm Hne Hd. unfold Mixed.add_res, Mixed.malloc. rewrite Hm. simpl.
  destruct (Mixed.first_res s) as [|r0 rs] eqn:Hrs; [done|]. simpl.
  destruct (Mixed.last_res s) as [la|]; [|done]. simpl.
  rewrite link_after_None; [done|].
  intros y Hy Hya. by apply (Hd y Hy); rewrite Hya.
Qed.

Lemma mixed_add_job_fail s :
  Mixed.malloc_src s (Mixed.malloc_pos s) = false → Mixed.add_job s = Some (Mixed.malloc s).2.
Proof. intros H. unfold Mixed.add_job, Mixed.malloc. by rewrite H. Qed.

Lemma mixed_add_job_live s :
  NoDup (Mixed.j_addr <$> Mixed.first_job s) →
  tail_live Mixed.j_addr (Mixed.last_job s) (Mixed.first_job s) →
  Mixed.malloc_src s (Mixed.malloc_pos s) = true →
  Mixed.add_job s = Some (mixed_with_new_job s).
Proof.
  intros Hnd Hlive Hm. unfold Mixed.add_job, Mixed.malloc. rewrite Hm. simpl.
  unfold mixed_with_new_job, mixed_new_job.
  destruct (Mixed.first_job s) as [|r0 rs] eqn:Hrs; simpl; [done|].
  destruct (last_is_Some (r0 :: rs)) as [t Ht]; [done|].
  rewrite (Hlive t Ht). simpl.
  rewrite (link_after_last Mixed.j_addr (Mixed.last_job s) _ (r0 :: rs) t); [done..|].
  done.
Qed.

Lemma mixed_add_job_inv s s' :
  NoDup (Mixed.j_addr <$> Mixed.first_job s) →
  tail_ok Mixed.j_addr (Mixed.last_job s) (Mixed.first_job s) →
  Mixed.add_job s = Some s' →
  (Mixed.malloc_src s (Mixed.malloc_pos s) = false ∧ s' = (Mixed.malloc s).2) ∨
  (Mixed.malloc_src s (Mixed.malloc_pos s) = true ∧ s' = mixed_with_new_job s).
Proof.
  intros Hnd Htl. unfold Mixed.add_job, Mixed.malloc.
  destruct (Mixed.malloc_src s (Mixed.malloc_pos s)); simpl; [|intros [= <-]; by left].
  intros H. right. split; [done|]. unfold mixed_with_new_job, mixed_new_job.
  destruct (Mixed.first_job s) as [|r0 rs] eqn:Hrs; simpl in *; [by injection H as <-|].
  apply bind_Some in H as (la & Hla & H).
  apply bind_Some in H as (rs' & Hlink & [= <-]).
  eapply (link_after_append Mixed.j_addr (Mixed.last_job s)) in Hlink; [|done..].
  by rewrite Hlink.
Qed.

Lemma mixed_add_job_dangling s :
  Mixed.malloc_src s (Mixed.malloc_pos s) = true → Mixed.first_job s ≠ [] →
  (∀ r, r ∈ Mixed.first_job s → Mixed.last_job s ≠ Some (Mixed.j_addr r)) →
  Mixed.add_job s = None.
Proof.
  intros Hm Hne Hd. unfold Mixed.add_job, Mixed.malloc. rewrite Hm. simpl.
  destruct (Mixed.first_job s) as [|r0 rs] eqn:Hrs; [done|]. simpl.
  destruct (Mixed.last_job s) as [la|]; [|done]. simpl.
  rewrite link_after_None; [done|].
  intros y Hy Hya. by apply (Hd y Hy); rewrite Hya.
Qed.

Lemma ar_add_res_fail s :
  AR.malloc_src s (AR.malloc_pos s) = false → AR.add_res s = Some (AR.malloc s).2.
Proof. intros H. unfold AR.add_res, AR.malloc. by rewrite H. Qed.

Lemma ar_add_res_live s :
  NoDup (AR.r_addr <$> AR.first_res s) →
  tail_live AR.r_addr (AR.last_res s) (AR.first_res s) →
  AR.malloc_src s (AR.malloc_pos s) = true →
  AR.add_res s = Some (ar_with_new_res s).
Proof.
  intros Hnd Hlive Hm. unfold AR.add_res, AR.malloc. rewrite Hm. simpl.
  unfold ar_with_new_res, ar_new_res.
  destruct (AR.first_res s) as [|r0 rs] eqn:Hrs; simpl; [done|].
  destruct (last_is_Some (r0 :: rs)) as [t Ht]; [done|].
  rewrite (Hlive t Ht). simpl.
  rewrite (link_after_last AR.r_addr (AR.last_res s) _ (r0 :: rs) t); [done..|].
  done.
Qed.

Lemma ar_add_res_inv s s' :
  NoDup (AR.r_addr <$> AR.first_res s) →
  tail_ok AR.r_addr (AR.last_res s) (AR.first_res s) →
  AR.add_res s = Some s' →
  (AR.malloc_src s (AR.malloc_pos s) = false ∧ s' = (AR.malloc s).2) ∨
  (AR.malloc_src s (AR.malloc_pos s) = true ∧ s' = ar_with_new_res s).
Proof.
  intros Hnd Htl. unfold AR.add_res, AR.malloc.
  destruct (AR.malloc_src s (AR.malloc_pos s)); simpl; [|intros [= <-]; by left].
  intros H. right. split; [done|]. unfold ar_with_new_res, ar_new_res.
  destruct (AR.first_res s) as [|r0 rs] eqn:Hrs; simpl in *; [by injection H as <-|].
  apply bind_Some in H as (la & Hla & H).
  apply bind_Some in H as (rs' & Hlink & [= <-]).
  eapply (link_after_append AR.r_addr (AR.last_res s)) in Hlink; [|done..].
  by rewrite Hlink.
Qed.

Lemma ar_add_res_dangling s :
  AR.malloc_src s (AR.malloc_pos s) = true → AR.first_res s ≠ [] →
  (∀ r, r ∈ AR.first_res s → AR.last_res s ≠ Some (AR.r_addr r)) →
  AR.add_res s = None.
Proof.
  intros Hm Hne Hd. unfold AR.add_res, AR.malloc. rewrite Hm. simpl.
  destruct (AR.first_res s) as [|r0 rs] eqn:Hrs; [done|]. simpl.
  destruct (AR.last_res s) as [la|]; [|done]. simpl.
  rewrite link_after_None; [done|].
  intros y Hy Hya. by apply (Hd y Hy); rewrite Hya.
Qed.

Lemma ar_add_job_fail s :
  AR.malloc_src s (AR.malloc_pos s) = false → AR.add_job s = Some (AR.malloc s).2.
Proof. intros H. unfold AR.add_job, AR.malloc. by rewrite H. Qed.

Lemma ar_add_job_live s :
  NoDup (AR.j_addr <$> AR.first_job s) →
  tail_live AR.j_addr (AR.last_job s) (AR.first_job s) →
  AR.malloc_src s (AR.malloc_pos s) = true →
  AR.add_job s = Some (ar_with_new_job s).
Proof.
  intros Hnd Hlive Hm. unfold AR.add_job, AR.malloc. rewrite Hm. simpl.
  unfold ar_with_new_job, ar_new_job.
  destruct (AR.first_job s) as [|r0 rs] eqn:Hrs; simpl; [done|].
  destruct (last_is_Some (r0 :: rs)) as [t Ht]; [done|].
  rewrite (Hlive t Ht). simpl.
  rewrite (link_after_last AR.j_addr (AR.last_job s) _ (r0 :: rs) t); [done..|].
  done.
Qed.

Lemma ar_add_job_inv s s' :
  NoDup (AR.j_addr <$> AR.first_job s) →
  tail_ok AR.j_addr (AR.last_job s) (AR.first_job s) →
  AR.add_job s = Some s' →
  (AR.malloc_src s (AR.malloc_pos s) = false ∧ s' = (AR.malloc s).2) ∨
  (AR.malloc_src s (AR.malloc_pos s) = true ∧ s' = ar_with_new_job s).
Proof.
  intros Hnd Htl. unfold AR.add_job, AR.malloc.
  destruct (AR.malloc_src s (AR.malloc_pos s)); simpl; [|intros [= <-]; by left].
  intros H. right. split; [done|]. unfold ar_with_new_job, ar_new_job.
  destruct (AR.first_job s) as [|r0 rs] eqn:Hrs; simpl in *; [by injection H as <-|].
  apply bind_Some in H as (la & Hla & H).
  apply bind_Some in H as (rs' & Hlink & [= <-]).
  eapply (link_after_append AR.j_addr (AR.last_job s)) in Hlink; [|done..].
  by rewrite Hlink.
Qed.

Lemma ar_add_job_dangling s :
  AR.malloc_src s (AR.malloc_pos s) = true → AR.first_job s ≠ [] →
  (∀ r, r ∈ AR.first_job s → AR.last_job s ≠ Some (AR.j_addr r)) →
  AR.add_job s = None.
Proof.
  intros Hm Hne Hd. unfold AR.add_job, AR.malloc. rewrite Hm. simpl.
  destruct (AR.first_job s) as [|r0 rs] eqn:Hrs; [done|]. simpl.
  destruct (AR.last_job s) as [la|]; [|done]. simpl.
  rewrite link_after_None; [done|].
  intros y Hy Hya. by apply (Hd y Hy); rewrite Hya.
Qed.

(** ** Removing the last node of a pool *)

Lemma filter_tail_freed {A} (addr : A → nat) (P : A → Prop) `{∀ x, Decision (P x)}
    (l : list A) (t : A) :
  NoDup (addr <$> l) → last l = Some t → ¬ P t →
  ∀ y, y ∈ filter P l → addr y ≠ addr t.
Proof.
  intros Hnd Ht HP y Hy Heq. apply list_elem_of_filter in Hy as [HPy Hy].
  apply last_Some_elem_of in Ht.
  pose proof (deref_NoDup addr l t Hnd Ht) as H1.
  pose proof (deref_NoDup addr l y Hnd Hy) as H2.
  rewrite Heq, H1 in H2. injection H2 as ->. done.
Qed.

Lemma filter_not_nil {A} (P : A → Prop) `{∀ x, Decision (P x)} (l : list A) (x : A) :
  x ∈ l → P x → filter P l ≠ [].
Proof.
  intros Hx HP Hnil.
  assert (x ∈ filter P l) as Hin by by apply list_elem_of_filter.
  rewrite Hnil in Hin. by apply elem_of_nil in Hin.
Qed.

(** X1: [add_res] on a pool whose tail pointer points to its last node
    (or on an empty pool).  When [malloc] succeeds one node is linked
    behind the last one and [last_res] points to it: the new resource has
    the next code, is AVAILABLE, has a level between 1 and 5 and both
    counters at 0 (in the AR simulator also [total_workload] 0 and no
    reservation), and [random] has been called once.  When [malloc] fails
    the pool, [last_res] and [resource_number] are as before and [random]
    has not been called.  The job pool is not touched. *)
Theorem add_res_links_new_resource :
  (∀ s : Mixed.sim,
     NoDup (Mixed.r_addr <$> Mixed.first_res s) →
     tail_live Mixed.r_addr (Mixed.last_res s) (Mixed.first_res s) →
     ∃ s', Mixed.add_res s = Some s' ∧
       Mixed.first_job s' = Mixed.first_job s ∧ Mixed.last_job s' = Mixed.last_job s ∧
       if Mixed.malloc_src s (Mixed.malloc_pos s) then
         ∃ r, Mixed.first_res s' = Mixed.first_res s ++ [r] ∧
              Mixed.last_res s' = Some (Mixed.r_addr r) ∧
              Mixed.r_code r = Mixed.resource_number s + 1 ∧
              Mixed.resource_number s' = Mixed.resource_number s + 1 ∧
              Mixed.r_state r = Mixed.AVAILABLE ∧ 1 ≤ Mixed.r_level r ≤ 5 ∧
              Mixed.r_total_time r = 0 ∧ Mixed.r_used_time r = 0 ∧
              Mixed.random_pos s' = S (Mixed.random_pos s)
       else Mixed.first_res s' = Mixed.first_res s ∧ Mixed.last_res s' = Mixed.last_res s ∧
            Mixed.resource_number s' = Mixed.resource_number s ∧
            Mixed.random_pos s' = Mixed.random_pos s) ∧
  (∀ s : AR.sim,
     NoDup (AR.r_addr <$> AR.first_res s) →
     tail_live AR.r_addr (AR.last_res s) (AR.first_res s) →
     ∃ s', AR.add_res s = Some s' ∧
       AR.first_job s' = AR.first_job s ∧ AR.last_job s' = AR.last_job s ∧
       if AR.malloc_src s (AR.malloc_pos s) then
         ∃ r, AR.first_res s' = AR.first_res s ++ [r] ∧
              AR.last_res s' = Some (AR.r_addr r) ∧
              AR.r_code r = AR.resource_number s + 1 ∧
              AR.resource_number s' = AR.resource_number s + 1 ∧
              AR.r_state r = AR.AVAILABLE ∧ 1 ≤ AR.r_level r ≤ 5 ∧
              AR.r_total_time r = 0 ∧ AR.r_used_time r = 0 ∧
              AR.r_total_workload r = 0 ∧ AR.r_rsv r = [] ∧
              AR.random_pos s' = S (AR.random_pos s)
       else AR.first_res s' = AR.first_res s ∧ AR.last_res s' = AR.last_res s ∧
            AR.resource_number s' = AR.resource_number s ∧
            AR.random_pos s' = AR.random_pos s).
Proof.
  split; intros s Hnd Hlive.
  - destruct (Mixed.malloc_src s (Mixed.malloc_pos s)) eqn:Hm.
    + rewrite mixed_add_res_live by done. eexists. split; [done|]. simpl.
      split; [done|]. split; [done|]. exists (mixed_new_res s). simpl.
      pose proof (rem_range (Mixed.random_src s (Mixed.random_pos s)) 5).
      split_and!; try done; lia.
    + rewrite mixed_add_res_fail by done. eexists. split; [done|].
      unfold Mixed.malloc. rewrite Hm. done.
  - destruct (AR.malloc_src s (AR.malloc_pos s)) eqn:Hm.
    + rewrite ar_add_res_live by done. eexists. split; [done|]. simpl.
      split; [done|]. split; [done|]. exists (ar_new_res s). simpl.
      pose proof (rem_range (AR.random_src s (AR.random_pos s)) 5).
      split_and!; try done; lia.
    + rewrite ar_add_res_fail by done. eexists. split; [done|].
      unfold AR.malloc. rewrite Hm. done.
Qed.

(** X2: [add_job] on a pool whose tail pointer points to its last node
    (or on an empty pool).  When [malloc] succeeds one node is linked
    behind the last one and [last_job] points to it: the new job has the
    next code, is WAITING, has a workload between 50 and 999, between 0
    and 29 units of input data, has not waited and runs on no resource;
    [random] has been called twice.  When [malloc] fails the pool,
    [last_job] and [job_number] are as before and [random] has not been
    called.  The resource pool is not touched. *)
Theorem add_job_links_new_job :
  (∀ s : Mixed.sim,
     NoDup (Mixed.j_addr <$> Mixed.first_job s) →
     tail_live Mixed.j_addr (Mixed.last_job s) (Mixed.first_job s) →
     ∃ s', Mixed.add_job s = Some s' ∧
       Mixed.first_res s' = Mixed.first_res s ∧ Mixed.last_res s' = Mixed.last_res s ∧
       if Mixed.malloc_src s (Mixed.malloc_pos s) then
         ∃ j, Mixed.first_job s' = Mixed.first_job s ++ [j] ∧
              Mixed.last_job s' = Some (Mixed.j_addr j) ∧
              Mixed.j_code j = Mixed.job_number s + 1 ∧
              Mixed.job_number s' = Mixed.job_number s + 1 ∧
              Mixed.j_state j = Mixed.WAITING ∧ 50 ≤ Mixed.j_workload j ≤ 999 ∧
              0 ≤ Mixed.j_send_data j ≤ 29 ∧ Mixed.j_wait_time j = 0 ∧
              Mixed.j_run_on j = None ∧
              Mixed.random_pos s' = S (S (Mixed.random_pos s))
       else Mixed.first_job s' = Mixed.first_job s ∧ Mixed.last_job s' = Mixed.last_job s ∧
            Mixed.job_number s' = Mixed.job_number s ∧
            Mixed.random_pos s' = Mixed.random_pos s) ∧
  (∀ s : AR.sim,
     NoDup (AR.j_addr <$> AR.first_job s) →
     tail_live AR.j_addr (AR.last_job s) (AR.first_job s) →
     ∃ s', AR.add_job s = Some s' ∧
       AR.first_res s' = AR.first_res s ∧ AR.last_res s' = AR.last_res s ∧
       if AR.malloc_src s (AR.malloc_pos s) then
         ∃ j, AR.first_job s' = AR.first_job s ++ [j] ∧
              AR.last_job s' = Some (AR.j_addr j) ∧
              AR.j_code j = AR.job_number s + 1 ∧
              AR.job_number s' = AR.job_number s + 1 ∧
              AR.j_state j = AR.WAITING ∧ 50 ≤ AR.j_workload j ≤ 999 ∧
              0 ≤ AR.j_send_data j ≤ 29 ∧ AR.j_wait_time j = 0 ∧
              AR.j_run_on j = None ∧
              AR.random_pos s' = S (S (AR.random_pos s))
       else AR.first_job s' = AR.first_job s ∧ AR.last_job s' = AR.last_job s ∧
            AR.job_number s' = AR.job_number s ∧
            AR.random_pos s' = AR.random_pos s).
Proof.
  split; intros s Hnd Hlive.
  - destruct (Mixed.malloc_src s (Mixed.malloc_pos s)) eqn:Hm.
    + rewrite mixed_add_job_live by done. eexists. split; [done|]. simpl.
      split; [done|]. split; [done|]. exists (mixed_new_job s). simpl.
      pose proof (rem_range (Mixed.random_src s (Mixed.random_pos s)) 950).
      pose proof (rem_range (Mixed.random_src s (S (Mixed.random_pos s))) 30).
      split_and!; try done; lia.
    + rewrite mixed_add_job_fail by done. eexists. split; [done|].
      unfold Mixed.malloc. rewrite Hm. done.
  - destruct (AR.malloc_src s (AR.malloc_pos s)) eqn:Hm.
    + rewrite ar_add_job_live by done. eexists. split; [done|]. simpl.
      split; [done|]. split; [done|]. exists (ar_new_job s). simpl.
      pose proof (rem_range (AR.random_src s (AR.random_pos s)) 950).
      pose proof (rem_range (AR.random_src s (S (AR.random_pos s))) 30).
      split_and!; try done; lia.
    + rewrite ar_add_job_fail by done. eexists. split; [done|].
      unfold AR.malloc. rewrite Hm. done.
Qed.

Lemma add_res_links_new_resource_witness :
  is_Some (Mixed.add_res mixed_three_waiting) ∧ is_Some (AR.add_res ar_two_resources).
Proof.
  split.
  - destruct (proj1 add_res_links_new_resource mixed_three_waiting) as (s' & H & _).
    + apply NoDup_singleton.
    + intros t [= <-]. reflexivity.
    + by exists s'.
  - destruct (proj2 add_res_links_new_resource ar_two_resources) as (s' & H & _).
    + apply NoDup_cons. split; [|apply NoDup_singleton].
      intros H%list_elem_of_singleton. discriminate H.
    + intros t [= <-]. reflexivity.
    + by exists s'.
Defined.

Lemma add_job_links_new_job_witness :
  is_Some (Mixed.add_job mixed_sending) ∧ is_Some (AR.add_job ar_exact_finish).
Proof.
  split.
  - destruct (proj1 add_job_links_new_job mixed_sending) as (s' & H & _).
    + apply NoDup_singleton.
    + intros t [= <-]. reflexivity.
    + by exists s'.
  - destruct (proj2 add_job_links_new_job ar_exact_finish) as (s' & H & _).
    + apply NoDup_singleton.
    + intros t [= <-]. reflexivity.
    + by exists s'.
Defined.

(** X3: the removal passes free nodes without updating [last_res] and
    [last_job].  When the last resource of the pool is LEAVING and
    another resource stays, [remove_leaving_resources] leaves [last_res]
    pointing to the freed node, and an [add_res] that follows with a
    successful [malloc] writes [last_res->next]: its behaviour is
    undefined.  Likewise for [remove_done_jobs] followed by [add_job]
    when the last job is DONE and another job stays. *)
Theorem add_after_tail_removed_is_undefined :
  (∀ (s : Mixed.sim) (t r : Mixed.resource),
     NoDup (Mixed.r_addr <$> Mixed.first_res s) →
     last (Mixed.first_res s) = Some t → Mixed.last_res s = Some (Mixed.r_addr t) →
     Mixed.r_state t = Mixed.LEAVING →
     r ∈ Mixed.first_res s → Mixed.r_state r ≠ Mixed.LEAVING →
     Mixed.malloc_src s (Mixed.malloc_pos s) = true →
     Mixed.add_res (Mixed.remove_leaving_resources s) = None) ∧
  (∀ (s : Mixed.sim) (t j : Mixed.job),
     NoDup (Mixed.j_addr <$> Mixed.first_job s) →
     last (Mixed.first_job s) = Some t → Mixed.last_job s = Some (Mixed.j_addr t) →
     Mixed.j_state t = Mixed.DONE →
     j ∈ Mixed.first_job s → Mixed.j_state j ≠ Mixed.DONE →
     Mixed.malloc_src s (Mixed.malloc_pos s) = true →
     Mixed.add_job (Mixed.remove_done_jobs s) = None) ∧
  (∀ (s : AR.sim) (t r : AR.resource),
     NoDup (AR.r_addr <$> AR.first_res s) →
     last (AR.first_res s) = Some t → AR.last_res s = Some (AR.r_addr t) →
     AR.r_state t = AR.LEAVING →
     r ∈ AR.first_res s → AR.r_state r ≠ AR.LEAVING →
     AR.malloc_src s (AR.malloc_pos s) = true →
     AR.add_res (AR.remove_leaving_resources s) = None) ∧
  (∀ (s : AR.sim) (t j : AR.job),
     NoDup (AR.j_addr <$> AR.first_job s) →
     last (AR.first_job s) = Some t → AR.last_job s = Some (AR.j_addr t) →
     AR.j_state t = AR.DONE →
     j ∈ AR.first_job s → AR.j_state j ≠ AR.DONE →
     AR.malloc_src s (AR.malloc_pos s) = true →
     AR.add_job (AR.remove_done_jobs s) = None).
Proof.
  split_and!; intros s t x Hnd Ht Hla Hst Hx Hxst Hm.
  - apply mixed_add_res_dangling; [done|by eapply filter_not_nil|].
    simpl. intros y Hy. rewrite Hla. intros [= Heq].
    eapply (filter_tail_freed Mixed.r_addr); [done..| |done|done]. by intros Hne.
  - apply mixed_add_job_dangling; [done|by eapply filter_not_nil|].
    simpl. intros y Hy. rewrite Hla. intros [= Heq].
    eapply (filter_tail_freed Mixed.j_addr); [done..| |done|done]. by intros Hne.
  - apply ar_add_res_dangling; [done|by eapply filter_not_nil|].
    simpl. intros y Hy. rewrite Hla. intros [= Heq].
    eapply (filter_tail_freed AR.r_addr); [done..| |done|done]. by intros Hne.
  - apply ar_add_job_dangling; [done|by eapply filter_not_nil|].
    simpl. intros y Hy. rewrite Hla. intros [= Heq].
    eapply (filter_tail_freed AR.j_addr); [done..| |done|done]. by intros Hne.
Qed.

Lemma add_after_tail_removed_is_undefined_witness :
  Mixed.add_res (Mixed.remove_leaving_resources mixed_tail_leaving) = None ∧
  Mixed.add_job (Mixed.remove_done_jobs mixed_tail_leaving) = None ∧
  AR.add_res (AR.remove_leaving_resources ar_tail_leaving) = None ∧
  AR.add_job (AR.remove_done_jobs ar_tail_leaving) = None.
Proof.
  destruct add_after_tail_removed_is_undefined as (H1 & H2 & H3 & H4).
  split_and!.
  - apply (H1 _ (Mixed.mkResource 2 2 Mixed.LEAVING 5 40 30)
                (Mixed.mkResource 1 1 Mixed.AVAILABLE 5 40 30)); try done.
    + apply (bool_decide_unpack _). vm_compute. exact I.
    + apply list_elem_of_here.
  - apply (H2 _ (Mixed.mkJob 7 2 Mixed.DONE (-3) 0 2 (Some 2%nat))
                (Mixed.mkJob 6 1 Mixed.WAITING 300 4 7 None)); try done.
    + apply (bool_decide_unpack _). vm_compute. exact I.
    + apply list_elem_of_here.
  - apply (H3 _ (AR.mkResource 2 2 AR.LEAVING 5 40 30 (-3) [])
                (AR.mkResource 1 1 AR.AVAILABLE 5 40 30 0 [])); try done.
    + apply (bool_decide_unpack _). vm_compute. exact I.
    + apply list_elem_of_here.
  - apply (H4 _ (AR.mkJob 7 2 AR.DONE (-3) 0 2 None)
                (AR.mkJob 6 1 AR.WAITING 300 4 7 None)); try done.
    + apply (bool_decide_unpack _). vm_compute. exact I.
    + apply list_elem_of_here.
Defined.

(** ** The trace step: what it counts *)

Lemma mixed_trace_jobs_count n js d rc :
  (Mixed.trace_jobs n js d rc).1.2
  = d + Z.of_nat (length (filter (λ j, Mixed.j_state j = Mixed.DONE) js)).
Proof.
  revert d rc. induction js as [|j js IH]; intros d rc; [simpl; lia|].
  rewrite filter_cons. simpl.
  destruct (Mixed.j_state j) eqn:E;
    match goal with |- context [Mixed.trace_jobs n js ?d' ?rc'] =>
      specialize (IH d' rc'); destruct (Mixed.trace_jobs n js d' rc') as [[? ?] ?] end;
    simpl in *; try case_decide; try done; simpl; lia.
Qed.

Lemma mixed_trace_res_count rs g :
  (Mixed.trace_res rs g).2
  = g + Z.of_nat (length (filter (λ r, Mixed.r_state r = Mixed.LEAVING) rs)).
Proof.
  revert g. induction rs as [|r rs IH]; intros g; [simpl; lia|].
  rewrite filter_cons. simpl.
  destruct (Mixed.r_state r) eqn:E;
    match goal with |- context [Mixed.trace_res rs ?g'] =>
      specialize (IH g'); destruct (Mixed.trace_res rs g') as [? ?] end;
    simpl in *; try case_decide; try done; simpl; lia.
Qed.

Lemma mixed_trace_body_counts s :
  Mixed.jobs_done (Mixed.trace_body s)
  = Mixed.jobs_done s
    + Z.of_nat (length (filter (λ j, Mixed.j_state j = Mixed.DONE) (Mixed.first_job s))) ∧
  Mixed.resources_gone (Mixed.trace_body s)
  = Mixed.resources_gone s
    + Z.of_nat (length (filter (λ r, Mixed.r_state r = Mixed.LEAVING) (Mixed.first_res s))).
Proof.
  unfold Mixed.trace_body.
  pose proof (mixed_trace_jobs_count (Mixed.job_number s) (Mixed.first_job s)
                (Mixed.jobs_done s) (Mixed.records s)) as H.
  pose proof (mixed_trace_res_count (Mixed.first_res s) (Mixed.resources_gone s)) as H'.
  destruct (Mixed.trace_jobs _ _ _ _) as [[js d] rc].
  destruct (Mixed.trace_res _ _) as [rs g]. done.
Qed.

Lemma mixed_trace_body_globals s :
  Mixed.last_res (Mixed.trace_body s) = Mixed.last_res s ∧
  Mixed.last_job (Mixed.trace_body s) = Mixed.last_job s ∧
  Mixed.resource_number (Mixed.trace_body s) = Mixed.resource_number s ∧
  Mixed.job_number (Mixed.trace_body s) = Mixed.job_number s ∧
  Mixed.begin (Mixed.trace_body s) = Mixed.begin s ∧
  Mixed.heap_next (Mixed.trace_body s) = Mixed.heap_next s ∧
  Mixed.random_pos (Mixed.trace_body s) = Mixed.random_pos s ∧
  Mixed.malloc_pos (Mixed.trace_body s) = Mixed.malloc_pos s.
Proof.
  unfold Mixed.trace_body.
  destruct (Mixed.trace_jobs _ _ _ _) as [[js d] rc].
  destruct (Mixed.trace_res _ _) as [rs g]. done.
Qed.

Lemma ar_trace_jobs_count n js d rc :
  (AR.trace_jobs n js d rc).1.2
  = d + Z.of_nat (length (filter (λ j, AR.j_state j = AR.DONE) js)).
Proof.
  revert d rc. induction js as [|j js IH]; intros d rc; [simpl; lia|].
  rewrite filter_cons. simpl.
  destruct (AR.j_state j) eqn:E;
    match goal with |- context [AR.trace_jobs n js ?d' ?rc'] =>
      specialize (IH d' rc'); destruct (AR.trace_jobs n js d' rc') as [[? ?] ?] end;
    simpl in *; try case_decide; try done; simpl; lia.
Qed.

Lemma ar_trace_res_count rs g :
  (AR.trace_res rs g).2
  = g + Z.of_nat (length (filter (λ r, AR.r_state r = AR.LEAVING) rs)).
Proof.
  revert g. induction rs as [|r rs IH]; intros g; [simpl; lia|].
  rewrite filter_cons. simpl.
  destruct (AR.r_state r) eqn:E;
    match goal with |- context [AR.trace_res rs ?g'] =>
      specialize (IH g'); destruct (AR.trace_res rs g') as [? ?] end;
    simpl in *; try case_decide; try done; simpl; lia.
Qed.

Lemma ar_trace_body_counts s :
  AR.jobs_done (AR.trace_body s)
  = AR.jobs_done s
    + Z.of_nat (length (filter (λ j, AR.j_state j = AR.DONE) (AR.first_job s))) ∧
  AR.resources_gone (AR.trace_body s)
  = AR.resources_gone s
    + Z.of_nat (length (filter (λ r, AR.r_state r = AR.LEAVING) (AR.first_res s))).
Proof.
  unfold AR.trace_body.
  pose proof (ar_trace_jobs_count (AR.job_number s) (AR.first_job s)
                (AR.jobs_done s) (AR.records s)) as H.
  pose proof (ar_trace_res_count (AR.first_res s) (AR.resources_gone s)) as H'.
  destruct (AR.trace_jobs _ _ _ _) as [[js d] rc].
  destruct (AR.trace_res _ _) as [rs g]. done.
Qed.

Lemma ar_trace_body_globals s :
  AR.last_res (AR.trace_body s) = AR.last_res s ∧
  AR.last_job (AR.trace_body s) = AR.last_job s ∧
  AR.resource_number (AR.trace_body s) = AR.resource_number s ∧
  AR.job_number (AR.trace_body s) = AR.job_number s ∧
  AR.begin (AR.trace_body s) = AR.begin s ∧
  AR.heap_next (AR.trace_body s) = AR.heap_next s ∧
  AR.random_pos (AR.trace_body s) = AR.random_pos s ∧
  AR.malloc_pos (AR.trace_body s) = AR.malloc_pos s.
Proof.
  unfold AR.trace_body.
  destruct (AR.trace_jobs _ _ _ _) as [[js d] rc].
  destruct (AR.trace_res _ _) as [rs g]. done.
Qed.

(** ** Mixed: the executor, job by job *)

Lemma Forall2_store_at {A} (addr : A → nat) (R : A → A → Prop) a f (l : list A) :
  (∀ x, R x x) → (∀ x, R x (f x)) → Forall2 R l (store_at addr a f l).
Proof.
  intros Hrefl Hf. unfold store_at. apply Forall2_fmap_r.
  apply Forall2_same_length_lookup_2; [done|].
  intros i x y Hx Hy. rewrite Hx in Hy. injection Hy as <-.
  simpl. destruct (Nat.eqb (addr x) a); [apply Hf|apply Hrefl].
Qed.

Lemma mixed_res_kept_refl r : mixed_res_kept r r.
Proof. done. Qed.

Lemma mixed_res_kept_trans r1 r2 r3 :
  mixed_res_kept r1 r2 → mixed_res_kept r2 r3 → mixed_res_kept r1 r3.
Proof. unfold mixed_res_kept. intros (?&?&?&?) (?&?&?&?). split_and!; congruence. Qed.

Lemma Forall2_refl_all {A} (R : A → A → Prop) (l : list A) : (∀ x, R x x) → Forall2 R l l.
Proof. intros H. induction l; by constructor. Qed.

Lemma Forall2_trans_all {A} (R : A → A → Prop) (l1 l2 l3 : list A) :
  (∀ x y z, R x y → R y z → R x z) → Forall2 R l1 l2 → Forall2 R l2 l3 → Forall2 R l1 l3.
Proof.
  intros Htr H12. revert l3. induction H12; intros l3 H23; inversion H23; subst; [done|].
  constructor; eauto.
Qed.

(** A resource found at an address after the pass was there before,
    with the same level. *)
Lemma mixed_deref_kept rs rs' a r' :
  Forall2 mixed_res_kept rs rs' → deref Mixed.r_addr a rs' = Some r' →
  ∃ r, deref Mixed.r_addr a rs = Some r ∧ mixed_res_kept r r'.
Proof.
  induction 1 as [|r0 r0' rs rs' Hk _ IH]; [done|].
  rewrite !deref_cons. destruct Hk as (Ha & Hrest).
  rewrite Ha. destruct (Nat.eqb (Mixed.r_addr r0) a).
  - intros [= <-]. by exists r0.
  - done.
Qed.

Lemma mixed_deref_kept_fwd rs rs' a r :
  Forall2 mixed_res_kept rs rs' → deref Mixed.r_addr a rs = Some r →
  ∃ r', deref Mixed.r_addr a rs' = Some r' ∧ mixed_res_kept r r'.
Proof.
  induction 1 as [|r0 r0' rs rs' Hk _ IH]; [done|].
  rewrite !deref_cons. destruct Hk as (Ha & Hrest).
  rewrite Ha. destruct (Nat.eqb (Mixed.r_addr r0) a).
  - intros [= <-]. by exists r0'.
  - done.
Qed.

Lemma mixed_job_step_kept rs rs' j j' :
  Forall2 mixed_res_kept rs rs' → mixed_job_step rs' j j' → mixed_job_step rs j j'.
Proof.
  intros Hk (Ha & Hc & Hw & Hr & Hst). split_and!; try done.
  destruct (Mixed.j_state j); try done.
  destruct Hst as (a & r' & Hon & Hd & Hsd & Hwl & Hs).
  destruct (mixed_deref_kept _ _ _ _ Hk Hd) as (r & Hd0 & _ & _ & Hl & _).
  exists a, r. rewrite <- Hl. done.
Qed.

Lemma mixed_run_send_job_step j s j' s' :
  Mixed.run_send_job j s = Some (j', s') →
  mixed_job_step (Mixed.first_res s) j j' ∧
  Forall2 mixed_res_kept (Mixed.first_res s) (Mixed.first_res s') ∧
  Mixed.first_job s' = Mixed.first_job s ∧ mixed_ledger s' = mixed_ledger s ∧
  Mixed.heap_next s' = Mixed.heap_next s ∧ Mixed.malloc_pos s' = Mixed.malloc_pos s.
Proof.
  unfold Mixed.run_send_job, mixed_job_step, Mixed.run_on_res. intros H.
  destruct (Mixed.j_state j) eqn:Hst; simplify_eq/=.
  - split_and!; try done. by apply Forall2_refl_all.
  - apply bind_Some in H as ([a r] & Hr & H).
    apply bind_Some in Hr as (a' & Ha & Hr). apply bind_Some in Hr as (r' & Hd & [= <- <-]).
    simpl in H.
    destruct (Mixed.j_workload j - Mixed.r_level r' <=? 0) eqn:Hw.
    + destruct (Z.rem _ 1000 <=? Mixed.RL_PROB); simplify_eq/=.
      * split_and!; try done.
        { exists a', r'. by rewrite Hw. }
        eapply Forall2_trans_all; [apply mixed_res_kept_trans| |apply Forall2_store_at; done].
        eapply Forall2_trans_all; [apply mixed_res_kept_trans| |apply Forall2_store_at; done].
        apply Forall2_store_at; done.
      * split_and!; try done.
        { exists a', r'. by rewrite Hw. }
        eapply Forall2_trans_all; [apply mixed_res_kept_trans| |apply Forall2_store_at; done].
        apply Forall2_store_at; done.
    + simplify_eq/=. split_and!; try done.
      { exists a', r'. by rewrite Hw. }
      apply Forall2_store_at; done.
  - split_and!; try done. by apply Forall2_refl_all.
  - destruct (Mixed.j_send_data j - 1 <=? 0) eqn:Hsd.
    + apply bind_Some in H as ([a r] & Hr & H). simplify_eq/=.
      split_and!; try done; [by rewrite Hsd|]. apply Forall2_store_at; done.
    + simplify_eq/=. split_and!; try done; [by rewrite Hsd|]. by apply Forall2_refl_all.
Qed.

Lemma mixed_run_send_loop_step js : ∀ s js' s',
  Mixed.run_send_loop js s = Some (js', s') →
  Forall2 (mixed_job_step (Mixed.first_res s)) js js' ∧
  Forall2 mixed_res_kept (Mixed.first_res s) (Mixed.first_res s') ∧
  Mixed.first_job s' = Mixed.first_job s ∧ mixed_ledger s' = mixed_ledger s ∧
  Mixed.heap_next s' = Mixed.heap_next s ∧ Mixed.malloc_pos s' = Mixed.malloc_pos s.
Proof.
  induction js as [|j js IH]; intros s js' s'; simpl.
  - intros [= <- <-]. split_and!; try done. by apply Forall2_refl_all.
  - intros H. apply bind_Some in H as ([j1 s1] & H1 & H).
    apply bind_Some in H as ([js2 s2] & H2 & H). simplify_eq/=.
    apply mixed_run_send_job_step in H1 as (Hj & Hk1 & Hfj1 & Hl1 & Hh1 & Hm1).
    apply IH in H2 as (Hjs & Hk2 & Hfj2 & Hl2 & Hh2 & Hm2).
    split_and!; try congruence.
    + constructor; [done|].
      eapply Forall2_impl; [done|]. intros x y. by apply mixed_job_step_kept.
    + eapply Forall2_trans_all; [apply mixed_res_kept_trans|done|done].
Qed.

Lemma mixed_run_send_step s s' :
  Mixed.run_send s = Some s' →
  Forall2 (mixed_job_step (Mixed.first_res s)) (Mixed.first_job s) (Mixed.first_job s') ∧
  Forall2 mixed_res_kept (Mixed.first_res s) (Mixed.first_res s') ∧
  mixed_ledger s' = mixed_ledger s ∧
  Mixed.heap_next s' = Mixed.heap_next s ∧ Mixed.malloc_pos s' = Mixed.malloc_pos s.
Proof.
  unfold Mixed.run_send. intros H. apply bind_Some in H as ([js s1] & H1 & H).
  simplify_eq/=. apply mixed_run_send_loop_step in H1 as (Hjs & Hk & Hfj & Hl & Hh & Hm).
  split_and!; done.
Qed.

(** ** Mixed: the scheduler *)

Lemma mixed_select_best_spec js bs rest : ∀ pos best,
  rest = drop pos js →
  (Mixed.select_best bs rest pos best = best ∧
   ∀ i j, (pos ≤ i)%nat → js !! i = Some j → Mixed.j_state j = Mixed.WAITING →
     Mixed.score j ≤ bs) ∨
  ((pos ≤ Mixed.select_best bs rest pos best)%nat ∧
   ∃ jb, js !! Mixed.select_best bs rest pos best = Some jb ∧
     Mixed.j_state jb = Mixed.WAITING ∧ bs < Mixed.score jb ∧
     ∀ i j, (Mixed.select_best bs rest pos best < i)%nat → js !! i = Some j →
       Mixed.j_state j = Mixed.WAITING → Mixed.score j ≤ bs).
Proof.
  induction rest as [|j rest IH]; intros pos best Hrest; simpl.
  - left. split; [done|]. intros i x Hi Hx _. exfalso.
    apply lookup_lt_Some in Hx.
    assert (length (drop pos js) = 0%nat) as Hl by by rewrite <- Hrest.
    rewrite length_drop in Hl. lia.
  - assert (js !! pos = Some j) as Hpos.
    { rewrite <- (Nat.add_0_r pos), <- lookup_drop, <- Hrest. done. }
    assert (rest = drop (S pos) js) as Hrest'.
    { erewrite drop_S in Hrest by done. by injection Hrest. }
    destruct (IH (S pos)
                (if Mixed.is_waiting j && (Mixed.score j >? bs) then pos else best) Hrest')
      as [[Hb Hle]|(Hge & jb & Hjb & Hw & Hsc & Hle)].
    + destruct (Mixed.is_waiting j && (Mixed.score j >? bs)) eqn:Hc.
      * right. rewrite Hb. split; [done|]. exists j.
        apply andb_true_iff in Hc as [Hw Hs]. apply mixed_is_waiting_spec in Hw.
        split_and!; [done|done|lia|]. intros i x Hi. apply Hle. lia.
      * left. split; [done|]. intros i x Hi Hx Hw.
        destruct (decide (i = pos)) as [->|Hne]; [|apply (Hle i x); [lia|done..]].
        rewrite Hpos in Hx. injection Hx as <-.
        apply mixed_is_waiting_spec in Hw. rewrite Hw in Hc. simpl in Hc. lia.
    + right. split; [lia|]. by exists jb.
Qed.

Lemma mixed_schedule_cases s :
  (Mixed.schedule s = s ∧
   (first_index Mixed.is_available (Mixed.first_res s) = None ∨
    first_index Mixed.is_waiting (Mixed.first_job s) = None)) ∨
  ∃ ri r k j0 b jb,
    first_index Mixed.is_available (Mixed.first_res s) = Some ri ∧
    Mixed.first_res s !! ri = Some r ∧ Mixed.r_state r = Mixed.AVAILABLE ∧
    first_index Mixed.is_waiting (Mixed.first_job s) = Some k ∧
    Mixed.first_job s !! k = Some j0 ∧ Mixed.j_state j0 = Mixed.WAITING ∧
    mixed_chosen (Mixed.first_job s) k j0 b jb ∧
    Mixed.schedule s = mixed_bind ri b r s.
Proof.
  unfold Mixed.schedule.
  destruct (first_index Mixed.is_available (Mixed.first_res s)) as [ri|] eqn:Hri;
    [|left; split; [done|by left]].
  destruct (first_index Mixed.is_waiting (Mixed.first_job s)) as [k|] eqn:Hk;
    [|left; split; [done|by right]].
  right.
  apply first_index_Some in Hri as (r & Hr & Hav & _).
  apply first_index_Some in Hk as (j0 & Hj0 & Hw0 & _).
  apply mixed_is_available_spec in Hav. apply mixed_is_waiting_spec in Hw0.
  rewrite Hr, Hj0.
  exists ri, r, k, j0, (Mixed.select_best (Mixed.score j0) (drop k (Mixed.first_job s)) k k).
  destruct (mixed_select_best_spec (Mixed.first_job s) (Mixed.score j0)
              (drop k (Mixed.first_job s)) k k eq_refl)
    as [[Hb Hle]|(Hge & jb & Hjb & Hw & Hsc & Hle)].
  - exists j0. split_and!; try done. rewrite Hb.
    split_and!; [done|done|by left|].
    intros i j Hi. apply Hle. lia.
  - exists jb. split_and!; try done. split_and!; [done|done| |done].
    right. split; [|done].
    destruct (decide (Mixed.select_best (Mixed.score j0) (drop k (Mixed.first_job s)) k k = k))
      as [Heq|Hne]; [|lia].
    rewrite Heq, Hj0 in Hjb. injection Hjb as <-. lia.
Qed.

(** ** Codes, ranges and counts: list lemmas *)

Lemma codes_between_weaken lo lo' hi hi' l :
  lo' ≤ lo → hi ≤ hi' → codes_between lo hi l → codes_between lo' hi' l.
Proof.
  revert lo lo'. induction l as [|c l IH]; intros lo lo' Hlo Hhi; simpl; [lia|].
  intros [Hc Hl]. split; [lia|]. eapply IH; [|done|done]. lia.
Qed.

Lemma codes_between_le lo hi l : codes_between lo hi l → lo ≤ hi.
Proof.
  revert lo. induction l as [|c l IH]; intros lo; simpl; [done|].
  intros [Hc Hl]. apply IH in Hl. lia.
Qed.

Lemma codes_between_sublist lo hi l l' :
  l' `sublist_of` l → codes_between lo hi l → codes_between lo hi l'.
Proof.
  intros Hsub. revert lo. induction Hsub as [|x l1 l2 _ IH|x l1 l2 _ IH]; intros lo; simpl.
  - done.
  - intros [Hx Hl]. split; [done|]. by apply IH.
  - intros [Hx Hl]. eapply codes_between_weaken; [| |by apply IH]; lia.
Qed.

Lemma codes_between_snoc lo hi l :
  codes_between lo hi l → codes_between lo (hi + 1) (l ++ [hi + 1]).
Proof.
  revert lo. induction l as [|c l IH]; intros lo; simpl.
  - lia.
  - intros [Hc Hl]. split; [done|]. by apply IH.
Qed.

Lemma codes_between_lookup lo hi l i x :
  codes_between lo hi l → l !! i = Some x → lo < x ≤ hi.
Proof.
  revert lo i. induction l as [|c l IH]; intros lo i; simpl; [done|].
  intros [Hc Hl]. destruct i as [|i]; simpl.
  - intros [= <-]. apply codes_between_le in Hl. lia.
  - intros Hx. pose proof (IH _ _ Hl Hx). lia.
Qed.

Lemma codes_between_increasing lo hi l i k x y :
  codes_between lo hi l → (i < k)%nat → l !! i = Some x → l !! k = Some y → x < y.
Proof.
  revert lo i k. induction l as [|c l IH]; intros lo i k; simpl; [done|].
  intros [Hc Hl] Hik. destruct k as [|k]; [lia|]. destruct i as [|i]; simpl.
  - intros [= <-] Hy. pose proof (codes_between_lookup _ _ _ _ _ Hl Hy). lia.
  - intros Hx Hy. eapply (IH _ i k); [done|lia|done|done].
Qed.

Lemma Forall2_fmap_eq {A B} (f : A → B) (l l' : list A) :
  Forall2 (λ x y, f y = f x) l l' → f <$> l' = f <$> l.
Proof. induction 1 as [|x y l l' Hxy _ IH]; [done|]. by rewrite !fmap_cons, Hxy, IH. Qed.

Lemma fmap_alter_same {A B} (f : A → B) (g : A → A) (i : nat) (l : list A) :
  (∀ x, f (g x) = f x) → f <$> alter g i l = f <$> l.
Proof.
  intros Hg. revert i. induction l as [|x l IH]; intros i; [done|].
  destruct i as [|i]; simpl; rewrite ?fmap_cons; [by rewrite Hg|]. f_equal. apply IH.
Qed.

Lemma length_filter_split {A} (P : A → Prop) `{∀ x, Decision (P x)}
    `{∀ x, Decision (¬ P x)} (l : list A) :
  length l = (length (filter P l) + length (filter (λ x, ¬ P x) l))%nat.
Proof.
  induction l as [|x l IH]; [done|]. rewrite !filter_cons.
  destruct (decide (P x)), (decide (¬ P x)); simpl; try done; lia.
Qed.

Lemma length_filter_fmap {A} (P : A → Prop) `{∀ x, Decision (P x)} (g : A → A) (l : list A) :
  (∀ x, P (g x) ↔ P x) → length (filter P (g <$> l)) = length (filter P l).
Proof.
  intros Hg. induction l as [|x l IH]; [done|]. rewrite fmap_cons, !filter_cons.
  destruct (decide (P (g x))) as [H1|H1], (decide (P x)) as [H2|H2]; simpl;
    [by rewrite IH|exfalso; by apply H2, Hg|exfalso; by apply H1, Hg|by rewrite IH].
Qed.

Lemma length_filter_all {A} (P : A → Prop) `{∀ x, Decision (P x)} (l : list A) :
  Forall P l → filter P l = l.
Proof.
  induction 1 as [|x l Hx _ IH]; [done|]. rewrite filter_cons.
  destruct (decide (P x)); [by rewrite IH|done].
Qed.

Lemma tail_ok_same_addrs {A} (addr : A → nat) la (l l' : list A) :
  NoDup (addr <$> l) → Forall2 (λ x y, addr y = addr x) l l' →
  tail_ok addr la l → tail_ok addr la l'.
Proof.
  intros Hnd Hf Htl a y Hla Hy Hya.
  apply list_elem_of_lookup in Hy as [i Hi].
  destruct (Forall2_lookup_r _ _ _ _ _ Hf Hi) as (x & Hx & Hxy).
  pose proof (Htl a x Hla (list_elem_of_lookup_2 _ _ _ Hx) ltac:(congruence)) as Hlast.
  rewrite last_lookup in Hlast. rewrite last_lookup.
  rewrite <- (Forall2_length _ _ _ Hf).
  assert (i = pred (length l)) as <-; [|done].
  eapply NoDup_lookup; [done| |].
  - by rewrite list_lookup_fmap, Hx.
  - by rewrite list_lookup_fmap, Hlast.
Qed.

Lemma fmap_fmap_same {A B} (f : A → B) (g : A → A) (l : list A) :
  (∀ x, f (g x) = f x) → f <$> (g <$> l) = f <$> l.
Proof.
  intros Hg. induction l as [|x l IH]; [done|]. by rewrite !fmap_cons, Hg, IH.
Qed.

(** ** Mixed: codes, ranges and counts, step by step *)

Lemma mixed_trace_body_books s : mixed_books s → mixed_books (Mixed.trace_body s).
Proof.
  intros [Hj Ht Hjc Hrc Hlv Hrg].
  destruct (mixed_trace_body_globals s) as (Hlr & Hlj & Hrn & Hjn & Hb & Hh & Hrp & Hmp).
  split; rewrite ?Hh, ?Hlj, ?Hjn, ?Hrn, ?mixed_trace_body_jobs, ?mixed_trace_body_res.
  - apply pool_ok_fmap; [|done]. intros j. by destruct (mixed_waits j).
  - apply tail_ok_fmap; [|apply Hj|done]. intros j. by destruct (mixed_waits j).
  - rewrite fmap_fmap_same; [done|]. intros j. by destruct (mixed_waits j).
  - rewrite fmap_fmap_same; done.
  - apply Forall_fmap. eapply Forall_impl; [done|]. done.
  - apply Forall_fmap. eapply Forall_impl; [done|].
    intros j. unfold mixed_job_range, mixed_waits.
    destruct (Mixed.j_state j) eqn:E; unfold Mixed.set_j_wait_time; cbn; rewrite ?E; cbn;
      intuition lia.
Qed.

Lemma mixed_trace_body_census s : mixed_census false s → mixed_census true (Mixed.trace_body s).
Proof.
  intros [Hjobs Hres]. unfold mixed_census.
  destruct (mixed_trace_body_globals s) as (Hlr & Hlj & Hrn & Hjn & Hb & Hh & Hrp & Hmp).
  destruct (mixed_trace_body_counts s) as [Hd Hg].
  rewrite Hjn, Hrn, Hd, Hg, mixed_trace_body_jobs, mixed_trace_body_res.
  rewrite (length_filter_fmap (λ j, Mixed.j_state j ≠ Mixed.DONE));
    [|intros j; by destruct (mixed_waits j)].
  rewrite (length_filter_fmap (λ r, Mixed.r_state r ≠ Mixed.LEAVING)); [|done].
  pose proof (length_filter_split (λ j, Mixed.j_state j = Mixed.DONE) (Mixed.first_job s)).
  pose proof (length_filter_split (λ r, Mixed.r_state r = Mixed.LEAVING) (Mixed.first_res s)).
  simpl in *. lia.
Qed.

Lemma mixed_add_res_books s s' :
  mixed_mid s → mixed_books s → Mixed.add_res s = Some s' → mixed_books s'.
Proof.
  intros [[[Hnd _] Htl _ _ _] _] [Hj Ht Hjc Hrc Hlv Hrg] H.
  destruct (mixed_add_res_inv s s' Hnd Htl H) as [[Hm ->]|[Hm ->]].
  - unfold Mixed.malloc. rewrite Hm. by split.
  - split; simpl; try done.
    + eapply pool_ok_mono; [|done]. lia.
    + rewrite fmap_app. by apply codes_between_snoc.
    + apply Forall_app. split; [done|]. apply Forall_singleton. simpl.
      pose proof (rem_range (Mixed.random_src s (Mixed.random_pos s)) 5). lia.
Qed.

Lemma mixed_add_res_census b s s' :
  mixed_mid s → mixed_census b s → Mixed.add_res s = Some s' → mixed_census b s'.
Proof.
  intros [[[Hnd _] Htl _ _ _] _] [Hjobs Hres] H.
  destruct (mixed_add_res_inv s s' Hnd Htl H) as [[Hm ->]|[Hm ->]].
  - unfold Mixed.malloc. rewrite Hm. by split.
  - split; simpl; [done|]. rewrite Hres. destruct b.
    + rewrite filter_app. rewrite filter_cons_True; [|by simpl].
      rewrite !length_app. simpl. lia.
    + rewrite !length_app. simpl. lia.
Qed.

Lemma mixed_add_job_books s s' :
  mixed_books s → Mixed.add_job s = Some s' → mixed_books s'.
Proof.
  intros [Hj Ht Hjc Hrc Hlv Hrg] H.
  destruct (mixed_add_job_inv s s' (proj1 Hj) Ht H) as [[Hm ->]|[Hm ->]].
  - unfold Mixed.malloc. rewrite Hm. by split.
  - split; simpl; try done.
    + by apply pool_ok_snoc.
    + apply (tail_ok_snoc Mixed.j_addr _ (mixed_new_job s)).
      by eapply pool_ok_fresh.
    + rewrite fmap_app. by apply codes_between_snoc.
    + apply Forall_app. split; [done|]. apply Forall_singleton.
      unfold mixed_job_range. simpl.
      pose proof (rem_range (Mixed.random_src s (Mixed.random_pos s)) 950).
      pose proof (rem_range (Mixed.random_src s (S (Mixed.random_pos s))) 30).
      split_and!; try done; lia.
Qed.

Lemma mixed_add_job_census s s' :
  mixed_books s → mixed_census false s → Mixed.add_job s = Some s' → mixed_census false s'.
Proof.
  intros [Hj Ht Hjc Hrc Hlv Hrg] [Hjobs Hres] H.
  destruct (mixed_add_job_inv s s' (proj1 Hj) Ht H) as [[Hm ->]|[Hm ->]].
  - unfold Mixed.malloc. rewrite Hm. by split.
  - split; simpl; [|done]. rewrite Hjobs, !length_app. simpl. lia.
Qed.

Lemma mixed_removals_books s :
  mixed_books s → mixed_books (Mixed.remove_leaving_resources (Mixed.remove_done_jobs s)).
Proof.
  intros [Hj Ht Hjc Hrc Hlv Hrg]. split; simpl.
  - by apply pool_ok_filter.
  - by apply tail_ok_filter.
  - eapply codes_between_sublist; [|done]. apply fmap_sublist, sublist_filter.
  - eapply codes_between_sublist; [|done]. apply fmap_sublist, sublist_filter.
  - apply Forall_forall. intros r [_ Hr]%list_elem_of_filter. by eapply Forall_forall in Hlv.
  - apply Forall_forall. intros j [_ Hjn]%list_elem_of_filter. by eapply Forall_forall in Hrg.
Qed.

Lemma mixed_removals_census s :
  mixed_census true s →
  mixed_census false (Mixed.remove_leaving_resources (Mixed.remove_done_jobs s)).
Proof. intros [Hjobs Hres]. by split. Qed.

Lemma mixed_removals_clean s :
  Forall (λ j, Mixed.j_state j ≠ Mixed.DONE)
    (Mixed.first_job (Mixed.remove_leaving_resources (Mixed.remove_done_jobs s))) ∧
  Forall (λ r, Mixed.r_state r ≠ Mixed.LEAVING)
    (Mixed.first_res (Mixed.remove_leaving_resources (Mixed.remove_done_jobs s))).
Proof.
  split; apply Forall_forall; simpl; by intros x [Hx _]%list_elem_of_filter.
Qed.

Lemma Forall2_transport {A} (R : A → A → Prop) (P Q : A → Prop) (l l' : list A) :
  Forall2 R l l' → (∀ x y, R x y → P x → Q y) → Forall P l → Forall Q l'.
Proof.
  intros HR Hxy. induction HR as [|x y l l' Hr _ IH]; [done|].
  intros [Hx Hl]%Forall_cons. constructor; eauto.
Qed.

Lemma mixed_job_step_range rs j j' :
  Forall (λ r, 1 ≤ Mixed.r_level r ≤ 5) rs →
  mixed_job_step rs j j' → mixed_job_range j → mixed_job_range j'.
Proof.
  intros Hlv (Ha & Hc & Hw & Hr & Hst). unfold mixed_job_range. rewrite Hw.
  destruct (Mixed.j_state j) eqn:E.
  - by subst j'; rewrite E.
  - destruct Hst as (a & r & Hon & Hd & Hsd & Hwl & Hs).
    apply deref_Some in Hd as [Hin _]. eapply Forall_forall in Hlv; [|done].
    rewrite Hs, Hsd. destruct (Mixed.j_workload j' <=? 0) eqn:Hle; lia.
  - by subst j'; rewrite E.
  - destruct Hst as (Hwl & Hsd & Hs). rewrite Hs, Hwl.
    destruct (Mixed.j_send_data j' <=? 0) eqn:Hle; lia.
Qed.

Lemma mixed_run_send_books s s' :
  mixed_books s → Mixed.run_send s = Some s' → mixed_books s'.
Proof.
  intros [Hj Ht Hjc Hrc Hlv Hrg] H.
  apply mixed_run_send_step in H as (Hjs & Hk & Hl & Hh & Hm).
  unfold mixed_ledger in Hl.
  assert (Mixed.last_job s' = Mixed.last_job s) as Hlj by congruence.
  assert (Mixed.job_number s' = Mixed.job_number s) as Hjn by congruence.
  assert (Mixed.resource_number s' = Mixed.resource_number s) as Hrn by congruence.
  assert (Forall2 (λ x y, Mixed.j_addr y = Mixed.j_addr x) (Mixed.first_job s)
            (Mixed.first_job s')) as Haddr.
  { eapply Forall2_impl; [exact Hjs|]. by intros x y (? & _). }
  assert (Forall2 (λ x y, Mixed.j_code y = Mixed.j_code x) (Mixed.first_job s)
            (Mixed.first_job s')) as Hcode.
  { eapply Forall2_impl; [exact Hjs|]. by intros x y (_ & ? & _). }
  assert (Forall2 (λ x y, Mixed.r_code y = Mixed.r_code x) (Mixed.first_res s)
            (Mixed.first_res s')) as Hrcode.
  { eapply Forall2_impl; [exact Hk|]. by intros x y (_ & ? & _). }
  split.
  - rewrite Hh. eapply pool_ok_addrs; [|done]. by apply Forall2_fmap_eq.
  - rewrite Hlj. eapply tail_ok_same_addrs; [apply Hj|done|done].
  - rewrite Hjn. by rewrite (Forall2_fmap_eq _ _ _ Hcode).
  - rewrite Hrn. by rewrite (Forall2_fmap_eq _ _ _ Hrcode).
  - eapply Forall2_transport; [exact Hk| |done].
    intros x y (_ & _ & Hlev & _). simpl. by rewrite Hlev.
  - eapply Forall2_transport; [exact Hjs| |done]. intros x y. by apply mixed_job_step_range.
Qed.

Lemma mixed_run_send_census s s' :
  mixed_census false s → Mixed.run_send s = Some s' → mixed_census false s'.
Proof.
  intros [Hjobs Hres] H.
  apply mixed_run_send_step in H as (Hjs & Hk & Hl & Hh & Hm).
  unfold mixed_ledger in Hl.
  assert (Mixed.job_number s' = Mixed.job_number s) as Hjn by congruence.
  assert (Mixed.resource_number s' = Mixed.resource_number s) as Hrn by congruence.
  assert (Mixed.jobs_done s' = Mixed.jobs_done s) as Hjd by congruence.
  assert (Mixed.resources_gone s' = Mixed.resources_gone s) as Hrg by congruence.
  apply Forall2_length in Hjs, Hk. unfold mixed_census in *. simpl in *.
  rewrite <- Hjs, <- Hk. lia.
Qed.

Lemma mixed_bind_books ri b r jb s :
  mixed_books s → Mixed.first_job s !! b = Some jb → Mixed.j_state jb = Mixed.WAITING →
  mixed_books (mixed_bind ri b r s).
Proof.
  intros [Hj Ht Hjc Hrc Hlv Hrg] Hb Hw. split; simpl.
  - by apply pool_ok_alter.
  - apply tail_ok_alter; [done|apply Hj|done].
  - by rewrite fmap_alter_same.
  - by rewrite fmap_alter_same.
  - apply Forall_alter; [done|]. by intros x _.
  - apply Forall_alter; [done|]. intros x Hx. rewrite Hb in Hx. injection Hx as <-.
    unfold mixed_job_range. simpl. rewrite Hw. intuition lia.
Qed.

Lemma mixed_schedule_books s : mixed_books s → mixed_books (Mixed.schedule s).
Proof.
  intros Hb.
  destruct (mixed_schedule_cases s)
    as [[-> _]|(ri & r & k & j0 & b & jb & _ & _ & _ & _ & _ & _ & (Hjb & Hw & _) & ->)];
    [done|].
  by eapply mixed_bind_books.
Qed.

Lemma mixed_schedule_census s : mixed_census false s → mixed_census false (Mixed.schedule s).
Proof.
  intros [Hjobs Hres].
  destruct (mixed_schedule_cases s)
    as [[-> _]|(ri & r & k & j0 & b & jb & _ & _ & _ & _ & _ & _ & _ & ->)]; [done|].
  split; simpl; by rewrite length_alter.
Qed.

Lemma mixed_books_ext s s' :
  mixed_books s →
  Mixed.first_res s' = Mixed.first_res s → Mixed.first_job s' = Mixed.first_job s →
  Mixed.last_job s' = Mixed.last_job s → Mixed.heap_next s' = Mixed.heap_next s →
  Mixed.job_number s' = Mixed.job_number s →
  Mixed.resource_number s' = Mixed.resource_number s →
  mixed_books s'.
Proof.
  intros [Hj Ht Hjc Hrc Hlv Hrg] Hr Hjs Hlj Hh Hjn Hrn.
  split; by rewrite ?Hr, ?Hjs, ?Hlj, ?Hh, ?Hjn, ?Hrn.
Qed.

Lemma mixed_repeat_add_res_books b n : ∀ s s',
  mixed_mid s → mixed_books s → mixed_census b s → Mixed.repeat_add_res n s = Some s' →
  mixed_books s' ∧ mixed_census b s'.
Proof.
  induction n as [|n IH]; intros s s' Hmid Hb Hc; simpl; [by intros [= <-]|].
  intros H. apply bind_Some in H as (s1 & H1 & H).
  eapply (IH s1); [by eapply mixed_add_res_mid|by eapply mixed_add_res_books| |done].
  by eapply mixed_add_res_census.
Qed.

Lemma mixed_add_remove_books s s' :
  mixed_mid s → mixed_books s → mixed_census true s → Mixed.add_remove s = Some s' →
  mixed_books s' ∧ mixed_census false s'.
Proof.
  intros Hmid Hb Hc. unfold Mixed.add_remove. intros H.
  apply bind_Some in H as (s1 & H1 & H).
  assert (mixed_mid s1 ∧ mixed_books s1 ∧ mixed_census true s1) as (Hmid1 & Hb1 & Hc1).
  { destruct (Mixed.begin s); [|by injection H1 as <-].
    apply fmap_Some in H1 as (s0 & H0 & ->).
    destruct (mixed_repeat_add_res_books true _ _ _ Hmid Hb Hc H0) as [Hb0 Hc0].
    split_and!.
    - eapply mixed_mid_ext; [by eapply mixed_repeat_add_res_mid|done..|simpl; lia].
    - by eapply mixed_books_ext.
    - done. }
  apply mixed_remove_done_jobs_mid, mixed_remove_leaving_resources_mid in Hmid1.
  apply mixed_removals_books in Hb1. apply mixed_removals_census in Hc1.
  simpl in H.
  match type of H with Mixed.add_on_draw _ ?s4 = _ =>
    assert (mixed_mid s4 ∧ mixed_books s4 ∧ mixed_census false s4) as (Hmid4 & Hb4 & Hc4)
  end.
  { split_and!; [eapply mixed_mid_ext; [exact Hmid1|done..|simpl; lia]
                |by eapply mixed_books_ext|done]. }
  unfold Mixed.add_on_draw in H.
  destruct (Mixed.admission_of_draw _).
  - split; [by eapply mixed_add_res_books|by eapply mixed_add_res_census].
  - split; [by eapply mixed_add_job_books|by eapply mixed_add_job_census].
  - by injection H as <-.
Qed.

Lemma mixed_init_books rnd mal :
  mixed_books (Mixed.init rnd mal) ∧ mixed_census false (Mixed.init rnd mal).
Proof.
  split; [split|split]; simpl; try done.
  split; [apply NoDup_nil_2|apply Forall_nil_2].
Qed.

Lemma mixed_tick_books s s' :
  mixed_wf s → mixed_books s → mixed_census false s → Mixed.tick s = Running s' →
  mixed_books s' ∧ mixed_census false s'.
Proof.
  intros Hwf Hb Hc Ht. pose proof (mixed_tick_wf s Hwf) as Hstep.
  unfold Mixed.tick in Ht.
  destruct (Mixed.traceall s) as [s1| |] eqn:Htr; [|done..].
  apply mixed_traceall_Running in Htr as ->.
  destruct (Mixed.add_remove (Mixed.trace_body s)) as [s2|] eqn:Har; [|done].
  destruct Hstep as (Hmid2 & s3 & Hrs & Hwf3 & _). rewrite Hrs in Ht. injection Ht as <-.
  destruct (mixed_add_remove_books _ _ (mixed_trace_body_mid s Hwf)
              (mixed_trace_body_books s Hb) (mixed_trace_body_census s Hc) Har) as [Hb2 Hc2].
  split.
  - apply mixed_schedule_books. by eapply mixed_run_send_books.
  - apply mixed_schedule_census. by eapply mixed_run_send_census.
Qed.

Lemma mixed_run_books n : ∀ s s',
  mixed_wf s → mixed_books s → mixed_census false s → Mixed.run n s = Running s' →
  mixed_books s' ∧ mixed_census false s'.
Proof.
  induction n as [|n IH]; intros s s' Hwf Hb Hc; simpl; [by intros [= <-]|].
  destruct (Mixed.tick s) as [s1| |] eqn:Ht; [|done..].
  destruct (mixed_tick_books _ _ Hwf Hb Hc Ht) as [Hb1 Hc1].
  apply IH; [by eapply mixed_tick_Running_wf|done..].
Qed.

(** ** The trace step: what it counts *)

(** X4: the trace step adds to [jobs_done] the number of DONE jobs of
    the pool and to [resources_gone] the number of LEAVING resources, in
    both simulators; it changes the state of no job and of no resource,
    nor [job_number], [resource_number] or the tail pointers. *)
Theorem trace_counts_done_jobs_and_leaving_resources :
  (∀ s : Mixed.sim,
     Mixed.jobs_done (Mixed.trace_body s)
     = Mixed.jobs_done s
       + Z.of_nat (length (filter (λ j, Mixed.j_state j = Mixed.DONE) (Mixed.first_job s))) ∧
     Mixed.resources_gone (Mixed.trace_body s)
     = Mixed.resources_gone s
       + Z.of_nat (length (filter (λ r, Mixed.r_state r = Mixed.LEAVING) (Mixed.first_res s))) ∧
     Mixed.j_state <$> Mixed.first_job (Mixed.trace_body s) = Mixed.j_state <$> Mixed.first_job s ∧
     Mixed.r_state <$> Mixed.first_res (Mixed.trace_body s) = Mixed.r_state <$> Mixed.first_res s ∧
     Mixed.job_number (Mixed.trace_body s) = Mixed.job_number s ∧
     Mixed.resource_number (Mixed.trace_body s) = Mixed.resource_number s ∧
     Mixed.last_job (Mixed.trace_body s) = Mixed.last_job s ∧
     Mixed.last_res (Mixed.trace_body s) = Mixed.last_res s) ∧
  (∀ s : AR.sim,
     AR.jobs_done (AR.trace_body s)
     = AR.jobs_done s
       + Z.of_nat (length (filter (λ j, AR.j_state j = AR.DONE) (AR.first_job s))) ∧
     AR.resources_gone (AR.trace_body s)
     = AR.resources_gone s
       + Z.of_nat (length (filter (λ r, AR.r_state r = AR.LEAVING) (AR.first_res s))) ∧
     AR.j_state <$> AR.first_job (AR.trace_body s) = AR.j_state <$> AR.first_job s ∧
     AR.r_state <$> AR.first_res (AR.trace_body s) = AR.r_state <$> AR.first_res s ∧
     AR.job_number (AR.trace_body s) = AR.job_number s ∧
     AR.resource_number (AR.trace_body s) = AR.resource_number s ∧
     AR.last_job (AR.trace_body s) = AR.last_job s ∧
     AR.last_res (AR.trace_body s) = AR.last_res s).
Proof.
  split; intros s.
  - destruct (mixed_trace_body_counts s) as [Hd Hg].
    destruct (mixed_trace_body_globals s) as (Hlr & Hlj & Hrn & Hjn & _).
    split_and!; try done.
    + rewrite mixed_trace_body_jobs. apply fmap_fmap_same.
      intros j. by destruct (mixed_waits j).
    + rewrite mixed_trace_body_res. by apply fmap_fmap_same.
  - destruct (ar_trace_body_counts s) as [Hd Hg].
    destruct (ar_trace_body_globals s) as (Hlr & Hlj & Hrn & Hjn & _).
    split_and!; try done.
    + rewrite ar_trace_body_jobs. apply fmap_fmap_same.
      intros j. by destruct (ar_waits j).
    + rewrite ar_trace_body_res. by apply fmap_fmap_same.
Qed.

(** ** Mixed: the scheduler *)

(** X5: when the mixed scheduler finds an AVAILABLE resource, the first
    one being at position [ri], and a WAITING job, the first one being
    [j0] at position [k], it binds one job to that resource: the last
    WAITING job whose score is above the score of [j0], or [j0] itself
    when no WAITING job has a higher score.  That job becomes
    SENDING_DATA with [run_on] pointing to the resource, the resource
    becomes RECEIVING_DATA, and nothing else changes in the pools. *)
Theorem mixed_schedule_binds_last_above_first (s : Mixed.sim) (ri k : nat) :
  first_index Mixed.is_available (Mixed.first_res s) = Some ri →
  first_index Mixed.is_waiting (Mixed.first_job s) = Some k →
  ∃ r j0 b jb,
    Mixed.first_res s !! ri = Some r ∧ Mixed.first_job s !! k = Some j0 ∧
    mixed_chosen (Mixed.first_job s) k j0 b jb ∧
    Mixed.first_job (Mixed.schedule s)
    = <[b := Mixed.mkJob (Mixed.j_addr jb) (Mixed.j_code jb) Mixed.SENDING_DATA
               (Mixed.j_workload jb) (Mixed.j_send_data jb) (Mixed.j_wait_time jb)
               (Some (Mixed.r_addr r))]> (Mixed.first_job s) ∧
    Mixed.first_res (Mixed.schedule s)
    = <[ri := Mixed.mkResource (Mixed.r_addr r) (Mixed.r_code r) Mixed.RECEIVING_DATA
                (Mixed.r_level r) (Mixed.r_total_time r) (Mixed.r_used_time r)]>
        (Mixed.first_res s).
Proof.
  intros Hri Hk.
  destruct (mixed_schedule_cases s)
    as [[_ [H|H]]|(ri' & r & k' & j0 & b & jb & Hri' & Hr & _ & Hk' & Hj0 & _ & Hch & ->)];
    [congruence..|].
  rewrite Hri in Hri'. rewrite Hk in Hk'. simplify_eq.
  exists r, j0, b, jb. split_and!; try done; simpl.
  - erewrite alter_as_insert; [done|]. apply Hch.
  - by erewrite alter_as_insert.
Qed.

Lemma mixed_schedule_binds_last_above_first_witness :
  ∃ r j0 b jb,
    Mixed.first_res mixed_three_waiting !! 0%nat = Some r ∧
    Mixed.first_job mixed_three_waiting !! 0%nat = Some j0 ∧
    mixed_chosen (Mixed.first_job mixed_three_waiting) 0 j0 b jb ∧
    Mixed.first_job (Mixed.schedule mixed_three_waiting)
    = <[b := Mixed.mkJob (Mixed.j_addr jb) (Mixed.j_code jb) Mixed.SENDING_DATA
               (Mixed.j_workload jb) (Mixed.j_send_data jb) (Mixed.j_wait_time jb)
               (Some (Mixed.r_addr r))]> (Mixed.first_job mixed_three_waiting) ∧
    Mixed.first_res (Mixed.schedule mixed_three_waiting)
    = <[0%nat := Mixed.mkResource (Mixed.r_addr r) (Mixed.r_code r) Mixed.RECEIVING_DATA
                (Mixed.r_level r) (Mixed.r_total_time r) (Mixed.r_used_time r)]>
        (Mixed.first_res mixed_three_waiting).
Proof.
  apply (mixed_schedule_binds_last_above_first mixed_three_waiting 0 0); reflexivity.
Defined.

(** X6: the mixed scheduler leaves the state as it is exactly when no
    resource is AVAILABLE or no job is WAITING. *)
Theorem mixed_schedule_idle_iff (s : Mixed.sim) :
  Mixed.schedule s = s ↔
  (∀ r, r ∈ Mixed.first_res s → Mixed.r_state r ≠ Mixed.AVAILABLE) ∨
  (∀ j, j ∈ Mixed.first_job s → Mixed.j_state j ≠ Mixed.WAITING).
Proof.
  destruct (mixed_schedule_cases s)
    as [[Hs [H|H]]|(ri & r & k & j0 & b & jb & Hri & Hr & Hav & Hk & Hj0 & Hw0 & Hch & Hs)].
  - split; [|done]. intros _. left. intros r Hr Hst.
    rewrite first_index_None in H. specialize (H r Hr).
    apply mixed_is_available_spec in Hst. congruence.
  - split; [|done]. intros _. right. intros j Hj Hst.
    rewrite first_index_None in H. specialize (H j Hj).
    apply mixed_is_waiting_spec in Hst. congruence.
  - split.
    + intros Heq. exfalso. rewrite Hs in Heq.
      assert (Mixed.first_res (mixed_bind ri b r s) !! ri = Mixed.first_res s !! ri) as Hl
        by by rewrite Heq.
      simpl in Hl. rewrite list_lookup_alter, Hr in Hl. simpl in Hl.
      destruct (decide (ri = ri)); [|done].
      injection Hl as Hl. by rewrite <- Hl in Hav.
    + intros [Hno|Hno]; exfalso.
      * by eapply Hno; [eapply list_elem_of_lookup_2|].
      * by eapply Hno; [eapply list_elem_of_lookup_2|].
Qed.

(** ** Mixed: the executor *)

(** X7: one pass of the mixed executor, job by job.  A job whose data is
    being sent has one unit less to send and is RUNNING when nothing is
    left; a RUNNING job has the level of its resource (as it was when the
    pass started) less to do and is DONE when nothing is left; a WAITING
    or DONE job is not touched.  No job changes address, code,
    [wait_time] or [run_on], no resource changes address, code, level or
    [total_time], and no node is added to or removed from a pool. *)
Theorem mixed_run_send_job_by_job (s s' : Mixed.sim) :
  Mixed.run_send s = Some s' →
  Forall2 (mixed_job_step (Mixed.first_res s)) (Mixed.first_job s) (Mixed.first_job s') ∧
  Forall2 mixed_res_kept (Mixed.first_res s) (Mixed.first_res s') ∧
  Mixed.job_number s' = Mixed.job_number s ∧ Mixed.jobs_done s' = Mixed.jobs_done s ∧
  Mixed.resource_number s' = Mixed.resource_number s ∧
  Mixed.resources_gone s' = Mixed.resources_gone s.
Proof.
  intros H. apply mixed_run_send_step in H as (Hjs & Hk & Hl & _).
  unfold mixed_ledger in Hl. split_and!; [done|done|congruence..].
Qed.

Lemma mixed_run_send_job_by_job_witness :
  ∃ s', Mixed.run_send mixed_sending = Some s' ∧
    Forall2 (mixed_job_step (Mixed.first_res mixed_sending))
      (Mixed.first_job mixed_sending) (Mixed.first_job s').
Proof.
  eexists. split; [reflexivity|].
  eapply (mixed_run_send_job_by_job mixed_sending). reflexivity.
Defined.

(** ** Mixed: invariants of a run *)

(** X8: in every state a run of the mixed simulator reaches between two
    ticks, every job submitted so far is in the pool or has been counted
    in [jobs_done], and every resource added so far is in the pool or
    has been counted in [resources_gone]: no job or resource is lost,
    and none is counted twice. *)
Theorem mixed_jobs_and_resources_accounted_for
    (rnd : nat → N) (mal : nat → bool) (n : nat) (s : Mixed.sim) :
  Mixed.run n (Mixed.init rnd mal) = Running s →
  Mixed.job_number s = Mixed.jobs_done s + Z.of_nat (length (Mixed.first_job s)) ∧
  Mixed.resource_number s
  = Mixed.resources_gone s + Z.of_nat (length (Mixed.first_res s)).
Proof.
  intros Hrun. destruct (mixed_init_books rnd mal) as [Hb Hc].
  destruct (mixed_run_books n _ _ (mixed_init_wf rnd mal) Hb Hc Hrun) as [_ Hc']. done.
Qed.

Lemma mixed_jobs_and_resources_accounted_for_witness :
  ∃ s, Mixed.run 40 (Mixed.init demo_random demo_malloc) = Running s ∧
    Mixed.job_number s = Mixed.jobs_done s + Z.of_nat (length (Mixed.first_job s)) ∧
    Mixed.resource_number s
    = Mixed.resources_gone s + Z.of_nat (length (Mixed.first_res s)).
Proof.
  eexists. split; [vm_compute; reflexivity|].
  apply (mixed_jobs_and_resources_accounted_for demo_random demo_malloc 40).
  vm_compute; reflexivity.
Defined.

(** X9: in every state a run of the mixed simulator reaches between two
    ticks, the codes of the jobs increase strictly along the job pool
    and lie between 1 and [job_number], and the codes of the resources
    increase strictly along the resource pool and lie between 1 and
    [resource_number]; in particular a code identifies its node. *)
Theorem mixed_codes_increase_along_the_pools
    (rnd : nat → N) (mal : nat → bool) (n : nat) (s : Mixed.sim) :
  Mixed.run n (Mixed.init rnd mal) = Running s →
  (∀ i k x y, (i < k)%nat → Mixed.first_job s !! i = Some x → Mixed.first_job s !! k = Some y →
     Mixed.j_code x < Mixed.j_code y) ∧
  (∀ j, j ∈ Mixed.first_job s → 1 ≤ Mixed.j_code j ≤ Mixed.job_number s) ∧
  (∀ i k x y, (i < k)%nat → Mixed.first_res s !! i = Some x → Mixed.first_res s !! k = Some y →
     Mixed.r_code x < Mixed.r_code y) ∧
  (∀ r, r ∈ Mixed.first_res s → 1 ≤ Mixed.r_code r ≤ Mixed.resource_number s).
Proof.
  intros Hrun. destruct (mixed_init_books rnd mal) as [Hb Hc].
  destruct (mixed_run_books n _ _ (mixed_init_wf rnd mal) Hb Hc Hrun)
    as [[_ _ Hjc Hrc _ _] _].
  split_and!.
  - intros i k x y Hik Hx Hy.
    eapply (codes_between_increasing _ _ _ i k); [exact Hjc|done|..];
      by rewrite list_lookup_fmap, ?Hx, ?Hy.
  - intros j [i Hi]%list_elem_of_lookup.
    pose proof (codes_between_lookup _ _ _ i (Mixed.j_code j) Hjc) as H.
    rewrite list_lookup_fmap, Hi in H. specialize (H eq_refl). lia.
  - intros i k x y Hik Hx Hy.
    eapply (codes_between_increasing _ _ _ i k); [exact Hrc|done|..];
      by rewrite list_lookup_fmap, ?Hx, ?Hy.
  - intros r [i Hi]%list_elem_of_lookup.
    pose proof (codes_between_lookup _ _ _ i (Mixed.r_code r) Hrc) as H.
    rewrite list_lookup_fmap, Hi in H. specialize (H eq_refl). lia.
Qed.

Lemma mixed_codes_increase_along_the_pools_witness :
  ∃ s, Mixed.run 40 (Mixed.init demo_random demo_malloc) = Running s ∧
    ∀ r, r ∈ Mixed.first_res s → 1 ≤ Mixed.r_code r ≤ Mixed.resource_number s.
Proof.
  eexists. split; [vm_compute; reflexivity|].
  apply (mixed_codes_increase_along_the_pools demo_random demo_malloc 40).
  vm_compute; reflexivity.
Defined.

(** X10: in every state a run of the mixed simulator reaches between
    two ticks, every resource has a level between 1 and 5, and every job
    has waited a non-negative number of ticks and holds, by state:
    WAITING or SENDING_DATA, a workload between 50 and 999 and between 0
    and 29 units of data to send (a WAITING job runs on no resource);
    RUNNING, a workload between 1 and 999; DONE, a workload between -4
    and 0: a job overshoots by less than the level of its resource. *)
Theorem mixed_fields_stay_in_range
    (rnd : nat → N) (mal : nat → bool) (n : nat) (s : Mixed.sim) :
  Mixed.run n (Mixed.init rnd mal) = Running s →
  (∀ r, r ∈ Mixed.first_res s → 1 ≤ Mixed.r_level r ≤ 5) ∧
  (∀ j, j ∈ Mixed.first_job s → mixed_job_range j).
Proof.
  intros Hrun. destruct (mixed_init_books rnd mal) as [Hb Hc].
  destruct (mixed_run_books n _ _ (mixed_init_wf rnd mal) Hb Hc Hrun)
    as [[_ _ _ _ Hlv Hrg] _].
  split; intros x Hx; [by eapply Forall_forall in Hlv|by eapply Forall_forall in Hrg].
Qed.

Lemma mixed_fields_stay_in_range_witness :
  ∃ s, Mixed.run 40 (Mixed.init demo_random demo_malloc) = Running s ∧
    ∀ j, j ∈ Mixed.first_job s → mixed_job_range j.
Proof.
  eexists. split; [vm_compute; reflexivity|].
  apply (mixed_fields_stay_in_range demo_random demo_malloc 40).
  vm_compute; reflexivity.
Defined.

(** ** AR: what the executor keeps *)

Lemma ar_job_kept_refl j : ar_job_kept j j.
Proof. done. Qed.

Lemma ar_job_kept_trans j1 j2 j3 : ar_job_kept j1 j2 → ar_job_kept j2 j3 → ar_job_kept j1 j3.
Proof. unfold ar_job_kept. intros (?&?&?&?) (?&?&?&?). split_and!; congruence. Qed.

Lemma ar_res_kept_refl r : ar_res_kept r r.
Proof. done. Qed.

Lemma ar_res_kept_trans r1 r2 r3 : ar_res_kept r1 r2 → ar_res_kept r2 r3 → ar_res_kept r1 r3.
Proof. unfold ar_res_kept. intros (?&?&?&?) (?&?&?&?). split_and!; congruence. Qed.

Lemma ar_exec_frame_refl s : ar_exec_frame s s.
Proof. split_and!; try done. apply Forall2_refl_all, ar_job_kept_refl. Qed.

Lemma ar_exec_frame_trans s1 s2 s3 :
  ar_exec_frame s1 s2 → ar_exec_frame s2 s3 → ar_exec_frame s1 s3.
Proof.
  intros (Hj1 & Hr1 & Hl1 & Hh1 & Hm1) (Hj2 & Hr2 & Hl2 & Hh2 & Hm2).
  split_and!; try congruence.
  eapply Forall2_trans_all; [apply ar_job_kept_trans|done|done].
Qed.

Lemma ar_store_job_frame a f s :
  (∀ x, ar_job_kept x (f x)) → ar_exec_frame s (AR.store_job a f s).
Proof.
  intros Hf. split_and!; try done. simpl.
  apply Forall2_store_at; [apply ar_job_kept_refl|done].
Qed.

Lemma ar_random_frame s : ar_exec_frame s (AR.random s).2.
Proof. split_and!; try done. apply Forall2_refl_all, ar_job_kept_refl. Qed.

Lemma ar_run_head_frame r a q s r' s' :
  AR.run_head r a q s = Some (r', s') → ar_res_kept r r' ∧ ar_exec_frame s s'.
Proof.
  unfold AR.run_head. intros H. apply bind_Some in H as (j & Hj & H).
  pose proof (ar_store_job_frame a (AR.set_j_workload (AR.j_workload j - AR.r_level r)) s
                ltac:(done)) as F1.
  pose proof (ar_store_job_frame a (AR.set_j_state AR.DONE)
                (AR.store_job a (AR.set_j_workload (AR.j_workload j - AR.r_level r)) s)
                ltac:(done)) as F2.
  pose proof (ar_random_frame
                (AR.store_job a (AR.set_j_state AR.DONE)
                   (AR.store_job a (AR.set_j_workload (AR.j_workload j - AR.r_level r)) s)))
    as F3.
  pose proof (ar_store_job_frame a (AR.set_j_state AR.RUNNING) s ltac:(done)) as F4.
  destruct (AR.j_state j);
    try (injection H as <- <-; split; [done|apply ar_exec_frame_refl]).
  - destruct (AR.j_workload j - AR.r_level r <? 0).
    + unfold AR.random in H. cbv zeta in H.
      destruct (Z.rem _ 1000 <=? AR.RL_PROB); injection H as <- <-; (split; [done|]);
        exact (ar_exec_frame_trans _ _ _ (ar_exec_frame_trans _ _ _ F1 F2) F3).
    + injection H as <- <-. split; [done|]. exact F1.
  - injection H as <- <-. split; [done|]. exact F4.
Qed.

Lemma ar_send_walk_frame q : ∀ s s', AR.send_walk q s = Some s' → ar_exec_frame s s'.
Proof.
  induction q as [|a q IH]; intros s s'; simpl; [intros [= <-]; apply ar_exec_frame_refl|].
  intros H. apply bind_Some in H as (j & Hj & H).
  pose proof (ar_store_job_frame a (AR.set_j_send_data (AR.j_send_data j - 1)) s
                ltac:(done)) as F1.
  pose proof (ar_store_job_frame a (AR.set_j_state AR.READY_TO_RUN)
                (AR.store_job a (AR.set_j_send_data (AR.j_send_data j - 1)) s)
                ltac:(done)) as F2.
  pose proof (ar_store_job_frame a (AR.set_j_state AR.SENDING_DATA) s ltac:(done)) as F4.
  destruct (AR.j_state j); try (by apply IH).
  - destruct (AR.j_send_data j - 1 <=? 0).
    + destruct q as [|b q'].
      * injection H as <-. exact (ar_exec_frame_trans _ _ _ F1 F2).
      * apply bind_Some in H as (n & Hn & H). injection H as <-.
        eapply ar_exec_frame_trans; [exact (ar_exec_frame_trans _ _ _ F1 F2)|].
        by apply (ar_store_job_frame b (AR.set_j_state AR.SENDING_DATA)).
    + injection H as <-. exact F1.
  - injection H as <-. exact F4.
Qed.

Lemma ar_run_send_res_frame r s r' s' :
  AR.run_send_res r s = Some (r', s') → ar_res_kept r r' ∧ ar_exec_frame s s'.
Proof.
  unfold AR.run_send_res.
  set (r0 := if _ && _ then _ else r).
  assert (ar_res_kept r r0) as Hk0 by (unfold r0; by destruct (_ && _)).
  destruct (AR.r_rsv r0) as [|a q]; [intros [= <- <-]; split; [done|apply ar_exec_frame_refl]|].
  intros H. apply bind_Some in H as ([r1 s1] & H1 & H).
  apply bind_Some in H as (s2 & H2 & H). injection H as <- <-.
  apply ar_run_head_frame in H1 as [Hk1 Hf1]. apply ar_send_walk_frame in H2.
  split; [by eapply ar_res_kept_trans|by eapply ar_exec_frame_trans].
Qed.

Lemma ar_run_send_loop_frame rs : ∀ s rs' s',
  AR.run_send_loop rs s = Some (rs', s') → Forall2 ar_res_kept rs rs' ∧ ar_exec_frame s s'.
Proof.
  induction rs as [|r rs IH]; intros s rs' s'; simpl.
  - intros [= <- <-]. split; [done|apply ar_exec_frame_refl].
  - intros H. apply bind_Some in H as ([r1 s1] & H1 & H).
    apply bind_Some in H as ([rs2 s2] & H2 & H). injection H as <- <-.
    apply ar_run_send_res_frame in H1 as [Hk1 Hf1]. apply IH in H2 as [Hk2 Hf2].
    split; [by constructor|by eapply ar_exec_frame_trans].
Qed.

Lemma ar_run_send_frame s s' :
  AR.run_send s = Some s' →
  Forall2 ar_res_kept (AR.first_res s) (AR.first_res s') ∧
  Forall2 ar_job_kept (AR.first_job s) (AR.first_job s') ∧
  ar_ledger s' = ar_ledger s ∧
  AR.heap_next s' = AR.heap_next s ∧ AR.malloc_pos s' = AR.malloc_pos s.
Proof.
  unfold AR.run_send. intros H. apply bind_Some in H as ([rs s1] & H1 & H).
  injection H as <-. apply ar_run_send_loop_frame in H1 as [Hk (Hj & Hr & Hl & Hh & Hm)].
  split_and!; done.
Qed.

(** ** AR: the scheduler, case by case *)

Lemma ar_schedule_shape s :
  (AR.schedule s = s ∧ first_index AR.is_waiting (AR.first_job s) = None) ∨
  ∃ k j, first_index AR.is_waiting (AR.first_job s) = Some k ∧
    AR.first_job s !! k = Some j ∧ AR.j_state j = AR.WAITING ∧
    ((AR.schedule s = (AR.malloc s).2 ∧
      (AR.malloc_src s (AR.malloc_pos s) = false ∨
       first_index AR.accepts (AR.first_res s) = None)) ∨
     (AR.malloc_src s (AR.malloc_pos s) = true ∧
      ∃ bi r, least_loaded (AR.first_res s) bi r ∧
        AR.schedule s = AR.bind_job k bi j (AR.malloc s).2)).
Proof.
  unfold AR.schedule.
  destruct (first_index AR.is_waiting (AR.first_job s)) as [k|] eqn:Hk; [|by left].
  right. destruct (first_index_Some _ _ _ Hk) as (j & Hj & Hw & _).
  apply ar_is_waiting_spec in Hw. exists k, j. split_and!; [done..|].
  unfold AR.malloc. destruct (AR.malloc_src s (AR.malloc_pos s)) eqn:Hm; simpl.
  - destruct (first_index AR.accepts (AR.first_res s)) as [i0|] eqn:Hi0;
      [|left; split; [done|by right]].
    rewrite Hj. destruct (first_index_Some _ _ _ Hi0) as (r0 & Hr0 & _). rewrite Hr0.
    pose proof (select_best_res_least_loaded _ _ _ Hi0 Hr0) as Hll.
    destruct (AR.select_best_res _ _ _) as [bi rb]. simpl in Hll.
    right. split; [done|]. by exists bi, rb.
  - left. split; [done|by left].
Qed.

(** ** AR: codes and counts, step by step *)

Lemma ar_trace_body_books s : ar_wf s → ar_books s → ar_books (AR.trace_body s).
Proof.
  intros Hwf [Ht Hjc Hrc Hlv].
  destruct (ar_trace_body_globals s) as (Hlr & Hlj & Hrn & Hjn & Hb & Hh & Hrp & Hmp).
  split; rewrite ?Hh, ?Hlr, ?Hjn, ?Hrn, ?ar_trace_body_jobs, ?ar_trace_body_res.
  - apply tail_ok_fmap; [done|apply Hwf|done].
  - rewrite fmap_fmap_same; [done|]. intros j. by destruct (ar_waits j).
  - rewrite fmap_fmap_same; done.
  - apply Forall_fmap. eapply Forall_impl; [done|]. done.
Qed.

Lemma ar_trace_body_census s : ar_census false s → ar_census true (AR.trace_body s).
Proof.
  intros [Hjobs Hres]. unfold ar_census.
  destruct (ar_trace_body_globals s) as (Hlr & Hlj & Hrn & Hjn & Hb & Hh & Hrp & Hmp).
  destruct (ar_trace_body_counts s) as [Hd Hg].
  rewrite Hjn, Hrn, Hd, Hg, ar_trace_body_jobs, ar_trace_body_res.
  rewrite (length_filter_fmap (λ j, AR.j_state j ≠ AR.DONE));
    [|intros j; by destruct (ar_waits j)].
  rewrite (length_filter_fmap (λ r, AR.r_state r ≠ AR.LEAVING)); [|done].
  pose proof (length_filter_split (λ j, AR.j_state j = AR.DONE) (AR.first_job s)).
  pose proof (length_filter_split (λ r, AR.r_state r = AR.LEAVING) (AR.first_res s)).
  simpl in *. lia.
Qed.

Lemma ar_add_res_books s s' :
  ar_mid s → ar_books s → AR.add_res s = Some s' → ar_books s'.
Proof.
  intros [[Hres _ _ _ _ _] _] [Ht Hjc Hrc Hlv] H.
  destruct (ar_add_res_inv s s' (proj1 Hres) Ht H) as [[Hm ->]|[Hm ->]].
  - unfold AR.malloc. rewrite Hm. by split.
  - split; simpl; try done.
    + apply (tail_ok_snoc AR.r_addr _ (ar_new_res s)). by eapply pool_ok_fresh.
    + rewrite fmap_app. by apply codes_between_snoc.
    + apply Forall_app. split; [done|]. apply Forall_singleton. simpl.
      pose proof (rem_range (AR.random_src s (AR.random_pos s)) 5). lia.
Qed.

Lemma ar_add_res_census b s s' :
  ar_mid s → ar_books s → ar_census b s → AR.add_res s = Some s' → ar_census b s'.
Proof.
  intros [[Hres _ _ _ _ _] _] [Ht _ _ _] [Hjobs Hres'] H.
  destruct (ar_add_res_inv s s' (proj1 Hres) Ht H) as [[Hm ->]|[Hm ->]].
  - unfold AR.malloc. rewrite Hm. by split.
  - split; simpl; [done|]. rewrite Hres'. destruct b.
    + rewrite filter_app. rewrite filter_cons_True; [|by simpl].
      rewrite !length_app. simpl. lia.
    + rewrite !length_app. simpl. lia.
Qed.

Lemma ar_add_job_books s s' :
  ar_mid s → ar_books s → AR.add_job s = Some s' → ar_books s'.
Proof.
  intros [[_ Hjobs Htl _ _ _] _] [Ht Hjc Hrc Hlv] H.
  destruct (ar_add_job_inv s s' (proj1 Hjobs) Htl H) as [[Hm ->]|[Hm ->]].
  - unfold AR.malloc. rewrite Hm. by split.
  - split; simpl; try done.
    rewrite fmap_app. by apply codes_between_snoc.
Qed.

Lemma ar_add_job_census s s' :
  ar_mid s → ar_census false s → AR.add_job s = Some s' → ar_census false s'.
Proof.
  intros [[_ Hjobs Htl _ _ _] _] [Hjn Hrn] H.
  destruct (ar_add_job_inv s s' (proj1 Hjobs) Htl H) as [[Hm ->]|[Hm ->]].
  - unfold AR.malloc. rewrite Hm. by split.
  - split; simpl; [|done]. rewrite Hjn, !length_app. simpl. lia.
Qed.

Lemma ar_removals_books s :
  ar_books s → ar_books (AR.remove_leaving_resources (AR.remove_done_jobs s)).
Proof.
  intros [Ht Hjc Hrc Hlv]. split; simpl.
  - by apply tail_ok_filter.
  - eapply codes_between_sublist; [|done]. apply fmap_sublist, sublist_filter.
  - eapply codes_between_sublist; [|done]. apply fmap_sublist, sublist_filter.
  - apply Forall_forall. intros r [_ Hr]%list_elem_of_filter. by eapply Forall_forall in Hlv.
Qed.

Lemma ar_removals_census s :
  ar_census true s → ar_census false (AR.remove_leaving_resources (AR.remove_done_jobs s)).
Proof. intros [Hjobs Hres]. by split. Qed.

Lemma ar_run_send_books s s' :
  ar_wf s → ar_books s → AR.run_send s = Some s' → ar_books s'.
Proof.
  intros Hwf [Ht Hjc Hrc Hlv] H.
  apply ar_run_send_frame in H as (Hk & Hjs & Hl & Hh & Hm).
  unfold ar_ledger in Hl.
  assert (AR.last_res s' = AR.last_res s) as Hlr by congruence.
  assert (AR.job_number s' = AR.job_number s) as Hjn by congruence.
  assert (AR.resource_number s' = AR.resource_number s) as Hrn by congruence.
  assert (Forall2 (λ x y, AR.r_addr y = AR.r_addr x) (AR.first_res s) (AR.first_res s'))
    as Haddr.
  { eapply Forall2_impl; [exact Hk|]. by intros x y (? & _). }
  assert (Forall2 (λ x y, AR.j_code y = AR.j_code x) (AR.first_job s) (AR.first_job s'))
    as Hcode.
  { eapply Forall2_impl; [exact Hjs|]. by intros x y (_ & ? & _). }
  assert (Forall2 (λ x y, AR.r_code y = AR.r_code x) (AR.first_res s) (AR.first_res s'))
    as Hrcode.
  { eapply Forall2_impl; [exact Hk|]. by intros x y (_ & ? & _). }
  split.
  - rewrite Hlr. eapply tail_ok_same_addrs; [apply Hwf|done|done].
  - rewrite Hjn. by rewrite (Forall2_fmap_eq _ _ _ Hcode).
  - rewrite Hrn. by rewrite (Forall2_fmap_eq _ _ _ Hrcode).
  - eapply Forall2_transport; [exact Hk| |done].
    intros x y (_ & _ & Hlev & _). simpl. by rewrite Hlev.
Qed.

Lemma ar_run_send_census s s' :
  ar_census false s → AR.run_send s = Some s' → ar_census false s'.
Proof.
  intros [Hjobs Hres] H.
  apply ar_run_send_frame in H as (Hk & Hjs & Hl & Hh & Hm).
  unfold ar_ledger in Hl.
  assert (AR.job_number s' = AR.job_number s) as Hjn by congruence.
  assert (AR.resource_number s' = AR.resource_number s) as Hrn by congruence.
  assert (AR.jobs_done s' = AR.jobs_done s) as Hjd by congruence.
  assert (AR.resources_gone s' = AR.resources_gone s) as Hrg by congruence.
  apply Forall2_length in Hjs, Hk. unfold ar_census in *. simpl in *.
  rewrite <- Hjs, <- Hk. lia.
Qed.

Lemma ar_schedule_books s : ar_wf s → ar_books s → ar_books (AR.schedule s).
Proof.
  intros Hwf [Ht Hjc Hrc Hlv].
  destruct (ar_schedule_shape s)
    as [[-> _]|(k & j & _ & _ & _ & [[-> _]|(_ & bi & r & _ & ->)])]; [done| |].
  - unfold AR.malloc. by split.
  - split; simpl.
    + apply tail_ok_alter; [done|apply Hwf|done].
    + by rewrite fmap_alter_same.
    + by rewrite fmap_alter_same.
    + apply Forall_alter; [done|]. by intros x _.
Qed.

Lemma ar_schedule_census s : ar_census false s → ar_census false (AR.schedule s).
Proof.
  intros [Hjobs Hres].
  destruct (ar_schedule_shape s)
    as [[-> _]|(k & j & _ & _ & _ & [[-> _]|(_ & bi & r & _ & ->)])]; [done| |].
  - unfold AR.malloc. by split.
  - split; simpl; by rewrite length_alter.
Qed.

Lemma ar_books_ext s s' :
  ar_books s →
  AR.first_res s' = AR.first_res s → AR.first_job s' = AR.first_job s →
  AR.last_res s' = AR.last_res s →
  AR.job_number s' = AR.job_number s → AR.resource_number s' = AR.resource_number s →
  ar_books s'.
Proof.
  intros [Ht Hjc Hrc Hlv] Hr Hjs Hlr Hjn Hrn.
  split; by rewrite ?Hr, ?Hjs, ?Hlr, ?Hjn, ?Hrn.
Qed.

Lemma ar_repeat_add_res_books b n : ∀ s s',
  ar_mid s → ar_books s → ar_census b s → AR.repeat_add_res n s = Some s' →
  ar_books s' ∧ ar_census b s'.
Proof.
  induction n as [|n IH]; intros s s' Hmid Hb Hc; simpl; [by intros [= <-]|].
  intros H. apply bind_Some in H as (s1 & H1 & H).
  eapply (IH s1); [by eapply ar_add_res_mid|by eapply ar_add_res_books| |done].
  by eapply ar_add_res_census.
Qed.

Lemma ar_add_remove_books s s' :
  ar_mid s → ar_books s → ar_census true s → AR.add_remove s = Some s' →
  ar_books s' ∧ ar_census false s'.
Proof.
  intros Hmid Hb Hc. unfold AR.add_remove. intros H.
  apply bind_Some in H as (s1 & H1 & H).
  assert (ar_mid s1 ∧ ar_books s1 ∧ ar_census true s1) as (Hmid1 & Hb1 & Hc1).
  { destruct (AR.begin s); [|by injection H1 as <-].
    apply fmap_Some in H1 as (s0 & H0 & ->).
    destruct (ar_repeat_add_res_books true _ _ _ Hmid Hb Hc H0) as [Hb0 Hc0].
    split_and!.
    - eapply ar_mid_ext; [by eapply ar_repeat_add_res_mid|done..|simpl; lia].
    - by eapply ar_books_ext.
    - done. }
  apply ar_remove_done_jobs_mid, ar_remove_leaving_resources_mid in Hmid1.
  apply ar_removals_books in Hb1. apply ar_removals_census in Hc1.
  simpl in H.
  match type of H with AR.add_on_draw _ ?s4 = _ =>
    assert (ar_mid s4 ∧ ar_books s4 ∧ ar_census false s4) as (Hmid4 & Hb4 & Hc4)
  end.
  { split_and!; [eapply ar_mid_ext; [exact Hmid1|done..|simpl; lia]
                |by eapply ar_books_ext|done]. }
  unfold AR.add_on_draw in H.
  destruct (AR.admission_of_draw _).
  - split; [by eapply ar_add_res_books|by eapply ar_add_res_census].
  - split; [by eapply ar_add_job_books|by eapply ar_add_job_census].
  - by injection H as <-.
Qed.

Lemma ar_init_books rnd mal :
  ar_books (AR.init rnd mal) ∧ ar_census false (AR.init rnd mal).
Proof. split; [split|split]; simpl; done. Qed.

Lemma ar_tick_books s s' :
  ar_wf s → ar_books s → ar_census false s → AR.tick s = Running s' →
  ar_books s' ∧ ar_census false s'.
Proof.
  intros Hwf Hb Hc Ht. pose proof (ar_tick_wf s Hwf) as Hstep.
  unfold AR.tick in Ht.
  destruct (AR.traceall s) as [s1| |] eqn:Htr; [|done..].
  apply ar_traceall_Running in Htr as ->.
  destruct (AR.add_remove (AR.trace_body s)) as [s2|] eqn:Har; [|done].
  destruct Hstep as (Hmid2 & s3 & Hrs & Hwf3 & _). rewrite Hrs in Ht. injection Ht as <-.
  destruct (ar_add_remove_books _ _ (ar_trace_body_mid s Hwf)
              (ar_trace_body_books s Hwf Hb) (ar_trace_body_census s Hc) Har) as [Hb2 Hc2].
  split.
  - apply ar_schedule_books; [done|]. eapply ar_run_send_books; [apply Hmid2|done..].
  - apply ar_schedule_census. by eapply ar_run_send_census.
Qed.

Lemma ar_run_books n : ∀ s s',
  ar_wf s → ar_books s → ar_census false s → AR.run n s = Running s' →
  ar_books s' ∧ ar_census false s'.
Proof.
  induction n as [|n IH]; intros s s' Hwf Hb Hc; simpl; [by intros [= <-]|].
  destruct (AR.tick s) as [s1| |] eqn:Ht; [|done..].
  destruct (ar_tick_books _ _ Hwf Hb Hc Ht) as [Hb1 Hc1].
  apply IH; [by eapply ar_tick_Running_wf|done..].
Qed.

(** ** AR: the executor against the jobs of one chain *)

Lemma ar_job_at_store_eq a f s j :
  (∀ x, AR.j_addr (f x) = AR.j_addr x) → AR.job_at a s = Some j →
  AR.job_at a (AR.store_job a f s) = Some (f j).
Proof. intros Hf Hj. by rewrite ar_job_at_store, Nat.eqb_refl, Hj. Qed.

Lemma ar_job_at_store_ne a b f s :
  (∀ x, AR.j_addr (f x) = AR.j_addr x) → b ≠ a →
  AR.job_at b (AR.store_job a f s) = AR.job_at b s.
Proof.
  intros Hf Hne. rewrite ar_job_at_store by done.
  by destruct (Nat.eqb_spec b a).
Qed.

Lemma ar_chain_at_frame s s' q L :
  (∀ b, b ∈ q → AR.job_at b s' = AR.job_at b s) →
  ar_chain_at (AR.first_job s) q L → ar_chain_at (AR.first_job s') q L.
Proof.
  intros Hfr Hch. induction Hch as [|a j q L Hj _ IH]; [constructor|].
  constructor.
  - change (AR.job_at a s' = Some j). rewrite Hfr; [done|by left].
  - apply IH. intros b Hb. apply Hfr. by right.
Qed.

Lemma ar_chain_at_elem jobs q L i a :
  ar_chain_at jobs q L → q !! i = Some a →
  ∃ j, L !! i = Some j ∧ deref AR.j_addr a jobs = Some j.
Proof. intros Hch Hi. by destruct (Forall2_lookup_l _ _ _ _ _ Hch Hi) as (j & ? & ?); exists j. Qed.

Lemma ar_send_walk_refines q : ∀ s L,
  NoDup q → ar_chain_at (AR.first_job s) q L →
  ∃ s', AR.send_walk q s = Some s' ∧ ar_chain_at (AR.first_job s') q (ar_walk_step L) ∧
        ∀ b, b ∉ q → AR.job_at b s' = AR.job_at b s.
Proof.
  induction q as [|a q IH]; intros s L Hnd Hch.
  { inversion Hch; subst. by exists s. }
  inversion Hch as [|? j ? L' Hj Hch']; subst.
  apply NoDup_cons in Hnd as [Ha Hnd].
  change (AR.job_at a s = Some j) in Hj.
  assert (∃ s', AR.send_walk q s = Some s' ∧
            ar_chain_at (AR.first_job s') (a :: q) (j :: ar_walk_step L') ∧
            ∀ b, b ∉ a :: q → AR.job_at b s' = AR.job_at b s) as Hrec.
  { destruct (IH s L' Hnd Hch') as (s' & Hs' & Hch1 & Hfr).
    exists s'. split_and!; [done| |].
    - constructor; [|done]. change (AR.job_at a s' = Some j). by rewrite Hfr.
    - intros b Hb. apply Hfr. intros Hin. apply Hb. by right. }
  simpl. rewrite Hj. simpl.
  destruct (AR.j_state j) eqn:Hst; try done.
  - (* SENDING_DATA *)
    destruct (AR.j_send_data j - 1 <=? 0) eqn:Hsd.
    + destruct q as [|b q'].
      * inversion Hch'; subst. eexists. split_and!; [done| |].
        -- constructor; [|constructor].
           change (AR.job_at a (AR.store_job a (AR.set_j_state AR.READY_TO_RUN)
                      (AR.store_job a (AR.set_j_send_data (AR.j_send_data j - 1)) s))
                   = Some (AR.set_j_state AR.READY_TO_RUN
                             (AR.set_j_send_data (AR.j_send_data j - 1) j))).
           apply ar_job_at_store_eq; [done|]. by apply ar_job_at_store_eq.
        -- intros b Hb. rewrite !ar_job_at_store_ne; [done|done| |done|];
             intros ->; apply Hb; by left.
      * inversion Hch' as [|? n ? L'' Hn Hch'']; subst.
        change (AR.job_at b s = Some n) in Hn.
        assert (b ≠ a) as Hba by (intros ->; apply Ha; by left).
        apply NoDup_cons in Hnd as [Hb Hnd'].
        rewrite !ar_job_at_store_ne, Hn by done. simpl.
        eexists. split_and!; [done| |].
        -- constructor; [|constructor].
           ++ change (AR.job_at a (AR.store_job b (AR.set_j_state AR.SENDING_DATA)
                        (AR.store_job a (AR.set_j_state AR.READY_TO_RUN)
                           (AR.store_job a (AR.set_j_send_data (AR.j_send_data j - 1)) s)))
                      = Some (AR.set_j_state AR.READY_TO_RUN
                                (AR.set_j_send_data (AR.j_send_data j - 1) j))).
              rewrite ar_job_at_store_ne by done.
              apply ar_job_at_store_eq; [done|]. by apply ar_job_at_store_eq.
           ++ change (AR.job_at b (AR.store_job b (AR.set_j_state AR.SENDING_DATA)
                        (AR.store_job a (AR.set_j_state AR.READY_TO_RUN)
                           (AR.store_job a (AR.set_j_send_data (AR.j_send_data j - 1)) s)))
                      = Some (AR.set_j_state AR.SENDING_DATA n)).
              apply ar_job_at_store_eq; [done|]. by rewrite !ar_job_at_store_ne.
           ++ eapply ar_chain_at_frame; [|exact Hch''].
              intros c Hc. rewrite !ar_job_at_store_ne; [done|done| |done| |done|].
              ** intros ->. apply Ha. right. done.
              ** intros ->. apply Ha. right. done.
              ** intros ->. done.
        -- intros c Hc. rewrite !ar_job_at_store_ne; [done|done| |done| |done|].
           ++ intros ->. apply Hc. by left.
           ++ intros ->. apply Hc. by left.
           ++ intros ->. apply Hc. right. by left.
    + eexists. split_and!; [done| |].
      * constructor.
        -- change (AR.job_at a (AR.store_job a (AR.set_j_send_data (AR.j_send_data j - 1)) s)
                   = Some (AR.set_j_send_data (AR.j_send_data j - 1) j)).
           by apply ar_job_at_store_eq.
        -- eapply ar_chain_at_frame; [|exact Hch'].
           intros c Hc. rewrite ar_job_at_store_ne; [done|done|]. by intros ->.
      * intros c Hc. rewrite ar_job_at_store_ne; [done|done|].
        intros ->. apply Hc. by left.
  - (* WAITING_TO_SEND_DATA *)
    eexists. split_and!; [done| |].
    + constructor.
      * change (AR.job_at a (AR.store_job a (AR.set_j_state AR.SENDING_DATA) s)
                = Some (AR.set_j_state AR.SENDING_DATA j)).
        by apply ar_job_at_store_eq.
      * eapply ar_chain_at_frame; [|exact Hch'].
        intros c Hc. rewrite ar_job_at_store_ne; [done|done|]. by intros ->.
    + intros c Hc. rewrite ar_job_at_store_ne; [done|done|].
      intros ->. apply Hc. by left.
Qed.

Lemma ar_run_head_refines r a q s j L :
  AR.job_at a s = Some j →
  ∃ r' s', AR.run_head r a q s = Some (r', s') ∧
    (∀ b, b ≠ a → AR.job_at b s' = AR.job_at b s) ∧
    AR.r_total_workload r'
    = AR.r_total_workload r - (if ar_head_runs (j :: L) then AR.r_level r else 0) ∧
    match (ar_head_step (AR.r_level r) (j :: L)).2 with
    | Some jd =>
        AR.job_at a s' = Some jd ∧ AR.r_rsv r' = q ∧
        (ar_head_step (AR.r_level r) (j :: L)).1 = L ∧
        (AR.r_state r' = AR.r_state r ∨ AR.r_state r' = AR.NO_ACCEPT_JOBS)
    | None =>
        ∃ j', (ar_head_step (AR.r_level r) (j :: L)).1 = j' :: L ∧
          AR.job_at a s' = Some j' ∧ AR.r_rsv r' = AR.r_rsv r ∧
          AR.r_state r' = AR.r_state r
    end.
Proof.
  intros Hj. unfold AR.run_head, ar_head_step, ar_head_runs. rewrite Hj. simpl.
  destruct (AR.j_state j) eqn:Hst; case_bool_decide; try done.
  - (* WAITING *) eexists _, _. split_and!; [done|done|lia|]. by exists j.
  - (* RUNNING *)
    destruct (AR.j_workload j - AR.r_level r <? 0) eqn:Hw.
    + unfold AR.random. cbv zeta.
      destruct (Z.rem _ 1000 <=? AR.RL_PROB); eexists _, _;
        (split_and!; [done| |done|]);
        try (intros b Hb; change (AR.job_at b (AR.store_job a (AR.set_j_state AR.DONE)
                   (AR.store_job a (AR.set_j_workload (AR.j_workload j - AR.r_level r)) s))
                 = AR.job_at b s); by rewrite !ar_job_at_store_ne).
      * split_and!; [|done|done|by right].
        change (AR.job_at a (AR.store_job a (AR.set_j_state AR.DONE)
                   (AR.store_job a (AR.set_j_workload (AR.j_workload j - AR.r_level r)) s))
                = Some (AR.set_j_state AR.DONE
                          (AR.set_j_workload (AR.j_workload j - AR.r_level r) j))).
        apply ar_job_at_store_eq; [done|]. by apply ar_job_at_store_eq.
      * split_and!; [|done|done|by left].
        change (AR.job_at a (AR.store_job a (AR.set_j_state AR.DONE)
                   (AR.store_job a (AR.set_j_workload (AR.j_workload j - AR.r_level r)) s))
                = Some (AR.set_j_state AR.DONE
                          (AR.set_j_workload (AR.j_workload j - AR.r_level r) j))).
        apply ar_job_at_store_eq; [done|]. by apply ar_job_at_store_eq.
    + eexists _, _. split_and!; [done| |done|].
      * intros b Hb. by rewrite ar_job_at_store_ne.
      * eexists. split_and!; [done| |done|done]. by apply ar_job_at_store_eq.
  - (* DONE *) eexists _, _. split_and!; [done|done|lia|]. by exists j.
  - (* SENDING_DATA *) eexists _, _. split_and!; [done|done|lia|]. by exists j.
  - (* WAITING_TO_SEND_DATA *) eexists _, _. split_and!; [done|done|lia|]. by exists j.
  - (* READY_TO_RUN *)
    eexists _, _. split_and!; [done| |lia|].
    + intros b Hb. by rewrite ar_job_at_store_ne.
    + eexists. split_and!; [done| |done|done]. by apply ar_job_at_store_eq.
Qed.

Lemma ar_run_send_res_refines r s L :
  NoDup (AR.r_rsv r) → ar_chain_at (AR.first_job s) (AR.r_rsv r) L →
  (AR.r_state r = AR.LEAVING → AR.r_rsv r = []) →
  ∃ r' s', AR.run_send_res r s = Some (r', s') ∧
    (∀ b, b ∉ AR.r_rsv r → AR.job_at b s' = AR.job_at b s) ∧
    ar_chain_at (AR.first_job s') (AR.r_rsv r')
      (ar_walk_step (ar_head_step (AR.r_level r) L).1) ∧
    AR.r_total_workload r'
    = AR.r_total_workload r - (if ar_head_runs L then AR.r_level r else 0) ∧
    (AR.r_state r' = AR.LEAVING → AR.r_rsv r' = []) ∧
    match (ar_head_step (AR.r_level r) L).2 with
    | Some jd =>
        AR.job_at (AR.j_addr jd) s' = Some jd ∧ AR.r_rsv r = AR.j_addr jd :: AR.r_rsv r'
    | None => AR.r_rsv r' = AR.r_rsv r
    end.
Proof.
  intros Hnd Hch Hlv. unfold AR.run_send_res.
  destruct (AR.r_rsv r) as [|a q] eqn:Hq.
  - inversion Hch; subst. rewrite (bool_decide_eq_true_2 (@nil nat = [])) by done.
    destruct (bool_decide (AR.r_state r = AR.NO_ACCEPT_JOBS)); simpl; rewrite Hq;
      eexists _, _; split_and!; try done; simpl; rewrite ?Hq; try constructor; lia.
  - rewrite (bool_decide_eq_false_2 (a :: q = [])) by done. rewrite andb_false_r, Hq.
    inversion Hch as [|? j ? L' Hj Hch']; subst.
    change (AR.job_at a s = Some j) in Hj.
    apply NoDup_cons in Hnd as [Ha Hnd].
    destruct (ar_run_head_refines r a q s j L' Hj) as (r1 & s1 & Hrh & Hfr1 & Htw & Hcase).
    assert (ar_chain_at (AR.first_job s1) q L') as Hch1.
    { eapply ar_chain_at_frame; [|exact Hch']. intros b Hb. apply Hfr1. by intros ->. }
    destruct (ar_head_step (AR.r_level r) (j :: L')) as [L1 [jd|]] eqn:Hhs;
      simpl in Hcase; rewrite Hrh; simpl.
    + destruct Hcase as (Hjd & Hq1 & -> & Hst1).
      destruct (ar_send_walk_refines q s1 L' Hnd Hch1) as (s2 & Hsw & Hch2 & Hfr2).
      rewrite Hq1, Hsw. simpl. eexists _, _.
      split; [done|]. split.
      { intros b Hb. rewrite Hfr2; [apply Hfr1|]; intros Hin; apply Hb;
          [subst; by left|by right]. }
      split; [by rewrite Hq1|]. split; [done|]. split.
      { intros Hl. exfalso. destruct Hst1 as [Hst1|Hst1]; [|congruence].
        rewrite Hst1 in Hl. by specialize (Hlv Hl). }
      assert (AR.j_addr jd = a) as Hja.
      { unfold AR.job_at in Hjd. by apply deref_Some in Hjd as [_ ?]. }
      rewrite Hja, Hq1. split; [|done]. by rewrite Hfr2.
    + destruct Hcase as (j' & -> & Hj' & Hq1 & Hst1).
      assert (ar_chain_at (AR.first_job s1) (a :: q) (j' :: L')) as Hch1'
        by by constructor.
      destruct (ar_send_walk_refines (a :: q) s1 (j' :: L')) as (s2 & Hsw & Hch2 & Hfr2);
        [by apply NoDup_cons|done|].
      rewrite Hq1, Hq, Hsw. simpl. eexists _, _.
      split; [done|]. split.
      { intros b Hb. rewrite Hfr2 by done. apply Hfr1. intros ->. apply Hb. by left. }
      split; [by rewrite Hq1, Hq|]. split; [done|]. split.
      { intros Hl. exfalso. rewrite Hst1 in Hl. by specialize (Hlv Hl). }
      by rewrite Hq1.
Qed.

(** ** AR: the pattern of states, the ranges and the load along a chain *)

Lemma ar_ready_then_pattern L : ar_ready_then L → ar_pattern L.
Proof. destruct L as [|j L]; [done|]. by right. Qed.

Lemma ar_walk_step_queued L :
  Forall (λ x, AR.j_state x = AR.WAITING_TO_SEND_DATA) L → ar_ready_then (ar_walk_step L).
Proof.
  destruct L as [|j L]; [done|]. intros [Hj HL]%Forall_cons. simpl. rewrite Hj. simpl. done.
Qed.

Lemma ar_walk_step_ready_then L : ar_ready_then L → ar_ready_then (ar_walk_step L).
Proof.
  induction L as [|j L IH]; [done|]. simpl.
  destruct (AR.j_state j) eqn:Hst; try done.
  - (* SENDING_DATA *)
    intros HL. destruct (AR.j_send_data j - 1 <=? 0); simpl; [|by rewrite Hst].
    destruct L as [|n L']; [done|]. apply Forall_cons in HL as [Hn HL]. simpl. done.
  - (* READY_TO_RUN *) intros HL. simpl. rewrite Hst. by apply IH.
Qed.

Lemma ar_walk_step_pattern L : ar_pattern L → ar_pattern (ar_walk_step L).
Proof.
  destruct L as [|j L]; [done|].
  intros [[Hr HL]|HL].
  - simpl. rewrite Hr. left. split; [done|]. by apply ar_walk_step_ready_then.
  - by apply ar_ready_then_pattern, ar_walk_step_ready_then.
Qed.

Lemma ar_head_step_pattern lv L : ar_pattern L → ar_pattern (ar_head_step lv L).1.
Proof.
  destruct L as [|j L]; [done|]. unfold ar_head_step.
  intros [[Hr HL]|HL].
  - rewrite Hr. destruct (AR.j_workload j - lv <? 0); simpl.
    + by apply ar_ready_then_pattern.
    + left. done.
  - simpl in HL. destruct (AR.j_state j) eqn:Hst; try done; simpl.
    + right. simpl. by rewrite Hst.
    + right. simpl. by rewrite Hst.
    + left. done.
Qed.

Lemma ar_walk_step_load L : ar_load (ar_walk_step L) = ar_load L.
Proof.
  induction L as [|j L IH]; [done|]. simpl.
  destruct (AR.j_state j); simpl; rewrite ?IH; try done.
  destruct (AR.j_send_data j - 1 <=? 0); [|done].
  by destruct L.
Qed.

Lemma ar_head_step_load lv L tw :
  tw ≤ ar_load L → tw - (if ar_head_runs L then lv else 0) ≤ ar_load (ar_head_step lv L).1.
Proof.
  destruct L as [|j L]; [simpl; lia|]. unfold ar_head_step, ar_head_runs. simpl.
  destruct (AR.j_state j) eqn:Hst; case_bool_decide; try done; simpl; try lia.
  destruct (AR.j_workload j - lv <? 0) eqn:Hw; simpl; lia.
Qed.

Ltac solve_range :=
  repeat match goal with H : _ ∧ _ |- _ => destruct H end;
  repeat split; first [done | lia].

Lemma ar_walk_step_range L :
  ar_ready_then L ∨ Forall (λ x, AR.j_state x = AR.WAITING_TO_SEND_DATA) L →
  Forall ar_job_range L → Forall ar_job_range (ar_walk_step L).
Proof.
  induction L as [|j L IH]; [done|]. intros Hp [Hj HL]%Forall_cons. simpl.
  assert (Forall (λ x, AR.j_state x = AR.WAITING_TO_SEND_DATA) L →
          Forall ar_job_range
            match L with [] => [] | n :: L'' => AR.set_j_state AR.SENDING_DATA n :: L'' end)
    as Hnext.
  { destruct L as [|n L']; [done|]. intros [Hn _]%Forall_cons.
    apply Forall_cons in HL as [Hnr HL]. constructor; [|done].
    unfold ar_job_range in *. simpl. by rewrite Hn in Hnr. }
  unfold ar_job_range in Hj.
  destruct (AR.j_state j) eqn:Hst.
  - constructor; [by unfold ar_job_range; rewrite Hst|]. apply IH; [|done].
    destruct Hp as [Hp|Hp]; [simpl in Hp; by rewrite Hst in Hp|].
    apply Forall_cons in Hp as [? ?]. congruence.
  - constructor; [by unfold ar_job_range; rewrite Hst|]. apply IH; [|done].
    destruct Hp as [Hp|Hp]; [simpl in Hp; by rewrite Hst in Hp|].
    apply Forall_cons in Hp as [? ?]. congruence.
  - constructor; [by unfold ar_job_range; rewrite Hst|]. apply IH; [|done].
    destruct Hp as [Hp|Hp]; [simpl in Hp; by rewrite Hst in Hp|].
    apply Forall_cons in Hp as [? ?]. congruence.
  - (* SENDING_DATA *)
    assert (Forall (λ x, AR.j_state x = AR.WAITING_TO_SEND_DATA) L) as Hq.
    { destruct Hp as [Hp|Hp]; [simpl in Hp; by rewrite Hst in Hp|].
      by apply Forall_cons in Hp as [? ?]. }
    destruct (Z.leb_spec (AR.j_send_data j - 1) 0) as [Hsd|Hsd].
    + constructor; [|by apply Hnext]. unfold ar_job_range. simpl. solve_range.
    + constructor; [|done]. unfold ar_job_range. simpl. rewrite Hst. solve_range.
  - (* WAITING_TO_SEND_DATA *)
    constructor; [|done]. unfold ar_job_range. simpl. solve_range.
  - (* READY_TO_RUN *)
    constructor; [by unfold ar_job_range; rewrite Hst|]. apply IH; [|done].
    destruct Hp as [Hp|Hp]; [simpl in Hp; rewrite Hst in Hp; by left|].
    apply Forall_cons in Hp as [? ?]. congruence.
Qed.

Lemma ar_head_step_range lv L :
  1 ≤ lv ≤ 5 → Forall ar_job_range L →
  Forall ar_job_range (ar_head_step lv L).1 ∧
  ∀ jd, (ar_head_step lv L).2 = Some jd → ar_job_range jd ∧ AR.j_state jd = AR.DONE.
Proof.
  intros Hlv HL. destruct L as [|j L]; [done|].
  apply Forall_cons in HL as [Hj HL]. unfold ar_head_step.
  destruct (AR.j_state j) eqn:Hst; try (split; [by constructor|done]).
  - unfold ar_job_range in Hj. rewrite Hst in Hj.
    destruct (Z.ltb_spec (AR.j_workload j - lv) 0) as [Hw|Hw]; simpl.
    + split; [done|]. intros jd [= <-]. split; [|done]. unfold ar_job_range. simpl. solve_range.
    + split; [|done]. constructor; [|done]. unfold ar_job_range. simpl. rewrite Hst. solve_range.
  - simpl. split; [|done]. constructor; [|done].
    unfold ar_job_range in *. simpl. rewrite Hst in Hj. solve_range.
Qed.

(** ** AR: the chains through one pass of the executor *)

Lemma ar_chain_at_Forall (P : AR.job → Prop) jobs q L :
  ar_chain_at jobs q L → Forall P jobs → Forall P L.
Proof.
  intros Hch HP. induction Hch as [|a j q L Hj _ IH]; constructor; [|done].
  apply deref_Some in Hj as [Hin _]. by eapply Forall_forall in HP.
Qed.

Lemma ar_chain_at_lookup jobs q L b :
  ar_chain_at jobs q L → b ∈ q → ∃ j, j ∈ L ∧ deref AR.j_addr b jobs = Some j.
Proof.
  intros Hch [i Hi]%list_elem_of_lookup.
  destruct (Forall2_lookup_l _ _ _ _ _ Hch Hi) as (j & Hj & Hd).
  exists j. split; [by eapply list_elem_of_lookup_2|done].
Qed.

Lemma ar_chain_at_load s r L :
  ar_chain_at (AR.first_job s) (AR.r_rsv r) L → queue_workload s r = ar_load L.
Proof.
  unfold queue_workload, ar_load. generalize (AR.r_rsv r). intros q Hch.
  induction Hch as [|a j q L Hj _ IH]; [done|]. simpl.
  change (deref AR.j_addr a (AR.first_job s)) with (AR.job_at a s) in Hj.
  by rewrite Hj, IH.
Qed.

Lemma ar_queued_split pre r rest b :
  b ∈ ar_queued (pre ++ r :: rest) ↔
  b ∈ ar_queued pre ∨ b ∈ AR.r_rsv r ∨ b ∈ ar_queued rest.
Proof. rewrite ar_queued_app, ar_queued_cons, !elem_of_app. tauto. Qed.

Lemma ar_queued_others pre r rest r2 b :
  NoDup (ar_queued (pre ++ r :: rest)) → r2 ∈ pre ++ rest → b ∈ AR.r_rsv r2 →
  b ∉ AR.r_rsv r.
Proof.
  rewrite ar_queued_app, ar_queued_cons. intros Hnd Hr2 Hb Hbr.
  apply NoDup_app in Hnd as (_ & Hd1 & Hnd). apply NoDup_app in Hnd as (_ & Hd2 & _).
  apply elem_of_app in Hr2 as [Hr2|Hr2].
  - apply (Hd1 b); [by eapply ar_queued_elem|]. apply elem_of_app. by left.
  - apply (Hd2 b); [done|]. by eapply ar_queued_elem.
Qed.

Lemma ar_walk_step_range_pattern L :
  ar_pattern L → Forall ar_job_range L → Forall ar_job_range (ar_walk_step L).
Proof.
  destruct L as [|j L]; [done|]. intros [[Hr HL]|HL] Hrg.
  - apply Forall_cons in Hrg as [Hj Hrg]. simpl. rewrite Hr.
    constructor; [done|]. apply ar_walk_step_range; [by left|done].
  - apply ar_walk_step_range; [by left|done].
Qed.

(** Where a job of the pool comes from after the pass over [r]: it is
    as before and not in the chain of [r], or it is one of the jobs the
    chain of [r] points to afterwards, or it is the job whose reservation
    has been unlinked. *)
Lemma ar_pass_jobs r s r1 s1 L x' :
  NoDup (AR.j_addr <$> AR.first_job s1) →
  (∀ b, b ∉ AR.r_rsv r → AR.job_at b s1 = AR.job_at b s) →
  ar_chain_at (AR.first_job s1) (AR.r_rsv r1)
    (ar_walk_step (ar_head_step (AR.r_level r) L).1) →
  match (ar_head_step (AR.r_level r) L).2 with
  | Some jd =>
      AR.job_at (AR.j_addr jd) s1 = Some jd ∧ AR.r_rsv r = AR.j_addr jd :: AR.r_rsv r1
  | None => AR.r_rsv r1 = AR.r_rsv r
  end →
  x' ∈ AR.first_job s1 →
  (x' ∈ AR.first_job s ∧ AR.j_addr x' ∉ AR.r_rsv r) ∨
  (x' ∈ ar_walk_step (ar_head_step (AR.r_level r) L).1 ∧ AR.j_addr x' ∈ AR.r_rsv r1) ∨
  (ar_head_step (AR.r_level r) L).2 = Some x'.
Proof.
  intros Hnd Hfr Hch Hcase Hx'.
  pose proof (deref_NoDup AR.j_addr _ _ Hnd Hx') as Hd.
  change (AR.job_at (AR.j_addr x') s1 = Some x') in Hd.
  assert (AR.j_addr x' ∈ AR.r_rsv r1 →
          x' ∈ ar_walk_step (ar_head_step (AR.r_level r) L).1) as Hin1.
  { intros Hb. destruct (ar_chain_at_lookup _ _ _ _ Hch Hb) as (j & Hj & Hdj).
    change (AR.job_at (AR.j_addr x') s1 = Some j) in Hdj. by simplify_eq. }
  destruct (decide (AR.j_addr x' ∈ AR.r_rsv r)) as [Hb|Hb].
  - right. destruct (ar_head_step (AR.r_level r) L).2 as [jd|].
    + destruct Hcase as [Hjd Hq]. rewrite Hq in Hb.
      apply elem_of_cons in Hb as [Hb|Hb].
      * right. rewrite Hb, Hjd in Hd. by injection Hd as ->.
      * left. split; [by apply Hin1|done].
    + rewrite <- Hcase in Hb. left. split; [by apply Hin1|done].
  - left. split; [|done]. rewrite Hfr in Hd by done.
    unfold AR.job_at in Hd. by apply deref_Some in Hd as [? _].
Qed.

Lemma ar_pass_audit pre r rest s r1 s1 :
  ar_loop_inv (AR.heap_next s) (AR.last_job s) pre (r :: rest) (AR.first_job s) →
  ar_audit (pre ++ r :: rest) (AR.first_job s) →
  AR.run_send_res r s = Some (r1, s1) →
  ar_audit ((pre ++ [r1]) ++ rest) (AR.first_job s1).
Proof.
  intros (_ & [Hndj _] & _ & Hndq & _) [Hch Hrg Hlv Hsv] Hrun.
  destruct (ar_run_send_res_frame _ _ _ _ Hrun) as [(_ & _ & Hlev & _) (Hkept & _)].
  assert (NoDup (AR.j_addr <$> AR.first_job s1)) as Hndj1.
  { rewrite (Forall2_fmap_eq AR.j_addr (AR.first_job s) (AR.first_job s1)); [done|].
    eapply Forall2_impl; [exact Hkept|]. by intros x y (? & _). }
  assert (NoDup (AR.r_rsv r)) as Hndr.
  { rewrite ar_queued_app, ar_queued_cons in Hndq.
    apply NoDup_app in Hndq as (_ & _ & Hndq). by apply NoDup_app in Hndq as (? & _). }
  pose proof Hch as Hch0.
  apply Forall_app in Hch as [Hchpre Hch]. apply Forall_cons in Hch as [Hchr Hchrest].
  destruct Hchr as [(L & HL & Hpat & Htw) Hleave].
  destruct (ar_run_send_res_refines r s L Hndr HL Hleave)
    as (r' & s' & Hrun' & Hfr & Hch1 & Htw1 & Hleave1 & Hcase).
  rewrite Hrun in Hrun'. injection Hrun' as <- <-.
  assert (Forall ar_job_range L) as HrgL by by eapply ar_chain_at_Forall.
  assert (1 ≤ AR.r_level r ≤ 5) as Hlvr.
  { apply Forall_app in Hlv as [_ Hlv]. by apply Forall_cons in Hlv as [? _]. }
  destruct (ar_head_step_range (AR.r_level r) L Hlvr HrgL) as [Hrg1 Hrgd].
  pose proof (ar_walk_step_range_pattern _ (ar_head_step_pattern (AR.r_level r) L Hpat) Hrg1)
    as Hrg2.
  assert (∀ r2, r2 ∈ pre ++ rest → ar_chain_ok (AR.first_job s) r2 →
            ar_chain_ok (AR.first_job s1) r2) as Hother.
  { intros r2 Hr2 [(L2 & HL2 & Hpat2 & Htw2) Hleave2]. split; [|done].
    exists L2. split_and!; [|done..].
    eapply ar_chain_at_frame; [|exact HL2]. intros b Hb. apply Hfr.
    by eapply ar_queued_others. }
  split.
  - rewrite <- app_assoc. simpl. apply Forall_app. split; [|apply Forall_cons; split].
    + apply Forall_forall. intros r2 Hr2. apply Hother; [apply elem_of_app; by left|].
      by eapply Forall_forall in Hchpre.
    + split; [|done]. eexists. split_and!; [exact Hch1|..].
      * by apply ar_walk_step_pattern, ar_head_step_pattern.
      * rewrite Htw1, ar_walk_step_load. by apply ar_head_step_load.
    + apply Forall_forall. intros r2 Hr2. apply Hother; [apply elem_of_app; by right|].
      by eapply Forall_forall in Hchrest.
  - apply Forall_forall. intros x' Hx'.
    destruct (ar_pass_jobs r s r1 s1 L x' Hndj1 Hfr Hch1 Hcase Hx') as [[Hx _]|[[Hx _]|Hx]].
    + by eapply Forall_forall in Hrg.
    + by eapply Forall_forall in Hrg2.
    + by apply Hrgd.
  - rewrite <- app_assoc. simpl.
    apply Forall_app in Hlv as [Hlvpre Hlv]. apply Forall_cons in Hlv as [_ Hlvrest].
    apply Forall_app. split; [done|]. apply Forall_cons. split; [|done]. by rewrite Hlev.
  - intros x' Hx' Hserv. rewrite <- app_assoc. simpl. apply ar_queued_split.
    destruct (ar_pass_jobs r s r1 s1 L x' Hndj1 Hfr Hch1 Hcase Hx') as [[Hx Hb]|[[_ Hb]|Hx]].
    + specialize (Hsv x' Hx Hserv). apply ar_queued_split in Hsv as [?|[?|?]]; auto. done.
    + auto.
    + exfalso. destruct (Hrgd x' Hx) as [_ Hd]. by destruct Hserv as [_ ?].
Qed.

Lemma ar_run_send_loop_audit rs : ∀ pre s rs' s',
  ar_loop_inv (AR.heap_next s) (AR.last_job s) pre rs (AR.first_job s) →
  ar_audit (pre ++ rs) (AR.first_job s) →
  AR.run_send_loop rs s = Some (rs', s') →
  ar_audit (pre ++ rs') (AR.first_job s').
Proof.
  induction rs as [|r rs IH]; intros pre s rs' s' Hinv Hau; simpl.
  { by intros [= <- <-]. }
  intros H. apply bind_Some in H as ([r1 s1] & H1 & H).
  apply bind_Some in H as ([rs2 s2] & H2 & H). injection H as <- <-.
  pose proof (ar_pass_audit _ _ _ _ _ _ Hinv Hau H1) as Hau1.
  assert (NoDup (AR.r_rsv r) ∧ ∀ b, b ∈ AR.r_rsv r → is_Some (AR.job_at b s))
    as (Hnd_r & Hlive).
  { destruct Hinv as (_ & _ & _ & Hnd & Hq & _).
    rewrite ar_queued_app, ar_queued_cons in Hnd.
    apply NoDup_app in Hnd as (_ & _ & Hnd). apply NoDup_app in Hnd as (Hnd & _ & _).
    split; [done|].
    intros b [i Hb]%list_elem_of_lookup_1.
    apply Forall_app in Hq as [_ Hq]. apply Forall_cons in Hq as [Hq _].
    destruct (Hq i b Hb) as (j & Hj & _). by exists j. }
  destruct (ar_run_send_res_spec r s Hnd_r Hlive)
    as (r' & s1' & H1' & Hrun' & Hj1 & Hn1 & Hl1 & Hpass).
  rewrite H1 in Hrun'. injection Hrun' as <- <-.
  pose proof (ar_pass_inv _ _ _ _ _ _ _ _ Hinv Hpass) as Hinv1.
  rewrite <- Hj1, <- Hn1, <- Hl1 in Hinv1.
  specialize (IH _ _ _ _ Hinv1 Hau1 H2).
  by rewrite <- app_assoc in IH.
Qed.

Lemma ar_run_send_audit s s' :
  ar_mid s → ar_audit (AR.first_res s) (AR.first_job s) → AR.run_send s = Some s' →
  ar_audit (AR.first_res s') (AR.first_job s').
Proof.
  intros [[Hres Hjobs Htail Hnd Hq Htime] Hslack] Hau. unfold AR.run_send. intros H.
  apply bind_Some in H as ([rs s1] & H1 & H). injection H as <-. simpl.
  apply (ar_run_send_loop_audit (AR.first_res s) [] s rs s1); [|done|done].
  split_and!; done.
Qed.

(** ** AR: the chains through the rest of a tick *)

Lemma ar_states_all st L L' :
  AR.j_state <$> L' = AR.j_state <$> L →
  Forall (λ x, AR.j_state x = st) L → Forall (λ x, AR.j_state x = st) L'.
Proof.
  revert L'. induction L as [|j L IH]; intros [|j' L'] Heq; try done.
  rewrite !fmap_cons in Heq. injection Heq as Hj HL.
  intros [H1 H2]%Forall_cons. constructor; [congruence|by apply IH].
Qed.

Lemma ar_ready_then_states L L' :
  AR.j_state <$> L' = AR.j_state <$> L → ar_ready_then L → ar_ready_then L'.
Proof.
  revert L'. induction L as [|j L IH]; intros [|j' L'] Heq; try done.
  rewrite !fmap_cons in Heq. injection Heq as Hj HL. simpl. rewrite Hj.
  destruct (AR.j_state j); try done.
  - by apply ar_states_all.
  - by apply ar_states_all.
  - by apply IH.
Qed.

Lemma ar_pattern_states L L' :
  AR.j_state <$> L' = AR.j_state <$> L → ar_pattern L → ar_pattern L'.
Proof.
  destruct L as [|j L], L' as [|j' L']; try done. intros Heq.
  pose proof Heq as Heq'. rewrite !fmap_cons in Heq'. injection Heq' as Hj HL.
  intros [[Hr H]|H].
  - left. split; [congruence|]. by eapply ar_ready_then_states.
  - right. by eapply ar_ready_then_states.
Qed.

Lemma ar_load_fmap (g : AR.job → AR.job) L :
  (∀ x, AR.j_workload (g x) = AR.j_workload x) → ar_load (g <$> L) = ar_load L.
Proof.
  intros Hg. induction L as [|j L IH]; [done|].
  rewrite fmap_cons. simpl. by rewrite Hg, IH.
Qed.

Lemma ar_load_snoc L j : ar_load (L ++ [j]) = ar_load L + AR.j_workload j.
Proof. induction L as [|x L IH]; simpl; [lia|]. rewrite IH. lia. Qed.

Lemma ar_ready_then_snoc L j :
  AR.j_state j = AR.WAITING_TO_SEND_DATA → ar_ready_then L → ar_ready_then (L ++ [j]).
Proof.
  intros Hj. induction L as [|x L IH]; simpl; [by rewrite Hj|].
  destruct (AR.j_state x); try done.
  - intros H. apply Forall_app. split; [done|]. by apply Forall_singleton.
  - intros H. apply Forall_app. split; [done|]. by apply Forall_singleton.
Qed.

Lemma ar_pattern_snoc L j :
  AR.j_state j = AR.WAITING_TO_SEND_DATA → ar_pattern L → ar_pattern (L ++ [j]).
Proof.
  intros Hj. destruct L as [|x L]; simpl.
  - intros _. right. simpl. by rewrite Hj.
  - intros [[Hr H]|H].
    + left. split; [done|]. by apply ar_ready_then_snoc.
    + right. by apply (ar_ready_then_snoc (x :: L)).
Qed.

Lemma ar_ready_then_in_service L : ar_ready_then L → Forall ar_in_service L.
Proof.
  induction L as [|j L IH]; [done|]. simpl.
  destruct (AR.j_state j) eqn:Hst; try done; intros H.
  - constructor; [split; congruence|].
    eapply Forall_impl; [done|]. intros x Hx. split; congruence.
  - constructor; [split; congruence|].
    eapply Forall_impl; [done|]. intros x Hx. split; congruence.
  - constructor; [split; congruence|]. by apply IH.
Qed.

Lemma ar_pattern_in_service L : ar_pattern L → Forall ar_in_service L.
Proof.
  destruct L as [|j L]; [done|]. intros [[Hr H]|H].
  - constructor; [split; congruence|]. by apply ar_ready_then_in_service.
  - by apply ar_ready_then_in_service.
Qed.

Lemma ar_chain_at_fmap (g : AR.job → AR.job) jobs q L :
  (∀ x, AR.j_addr (g x) = AR.j_addr x) →
  ar_chain_at jobs q L → ar_chain_at (g <$> jobs) q (g <$> L).
Proof.
  intros Hg Hch. apply Forall2_fmap_r.
  eapply Forall2_impl; [exact Hch|]. intros a j Hj. simpl.
  by rewrite deref_fmap, Hj.
Qed.

Lemma ar_chain_at_ext jobs jobs' q L :
  (∀ b, b ∈ q → deref AR.j_addr b jobs' = deref AR.j_addr b jobs) →
  ar_chain_at jobs q L → ar_chain_at jobs' q L.
Proof.
  intros Hfr Hch. induction Hch as [|a j q L Hj _ IH]; constructor.
  - rewrite Hfr; [done|by left].
  - apply IH. intros b Hb. apply Hfr. by right.
Qed.

Lemma ar_chain_at_filter (P : AR.job → Prop) `{∀ x, Decision (P x)} jobs q L :
  NoDup (AR.j_addr <$> jobs) → Forall P L →
  ar_chain_at jobs q L → ar_chain_at (filter P jobs) q L.
Proof.
  intros Hnd HP Hch. induction Hch as [|a j q L Hj _ IH]; constructor.
  - apply Forall_cons in HP as [? _]. by apply deref_filter.
  - apply IH. by apply Forall_cons in HP as [_ ?].
Qed.

Lemma ar_queued_elem_inv rs b : b ∈ ar_queued rs → ∃ r, r ∈ rs ∧ b ∈ AR.r_rsv r.
Proof. intros Hin. apply list_elem_of_bind in Hin as (r & Hb & Hr). by exists r. Qed.

Lemma ar_trace_body_audit s :
  ar_audit (AR.first_res s) (AR.first_job s) →
  ar_audit (AR.first_res (AR.trace_body s)) (AR.first_job (AR.trace_body s)).
Proof.
  intros [Hch Hrg Hlv Hsv]. rewrite ar_trace_body_jobs, ar_trace_body_res.
  set (g := λ j, if ar_waits j then AR.set_j_wait_time (AR.j_wait_time j + 1) j else j).
  assert (∀ x, AR.j_addr (g x) = AR.j_addr x) as Hga by (intros x; unfold g; by destruct (ar_waits x)).
  assert (∀ x, AR.j_state (g x) = AR.j_state x) as Hgs by (intros x; unfold g; by destruct (ar_waits x)).
  assert (∀ x, AR.j_workload (g x) = AR.j_workload x) as Hgw
    by (intros x; unfold g; by destruct (ar_waits x)).
  split.
  - apply Forall_fmap. eapply Forall_impl; [exact Hch|].
    intros r [(L & HL & Hpat & Htw) Hleave]. split; [|done]. simpl.
    exists (g <$> L). split_and!.
    + by apply ar_chain_at_fmap.
    + eapply ar_pattern_states; [|done]. by apply fmap_fmap_same.
    + by rewrite ar_load_fmap.
  - apply Forall_fmap. eapply Forall_impl; [exact Hrg|].
    intros j. unfold ar_job_range, g, ar_waits.
    destruct (AR.j_state j) eqn:E; unfold AR.set_j_wait_time; cbn; rewrite ?E; cbn;
      intros; solve_range.
  - apply Forall_fmap. eapply Forall_impl; [exact Hlv|]. done.
  - intros x' Hx' Hserv. apply list_elem_of_fmap in Hx' as (x & -> & Hx).
    rewrite ar_queued_fmap by done. rewrite Hga. apply Hsv; [done|].
    unfold ar_in_service in *. by rewrite !Hgs in Hserv.
Qed.

Lemma ar_removals_audit s :
  NoDup (AR.j_addr <$> AR.first_job s) →
  ar_audit (AR.first_res s) (AR.first_job s) →
  ar_audit (AR.first_res (AR.remove_leaving_resources (AR.remove_done_jobs s)))
    (AR.first_job (AR.remove_leaving_resources (AR.remove_done_jobs s))).
Proof.
  intros Hnd [Hch Hrg Hlv Hsv]. simpl. split.
  - apply Forall_forall. intros r [_ Hr]%list_elem_of_filter.
    eapply Forall_forall in Hch; [|done].
    destruct Hch as [(L & HL & Hpat & Htw) Hleave]. split; [|done].
    exists L. split_and!; [|done..].
    apply ar_chain_at_filter; [done| |done].
    eapply Forall_impl; [by apply ar_pattern_in_service|]. by intros x [_ ?].
  - apply Forall_forall. intros j [_ Hj]%list_elem_of_filter. by eapply Forall_forall in Hrg.
  - apply Forall_forall. intros r [_ Hr]%list_elem_of_filter. by eapply Forall_forall in Hlv.
  - intros j [_ Hj]%list_elem_of_filter Hserv.
    destruct (ar_queued_elem_inv _ _ (Hsv j Hj Hserv)) as (r & Hr & Hb).
    eapply ar_queued_elem; [|done]. apply list_elem_of_filter. split; [|done].
    intros Hl. eapply Forall_forall in Hch; [|done]. destruct Hch as [_ Hleave].
    rewrite (Hleave Hl) in Hb. by apply elem_of_nil in Hb.
Qed.

Lemma ar_audit_new_res rs jobs r :
  ar_audit rs jobs →
  AR.r_rsv r = [] → AR.r_total_workload r = 0 → 1 ≤ AR.r_level r ≤ 5 →
  ar_audit (rs ++ [r]) jobs.
Proof.
  intros [Hch Hrg Hlv Hsv] Hq Htw Hl. split; [|done| |].
  - apply Forall_app. split; [done|]. apply Forall_singleton. split; [|by rewrite Hq].
    exists []. rewrite Hq, Htw. split_and!; [constructor|done|done].
  - apply Forall_app. split; [done|]. by apply Forall_singleton.
  - intros j Hj Hserv. rewrite ar_queued_app. apply elem_of_app. left. by apply Hsv.
Qed.

Lemma ar_audit_new_job rs jobs j :
  ar_audit rs jobs → ar_job_range j → AR.j_state j = AR.WAITING →
  ar_audit rs (jobs ++ [j]).
Proof.
  intros [Hch Hrg Hlv Hsv] Hj Hw. split; [| |done|].
  - eapply Forall_impl; [exact Hch|].
    intros r [(L & HL & Hpat & Htw) Hleave]. split; [|done].
    exists L. split_and!; [|done..].
    eapply Forall2_impl; [exact HL|]. intros a x Hx. simpl. by apply deref_app_l.
  - apply Forall_app. split; [done|]. by apply Forall_singleton.
  - intros x [Hx|Hx]%elem_of_app Hserv; [by apply Hsv|].
    apply list_elem_of_singleton in Hx as ->. by destruct Hserv as [? _].
Qed.

Lemma ar_add_res_audit s s' :
  ar_mid s → ar_books s → ar_audit (AR.first_res s) (AR.first_job s) →
  AR.add_res s = Some s' → ar_audit (AR.first_res s') (AR.first_job s').
Proof.
  intros [[Hres _ _ _ _ _] _] [Ht _ _ _] Hau H.
  destruct (ar_add_res_inv s s' (proj1 Hres) Ht H) as [[Hm ->]|[Hm ->]].
  - unfold AR.malloc. by rewrite Hm.
  - simpl. apply ar_audit_new_res; [done..|]. simpl.
    pose proof (rem_range (AR.random_src s (AR.random_pos s)) 5). lia.
Qed.

Lemma ar_add_job_audit s s' :
  ar_mid s → ar_audit (AR.first_res s) (AR.first_job s) →
  AR.add_job s = Some s' → ar_audit (AR.first_res s') (AR.first_job s').
Proof.
  intros [[_ Hjobs Htl _ _ _] _] Hau H.
  destruct (ar_add_job_inv s s' (proj1 Hjobs) Htl H) as [[Hm ->]|[Hm ->]].
  - unfold AR.malloc. by rewrite Hm.
  - simpl. apply ar_audit_new_job; [done| |done].
    unfold ar_job_range. simpl.
    pose proof (rem_range (AR.random_src s (AR.random_pos s)) 950).
    pose proof (rem_range (AR.random_src s (S (AR.random_pos s))) 30).
    solve_range.
Qed.

Lemma elem_of_alter {A} (f : A → A) (i : nat) (l : list A) (y : A) :
  y ∈ alter f i l → y ∈ l ∨ ∃ x, l !! i = Some x ∧ y = f x.
Proof.
  intros [k Hk]%list_elem_of_lookup. rewrite list_lookup_alter in Hk.
  destruct (decide (i = k)) as [->|Hne].
  - apply fmap_Some in Hk as (x & Hx & ->). right. by exists x.
  - left. by eapply list_elem_of_lookup_2.
Qed.

Lemma ar_queued_alter (f : AR.resource → AR.resource) (i : nat) rs b :
  (∀ r c, c ∈ AR.r_rsv r → c ∈ AR.r_rsv (f r)) →
  b ∈ ar_queued rs → b ∈ ar_queued (alter f i rs).
Proof.
  intros Hf Hb. destruct (ar_queued_elem_inv _ _ Hb) as (r & [k Hk]%list_elem_of_lookup & Hbr).
  destruct (decide (i = k)) as [->|Hne].
  - eapply (ar_queued_elem (f r)); [|by apply Hf].
    eapply list_elem_of_lookup_2. by rewrite list_lookup_alter_eq, Hk.
  - eapply (ar_queued_elem r); [|done].
    eapply list_elem_of_lookup_2. by rewrite list_lookup_alter_ne.
Qed.

Lemma ar_bind_audit s k j bi r :
  ar_wf s → ar_audit (AR.first_res s) (AR.first_job s) →
  AR.first_job s !! k = Some j → AR.j_state j = AR.WAITING →
  AR.first_res s !! bi = Some r →
  ar_audit (AR.first_res (AR.bind_job k bi j s)) (AR.first_job (AR.bind_job k bi j s)).
Proof.
  intros Hwf [Hch Hrg Hlv Hsv] Hj Hw Hr.
  assert (j ∈ AR.first_job s) as Hjin by by eapply list_elem_of_lookup_2.
  pose proof (ar_waiting_not_queued s j Hwf Hjin Hw) as Hfresh.
  destruct Hwf as [Hres Hjobs Htail Hnd Hq Htime].
  unfold AR.bind_job. simpl.
  rewrite (alter_store_at AR.j_addr _ _ _ j) by (done || apply Hjobs).
  set (jobs' := store_at AR.j_addr (AR.j_addr j) (AR.set_j_state AR.WAITING_TO_SEND_DATA)
                  (AR.first_job s)).
  assert (∀ b, b ≠ AR.j_addr j →
            deref AR.j_addr b jobs' = deref AR.j_addr b (AR.first_job s)) as Hother.
  { intros b Hb. unfold jobs'. rewrite deref_store_at by done.
    by destruct (Nat.eqb_spec b (AR.j_addr j)). }
  assert (deref AR.j_addr (AR.j_addr j) jobs'
          = Some (AR.set_j_state AR.WAITING_TO_SEND_DATA j)) as Hnew.
  { unfold jobs'. rewrite deref_store_at, Nat.eqb_refl by done.
    by rewrite (deref_NoDup AR.j_addr _ _ (proj1 Hjobs) Hjin). }
  assert (Forall (ar_chain_ok jobs') (AR.first_res s)) as Hch'.
  { apply Forall_forall. intros r2 Hr2. eapply Forall_forall in Hch; [|done].
    destruct Hch as [(L & HL & Hpat & Htw) Hleave]. split; [|done].
    exists L. split_and!; [|done..].
    eapply ar_chain_at_ext; [|exact HL]. intros b Hb. apply Hother.
    intros ->. apply Hfresh. by eapply ar_queued_elem. }
  split.
  - apply Forall_alter; [done|]. intros r' Hr' [(L & HL & Hpat & Htw) Hleave].
    split; [|done]. simpl.
    exists (L ++ [AR.set_j_state AR.WAITING_TO_SEND_DATA j]). split_and!.
    + apply Forall2_app; [done|]. by constructor.
    + by apply ar_pattern_snoc.
    + rewrite ar_load_snoc. simpl. lia.
  - unfold jobs'. rewrite <- (alter_store_at AR.j_addr _ _ k j) by (done || apply Hjobs).
    apply Forall_alter; [done|]. intros x Hx. rewrite Hj in Hx. injection Hx as <-.
    unfold ar_job_range. simpl. by rewrite Hw.
  - apply Forall_alter; [done|]. by intros x _.
  - intros x' Hx' Hserv.
    unfold jobs' in Hx'. rewrite <- (alter_store_at AR.j_addr _ _ k j) in Hx'
      by (done || apply Hjobs).
    apply elem_of_alter in Hx' as [Hx'|(x & Hx & ->)].
    + apply ar_queued_alter; [|by apply Hsv].
      intros r0 c Hc. simpl. apply elem_of_app. by left.
    + rewrite Hj in Hx. injection Hx as <-. simpl.
      eapply ar_queued_elem.
      * eapply list_elem_of_lookup_2. by rewrite list_lookup_alter_eq, Hr.
      * simpl. apply elem_of_app. right. by apply list_elem_of_singleton.
Qed.

Lemma ar_schedule_audit s :
  ar_wf s → ar_audit (AR.first_res s) (AR.first_job s) →
  ar_audit (AR.first_res (AR.schedule s)) (AR.first_job (AR.schedule s)).
Proof.
  intros Hwf Hau.
  destruct (ar_schedule_shape s)
    as [[-> _]|(k & j & _ & Hj & Hw & [[-> _]|(_ & bi & r & (Hr & _) & ->)])]; [done..|].
  apply (ar_bind_audit _ k j bi r); [|done..].
  eapply ar_wf_ext; [done|done..|]. unfold AR.malloc. simpl.
  destruct (AR.malloc_src s (AR.malloc_pos s)); lia.
Qed.

Lemma ar_repeat_add_res_audit n : ∀ s s',
  ar_mid s → ar_books s → ar_audit (AR.first_res s) (AR.first_job s) →
  AR.repeat_add_res n s = Some s' → ar_audit (AR.first_res s') (AR.first_job s').
Proof.
  induction n as [|n IH]; intros s s' Hmid Hb Hau; simpl; [by intros [= <-]|].
  intros H. apply bind_Some in H as (s1 & H1 & H).
  eapply (IH s1); [by eapply ar_add_res_mid|by eapply ar_add_res_books| |done].
  by eapply ar_add_res_audit.
Qed.

Lemma ar_repeat_add_res_keep n : ∀ s s',
  ar_mid s → ar_books s → AR.repeat_add_res n s = Some s' → ar_books s'.
Proof.
  induction n as [|n IH]; intros s s' Hmid Hb; simpl; [by intros [= <-]|].
  intros H. apply bind_Some in H as (s1 & H1 & H).
  eapply (IH s1); [by eapply ar_add_res_mid|by eapply ar_add_res_books|done].
Qed.

Lemma ar_add_remove_audit s s' :
  ar_mid s → ar_books s → ar_audit (AR.first_res s) (AR.first_job s) →
  AR.add_remove s = Some s' → ar_audit (AR.first_res s') (AR.first_job s').
Proof.
  intros Hmid Hb Hau. unfold AR.add_remove. intros H.
  apply bind_Some in H as (s1 & H1 & H).
  assert (ar_mid s1 ∧ ar_books s1 ∧ ar_audit (AR.first_res s1) (AR.first_job s1))
    as (Hmid1 & Hb1 & Hau1).
  { destruct (AR.begin s); [|by injection H1 as <-].
    apply fmap_Some in H1 as (s0 & H0 & ->).
    pose proof (ar_repeat_add_res_keep _ _ _ Hmid Hb H0) as Hb0.
    split_and!.
    - eapply ar_mid_ext; [by eapply ar_repeat_add_res_mid|done..|simpl; lia].
    - by eapply ar_books_ext.
    - exact (ar_repeat_add_res_audit _ _ _ Hmid Hb Hau H0). }
  pose proof (ar_removals_audit s1 (proj1 (awf_jobs _ (proj1 Hmid1))) Hau1) as Hau3.
  apply ar_remove_done_jobs_mid, ar_remove_leaving_resources_mid in Hmid1.
  apply ar_removals_books in Hb1.
  simpl in H.
  match type of H with AR.add_on_draw _ ?s4 = _ =>
    assert (ar_mid s4 ∧ ar_books s4 ∧ ar_audit (AR.first_res s4) (AR.first_job s4))
      as (Hmid4 & Hb4 & Hau4)
  end.
  { split_and!; [eapply ar_mid_ext; [exact Hmid1|done..|simpl; lia]
                |by eapply ar_books_ext|done]. }
  unfold AR.add_on_draw in H.
  destruct (AR.admission_of_draw _).
  - by eapply ar_add_res_audit.
  - by eapply ar_add_job_audit.
  - by injection H as <-.
Qed.

Lemma ar_init_audit rnd mal :
  ar_audit (AR.first_res (AR.init rnd mal)) (AR.first_job (AR.init rnd mal)).
Proof.
  split; simpl; try apply Forall_nil_2.
  intros j Hj. by apply elem_of_nil in Hj.
Qed.

Lemma ar_tick_audit s s' :
  ar_wf s → ar_books s → ar_census false s →
  ar_audit (AR.first_res s) (AR.first_job s) → AR.tick s = Running s' →
  ar_audit (AR.first_res s') (AR.first_job s').
Proof.
  intros Hwf Hb Hc Hau Ht. pose proof (ar_tick_wf s Hwf) as Hstep.
  unfold AR.tick in Ht.
  destruct (AR.traceall s) as [s1| |] eqn:Htr; [|done..].
  apply ar_traceall_Running in Htr as ->.
  destruct (AR.add_remove (AR.trace_body s)) as [s2|] eqn:Har; [|done].
  destruct Hstep as (Hmid2 & s3 & Hrs & Hwf3 & _). rewrite Hrs in Ht. injection Ht as <-.
  apply ar_schedule_audit; [done|].
  eapply ar_run_send_audit; [exact Hmid2| |done].
  exact (ar_add_remove_audit _ _ (ar_trace_body_mid s Hwf) (ar_trace_body_books s Hwf Hb)
           (ar_trace_body_audit s Hau) Har).
Qed.

Lemma ar_run_audit n : ∀ s s',
  ar_wf s → ar_books s → ar_census false s →
  ar_audit (AR.first_res s) (AR.first_job s) → AR.run n s = Running s' →
  ar_audit (AR.first_res s') (AR.first_job s').
Proof.
  induction n as [|n IH]; intros s s' Hwf Hb Hc Hau; simpl; [by intros [= <-]|].
  destruct (AR.tick s) as [s1| |] eqn:Ht; [|done..].
  destruct (ar_tick_books _ _ Hwf Hb Hc Ht) as [Hb1 Hc1].
  apply IH; [by eapply ar_tick_Running_wf|done..|by eapply ar_tick_audit].
Qed.

Lemma ar_run_from_init rnd mal n s :
  AR.run n (AR.init rnd mal) = Running s →
  ar_wf s ∧ ar_books s ∧ ar_census false s ∧ ar_audit (AR.first_res s) (AR.first_job s).
Proof.
  intros Hrun. destruct (ar_init_books rnd mal) as [Hb Hc].
  pose proof (ar_init_wf rnd mal) as Hwf.
  destruct (ar_run_books n _ _ Hwf Hb Hc Hrun) as [Hb' Hc'].
  split_and!; [by eapply ar_run_wf|done..|].
  eapply ar_run_audit; [exact Hwf|done..|apply ar_init_audit|done].
Qed.

Lemma ar_load_nonneg L :
  Forall ar_job_range L → Forall ar_in_service L → 0 ≤ ar_load L.
Proof.
  induction 1 as [|j L Hj _ IH]; intros Hs; [done|].
  apply Forall_cons in Hs as [[Hw Hd] Hs]. specialize (IH Hs). simpl.
  destruct Hj as (_ & _ & Hj). destruct (AR.j_state j); try done; lia.
Qed.
(** * AR: what holds in every state of a run *)

(** X11: in every state a run of the AR simulator reaches between two
    ticks, every reservation of every resource points to a job of the
    pool, and the jobs of a chain, in the order of the chain, are in
    these states: first, possibly, one RUNNING job; then any number of
    READY_TO_RUN jobs; then, possibly, one job that is SENDING_DATA or
    WAITING_TO_SEND_DATA, behind which every job is
    WAITING_TO_SEND_DATA.  So a resource receives the data of one job at
    a time, in the order of the reservations. *)
Theorem ar_chain_sends_one_job_at_a_time
    (rnd : nat → N) (mal : nat → bool) (n : nat) (s : AR.sim) :
  AR.run n (AR.init rnd mal) = Running s →
  ∀ r, r ∈ AR.first_res s →
    ∃ L, ar_chain_at (AR.first_job s) (AR.r_rsv r) L ∧ ar_pattern L.
Proof.
  intros Hrun r Hr. destruct (ar_run_from_init _ _ _ _ Hrun) as (_ & _ & _ & [Hch _ _ _]).
  eapply Forall_forall in Hch; [|done].
  destruct Hch as [(L & HL & Hpat & _) _]. by exists L.
Qed.

Lemma ar_chain_sends_one_job_at_a_time_witness :
  ∃ L, ar_chain_at (AR.first_job ar_demo_40) (AR.r_rsv ar_demo_40_first) L ∧ ar_pattern L.
Proof.
  apply (ar_chain_sends_one_job_at_a_time demo_random demo_malloc 40 ar_demo_40).
  - vm_compute; reflexivity.
  - apply list_elem_of_here.
Defined.

(** X12: in every state a run of the AR simulator reaches between two
    ticks, [total_workload] of a resource is at most the work left in
    the jobs of its chain, which is not negative: the key of the
    least-loaded selection never overestimates the load of a resource,
    and it is zero or negative for a resource with no reservation. *)
Theorem ar_total_workload_never_overestimates
    (rnd : nat → N) (mal : nat → bool) (n : nat) (s : AR.sim) :
  AR.run n (AR.init rnd mal) = Running s →
  ∀ r, r ∈ AR.first_res s →
    AR.r_total_workload r ≤ queue_workload s r ∧ 0 ≤ queue_workload s r ∧
    (AR.r_rsv r = [] → AR.r_total_workload r ≤ 0).
Proof.
  intros Hrun r Hr.
  destruct (ar_run_from_init _ _ _ _ Hrun) as (Hwf & _ & _ & [Hch Hrg _ _]).
  eapply Forall_forall in Hch; [|done].
  destruct Hch as [(L & HL & _ & Hload) _].
  rewrite (ar_chain_at_load _ _ _ HL).
  assert (0 ≤ ar_load L) as H0.
  { apply ar_load_nonneg; [by eapply ar_chain_at_Forall|].
    destruct Hwf as [_ _ _ _ Hq _]. eapply Forall_forall in Hq; [|done].
    apply Forall_lookup_2. intros i j Hj.
    destruct (Forall2_lookup_r _ _ _ _ _ HL Hj) as (a & Ha & Hd).
    destruct (Hq i a Ha) as (j' & Hd' & Hw & Hdn & _).
    rewrite Hd in Hd'. injection Hd' as <-. done. }
  split_and!; [done..|].
  intros Hnil. rewrite Hnil in HL. apply Forall2_nil_inv_l in HL as ->. done.
Qed.

Lemma ar_total_workload_never_overestimates_witness :
  AR.r_total_workload ar_demo_40_first ≤ queue_workload ar_demo_40 ar_demo_40_first.
Proof.
  apply (ar_total_workload_never_overestimates demo_random demo_malloc 40 ar_demo_40).
  - vm_compute; reflexivity.
  - apply list_elem_of_here.
Defined.

(** X13: in every state a run of the AR simulator reaches between two
    ticks, every job of the pool that has been scheduled and is not DONE
    has a reservation in the chain of a resource of the pool, and a
    resource that is LEAVING has no reservation: removing the LEAVING
    resources strands no job. *)
Theorem ar_no_job_is_stranded
    (rnd : nat → N) (mal : nat → bool) (n : nat) (s : AR.sim) :
  AR.run n (AR.init rnd mal) = Running s →
  (∀ j, j ∈ AR.first_job s → AR.j_state j ≠ AR.WAITING → AR.j_state j ≠ AR.DONE →
     ∃ r, r ∈ AR.first_res s ∧ AR.j_addr j ∈ AR.r_rsv r) ∧
  (∀ r, r ∈ AR.first_res s → AR.r_state r = AR.LEAVING → AR.r_rsv r = []).
Proof.
  intros Hrun. destruct (ar_run_from_init _ _ _ _ Hrun) as (_ & _ & _ & [Hch _ _ Hsv]).
  split.
  - intros j Hj Hw Hd. specialize (Hsv j Hj (conj Hw Hd)).
    unfold ar_queued in Hsv. apply list_elem_of_bind in Hsv as (r & Ha & Hr). by exists r.
  - intros r Hr Hl. eapply Forall_forall in Hch; [|done]. by apply Hch.
Qed.

Lemma ar_no_job_is_stranded_witness :
  ∃ s, AR.run 40 (AR.init demo_random demo_malloc) = Running s ∧
    ∀ r, r ∈ AR.first_res s → AR.r_state r = AR.LEAVING → AR.r_rsv r = [].
Proof.
  eexists. split; [vm_compute; reflexivity|].
  apply (ar_no_job_is_stranded demo_random demo_malloc 40).
  vm_compute; reflexivity.
Defined.

(** X14: in every state a run of the AR simulator reaches between two
    ticks, every resource has a level between 1 and 5, and every job has
    waited a non-negative number of ticks, has [run_on] NULL (the AR
    simulator never assigns it) and holds, by state: WAITING,
    WAITING_TO_SEND_DATA or SENDING_DATA, a workload between 50 and 999
    and between 0 and 29 units of data to send; READY_TO_RUN, a workload
    between 50 and 999; RUNNING, a workload between 0 and 999; DONE, a
    workload between -5 and -1. *)
Theorem ar_fields_stay_in_range
    (rnd : nat → N) (mal : nat → bool) (n : nat) (s : AR.sim) :
  AR.run n (AR.init rnd mal) = Running s →
  (∀ r, r ∈ AR.first_res s → 1 ≤ AR.r_level r ≤ 5) ∧
  (∀ j, j ∈ AR.first_job s → ar_job_range j).
Proof.
  intros Hrun. destruct (ar_run_from_init _ _ _ _ Hrun) as (_ & _ & _ & [_ Hrg Hlv _]).
  split; intros x Hx; [by eapply Forall_forall in Hlv|by eapply Forall_forall in Hrg].
Qed.

Lemma ar_fields_stay_in_range_witness :
  ∃ s, AR.run 40 (AR.init demo_random demo_malloc) = Running s ∧
    ∀ j, j ∈ AR.first_job s → ar_job_range j.
Proof.
  eexists. split; [vm_compute; reflexivity|].
  apply (ar_fields_stay_in_range demo_random demo_malloc 40).
  vm_compute; reflexivity.
Defined.

(** X15: in every state a run of the AR simulator reaches between two
    ticks, every job submitted so far is in the pool or has been counted
    in [jobs_done], and every resource added so far is in the pool or
    has been counted in [resources_gone]; the codes of the jobs increase
    strictly along the job pool and lie between 1 and [job_number], and
    the codes of the resources increase strictly along the resource pool
    and lie between 1 and [resource_number]. *)
Theorem ar_jobs_and_resources_accounted_for
    (rnd : nat → N) (mal : nat → bool) (n : nat) (s : AR.sim) :
  AR.run n (AR.init rnd mal) = Running s →
  AR.job_number s = AR.jobs_done s + Z.of_nat (length (AR.first_job s)) ∧
  AR.resource_number s = AR.resources_gone s + Z.of_nat (length (AR.first_res s)) ∧
  (∀ i k x y, (i < k)%nat → AR.first_job s !! i = Some x → AR.first_job s !! k = Some y →
     AR.j_code x < AR.j_code y) ∧
  (∀ j, j ∈ AR.first_job s → 1 ≤ AR.j_code j ≤ AR.job_number s) ∧
  (∀ i k x y, (i < k)%nat → AR.first_res s !! i = Some x → AR.first_res s !! k = Some y →
     AR.r_code x < AR.r_code y) ∧
  (∀ r, r ∈ AR.first_res s → 1 ≤ AR.r_code r ≤ AR.resource_number s).
Proof.
  intros Hrun.
  destruct (ar_run_from_init _ _ _ _ Hrun) as (_ & [_ Hjc Hrc _] & [Hcj Hcr] & _).
  split_and!; [done|done|..].
  - intros i k x y Hik Hx Hy.
    eapply (codes_between_increasing _ _ _ i k); [exact Hjc|done|..];
      by rewrite list_lookup_fmap, ?Hx, ?Hy.
  - intros j [i Hi]%list_elem_of_lookup.
    pose proof (codes_between_lookup _ _ _ i (AR.j_code j) Hjc) as H.
    rewrite list_lookup_fmap, Hi in H. specialize (H eq_refl). lia.
  - intros i k x y Hik Hx Hy.
    eapply (codes_between_increasing _ _ _ i k); [exact Hrc|done|..];
      by rewrite list_lookup_fmap, ?Hx, ?Hy.
  - intros r [i Hi]%list_elem_of_lookup.
    pose proof (codes_between_lookup _ _ _ i (AR.r_code r) Hrc) as H.
    rewrite list_lookup_fmap, Hi in H. specialize (H eq_refl). lia.
Qed.

Lemma ar_jobs_and_resources_accounted_for_witness :
  ∃ s, AR.run 40 (AR.init demo_random demo_malloc) = Running s ∧
    AR.job_number s = AR.jobs_done s + Z.of_nat (length (AR.first_job s)).
Proof.
  eexists. split; [vm_compute; reflexivity|].
  apply (ar_jobs_and_resources_accounted_for demo_random demo_malloc 40).
  vm_compute; reflexivity.
Defined.
(** * AR: when the scheduler does nothing *)

Lemma ar_no_waiting_spec (js : list AR.job) :
  first_index AR.is_waiting js = None ↔ ∀ j, j ∈ js → AR.j_state j ≠ AR.WAITING.
Proof.
  rewrite first_index_None. split; intros H j Hj; specialize (H j Hj).
  - intros Hw. apply ar_is_waiting_spec in Hw. congruence.
  - destruct (AR.is_waiting j) eqn:Hw; [|done]. by apply ar_is_waiting_spec in Hw.
Qed.

Lemma ar_no_accepting_spec (rs : list AR.resource) :
  first_index AR.accepts rs = None ↔ ∀ r, r ∈ rs → AR.r_state r = AR.NO_ACCEPT_JOBS.
Proof.
  rewrite first_index_None. split; intros H r Hr; specialize (H r Hr).
  - destruct (decide (AR.r_state r = AR.NO_ACCEPT_JOBS)) as [|Hn]; [done|].
    apply ar_accepts_spec in Hn. congruence.
  - destruct (AR.accepts r) eqn:Ha; [|done]. by apply ar_accepts_spec in Ha.
Qed.

Lemma ar_bind_job_changes_jobs k bi j s :
  AR.first_job s !! k = Some j → AR.j_state j = AR.WAITING →
  AR.first_job (AR.bind_job k bi j s) ≠ AR.first_job s.
Proof.
  intros Hj Hw Heq. simpl in Heq.
  assert (alter (AR.set_j_state AR.WAITING_TO_SEND_DATA) k (AR.first_job s) !! k = Some j) as H
    by by rewrite Heq.
  rewrite list_lookup_alter_eq, Hj in H. simpl in H. injection H as H.
  by rewrite <- H in Hw.
Qed.

(** X16: the AR scheduler allocates the reservation before it looks for
    a resource.  It leaves both pools as they are if and only if no job
    is WAITING, or malloc fails, or every resource is in NO_ACCEPT_JOBS
    (which includes an empty resource pool).  With no WAITING job the
    whole state is unchanged and malloc is not called; with a WAITING job
    malloc is called exactly once, and when it succeeds while every
    resource is in NO_ACCEPT_JOBS the block is taken from the heap and
    the pools are unchanged: the reservation is linked nowhere. *)
Theorem ar_schedule_allocates_before_it_selects (s : AR.sim) :
  ((AR.first_res (AR.schedule s) = AR.first_res s ∧
    AR.first_job (AR.schedule s) = AR.first_job s) ↔
   ((∀ j, j ∈ AR.first_job s → AR.j_state j ≠ AR.WAITING) ∨
    AR.malloc_src s (AR.malloc_pos s) = false ∨
    (∀ r, r ∈ AR.first_res s → AR.r_state r = AR.NO_ACCEPT_JOBS))) ∧
  ((∀ j, j ∈ AR.first_job s → AR.j_state j ≠ AR.WAITING) → AR.schedule s = s) ∧
  ((∃ j, j ∈ AR.first_job s ∧ AR.j_state j = AR.WAITING) →
   AR.malloc_pos (AR.schedule s) = S (AR.malloc_pos s) ∧
   (AR.malloc_src s (AR.malloc_pos s) = false →
    AR.heap_next (AR.schedule s) = AR.heap_next s) ∧
   (AR.malloc_src s (AR.malloc_pos s) = true →
    AR.heap_next (AR.schedule s) = S (AR.heap_next s))).
Proof.
  destruct (ar_schedule_shape s) as [[Hs Hnone]|(k & j & Hk & Hj & Hw & Hcase)].
  - rewrite Hs. pose proof (proj1 (ar_no_waiting_spec _) Hnone) as Hno. split_and!.
    + split; [by left|done].
    + done.
    + intros (j & Hj & Hw). by destruct (Hno j Hj).
  - assert (¬ ∀ j, j ∈ AR.first_job s → AR.j_state j ≠ AR.WAITING) as Hsome.
    { intros Hno. apply (proj2 (ar_no_waiting_spec _)) in Hno. congruence. }
    destruct Hcase as [[Hs Hwhy]|(Hm & bi & r & (Hbi & Hacc & _) & Hs)]; rewrite Hs.
    + split_and!.
      * split; [|done]. intros _. right.
        destruct Hwhy as [Hm|Hna]; [by left|right]. by apply (proj1 (ar_no_accepting_spec _)).
      * done.
      * intros _. unfold AR.malloc. simpl. split_and!; [done|by intros ->|].
        intros Hm. by rewrite Hm.
    + split_and!.
      * split.
        -- intros [_ Hjs]. exfalso.
           by apply (ar_bind_job_changes_jobs k bi j (AR.malloc s).2 Hj Hw).
        -- intros [Hno|[Hf|Hall]]; exfalso; [done|congruence|].
           apply Hacc, Hall. by eapply list_elem_of_lookup_2.
      * done.
      * intros _. unfold AR.malloc. simpl. rewrite Hm. done.
Qed.
(** * AR: the executor, resource by resource *)

Lemma Forall2_impl_elem {A B} (P Q : A → B → Prop) (l : list A) (k : list B) :
  Forall2 P l k → (∀ x y, x ∈ l → P x y → Q x y) → Forall2 Q l k.
Proof.
  induction 1 as [|x y l k HP _ IH]; intros HQ; constructor.
  - apply HQ; [by left|done].
  - apply IH. intros x' y' Hx'. apply HQ. by right.
Qed.

Lemma ar_run_send_res_state r s r' s' L :
  ar_chain_at (AR.first_job s) (AR.r_rsv r) L →
  AR.run_send_res r s = Some (r', s') →
  match (ar_head_step (AR.r_level r) L).2 with
  | Some _ => AR.r_state r' = AR.r_state r ∨ AR.r_state r' = AR.NO_ACCEPT_JOBS
  | None =>
      AR.r_state r'
      = if bool_decide (AR.r_state r = AR.NO_ACCEPT_JOBS) && bool_decide (AR.r_rsv r = [])
        then AR.LEAVING else AR.r_state r
  end.
Proof.
  intros Hch. unfold AR.run_send_res.
  destruct (AR.r_rsv r) as [|a q] eqn:Hq.
  - inversion Hch; subst. rewrite (bool_decide_eq_true_2 (@nil nat = [])) by done.
    destruct (bool_decide (AR.r_state r = AR.NO_ACCEPT_JOBS)); simpl; rewrite Hq;
      by intros [= <- <-].
  - rewrite (bool_decide_eq_false_2 (a :: q = [])) by done. rewrite andb_false_r, Hq.
    inversion Hch as [|? j ? L' Hj Hch']; subst.
    change (AR.job_at a s = Some j) in Hj.
    intros H. apply bind_Some in H as ([r1 s1] & H1 & H).
    apply bind_Some in H as (s2 & _ & H). injection H as <- <-.
    unfold AR.run_head in H1. rewrite Hj in H1. simpl in H1. simpl.
    destruct (AR.j_state j); try by injection H1 as <- <-.
    destruct (AR.j_workload j - AR.r_level r <? 0); [|by injection H1 as <- <-].
    simpl in H1. destruct (Z.rem _ 1000 <=? AR.RL_PROB); injection H1 as <- <-; simpl; auto.
Qed.

Lemma ar_run_send_loop_passes rs : ∀ pre s rs' s',
  ar_loop_inv (AR.heap_next s) (AR.last_job s) pre rs (AR.first_job s) →
  ar_audit (pre ++ rs) (AR.first_job s) →
  AR.run_send_loop rs s = Some (rs', s') →
  Forall2 (ar_res_pass (AR.first_job s) (AR.first_job s')) rs rs' ∧
  (∀ b, b ∉ ar_queued rs → AR.job_at b s' = AR.job_at b s).
Proof.
  induction rs as [|r rs IH]; intros pre s rs' s' Hinv Hau; simpl.
  { intros [= <- <-]. by split; [constructor|]. }
  intros H. apply bind_Some in H as ([r1 s1] & H1 & H).
  apply bind_Some in H as ([rs2 s2] & H2 & H). injection H as <- <-.
  pose proof (ar_pass_audit _ _ _ _ _ _ Hinv Hau H1) as Hau1.
  assert (NoDup (ar_queued (pre ++ r :: rs))) as Hndq by apply Hinv.
  assert (NoDup (AR.r_rsv r) ∧ ∀ b, b ∈ AR.r_rsv r → is_Some (AR.job_at b s))
    as (Hnd_r & Hlive).
  { destruct Hinv as (_ & _ & _ & Hnd & Hq & _).
    rewrite ar_queued_app, ar_queued_cons in Hnd.
    apply NoDup_app in Hnd as (_ & _ & Hnd). apply NoDup_app in Hnd as (Hnd & _ & _).
    split; [done|].
    intros b [i Hb]%list_elem_of_lookup_1.
    apply Forall_app in Hq as [_ Hq]. apply Forall_cons in Hq as [Hq _].
    destruct (Hq i b Hb) as (j & Hj & _). by exists j. }
  destruct (ar_run_send_res_spec r s Hnd_r Hlive)
    as (r' & s1' & Hf & Hrun' & Hj1 & Hn1 & Hl1 & Hpass).
  rewrite H1 in Hrun'. injection Hrun' as <- <-.
  pose proof (ar_pass_inv _ _ _ _ _ _ _ _ Hinv Hpass) as Hinv1.
  rewrite <- Hj1, <- Hn1, <- Hl1 in Hinv1.
  destruct (IH _ _ _ _ Hinv1 Hau1 H2) as [Hrest Hfr2].
  destruct Hau as [Hch _ _ _].
  apply Forall_app in Hch as [_ Hch]. apply Forall_cons in Hch as [Hchr _].
  destruct Hchr as [(L & HL & _ & _) Hleave].
  destruct (ar_run_send_res_refines r s L Hnd_r HL Hleave)
    as (r' & s' & Hrun' & Hfr & Hch1 & Htw1 & _ & Hcase).
  rewrite H1 in Hrun'. injection Hrun' as <- <-.
  pose proof (ar_run_send_res_state _ _ _ _ _ HL H1) as Hst.
  assert (∀ b, b ∈ AR.r_rsv r → b ∉ ar_queued rs) as Hdis.
  { intros b Hb Hb'.
    rewrite ar_queued_app, ar_queued_cons in Hndq.
    apply NoDup_app in Hndq as (_ & _ & Hndq). apply NoDup_app in Hndq as (_ & Hd & _).
    by apply (Hd b). }
  assert (∀ b, b ∈ AR.r_rsv r1 → b ∈ AR.r_rsv r) as Hsub.
  { intros b Hb. destruct (ar_head_step (AR.r_level r) L).2.
    - destruct Hcase as [_ ->]. by right.
    - by rewrite <- Hcase. }
  split.
  - constructor.
    + exists L. split_and!; [done| |done|].
      * eapply ar_chain_at_frame; [|exact Hch1].
        intros b Hb. apply Hfr2, Hdis, Hsub, Hb.
      * destruct (ar_head_step (AR.r_level r) L).2 as [jd|]; [|by split].
        destruct Hcase as [Hjd Hq]. split_and!; [|done..].
        change (AR.job_at (AR.j_addr jd) s2 = Some jd). rewrite Hfr2; [done|].
        apply Hdis. rewrite Hq. by left.
    + eapply Forall2_impl_elem; [exact Hrest|].
      intros r2 r2' Hr2 (L2 & HL2 & Hrest2). exists L2. split; [|done].
      eapply ar_chain_at_frame; [|exact HL2].
      intros b Hb. symmetry. apply Hfr. intros Hbr. apply (Hdis b Hbr).
      unfold ar_queued. apply list_elem_of_bind. by exists r2.
  - intros b Hb. rewrite ar_queued_cons in Hb. apply not_elem_of_app in Hb as [Hb1 Hb2].
    rewrite Hfr2, Hfr; done.
Qed.

Lemma ar_run_send_passes s :
  ar_mid s → ar_audit (AR.first_res s) (AR.first_job s) →
  ∃ s', AR.run_send s = Some s' ∧
    Forall2 (ar_res_pass (AR.first_job s) (AR.first_job s')) (AR.first_res s) (AR.first_res s') ∧
    (∀ b, b ∉ ar_queued (AR.first_res s) → AR.job_at b s' = AR.job_at b s).
Proof.
  intros Hmid Hau. destruct (ar_run_send_wf s Hmid) as (s' & Hf & Hrun & _).
  exists s'. split; [done|].
  destruct Hmid as [[Hres Hjobs Htail Hnd Hq Htime] Hslack].
  unfold AR.run_send in Hrun. apply bind_Some in Hrun as ([rs s1] & H1 & H).
  injection H as <-. simpl.
  apply (ar_run_send_loop_passes (AR.first_res s) [] s rs s1); [|done|done].
  split_and!; done.
Qed.

(** X17: the AR executor, resource by resource.  In every tick of a run
    of the AR simulator the executor returns, and for every resource,
    [L] being the jobs its chain points to when the executor is called:
    "run job" acts on the head of [L] only (a READY_TO_RUN head becomes
    RUNNING; a RUNNING head has the level of the resource less to do
    and, when that is below zero, is DONE and its reservation is
    unlinked), "send input data" acts on the first job behind that is
    SENDING_DATA or WAITING_TO_SEND_DATA only, and the chain afterwards
    points to the resulting jobs; [total_workload] is charged the level
    when the head was RUNNING; a resource in NO_ACCEPT_JOBS with an
    empty chain becomes LEAVING.  A job that no chain points to is left
    as it is. *)
Theorem ar_executor_resource_by_resource
    (rnd : nat → N) (mal : nat → bool) (n : nat) (s s1 s2 : AR.sim) :
  AR.run n (AR.init rnd mal) = Running s →
  AR.traceall s = Running s1 → AR.add_remove s1 = Some s2 →
  ∃ s3, AR.run_send s2 = Some s3 ∧
    Forall2 (ar_res_pass (AR.first_job s2) (AR.first_job s3))
      (AR.first_res s2) (AR.first_res s3) ∧
    (∀ b, b ∉ ar_queued (AR.first_res s2) → AR.job_at b s3 = AR.job_at b s2).
Proof.
  intros Hrun Htr Har.
  destruct (ar_run_from_init _ _ _ _ Hrun) as (Hwf & Hb & Hc & Hau).
  apply ar_traceall_Running in Htr as ->.
  apply ar_run_send_passes.
  - eapply ar_add_remove_mid; [by apply ar_trace_body_mid|done].
  - exact (ar_add_remove_audit _ _ (ar_trace_body_mid s Hwf) (ar_trace_body_books s Hwf Hb)
             (ar_trace_body_audit s Hau) Har).
Qed.

Lemma ar_executor_resource_by_resource_witness :
  ∃ s3, AR.run_send ar_demo_40_mid = Some s3 ∧
    Forall2 (ar_res_pass (AR.first_job ar_demo_40_mid) (AR.first_job s3))
      (AR.first_res ar_demo_40_mid) (AR.first_res s3) ∧
    (∀ b, b ∉ ar_queued (AR.first_res ar_demo_40_mid) →
       AR.job_at b s3 = AR.job_at b ar_demo_40_mid).
Proof.
  apply (ar_executor_resource_by_resource demo_random demo_malloc 40 ar_demo_40
           (AR.trace_body ar_demo_40)); vm_compute; reflexivity.
Defined.
(** * The records of the output file *)

Lemma records_ok_mono iv done n n' recs :
  records_ok iv done n recs → n ≤ n' → records_ok iv done n' recs.
Proof.
  intros (Hm & Ho & Hn) Hle. split_and!; [done..|].
  intros a Ha. specialize (Hn a Ha). lia.
Qed.

Lemma records_ok_step iv done n recs :
  0 ≤ done → done + 1 ≤ n → records_ok iv done n recs →
  records_ok iv (done + 1) n
    (if Z.rem (done + 1) iv =? 0 then (done + 1, n) :: recs else recs).
Proof.
  intros H0 Hle (Hm & Ho & Hn).
  destruct (Z.eqb_spec (Z.rem (done + 1) iv) 0) as [Hr|Hr].
  - split_and!.
    + intros d. rewrite fmap_cons, elem_of_cons, Hm. simpl. split.
      * intros [->|[? ?]]; [split; [lia|done]|split; [lia|done]].
      * intros [Hd Hrd]. destruct (decide (d = done + 1)) as [|Hne]; [by left|right].
        split; [lia|done].
    + intros [|i] [|k] a b Hik; simpl; try lia.
      * intros [= <-] Hb. simpl.
        assert (b.1 ∈ recs.*1) as Hin.
        { apply list_elem_of_fmap. exists b. split; [done|]. by eapply list_elem_of_lookup_2. }
        apply Hm in Hin. lia.
      * apply Ho. lia.
    + intros a [->|Ha]%elem_of_cons; [simpl; lia|by apply Hn].
  - split_and!; [|done..].
    intros d. rewrite Hm. split.
    + intros [? ?]. split; [lia|done].
    + intros [Hd Hrd]. split; [|done].
      destruct (decide (d = done + 1)) as [->|Hne]; [done|lia].
Qed.

Lemma log_records_ok iv n k : ∀ done recs,
  0 ≤ done → done + Z.of_nat k ≤ n → records_ok iv done n recs →
  records_ok iv (done + Z.of_nat k) n (log_records iv n k done recs).
Proof.
  induction k as [|k IH]; intros done recs H0 Hle Hok; simpl.
  - by rewrite Z.add_0_r.
  - replace (done + Z.of_nat (S k)) with (done + 1 + Z.of_nat k) by lia.
    apply IH; [lia|lia|]. apply records_ok_step; [done|lia|done].
Qed.

Lemma mixed_trace_jobs_log n js : ∀ d rc,
  (Mixed.trace_jobs n js d rc).2
  = log_records Mixed.RECORD_INTERVAL n
      (length (filter (λ j, Mixed.j_state j = Mixed.DONE) js)) d rc.
Proof.
  induction js as [|j js IH]; intros d rc; [done|].
  rewrite filter_cons. simpl.
  destruct (Mixed.j_state j) eqn:E;
    match goal with |- context [Mixed.trace_jobs n js ?d' ?rc'] =>
      specialize (IH d' rc'); destruct (Mixed.trace_jobs n js d' rc') as [[? ?] ?] end;
    simpl in *; try case_decide; try done.
Qed.

Lemma ar_trace_jobs_log n js : ∀ d rc,
  (AR.trace_jobs n js d rc).2
  = log_records AR.RECORD_INTERVAL n
      (length (filter (λ j, AR.j_state j = AR.DONE) js)) d rc.
Proof.
  induction js as [|j js IH]; intros d rc; [done|].
  rewrite filter_cons. simpl.
  destruct (AR.j_state j) eqn:E;
    match goal with |- context [AR.trace_jobs n js ?d' ?rc'] =>
      specialize (IH d' rc'); destruct (AR.trace_jobs n js d' rc') as [[? ?] ?] end;
    simpl in *; try case_decide; try done.
Qed.

Lemma mixed_trace_body_log s :
  Mixed.records (Mixed.trace_body s)
  = log_records Mixed.RECORD_INTERVAL (Mixed.job_number s)
      (length (filter (λ j, Mixed.j_state j = Mixed.DONE) (Mixed.first_job s)))
      (Mixed.jobs_done s) (Mixed.records s).
Proof.
  unfold Mixed.trace_body.
  pose proof (mixed_trace_jobs_log (Mixed.job_number s) (Mixed.first_job s)
                (Mixed.jobs_done s) (Mixed.records s)) as H.
  destruct (Mixed.trace_jobs _ _ _ _) as [[js d] rc].
  destruct (Mixed.trace_res _ _) as [rs g]. done.
Qed.

Lemma ar_trace_body_log s :
  AR.records (AR.trace_body s)
  = log_records AR.RECORD_INTERVAL (AR.job_number s)
      (length (filter (λ j, AR.j_state j = AR.DONE) (AR.first_job s)))
      (AR.jobs_done s) (AR.records s).
Proof.
  unfold AR.trace_body.
  pose proof (ar_trace_jobs_log (AR.job_number s) (AR.first_job s)
                (AR.jobs_done s) (AR.records s)) as H.
  destruct (AR.trace_jobs _ _ _ _) as [[js d] rc].
  destruct (AR.trace_res _ _) as [rs g]. done.
Qed.

(** ** What the other steps leave of the log *)

Lemma mixed_log_kept_refl s : mixed_log_kept s s.
Proof. split_and!; [done..|lia]. Qed.

Lemma mixed_log_kept_trans s1 s2 s3 :
  mixed_log_kept s1 s2 → mixed_log_kept s2 s3 → mixed_log_kept s1 s3.
Proof. intros (? & ? & ?) (? & ? & ?). split_and!; [congruence..|lia]. Qed.

Lemma ar_log_kept_refl s : ar_log_kept s s.
Proof. split_and!; [done..|lia]. Qed.

Lemma ar_log_kept_trans s1 s2 s3 :
  ar_log_kept s1 s2 → ar_log_kept s2 s3 → ar_log_kept s1 s3.
Proof. intros (? & ? & ?) (? & ? & ?). split_and!; [congruence..|lia]. Qed.

Lemma mixed_add_res_log s s' : Mixed.add_res s = Some s' → mixed_log_kept s s'.
Proof.
  unfold Mixed.add_res, mixed_log_kept. simpl.
  destruct (Mixed.malloc_src s (Mixed.malloc_pos s)); simpl;
    [|intros [= <-]; simpl; split_and!; [done..|lia]].
  destruct (Mixed.first_res s); simpl; [intros [= <-]; simpl; split_and!; [done..|lia]|].
  intros H. unfold_option. subst. simpl. split_and!; [done..|lia].
Qed.

Lemma mixed_add_job_log s s' : Mixed.add_job s = Some s' → mixed_log_kept s s'.
Proof.
  unfold Mixed.add_job, mixed_log_kept. simpl.
  destruct (Mixed.malloc_src s (Mixed.malloc_pos s)); simpl;
    [|intros [= <-]; simpl; split_and!; [done..|lia]].
  destruct (Mixed.first_job s); simpl; [intros [= <-]; simpl; split_and!; [done..|lia]|].
  intros H. unfold_option. subst. simpl. split_and!; [done..|lia].
Qed.

Lemma mixed_repeat_add_res_log n : ∀ s s',
  Mixed.repeat_add_res n s = Some s' → mixed_log_kept s s'.
Proof.
  induction n as [|n IH]; intros s s'; simpl; [intros [= <-]; apply mixed_log_kept_refl|].
  intros H. apply bind_Some in H as (s1 & H1 & H).
  eapply mixed_log_kept_trans; [by eapply mixed_add_res_log|by eapply IH].
Qed.

Lemma mixed_add_remove_log s s' : Mixed.add_remove s = Some s' → mixed_log_kept s s'.
Proof.
  unfold Mixed.add_remove. intros H. apply bind_Some in H as (s1 & H1 & H).
  assert (mixed_log_kept s s1) as Hk1.
  { destruct (Mixed.begin s); [|injection H1 as <-; apply mixed_log_kept_refl].
    apply fmap_Some in H1 as (s0 & H0 & ->).
    apply mixed_repeat_add_res_log in H0. exact H0. }
  simpl in H.
  match type of H with Mixed.add_on_draw _ ?s4 = _ =>
    assert (mixed_log_kept s1 s4) as Hk4 by (split_and!; simpl; [done..|lia])
  end.
  eapply mixed_log_kept_trans; [exact Hk1|].
  eapply mixed_log_kept_trans; [exact Hk4|].
  unfold Mixed.add_on_draw in H.
  destruct (Mixed.admission_of_draw _).
  - apply mixed_add_res_log in H. exact H.
  - apply mixed_add_job_log in H. exact H.
  - injection H as <-. apply mixed_log_kept_refl.
Qed.

Lemma mixed_run_send_log s s' : Mixed.run_send s = Some s' → mixed_log_kept s s'.
Proof.
  intros H. apply mixed_run_send_step in H as (_ & _ & Hl & _).
  unfold mixed_ledger in Hl. split_and!; [congruence..|].
  assert (Mixed.job_number s' = Mixed.job_number s) by congruence. lia.
Qed.

Lemma mixed_schedule_log s : mixed_log_kept s (Mixed.schedule s).
Proof.
  unfold Mixed.schedule, mixed_log_kept.
  repeat case_match; simpl; split_and!; try done; lia.
Qed.

Lemma ar_add_res_log s s' : AR.add_res s = Some s' → ar_log_kept s s'.
Proof.
  unfold AR.add_res, ar_log_kept. simpl.
  destruct (AR.malloc_src s (AR.malloc_pos s)); simpl;
    [|intros [= <-]; simpl; split_and!; [done..|lia]].
  destruct (AR.first_res s); simpl; [intros [= <-]; simpl; split_and!; [done..|lia]|].
  intros H. unfold_option. subst. simpl. split_and!; [done..|lia].
Qed.

Lemma ar_add_job_log s s' : AR.add_job s = Some s' → ar_log_kept s s'.
Proof.
  unfold AR.add_job, ar_log_kept. simpl.
  destruct (AR.malloc_src s (AR.malloc_pos s)); simpl;
    [|intros [= <-]; simpl; split_and!; [done..|lia]].
  destruct (AR.first_job s); simpl; [intros [= <-]; simpl; split_and!; [done..|lia]|].
  intros H. unfold_option. subst. simpl. split_and!; [done..|lia].
Qed.

Lemma ar_repeat_add_res_log n : ∀ s s',
  AR.repeat_add_res n s = Some s' → ar_log_kept s s'.
Proof.
  induction n as [|n IH]; intros s s'; simpl; [intros [= <-]; apply ar_log_kept_refl|].
  intros H. apply bind_Some in H as (s1 & H1 & H).
  eapply ar_log_kept_trans; [by eapply ar_add_res_log|by eapply IH].
Qed.

Lemma ar_add_remove_log s s' : AR.add_remove s = Some s' → ar_log_kept s s'.
Proof.
  unfold AR.add_remove. intros H. apply bind_Some in H as (s1 & H1 & H).
  assert (ar_log_kept s s1) as Hk1.
  { destruct (AR.begin s); [|injection H1 as <-; apply ar_log_kept_refl].
    apply fmap_Some in H1 as (s0 & H0 & ->).
    apply ar_repeat_add_res_log in H0. exact H0. }
  simpl in H.
  match type of H with AR.add_on_draw _ ?s4 = _ =>
    assert (ar_log_kept s1 s4) as Hk4 by (split_and!; simpl; [done..|lia])
  end.
  eapply ar_log_kept_trans; [exact Hk1|].
  eapply ar_log_kept_trans; [exact Hk4|].
  unfold AR.add_on_draw in H.
  destruct (AR.admission_of_draw _).
  - apply ar_add_res_log in H. exact H.
  - apply ar_add_job_log in H. exact H.
  - injection H as <-. apply ar_log_kept_refl.
Qed.

Lemma ar_run_send_log s s' : AR.run_send s = Some s' → ar_log_kept s s'.
Proof.
  intros H. apply ar_run_send_frame in H as (_ & _ & Hl & _).
  unfold ar_ledger in Hl. split_and!; [congruence..|].
  assert (AR.job_number s' = AR.job_number s) by congruence. lia.
Qed.

Lemma ar_schedule_log s : ar_log_kept s (AR.schedule s).
Proof.
  destruct (ar_schedule_shape s) as [[-> _]|(k & j & _ & _ & _ & [[-> _]|(_ & bi & r & _ & ->)])];
    unfold ar_log_kept, AR.malloc; simpl; split_and!; try done; lia.
Qed.

(** ** The records over a run *)

Lemma mixed_trace_body_records s :
  mixed_census false s → 0 ≤ Mixed.jobs_done s →
  records_ok Mixed.RECORD_INTERVAL (Mixed.jobs_done s) (Mixed.job_number s) (Mixed.records s) →
  0 ≤ Mixed.jobs_done (Mixed.trace_body s) ∧
  records_ok Mixed.RECORD_INTERVAL (Mixed.jobs_done (Mixed.trace_body s))
    (Mixed.job_number (Mixed.trace_body s)) (Mixed.records (Mixed.trace_body s)).
Proof.
  intros [Hc _] H0 Hok.
  destruct (mixed_trace_body_counts s) as [Hd _].
  destruct (mixed_trace_body_globals s) as (_ & _ & _ & Hn & _).
  rewrite Hd, Hn, mixed_trace_body_log. split; [lia|].
  apply log_records_ok; [done| |done].
  pose proof (length_filter (λ j, Mixed.j_state j = Mixed.DONE) (Mixed.first_job s)). lia.
Qed.

Lemma mixed_log_kept_records s s' :
  mixed_log_kept s s' →
  0 ≤ Mixed.jobs_done s ∧
  records_ok Mixed.RECORD_INTERVAL (Mixed.jobs_done s) (Mixed.job_number s) (Mixed.records s) →
  0 ≤ Mixed.jobs_done s' ∧
  records_ok Mixed.RECORD_INTERVAL (Mixed.jobs_done s') (Mixed.job_number s') (Mixed.records s').
Proof.
  intros (-> & -> & Hn) [H0 Hok]. split; [done|]. by eapply records_ok_mono.
Qed.

Lemma mixed_tick_log s s' :
  Mixed.tick s = Running s' → mixed_log_kept (Mixed.trace_body s) s'.
Proof.
  unfold Mixed.tick. intros Ht.
  destruct (Mixed.traceall s) as [s1| |] eqn:Htr; [|done..].
  apply mixed_traceall_Running in Htr as ->.
  destruct (Mixed.add_remove (Mixed.trace_body s)) as [s2|] eqn:Har; [|done].
  destruct (Mixed.run_send s2) as [s3|] eqn:Hrs; [|done]. injection Ht as <-.
  eapply mixed_log_kept_trans; [by eapply mixed_add_remove_log|].
  eapply mixed_log_kept_trans; [by eapply mixed_run_send_log|apply mixed_schedule_log].
Qed.

Lemma mixed_tick_Exited s s' : Mixed.tick s = Exited s' → s' = Mixed.trace_body s.
Proof.
  unfold Mixed.tick, Mixed.traceall.
  destruct (_ =? _); [by intros [= <-]|].
  destruct (Mixed.add_remove _) as [s2|]; [|done]. by destruct (Mixed.run_send s2).
Qed.

Lemma mixed_run_records n : ∀ s s',
  mixed_wf s → mixed_books s → mixed_census false s →
  0 ≤ Mixed.jobs_done s ∧
  records_ok Mixed.RECORD_INTERVAL (Mixed.jobs_done s) (Mixed.job_number s) (Mixed.records s) →
  Mixed.run n s = Running s' ∨ Mixed.run n s = Exited s' →
  0 ≤ Mixed.jobs_done s' ∧
  records_ok Mixed.RECORD_INTERVAL (Mixed.jobs_done s') (Mixed.job_number s') (Mixed.records s').
Proof.
  induction n as [|n IH]; intros s s' Hwf Hb Hc Hok; simpl.
  { by intros [[= <-]|?]. }
  destruct Hok as [H0 Hok].
  pose proof (mixed_trace_body_records s Hc H0 Hok) as Hok1.
  destruct (Mixed.tick s) as [s1|s1|] eqn:Ht.
  - destruct (mixed_tick_books _ _ Hwf Hb Hc Ht) as [Hb1 Hc1].
    apply IH; [by eapply mixed_tick_Running_wf|done..|].
    eapply mixed_log_kept_records; [by apply mixed_tick_log|done].
  - intros [?|[= <-]]; [done|]. by apply mixed_tick_Exited in Ht as ->.
  - by intros [?|?].
Qed.

Lemma ar_trace_body_records s :
  ar_census false s → 0 ≤ AR.jobs_done s →
  records_ok AR.RECORD_INTERVAL (AR.jobs_done s) (AR.job_number s) (AR.records s) →
  0 ≤ AR.jobs_done (AR.trace_body s) ∧
  records_ok AR.RECORD_INTERVAL (AR.jobs_done (AR.trace_body s))
    (AR.job_number (AR.trace_body s)) (AR.records (AR.trace_body s)).
Proof.
  intros [Hc _] H0 Hok.
  destruct (ar_trace_body_counts s) as [Hd _].
  destruct (ar_trace_body_globals s) as (_ & _ & _ & Hn & _).
  rewrite Hd, Hn, ar_trace_body_log. split; [lia|].
  apply log_records_ok; [done| |done].
  pose proof (length_filter (λ j, AR.j_state j = AR.DONE) (AR.first_job s)). lia.
Qed.

Lemma ar_log_kept_records s s' :
  ar_log_kept s s' →
  0 ≤ AR.jobs_done s ∧
  records_ok AR.RECORD_INTERVAL (AR.jobs_done s) (AR.job_number s) (AR.records s) →
  0 ≤ AR.jobs_done s' ∧
  records_ok AR.RECORD_INTERVAL (AR.jobs_done s') (AR.job_number s') (AR.records s').
Proof.
  intros (-> & -> & Hn) [H0 Hok]. split; [done|]. by eapply records_ok_mono.
Qed.

Lemma ar_tick_log s s' :
  AR.tick s = Running s' → ar_log_kept (AR.trace_body s) s'.
Proof.
  unfold AR.tick. intros Ht.
  destruct (AR.traceall s) as [s1| |] eqn:Htr; [|done..].
  apply ar_traceall_Running in Htr as ->.
  destruct (AR.add_remove (AR.trace_body s)) as [s2|] eqn:Har; [|done].
  destruct (AR.run_send s2) as [s3|] eqn:Hrs; [|done]. injection Ht as <-.
  eapply ar_log_kept_trans; [by eapply ar_add_remove_log|].
  eapply ar_log_kept_trans; [by eapply ar_run_send_log|apply ar_schedule_log].
Qed.

Lemma ar_tick_Exited s s' : AR.tick s = Exited s' → s' = AR.trace_body s.
Proof.
  unfold AR.tick, AR.traceall.
  destruct (_ >=? _); [by intros [= <-]|].
  destruct (AR.add_remove _) as [s2|]; [|done]. by destruct (AR.run_send s2).
Qed.

Lemma ar_run_records n : ∀ s s',
  ar_wf s → ar_books s → ar_census false s →
  0 ≤ AR.jobs_done s ∧
  records_ok AR.RECORD_INTERVAL (AR.jobs_done s) (AR.job_number s) (AR.records s) →
  AR.run n s = Running s' ∨ AR.run n s = Exited s' →
  0 ≤ AR.jobs_done s' ∧
  records_ok AR.RECORD_INTERVAL (AR.jobs_done s') (AR.job_number s') (AR.records s').
Proof.
  induction n as [|n IH]; intros s s' Hwf Hb Hc Hok; simpl.
  { by intros [[= <-]|?]. }
  destruct Hok as [H0 Hok].
  pose proof (ar_trace_body_records s Hc H0 Hok) as Hok1.
  destruct (AR.tick s) as [s1|s1|] eqn:Ht.
  - destruct (ar_tick_books _ _ Hwf Hb Hc Ht) as [Hb1 Hc1].
    apply IH; [by eapply ar_tick_Running_wf|done..|].
    eapply ar_log_kept_records; [by apply ar_tick_log|done].
  - intros [?|[= <-]]; [done|]. by apply ar_tick_Exited in Ht as ->.
  - by intros [?|?].
Qed.

Lemma records_ok_nil iv n : 0 ≤ n → records_ok iv 0 n [].
Proof.
  intros Hn. split_and!.
  - intros d. rewrite fmap_nil, elem_of_nil. split; [done|lia].
  - intros i k a b _ Ha. by rewrite lookup_nil in Ha.
  - intros a Ha. by apply elem_of_nil in Ha.
Qed.

(** X18: the records of the output file.  In every state a run of
    either simulator reaches between two ticks, and in the state in
    which it exits, [record_mean_usage] has been called once for every
    multiple of RECORD_INTERVAL up to [jobs_done] and for no other
    count, in increasing order of the counts (also when several jobs
    are counted in one trace step, the counter being incremented one job
    at a time), and the number of submitted jobs in a record is at least
    its count of done jobs and at most [job_number]. *)
Theorem one_record_for_every_interval (rnd : nat → N) (mal : nat → bool) (n : nat) :
  (∀ s, Mixed.run n (Mixed.init rnd mal) = Running s ∨
        Mixed.run n (Mixed.init rnd mal) = Exited s →
     records_ok Mixed.RECORD_INTERVAL (Mixed.jobs_done s) (Mixed.job_number s)
       (Mixed.records s)) ∧
  (∀ s, AR.run n (AR.init rnd mal) = Running s ∨ AR.run n (AR.init rnd mal) = Exited s →
     records_ok AR.RECORD_INTERVAL (AR.jobs_done s) (AR.job_number s) (AR.records s)).
Proof.
  split; intros s Hrun.
  - destruct (mixed_init_books rnd mal) as [Hb Hc].
    eapply (mixed_run_records n _ s (mixed_init_wf rnd mal) Hb Hc); [|done].
    split; [done|]. by apply records_ok_nil.
  - destruct (ar_init_books rnd mal) as [Hb Hc].
    eapply (ar_run_records n _ s (ar_init_wf rnd mal) Hb Hc); [|done].
    split; [done|]. by apply records_ok_nil.
Qed.
(** * When a run exits *)

Lemma ar_tick_below_max s :
  AR.jobs_done s < AR.MAX_JOBS →
  (∀ s', AR.tick s = Running s' → AR.jobs_done s' < AR.MAX_JOBS) ∧
  (∀ s', AR.tick s = Exited s' →
     AR.MAX_JOBS ≤ AR.jobs_done s'
     < AR.MAX_JOBS
       + Z.of_nat (length (filter (λ j, AR.j_state j = AR.DONE) (AR.first_job s')))).
Proof.
  intros Hlt. split; intros s' Ht.
  - destruct (ar_tick_log _ _ Ht) as (-> & _).
    unfold AR.tick, AR.traceall in Ht.
    destruct (Z.geb_spec (AR.jobs_done (AR.trace_body s)) AR.MAX_JOBS); [done|lia].
  - pose proof (ar_tick_Exited _ _ Ht) as ->.
    unfold AR.tick, AR.traceall in Ht.
    destruct (Z.geb_spec (AR.jobs_done (AR.trace_body s)) AR.MAX_JOBS) as [Hge|Hge].
    + destruct (ar_trace_body_counts s) as [Hd _].
      rewrite ar_trace_body_jobs.
      rewrite (length_filter_fmap (λ j, AR.j_state j = AR.DONE));
        [lia|intros j; by destruct (ar_waits j)].
    + destruct (AR.add_remove _) as [s2|]; [|done]. by destruct (AR.run_send s2).
Qed.

Lemma ar_run_below_max n : ∀ s,
  AR.jobs_done s < AR.MAX_JOBS →
  (∀ s', AR.run n s = Running s' → AR.jobs_done s' < AR.MAX_JOBS) ∧
  (∀ s', AR.run n s = Exited s' →
     AR.MAX_JOBS ≤ AR.jobs_done s'
     < AR.MAX_JOBS
       + Z.of_nat (length (filter (λ j, AR.j_state j = AR.DONE) (AR.first_job s')))).
Proof.
  induction n as [|n IH]; intros s Hlt; simpl.
  { split; intros s'; [by intros [= <-]|done]. }
  destruct (ar_tick_below_max s Hlt) as [Hr He].
  destruct (AR.tick s) as [s1|s1|] eqn:Ht.
  - apply IH. by apply Hr.
  - split; intros s'; [done|]. intros [= <-]. by apply He.
  - split; intros s'; done.
Qed.

Lemma mixed_tick_at_max s :
  (∀ s', Mixed.tick s = Running s' → Mixed.jobs_done s' ≠ Mixed.MAX_JOBS) ∧
  (∀ s', Mixed.tick s = Exited s' → Mixed.jobs_done s' = Mixed.MAX_JOBS).
Proof.
  split; intros s' Ht.
  - destruct (mixed_tick_log _ _ Ht) as (-> & _).
    unfold Mixed.tick, Mixed.traceall in Ht.
    destruct (Z.eqb_spec (Mixed.jobs_done (Mixed.trace_body s)) Mixed.MAX_JOBS); [done|lia].
  - pose proof (mixed_tick_Exited _ _ Ht) as ->.
    unfold Mixed.tick, Mixed.traceall in Ht.
    destruct (Z.eqb_spec (Mixed.jobs_done (Mixed.trace_body s)) Mixed.MAX_JOBS); [done|].
    destruct (Mixed.add_remove _) as [s2|]; [|done]. by destruct (Mixed.run_send s2).
Qed.

Lemma mixed_run_at_max n : ∀ s,
  Mixed.jobs_done s ≠ Mixed.MAX_JOBS →
  (∀ s', Mixed.run n s = Running s' → Mixed.jobs_done s' ≠ Mixed.MAX_JOBS) ∧
  (∀ s', Mixed.run n s = Exited s' → Mixed.jobs_done s' = Mixed.MAX_JOBS).
Proof.
  induction n as [|n IH]; intros s Hne; simpl.
  { split; intros s'; [by intros [= <-]|done]. }
  destruct (mixed_tick_at_max s) as [Hr He].
  destruct (Mixed.tick s) as [s1|s1|] eqn:Ht.
  - apply IH. by apply Hr.
  - split; intros s'; [done|]. intros [= <-]. by apply He.
  - split; intros s'; done.
Qed.

(** X19: when a run exits.  A run of the AR simulator goes on only
    while [jobs_done] is below MAX_JOBS, and exits in the first trace
    step that counts up to MAX_JOBS or beyond: in the state in which it
    exits, [jobs_done] is at least MAX_JOBS and less than MAX_JOBS plus
    the number of DONE jobs in the pool, all counted in that trace step.
    A run of the mixed simulator exits only with [jobs_done] equal to
    MAX_JOBS, and goes on in every state in which it is not. *)
Theorem run_exits_at_max_jobs (rnd : nat → N) (mal : nat → bool) (n : nat) :
  (∀ s, AR.run n (AR.init rnd mal) = Running s → AR.jobs_done s < AR.MAX_JOBS) ∧
  (∀ s, AR.run n (AR.init rnd mal) = Exited s →
     AR.MAX_JOBS ≤ AR.jobs_done s
     < AR.MAX_JOBS
       + Z.of_nat (length (filter (λ j, AR.j_state j = AR.DONE) (AR.first_job s)))) ∧
  (∀ s, Mixed.run n (Mixed.init rnd mal) = Running s →
     Mixed.jobs_done s ≠ Mixed.MAX_JOBS) ∧
  (∀ s, Mixed.run n (Mixed.init rnd mal) = Exited s →
     Mixed.jobs_done s = Mixed.MAX_JOBS).
Proof.
  destruct (ar_run_below_max n (AR.init rnd mal)) as [Ha1 Ha2]; [done|].
  destruct (mixed_run_at_max n (Mixed.init rnd mal)) as [Hm1 Hm2]; [done|].
  split_and!; done.
Qed.
(** * Mixed: every busy resource has its job *)

Lemma mixed_busy_claimed_swap pre j j' js rs :
  mixed_busy_claimed (pre ++ j :: js) rs →
  (mixed_active j → mixed_active j' ∧ Mixed.j_run_on j' = Mixed.j_run_on j) →
  mixed_busy_claimed (pre ++ j' :: js) rs.
Proof.
  intros H Hj r Hr Hb. destruct (H r Hr Hb) as (j0 & Hj0 & Ha & Hrun).
  apply elem_of_app in Hj0 as [Hj0|[->|Hj0]%elem_of_cons].
  - exists j0. split; [apply elem_of_app; by left|done].
  - destruct (Hj Ha) as [Ha' Hrun']. exists j'.
    split; [apply elem_of_app; right; by left|]. split; [done|congruence].
  - exists j0. split; [apply elem_of_app; right; by right|done].
Qed.

Lemma mixed_busy_claimed_store pre j j' js rs a F :
  mixed_busy_claimed (pre ++ j :: js) rs →
  (∀ r, Mixed.r_addr (F r) = Mixed.r_addr r) →
  Mixed.j_run_on j = Some a →
  (mixed_active j' ∧ Mixed.j_run_on j' = Some a) ∨ (∀ r, ¬ mixed_busy (F r)) →
  mixed_busy_claimed (pre ++ j' :: js) (store_at Mixed.r_addr a F rs).
Proof.
  intros H HF Hrun Hcase r' Hr' Hb.
  apply elem_of_store_at in Hr' as (r & Hr & ->).
  destruct (Nat.eqb_spec (Mixed.r_addr r) a) as [Ha|Hne].
  - destruct Hcase as [[Ha' Hrun']|Hfree]; [|by destruct (Hfree r)].
    exists j'. split; [apply elem_of_app; right; by left|]. by rewrite HF, Ha.
  - destruct (H r Hr Hb) as (j0 & Hj0 & Ha0 & Hrun0).
    apply elem_of_app in Hj0 as [Hj0|[->|Hj0]%elem_of_cons].
    + exists j0. split; [apply elem_of_app; by left|done].
    + congruence.
    + exists j0. split; [apply elem_of_app; right; by right|done].
Qed.

Lemma mixed_run_send_job_busy pre j js s j' s' :
  Mixed.run_send_job j s = Some (j', s') →
  mixed_busy_claimed (pre ++ j :: js) (Mixed.first_res s) →
  mixed_busy_claimed (pre ++ j' :: js) (Mixed.first_res s').
Proof.
  unfold Mixed.run_send_job, Mixed.run_on_res. intros Hrun Hbc.
  destruct (Mixed.j_state j) eqn:Hst; simplify_eq/=; try done.
  - (* RUNNING *)
    destruct (Mixed.j_run_on j) as [a|] eqn:Ha; simplify_eq/=.
    destruct (deref Mixed.r_addr a (Mixed.first_res s)) as [r|] eqn:Hr; simplify_eq/=.
    destruct (Mixed.j_workload j - Mixed.r_level r <=? 0).
    + destruct (Z.rem _ 1000 <=? Mixed.RL_PROB); simplify_eq/=;
        rewrite !(store_at_compose Mixed.r_addr) by done;
        (eapply mixed_busy_claimed_store; [done..|]); right; intros r0 [?|?]; done.
    + simplify_eq/=. eapply mixed_busy_claimed_store; [done..|]. left.
      split; [|done]. unfold mixed_active. simpl. by rewrite Hst.
  - (* SENDING_DATA *)
    destruct (Mixed.j_send_data j - 1 <=? 0); simplify_eq/=.
    + destruct (Mixed.j_run_on j) as [a|] eqn:Ha; simplify_eq/=.
      destruct (deref Mixed.r_addr a (Mixed.first_res s)) as [r|] eqn:Hr; simplify_eq/=.
      eapply mixed_busy_claimed_store; [done..|]. left. split; [|done].
      unfold mixed_active. simpl. by eexists.
    + eapply mixed_busy_claimed_swap; [done|]. intros _. split; [|done].
      unfold mixed_active. simpl. by rewrite Hst.
Qed.

Lemma mixed_run_send_loop_busy js : ∀ pre s js' s',
  Mixed.run_send_loop js s = Some (js', s') →
  mixed_busy_claimed (pre ++ js) (Mixed.first_res s) →
  mixed_busy_claimed (pre ++ js') (Mixed.first_res s').
Proof.
  induction js as [|j js IH]; intros pre s js' s'; simpl.
  - by intros [= <- <-].
  - intros H Hbc. apply bind_Some in H as ([j1 s1] & H1 & H).
    apply bind_Some in H as ([js2 s2] & H2 & H). simplify_eq.
    replace (pre ++ j1 :: js2) with ((pre ++ [j1]) ++ js2) by by rewrite <- app_assoc.
    eapply IH; [done|]. rewrite <- app_assoc. simpl.
    by eapply mixed_run_send_job_busy.
Qed.

Lemma mixed_run_send_busy s s' :
  Mixed.run_send s = Some s' →
  mixed_busy_claimed (Mixed.first_job s) (Mixed.first_res s) →
  mixed_busy_claimed (Mixed.first_job s') (Mixed.first_res s').
Proof.
  unfold Mixed.run_send. intros H Hbc. apply bind_Some in H as ([js s1] & H1 & H).
  injection H as <-. simpl.
  by apply (mixed_run_send_loop_busy (Mixed.first_job s) [] s js s1).
Qed.

Lemma mixed_busy_claimed_fmap (g : Mixed.job → Mixed.job) (h : Mixed.resource → Mixed.resource)
    js rs :
  (∀ j, Mixed.j_state (g j) = Mixed.j_state j ∧ Mixed.j_run_on (g j) = Mixed.j_run_on j) →
  (∀ r, Mixed.r_state (h r) = Mixed.r_state r ∧ Mixed.r_addr (h r) = Mixed.r_addr r) →
  mixed_busy_claimed js rs → mixed_busy_claimed (g <$> js) (h <$> rs).
Proof.
  intros Hg Hh H r' Hr' Hb. apply list_elem_of_fmap in Hr' as (r & -> & Hr).
  destruct (Hh r) as [Hs Ha]. unfold mixed_busy in Hb. rewrite Hs in Hb.
  destruct (H r Hr Hb) as (j & Hj & Hact & Hrun). exists (g j).
  destruct (Hg j) as [Hjs Hjr]. split; [by apply list_elem_of_fmap_2|].
  unfold mixed_active. rewrite Hjs, Hjr, Ha. done.
Qed.

Lemma mixed_trace_body_busy s :
  mixed_busy_claimed (Mixed.first_job s) (Mixed.first_res s) →
  mixed_busy_claimed (Mixed.first_job (Mixed.trace_body s))
    (Mixed.first_res (Mixed.trace_body s)).
Proof.
  intros H. rewrite mixed_trace_body_jobs, mixed_trace_body_res.
  apply (mixed_busy_claimed_fmap _ _ _ _); [|done|done].
  intros j. by destruct (mixed_waits j).
Qed.

Lemma mixed_removals_busy s :
  mixed_busy_claimed (Mixed.first_job s) (Mixed.first_res s) →
  mixed_busy_claimed
    (Mixed.first_job (Mixed.remove_leaving_resources (Mixed.remove_done_jobs s)))
    (Mixed.first_res (Mixed.remove_leaving_resources (Mixed.remove_done_jobs s))).
Proof.
  intros H r [_ Hr]%list_elem_of_filter Hb. simpl.
  destruct (H r Hr Hb) as (j & Hj & Hact & Hrun). exists j. split; [|done].
  apply list_elem_of_filter. split; [|done]. intros Hd.
  unfold mixed_active in Hact. rewrite Hd in Hact. by destruct Hact.
Qed.

Lemma mixed_busy_claimed_more js js' rs rs' :
  mixed_busy_claimed js rs →
  (∀ j, j ∈ js → j ∈ js') → (∀ r, r ∈ rs' → r ∈ rs ∨ ¬ mixed_busy r) →
  mixed_busy_claimed js' rs'.
Proof.
  intros H Hjs Hrs r Hr Hb. destruct (Hrs r Hr) as [Hr0|?]; [|done].
  destruct (H r Hr0 Hb) as (j & Hj & ?). exists j. split; [by apply Hjs|done].
Qed.

Lemma mixed_add_res_busy s s' :
  Mixed.add_res s = Some s' →
  mixed_busy_claimed (Mixed.first_job s) (Mixed.first_res s) →
  mixed_busy_claimed (Mixed.first_job s') (Mixed.first_res s').
Proof.
  unfold Mixed.add_res, Mixed.malloc.
  destruct (Mixed.malloc_src s (Mixed.malloc_pos s)); simpl; [|by intros [= <-]].
  destruct (Mixed.first_res s) as [|r0 rs] eqn:Hrs; simpl.
  - intros [= <-] H. simpl. eapply mixed_busy_claimed_more; [exact H|done|].
    intros r Hr. apply list_elem_of_singleton in Hr as ->. right. by intros [?|?].
  - intros H Hbc. apply bind_Some in H as (la & Hla & H).
    apply bind_Some in H as (rs' & Hlink & [= <-]).
    apply link_after_cut in Hlink as [k ->]. simpl.
    eapply mixed_busy_claimed_more; [exact Hbc|done|].
    intros r [Hr|Hr]%elem_of_app.
    + left. by apply (subseteq_take k (r0 :: rs)).
    + apply list_elem_of_singleton in Hr as ->. right. by intros [?|?].
Qed.

Lemma mixed_add_job_busy s s' :
  mixed_books s → Mixed.add_job s = Some s' →
  mixed_busy_claimed (Mixed.first_job s) (Mixed.first_res s) →
  mixed_busy_claimed (Mixed.first_job s') (Mixed.first_res s').
Proof.
  intros [Hj Ht _ _ _ _] H Hbc.
  destruct (mixed_add_job_inv s s' (proj1 Hj) Ht H) as [[Hm ->]|[Hm ->]].
  - unfold Mixed.malloc. by rewrite Hm.
  - simpl. eapply mixed_busy_claimed_more; [exact Hbc| |by left].
    intros j Hjin. apply elem_of_app. by left.
Qed.

Lemma mixed_repeat_add_res_busy n : ∀ s s',
  Mixed.repeat_add_res n s = Some s' →
  mixed_busy_claimed (Mixed.first_job s) (Mixed.first_res s) →
  mixed_busy_claimed (Mixed.first_job s') (Mixed.first_res s').
Proof.
  induction n as [|n IH]; intros s s'; simpl; [by intros [= <-]|].
  intros H Hbc. apply bind_Some in H as (s1 & H1 & H).
  eapply (IH s1); [done|]. by eapply mixed_add_res_busy.
Qed.

Lemma mixed_add_remove_busy s s' :
  mixed_mid s → mixed_books s → mixed_census true s → Mixed.add_remove s = Some s' →
  mixed_busy_claimed (Mixed.first_job s) (Mixed.first_res s) →
  mixed_busy_claimed (Mixed.first_job s') (Mixed.first_res s').
Proof.
  intros Hmid Hb Hc. unfold Mixed.add_remove. intros H Hbc.
  apply bind_Some in H as (s1 & H1 & H).
  assert (mixed_books s1 ∧ mixed_busy_claimed (Mixed.first_job s1) (Mixed.first_res s1))
    as (Hb1 & Hbc1).
  { destruct (Mixed.begin s); [|by injection H1 as <-].
    apply fmap_Some in H1 as (s0 & H0 & ->).
    destruct (mixed_repeat_add_res_books true _ _ _ Hmid Hb Hc H0) as [Hb0 _].
    split; [by eapply mixed_books_ext|]. simpl. by eapply mixed_repeat_add_res_busy. }
  apply mixed_removals_books in Hb1. apply mixed_removals_busy in Hbc1.
  simpl in H.
  match type of H with Mixed.add_on_draw _ ?s4 = _ =>
    assert (mixed_books s4 ∧ mixed_busy_claimed (Mixed.first_job s4) (Mixed.first_res s4))
      as (Hb4 & Hbc4) by (split; [by eapply mixed_books_ext|done])
  end.
  unfold Mixed.add_on_draw in H.
  destruct (Mixed.admission_of_draw _).
  - by eapply mixed_add_res_busy.
  - by eapply mixed_add_job_busy.
  - by injection H as <-.
Qed.

Lemma mixed_schedule_busy s :
  mixed_busy_claimed (Mixed.first_job s) (Mixed.first_res s) →
  mixed_busy_claimed (Mixed.first_job (Mixed.schedule s)) (Mixed.first_res (Mixed.schedule s)).
Proof.
  intros Hbc.
  destruct (mixed_schedule_cases s)
    as [[-> _]|(ri & r & k & j0 & b & jb & _ & Hr & Hav & _ & _ & _ & (Hjb & Hw & _) & ->)];
    [done|].
  unfold mixed_bind. simpl. intros r' Hr' Hb.
  apply list_elem_of_lookup_1 in Hr' as [i Hi].
  destruct (decide (i = ri)) as [->|Hne].
  - rewrite list_lookup_alter_eq, Hr in Hi. simpl in Hi. injection Hi as <-. simpl.
    eexists. split; [eapply list_elem_of_lookup_2; by rewrite list_lookup_alter_eq, Hjb|].
    split; [|done]. unfold mixed_active. simpl. by eexists.
  - rewrite list_lookup_alter_ne in Hi by done.
    destruct (Hbc r' (list_elem_of_lookup_2 _ _ _ Hi) Hb) as (j & Hj & Hact & Hrun).
    apply list_elem_of_lookup_1 in Hj as [m Hm]. exists j. split; [|done].
    apply (list_elem_of_lookup_2 _ m). rewrite list_lookup_alter_ne; [done|].
    intros ->. rewrite Hjb in Hm. injection Hm as ->.
    unfold mixed_active in Hact. rewrite Hw in Hact. by destruct Hact.
Qed.

Lemma mixed_tick_busy s s' :
  mixed_wf s → mixed_books s → mixed_census false s →
  mixed_busy_claimed (Mixed.first_job s) (Mixed.first_res s) →
  Mixed.tick s = Running s' →
  mixed_busy_claimed (Mixed.first_job s') (Mixed.first_res s').
Proof.
  intros Hwf Hb Hc Hbc Ht. unfold Mixed.tick in Ht.
  destruct (Mixed.traceall s) as [s1| |] eqn:Htr; [|done..].
  apply mixed_traceall_Running in Htr as ->.
  destruct (Mixed.add_remove (Mixed.trace_body s)) as [s2|] eqn:Har; [|done].
  destruct (Mixed.run_send s2) as [s3|] eqn:Hrs; [|done]. injection Ht as <-.
  apply mixed_schedule_busy. eapply mixed_run_send_busy; [done|].
  eapply mixed_add_remove_busy;
    [by apply mixed_trace_body_mid|by apply mixed_trace_body_books
    |by apply mixed_trace_body_census|done|by apply mixed_trace_body_busy].
Qed.

Lemma mixed_run_busy n : ∀ s s',
  mixed_wf s → mixed_books s → mixed_census false s →
  mixed_busy_claimed (Mixed.first_job s) (Mixed.first_res s) →
  Mixed.run n s = Running s' →
  mixed_busy_claimed (Mixed.first_job s') (Mixed.first_res s').
Proof.
  induction n as [|n IH]; intros s s' Hwf Hb Hc Hbc; simpl; [by intros [= <-]|].
  destruct (Mixed.tick s) as [s1| |] eqn:Ht; [|done..].
  destruct (mixed_tick_books _ _ Hwf Hb Hc Ht) as [Hb1 Hc1].
  apply IH; [by eapply mixed_tick_Running_wf|done..|by eapply mixed_tick_busy].
Qed.

Lemma NoDup_claims_lookup js : ∀ i k ji jk,
  NoDup (mixed_claims js) →
  js !! i = Some ji → js !! k = Some jk → mixed_active ji → mixed_active jk →
  Mixed.j_run_on ji = Mixed.j_run_on jk → i = k.
Proof.
  induction js as [|j js IH]; intros i k ji jk Hnd Hi Hk Hai Hak Heq; [done|].
  rewrite mixed_claims_cons in Hnd.
  destruct i as [|i], k as [|k]; simpl in *.
  - done.
  - injection Hi as ->. destruct (decide (mixed_active ji)); [|done].
    apply NoDup_cons in Hnd as [Hnin _]. exfalso. apply Hnin. rewrite Heq.
    apply mixed_claims_elem; [by eapply list_elem_of_lookup_2|done].
  - injection Hk as ->. destruct (decide (mixed_active jk)); [|done].
    apply NoDup_cons in Hnd as [Hnin _]. exfalso. apply Hnin. rewrite <- Heq.
    apply mixed_claims_elem; [by eapply list_elem_of_lookup_2|done].
  - f_equal. apply (IH i k ji jk); try done.
    destruct (decide (mixed_active j)); [by apply NoDup_cons in Hnd as [_ ?]|done].
Qed.

(** X20: in every state a run of the mixed simulator reaches between
    two ticks, a resource that is RECEIVING_DATA or USED is the
    [run_on] of a job of the pool that is SENDING_DATA or RUNNING, and
    no two such jobs of the pool have the same [run_on]: every busy
    resource has exactly one job, so no resource is bound twice and none
    stays busy after its job has gone. *)
Theorem mixed_busy_resource_has_one_job
    (rnd : nat → N) (mal : nat → bool) (n : nat) (s : Mixed.sim) :
  Mixed.run n (Mixed.init rnd mal) = Running s →
  (∀ r, r ∈ Mixed.first_res s →
     Mixed.r_state r = Mixed.RECEIVING_DATA ∨ Mixed.r_state r = Mixed.USED →
     ∃ j, j ∈ Mixed.first_job s ∧
       (Mixed.j_state j = Mixed.SENDING_DATA ∨ Mixed.j_state j = Mixed.RUNNING) ∧
       Mixed.j_run_on j = Some (Mixed.r_addr r)) ∧
  (∀ i k ji jk, Mixed.first_job s !! i = Some ji → Mixed.first_job s !! k = Some jk →
     Mixed.j_state ji = Mixed.SENDING_DATA ∨ Mixed.j_state ji = Mixed.RUNNING →
     Mixed.j_state jk = Mixed.SENDING_DATA ∨ Mixed.j_state jk = Mixed.RUNNING →
     Mixed.j_run_on ji = Mixed.j_run_on jk → i = k).
Proof.
  intros Hrun. destruct (mixed_init_books rnd mal) as [Hb Hc].
  pose proof (mixed_init_wf rnd mal) as Hwf0.
  assert (∀ j, Mixed.j_state j = Mixed.SENDING_DATA ∨ Mixed.j_state j = Mixed.RUNNING ↔
               mixed_active j) as Hact.
  { intros j. unfold mixed_active. destruct (Mixed.j_state j); simpl; split;
      try (intros [?|?]; done); try (intros [? ?]; done); intros _; eauto. }
  split.
  - intros r Hr Hbusy.
    assert (mixed_busy_claimed (Mixed.first_job (Mixed.init rnd mal))
              (Mixed.first_res (Mixed.init rnd mal))) as Hbc0.
    { intros r0 Hr0. by apply elem_of_nil in Hr0. }
    destruct (mixed_run_busy n _ s Hwf0 Hb Hc Hbc0 Hrun r Hr Hbusy) as (j & Hj & Ha & Hon).
    exists j. by rewrite Hact.
  - intros i k ji jk Hi Hk Hai Hak Heq.
    pose proof (mixed_run_wf n _ _ Hwf0 Hrun) as [_ _ _ Hnd _].
    apply (NoDup_claims_lookup _ i k ji jk Hnd Hi Hk); [by apply Hact|by apply Hact|done].
Qed.

Lemma mixed_busy_resource_has_one_job_witness :
  ∃ s, Mixed.run 40 (Mixed.init demo_random demo_malloc) = Running s ∧
    ∀ r, r ∈ Mixed.first_res s →
      Mixed.r_state r = Mixed.RECEIVING_DATA ∨ Mixed.r_state r = Mixed.USED →
      ∃ j, j ∈ Mixed.first_job s ∧
        (Mixed.j_state j = Mixed.SENDING_DATA ∨ Mixed.j_state j = Mixed.RUNNING) ∧
        Mixed.j_run_on j = Some (Mixed.r_addr r).
Proof.
  eexists. split; [vm_compute; reflexivity|].
  apply (mixed_busy_resource_has_one_job demo_random demo_malloc 40).
  vm_compute; reflexivity.
Defined.
(** * When a tick is undefined: the tail pointers *)




(** ** Mixed *)

























(** * AR: when a tick is undefined *)
























(** * The pools from one tick to the next *)

Lemma seqZ_one m : seqZ m 1 = [m].
Proof. rewrite seqZ_cons by lia. by rewrite seqZ_nil by lia. Qed.

Lemma seqZ_join m a b : 0 ≤ a → 0 ≤ b → seqZ (m + 1) a ++ seqZ (m + a + 1) b = seqZ (m + 1) (a + b).
Proof.
  intros Ha Hb. rewrite (seqZ_app (m + 1) a b) by done.
  by replace (m + 1 + a) with (m + a + 1) by lia.
Qed.

Lemma fmap_filter_fmap {A B} (P : A → Prop) `{∀ x, Decision (P x)} (g : A → B) (f : A → A)
    (l : list A) :
  (∀ x, P (f x) ↔ P x) → (∀ x, g (f x) = g x) →
  g <$> filter P (f <$> l) = g <$> filter P l.
Proof.
  intros HP Hg. induction l as [|x l IH]; [done|]. rewrite fmap_cons, !filter_cons.
  destruct (decide (P (f x))) as [H1|H1], (decide (P x)) as [H2|H2];
    [by rewrite !fmap_cons, Hg, IH|exfalso; by apply H2, HP|exfalso; by apply H1, HP|done].
Qed.

Lemma filter_app_all {A} (P : A → Prop) `{∀ x, Decision (P x)} (l k : list A) :
  Forall P k → filter P (l ++ k) = filter P l ++ k.
Proof. intros Hk. by rewrite filter_app, (length_filter_all P k). Qed.

(** ** Mixed *)

Lemma mixed_grown_refl s : mixed_grown s s.
Proof.
  exists [], []. rewrite !app_nil_r, !Z.sub_diag. split_and!; try done; by constructor.
Qed.

Lemma mixed_grown_trans s1 s2 s3 :
  mixed_grown s1 s2 → mixed_grown s2 s3 → mixed_grown s1 s3.
Proof.
  intros (nr & nj & Hr & Hj & Har & Haj & Hcr & Hcj & H0r & H0j)
         (nr' & nj' & Hr' & Hj' & Har' & Haj' & Hcr' & Hcj' & H0r' & H0j').
  exists (nr ++ nr'), (nj ++ nj'). rewrite Hr', Hr, Hj', Hj, <- !app_assoc, !fmap_app.
  rewrite Hcr, Hcr', Hcj, Hcj'.
  split_and!; try done; try (by apply Forall_app); try lia.
  - replace (Mixed.resource_number s2 + 1)
      with (Mixed.resource_number s1
            + (Mixed.resource_number s2 - Mixed.resource_number s1) + 1) by lia.
    rewrite seqZ_join by done. f_equal. lia.
  - replace (Mixed.job_number s2 + 1)
      with (Mixed.job_number s1 + (Mixed.job_number s2 - Mixed.job_number s1) + 1) by lia.
    rewrite seqZ_join by done. f_equal. lia.
Qed.

Lemma mixed_grown_same s s' :
  Mixed.first_res s' = Mixed.first_res s → Mixed.first_job s' = Mixed.first_job s →
  Mixed.resource_number s' = Mixed.resource_number s →
  Mixed.job_number s' = Mixed.job_number s →
  mixed_grown s s' ∧ mixed_created s s' = 0.
Proof.
  intros Hr Hj Hrn Hjn. unfold mixed_created. rewrite Hrn, Hjn. split; [|lia].
  exists [], []. rewrite Hr, Hj, Hrn, Hjn, !app_nil_r, !Z.sub_diag.
  split_and!; try done; by constructor.
Qed.

Lemma mixed_add_res_grown s s' :
  mixed_mid s → Mixed.add_res s = Some s' →
  mixed_grown s s' ∧ 0 ≤ mixed_created s s' ≤ 1.
Proof.
  intros [[Hpool Htl _ _ _] _] H.
  destruct (mixed_add_res_inv s s' (proj1 Hpool) Htl H) as [[Hm ->]|[Hm ->]].
  - destruct (mixed_grown_same s (Mixed.malloc s).2) as [Hg Hc]; try done.
    split; [done|lia].
  - split; [|unfold mixed_created; simpl; lia].
    exists [mixed_new_res s], []. simpl. rewrite app_nil_r, Z.sub_diag.
    replace (Mixed.resource_number s + 1 - Mixed.resource_number s) with 1 by lia.
    rewrite seqZ_one. split_and!; try done; try lia; by repeat constructor.
Qed.

Lemma mixed_add_job_grown s s' :
  mixed_books s → Mixed.add_job s = Some s' →
  mixed_grown s s' ∧ 0 ≤ mixed_created s s' ≤ 1.
Proof.
  intros [Hj Ht _ _ _ _] H.
  destruct (mixed_add_job_inv s s' (proj1 Hj) Ht H) as [[Hm ->]|[Hm ->]].
  - destruct (mixed_grown_same s (Mixed.malloc s).2) as [Hg Hc]; try done.
    split; [done|lia].
  - split; [|unfold mixed_created; simpl; lia].
    exists [], [mixed_new_job s]. simpl. rewrite app_nil_r, Z.sub_diag.
    replace (Mixed.job_number s + 1 - Mixed.job_number s) with 1 by lia.
    rewrite seqZ_one. split_and!; try done; try lia; by repeat constructor.
Qed.

Lemma mixed_created_trans s1 s2 s3 :
  mixed_created s1 s3 = mixed_created s1 s2 + mixed_created s2 s3.
Proof. unfold mixed_created. lia. Qed.

Lemma mixed_repeat_add_res_grown n : ∀ s s',
  mixed_mid s → Mixed.repeat_add_res n s = Some s' →
  mixed_grown s s' ∧ 0 ≤ mixed_created s s' ≤ Z.of_nat n.
Proof.
  induction n as [|n IH]; intros s s' Hmid; simpl.
  { intros [= <-]. destruct (mixed_grown_same s s) as [Hg Hc]; try done. split; [done|lia]. }
  intros H. apply bind_Some in H as (s1 & H1 & H).
  destruct (mixed_add_res_grown _ _ Hmid H1) as [Hg1 Hc1].
  destruct (IH s1 s' (mixed_add_res_mid _ _ Hmid H1) H) as [Hg2 Hc2].
  split; [by eapply mixed_grown_trans|]. rewrite (mixed_created_trans s s1 s'). lia.
Qed.

Lemma mixed_add_remove_pools s s' :
  mixed_mid s → mixed_books s → mixed_census true s → Mixed.add_remove s = Some s' →
  ∃ nr nj,
    Mixed.first_res s'
    = filter (λ r, Mixed.r_state r ≠ Mixed.LEAVING) (Mixed.first_res s) ++ nr ∧
    Mixed.first_job s'
    = filter (λ j, Mixed.j_state j ≠ Mixed.DONE) (Mixed.first_job s) ++ nj ∧
    Mixed.r_code <$> nr
    = seqZ (Mixed.resource_number s + 1) (Mixed.resource_number s' - Mixed.resource_number s) ∧
    Mixed.j_code <$> nj
    = seqZ (Mixed.job_number s + 1) (Mixed.job_number s' - Mixed.job_number s) ∧
    0 ≤ Mixed.resource_number s' - Mixed.resource_number s ∧
    0 ≤ Mixed.job_number s' - Mixed.job_number s ∧
    mixed_created s s' ≤ (if Mixed.begin s then 6 else 1).
Proof.
  intros Hmid Hb Hc. unfold Mixed.add_remove. intros H.
  apply bind_Some in H as (s1 & H1 & H).
  assert (mixed_mid s1 ∧ mixed_books s1 ∧ mixed_grown s s1 ∧
          0 ≤ mixed_created s s1 ≤ (if Mixed.begin s then 5 else 0))
    as (Hmid1 & Hb1 & Hg1 & Hc1).
  { destruct (Mixed.begin s).
    2: { injection H1 as <-. destruct (mixed_grown_same s s) as [Hg Hcr]; try done.
         split_and!; try done; lia. }
    apply fmap_Some in H1 as (s0 & H0 & ->).
    destruct (mixed_repeat_add_res_books true _ _ _ Hmid Hb Hc H0) as [Hb0 _].
    destruct (mixed_repeat_add_res_grown _ _ _ Hmid H0) as [Hg0 Hc0].
    split_and!.
    - eapply mixed_mid_ext; [by eapply mixed_repeat_add_res_mid|done..|simpl; lia].
    - by eapply mixed_books_ext.
    - exact Hg0.
    - apply Hc0.
    - unfold mixed_created in *. simpl. lia. }
  apply mixed_remove_done_jobs_mid, mixed_remove_leaving_resources_mid in Hmid1.
  apply mixed_removals_books in Hb1.
  simpl in H.
  match type of H with Mixed.add_on_draw _ ?s4 = _ =>
    assert (mixed_mid s4 ∧ mixed_books s4) as (Hmid4 & Hb4)
      by (split; [eapply mixed_mid_ext; [exact Hmid1|done..|simpl; lia]
                 |by eapply mixed_books_ext]);
    assert (mixed_grown s4 s' ∧ 0 ≤ mixed_created s4 s' ≤ 1) as [Hg4 Hc4]
  end.
  { unfold Mixed.add_on_draw in H. destruct (Mixed.admission_of_draw _).
    - by eapply mixed_add_res_grown.
    - by eapply mixed_add_job_grown.
    - injection H as <-. split; [apply mixed_grown_refl|]. unfold mixed_created. lia. }
  destruct Hg1 as (nr1 & nj1 & Hr1 & Hj1 & Har1 & Haj1 & Hcr1 & Hcj1 & H0r1 & H0j1).
  destruct Hg4 as (nr4 & nj4 & Hr4 & Hj4 & _ & _ & Hcr4 & Hcj4 & H0r4 & H0j4).
  simpl in Hr4, Hj4, Hcr4, Hcj4, H0r4, H0j4. unfold mixed_created in *. simpl in Hc4.
  exists (nr1 ++ nr4), (nj1 ++ nj4).
  rewrite Hr4, Hj4, Hr1, Hj1, !fmap_app, Hcr1, Hcj1, Hcr4, Hcj4.
  rewrite !filter_app_all, <- !app_assoc.
  2: { eapply Forall_impl; [exact Haj1|]. by intros j ->. }
  2: { eapply Forall_impl; [exact Har1|]. by intros r ->. }
  split_and!; try done; try lia.
  - replace (Mixed.resource_number s1 + 1)
      with (Mixed.resource_number s
            + (Mixed.resource_number s1 - Mixed.resource_number s) + 1) by lia.
    rewrite seqZ_join by done. f_equal. lia.
  - replace (Mixed.job_number s1 + 1)
      with (Mixed.job_number s + (Mixed.job_number s1 - Mixed.job_number s) + 1) by lia.
    rewrite seqZ_join by done. f_equal. lia.
  - destruct (Mixed.begin s); lia.
Qed.

(** X23: what a tick of the mixed simulator does to the pools.  From a
    state a run reaches between two ticks to the state after the next
    tick, the resource pool is, in this order, the resources that were
    not LEAVING, followed by the resources created in the tick, with
    the codes [resource_number + 1] onwards; the job pool is the jobs
    that were not DONE, in their order, followed by the jobs created,
    with the codes [job_number + 1] onwards: no node is reordered, none
    is lost but the LEAVING resources and the DONE jobs, all of which
    are freed.  One tick creates at most one node, but for the first
    tick, which creates at most six. *)
Theorem mixed_tick_keeps_pool_order
    (rnd : nat → N) (mal : nat → bool) (n : nat) (s s' : Mixed.sim) :
  Mixed.run n (Mixed.init rnd mal) = Running s → Mixed.tick s = Running s' →
  Mixed.r_code <$> Mixed.first_res s'
  = (Mixed.r_code <$> filter (λ r, Mixed.r_state r ≠ Mixed.LEAVING) (Mixed.first_res s))
    ++ seqZ (Mixed.resource_number s + 1)
         (Mixed.resource_number s' - Mixed.resource_number s) ∧
  Mixed.j_code <$> Mixed.first_job s'
  = (Mixed.j_code <$> filter (λ j, Mixed.j_state j ≠ Mixed.DONE) (Mixed.first_job s))
    ++ seqZ (Mixed.job_number s + 1) (Mixed.job_number s' - Mixed.job_number s) ∧
  Mixed.resource_number s ≤ Mixed.resource_number s' ∧
  Mixed.job_number s ≤ Mixed.job_number s' ∧
  (Mixed.resource_number s' - Mixed.resource_number s)
  + (Mixed.job_number s' - Mixed.job_number s) ≤ (if Mixed.begin s then 6 else 1).
Proof.
  intros Hrun Htick. destruct (mixed_init_books rnd mal) as [Hb0 Hc0].
  pose proof (mixed_run_wf n _ _ (mixed_init_wf rnd mal) Hrun) as Hwf.
  destruct (mixed_run_books n _ _ (mixed_init_wf rnd mal) Hb0 Hc0 Hrun) as [Hb Hc].
  unfold Mixed.tick in Htick.
  destruct (Mixed.traceall s) as [s1| |] eqn:Htr; [|done..].
  apply mixed_traceall_Running in Htr as ->.
  destruct (Mixed.add_remove (Mixed.trace_body s)) as [s2|] eqn:Har; [|done].
  destruct (Mixed.run_send s2) as [s3|] eqn:Hrs; [|done]. injection Htick as <-.
  destruct (mixed_add_remove_pools _ _ (mixed_trace_body_mid s Hwf)
              (mixed_trace_body_books s Hb) (mixed_trace_body_census s Hc) Har)
    as (nr & nj & Hr & Hj & Hcr & Hcj & H0r & H0j & Hcnt).
  destruct (mixed_trace_body_globals s) as (_ & _ & Hrn & Hjn & Hbg & _).
  rewrite Hrn, Hjn in *. rewrite Hbg in Hcnt. unfold mixed_created in Hcnt.
  rewrite Hrn, Hjn in Hcnt.
  apply mixed_run_send_step in Hrs as (Hjs & Hk & Hl & _). unfold mixed_ledger in Hl.
  assert (Mixed.resource_number s3 = Mixed.resource_number s2) as Hrn3 by congruence.
  assert (Mixed.job_number s3 = Mixed.job_number s2) as Hjn3 by congruence.
  assert (Mixed.r_code <$> Mixed.first_res (Mixed.schedule s3)
          = Mixed.r_code <$> Mixed.first_res s2 ∧
          Mixed.j_code <$> Mixed.first_job (Mixed.schedule s3)
          = Mixed.j_code <$> Mixed.first_job s2 ∧
          Mixed.resource_number (Mixed.schedule s3) = Mixed.resource_number s2 ∧
          Mixed.job_number (Mixed.schedule s3) = Mixed.job_number s2)
    as (Hcr3 & Hcj3 & -> & ->).
  { assert (Mixed.r_code <$> Mixed.first_res s3 = Mixed.r_code <$> Mixed.first_res s2) as E1.
    { apply Forall2_fmap_eq. eapply Forall2_impl; [exact Hk|]. by intros r r' (_ & -> & _). }
    assert (Mixed.j_code <$> Mixed.first_job s3 = Mixed.j_code <$> Mixed.first_job s2) as E2.
    { apply Forall2_fmap_eq. eapply Forall2_impl; [exact Hjs|]. by intros j j' (_ & -> & _). }
    destruct (mixed_schedule_cases s3)
      as [[-> _]|(ri & r & k & j0 & b & jb & _ & _ & _ & _ & _ & _ & _ & ->)]; [done|].
    unfold mixed_bind. simpl. rewrite !fmap_alter_same by done. done. }
  rewrite Hcr3, Hcj3, Hr, Hj, !fmap_app, Hcr, Hcj.
  rewrite mixed_trace_body_res, mixed_trace_body_jobs.
  change (List.map ?f ?l) with (f <$> l).
  rewrite (fmap_filter_fmap (λ r, Mixed.r_state r ≠ Mixed.LEAVING)) by done.
  rewrite (fmap_filter_fmap (λ j, Mixed.j_state j ≠ Mixed.DONE));
    [|intros j; by destruct (mixed_waits j)..].
  split_and!; try done; lia.
Qed.

Lemma mixed_tick_keeps_pool_order_witness :
  ∃ s s', Mixed.run 40 (Mixed.init demo_random demo_malloc) = Running s ∧
    Mixed.tick s = Running s' ∧
    Mixed.j_code <$> Mixed.first_job s'
    = (Mixed.j_code <$> filter (λ j, Mixed.j_state j ≠ Mixed.DONE) (Mixed.first_job s))
      ++ seqZ (Mixed.job_number s + 1) (Mixed.job_number s' - Mixed.job_number s).
Proof.
  eexists _, _. split; [vm_compute; reflexivity|]. split; [vm_compute; reflexivity|].
  apply (mixed_tick_keeps_pool_order demo_random demo_malloc 40); vm_compute; reflexivity.
Defined.
(** * AR: the pools from one tick to the next *)

Lemma ar_grown_refl s : ar_grown s s.
Proof.
  exists [], []. rewrite !app_nil_r, !Z.sub_diag. split_and!; try done; by constructor.
Qed.

Lemma ar_grown_trans s1 s2 s3 :
  ar_grown s1 s2 → ar_grown s2 s3 → ar_grown s1 s3.
Proof.
  intros (nr & nj & Hr & Hj & Har & Haj & Hcr & Hcj & H0r & H0j)
         (nr' & nj' & Hr' & Hj' & Har' & Haj' & Hcr' & Hcj' & H0r' & H0j').
  exists (nr ++ nr'), (nj ++ nj'). rewrite Hr', Hr, Hj', Hj, <- !app_assoc, !fmap_app.
  rewrite Hcr, Hcr', Hcj, Hcj'.
  split_and!; try done; try (by apply Forall_app); try lia.
  - replace (AR.resource_number s2 + 1)
      with (AR.resource_number s1
            + (AR.resource_number s2 - AR.resource_number s1) + 1) by lia.
    rewrite seqZ_join by done. f_equal. lia.
  - replace (AR.job_number s2 + 1)
      with (AR.job_number s1 + (AR.job_number s2 - AR.job_number s1) + 1) by lia.
    rewrite seqZ_join by done. f_equal. lia.
Qed.

Lemma ar_grown_same s s' :
  AR.first_res s' = AR.first_res s → AR.first_job s' = AR.first_job s →
  AR.resource_number s' = AR.resource_number s →
  AR.job_number s' = AR.job_number s →
  ar_grown s s' ∧ ar_created s s' = 0.
Proof.
  intros Hr Hj Hrn Hjn. unfold ar_created. rewrite Hrn, Hjn. split; [|lia].
  exists [], []. rewrite Hr, Hj, Hrn, Hjn, !app_nil_r, !Z.sub_diag.
  split_and!; try done; by constructor.
Qed.

Lemma ar_add_res_grown s s' :
  ar_mid s → ar_books s → AR.add_res s = Some s' →
  ar_grown s s' ∧ 0 ≤ ar_created s s' ≤ 1.
Proof.
  intros [[Hpool _ _ _ _ _] _] [Htl _ _ _] H.
  destruct (ar_add_res_inv s s' (proj1 Hpool) Htl H) as [[Hm ->]|[Hm ->]].
  - destruct (ar_grown_same s (AR.malloc s).2) as [Hg Hc]; try done.
    split; [done|lia].
  - split; [|unfold ar_created; simpl; lia].
    exists [ar_new_res s], []. simpl. rewrite app_nil_r, Z.sub_diag.
    replace (AR.resource_number s + 1 - AR.resource_number s) with 1 by lia.
    rewrite seqZ_one. split_and!; try done; try lia; by repeat constructor.
Qed.

Lemma ar_add_job_grown s s' :
  ar_mid s → AR.add_job s = Some s' →
  ar_grown s s' ∧ 0 ≤ ar_created s s' ≤ 1.
Proof.
  intros [[_ Hj Ht _ _ _] _] H.
  destruct (ar_add_job_inv s s' (proj1 Hj) Ht H) as [[Hm ->]|[Hm ->]].
  - destruct (ar_grown_same s (AR.malloc s).2) as [Hg Hc]; try done.
    split; [done|lia].
  - split; [|unfold ar_created; simpl; lia].
    exists [], [ar_new_job s]. simpl. rewrite app_nil_r, Z.sub_diag.
    replace (AR.job_number s + 1 - AR.job_number s) with 1 by lia.
    rewrite seqZ_one. split_and!; try done; try lia; by repeat constructor.
Qed.

Lemma ar_created_trans s1 s2 s3 :
  ar_created s1 s3 = ar_created s1 s2 + ar_created s2 s3.
Proof. unfold ar_created. lia. Qed.

Lemma ar_repeat_add_res_grown n : ∀ s s',
  ar_mid s → ar_books s → AR.repeat_add_res n s = Some s' →
  ar_grown s s' ∧ 0 ≤ ar_created s s' ≤ Z.of_nat n.
Proof.
  induction n as [|n IH]; intros s s' Hmid Hb; simpl.
  { intros [= <-]. destruct (ar_grown_same s s) as [Hg Hc]; try done. split; [done|lia]. }
  intros H. apply bind_Some in H as (s1 & H1 & H).
  destruct (ar_add_res_grown _ _ Hmid Hb H1) as [Hg1 Hc1].
  destruct (IH s1 s' (ar_add_res_mid _ _ Hmid H1) (ar_add_res_books _ _ Hmid Hb H1) H)
    as [Hg2 Hc2].
  split; [by eapply ar_grown_trans|]. rewrite (ar_created_trans s s1 s'). lia.
Qed.

Lemma ar_add_remove_pools s s' :
  ar_mid s → ar_books s → ar_census true s → AR.add_remove s = Some s' →
  ∃ nr nj,
    AR.first_res s'
    = filter (λ r, AR.r_state r ≠ AR.LEAVING) (AR.first_res s) ++ nr ∧
    AR.first_job s'
    = filter (λ j, AR.j_state j ≠ AR.DONE) (AR.first_job s) ++ nj ∧
    AR.r_code <$> nr
    = seqZ (AR.resource_number s + 1) (AR.resource_number s' - AR.resource_number s) ∧
    AR.j_code <$> nj
    = seqZ (AR.job_number s + 1) (AR.job_number s' - AR.job_number s) ∧
    0 ≤ AR.resource_number s' - AR.resource_number s ∧
    0 ≤ AR.job_number s' - AR.job_number s ∧
    ar_created s s' ≤ (if AR.begin s then 6 else 1).
Proof.
  intros Hmid Hb Hc. unfold AR.add_remove. intros H.
  apply bind_Some in H as (s1 & H1 & H).
  assert (ar_mid s1 ∧ ar_books s1 ∧ ar_grown s s1 ∧
          0 ≤ ar_created s s1 ≤ (if AR.begin s then 5 else 0))
    as (Hmid1 & Hb1 & Hg1 & Hc1).
  { destruct (AR.begin s).
    2: { injection H1 as <-. destruct (ar_grown_same s s) as [Hg Hcr]; try done.
         split_and!; try done; lia. }
    apply fmap_Some in H1 as (s0 & H0 & ->).
    destruct (ar_repeat_add_res_books true _ _ _ Hmid Hb Hc H0) as [Hb0 _].
    destruct (ar_repeat_add_res_grown _ _ _ Hmid Hb H0) as [Hg0 Hc0].
    split_and!.
    - eapply ar_mid_ext; [by eapply ar_repeat_add_res_mid|done..|simpl; lia].
    - by eapply ar_books_ext.
    - exact Hg0.
    - apply Hc0.
    - unfold ar_created in *. simpl. lia. }
  apply ar_remove_done_jobs_mid, ar_remove_leaving_resources_mid in Hmid1.
  apply ar_removals_books in Hb1.
  simpl in H.
  match type of H with AR.add_on_draw _ ?s4 = _ =>
    assert (ar_mid s4 ∧ ar_books s4) as (Hmid4 & Hb4)
      by (split; [eapply ar_mid_ext; [exact Hmid1|done..|simpl; lia]
                 |by eapply ar_books_ext]);
    assert (ar_grown s4 s' ∧ 0 ≤ ar_created s4 s' ≤ 1) as [Hg4 Hc4]
  end.
  { unfold AR.add_on_draw in H. destruct (AR.admission_of_draw _).
    - by eapply ar_add_res_grown.
    - by eapply ar_add_job_grown.
    - injection H as <-. split; [apply ar_grown_refl|]. unfold ar_created. lia. }
  destruct Hg1 as (nr1 & nj1 & Hr1 & Hj1 & Har1 & Haj1 & Hcr1 & Hcj1 & H0r1 & H0j1).
  destruct Hg4 as (nr4 & nj4 & Hr4 & Hj4 & _ & _ & Hcr4 & Hcj4 & H0r4 & H0j4).
  simpl in Hr4, Hj4, Hcr4, Hcj4, H0r4, H0j4. unfold ar_created in *. simpl in Hc4.
  exists (nr1 ++ nr4), (nj1 ++ nj4).
  rewrite Hr4, Hj4, Hr1, Hj1, !fmap_app, Hcr1, Hcj1, Hcr4, Hcj4.
  rewrite !filter_app_all, <- !app_assoc.
  2: { eapply Forall_impl; [exact Haj1|]. by intros j ->. }
  2: { eapply Forall_impl; [exact Har1|]. by intros r ->. }
  split_and!; try done; try lia.
  - replace (AR.resource_number s1 + 1)
      with (AR.resource_number s
            + (AR.resource_number s1 - AR.resource_number s) + 1) by lia.
    rewrite seqZ_join by done. f_equal. lia.
  - replace (AR.job_number s1 + 1)
      with (AR.job_number s + (AR.job_number s1 - AR.job_number s) + 1) by lia.
    rewrite seqZ_join by done. f_equal. lia.
  - destruct (AR.begin s); lia.
Qed.

(** X24: what a tick of the AR simulator does to the pools.  From a
    state a run reaches between two ticks to the state after the next
    tick, the resource pool is, in this order, the resources that were
    not LEAVING, followed by the resources created in the tick, with
    the codes [resource_number + 1] onwards; the job pool is the jobs
    that were not DONE, in their order, followed by the jobs created,
    with the codes [job_number + 1] onwards: no node is reordered, none
    is lost but the LEAVING resources and the DONE jobs, all of which
    are freed.  One tick creates at most one node, but for the first
    tick, which creates at most six. *)
Theorem ar_tick_keeps_pool_order
    (rnd : nat → N) (mal : nat → bool) (n : nat) (s s' : AR.sim) :
  AR.run n (AR.init rnd mal) = Running s → AR.tick s = Running s' →
  AR.r_code <$> AR.first_res s'
  = (AR.r_code <$> filter (λ r, AR.r_state r ≠ AR.LEAVING) (AR.first_res s))
    ++ seqZ (AR.resource_number s + 1)
         (AR.resource_number s' - AR.resource_number s) ∧
  AR.j_code <$> AR.first_job s'
  = (AR.j_code <$> filter (λ j, AR.j_state j ≠ AR.DONE) (AR.first_job s))
    ++ seqZ (AR.job_number s + 1) (AR.job_number s' - AR.job_number s) ∧
  AR.resource_number s ≤ AR.resource_number s' ∧
  AR.job_number s ≤ AR.job_number s' ∧
  (AR.resource_number s' - AR.resource_number s)
  + (AR.job_number s' - AR.job_number s) ≤ (if AR.begin s then 6 else 1).
Proof.
  intros Hrun Htick. destruct (ar_init_books rnd mal) as [Hb0 Hc0].
  pose proof (ar_run_wf n _ _ (ar_init_wf rnd mal) Hrun) as Hwf.
  destruct (ar_run_books n _ _ (ar_init_wf rnd mal) Hb0 Hc0 Hrun) as [Hb Hc].
  unfold AR.tick in Htick.
  destruct (AR.traceall s) as [s1| |] eqn:Htr; [|done..].
  apply ar_traceall_Running in Htr as ->.
  destruct (AR.add_remove (AR.trace_body s)) as [s2|] eqn:Har; [|done].
  destruct (AR.run_send s2) as [s3|] eqn:Hrs; [|done]. injection Htick as <-.
  destruct (ar_add_remove_pools _ _ (ar_trace_body_mid s Hwf)
              (ar_trace_body_books s Hwf Hb) (ar_trace_body_census s Hc) Har)
    as (nr & nj & Hr & Hj & Hcr & Hcj & H0r & H0j & Hcnt).
  destruct (ar_trace_body_globals s) as (_ & _ & Hrn & Hjn & Hbg & _).
  rewrite Hrn, Hjn in *. rewrite Hbg in Hcnt. unfold ar_created in Hcnt.
  rewrite Hrn, Hjn in Hcnt.
  apply ar_run_send_frame in Hrs as (Hk & Hjs & Hl & _). unfold ar_ledger in Hl.
  assert (AR.resource_number s3 = AR.resource_number s2) as Hrn3 by congruence.
  assert (AR.job_number s3 = AR.job_number s2) as Hjn3 by congruence.
  assert (AR.r_code <$> AR.first_res (AR.schedule s3)
          = AR.r_code <$> AR.first_res s2 ∧
          AR.j_code <$> AR.first_job (AR.schedule s3)
          = AR.j_code <$> AR.first_job s2 ∧
          AR.resource_number (AR.schedule s3) = AR.resource_number s2 ∧
          AR.job_number (AR.schedule s3) = AR.job_number s2)
    as (Hcr3 & Hcj3 & -> & ->).
  { assert (AR.r_code <$> AR.first_res s3 = AR.r_code <$> AR.first_res s2) as E1.
    { apply Forall2_fmap_eq. eapply Forall2_impl; [exact Hk|]. by intros r r' (_ & -> & _). }
    assert (AR.j_code <$> AR.first_job s3 = AR.j_code <$> AR.first_job s2) as E2.
    { apply Forall2_fmap_eq. eapply Forall2_impl; [exact Hjs|]. by intros j j' (_ & -> & _). }
    destruct (ar_schedule_shape s3)
      as [[-> _]|(k & j & _ & _ & _ & [[-> _]|(_ & bi & r & _ & ->)])]; [done|done|].
    unfold AR.bind_job. simpl. rewrite !fmap_alter_same by done. done. }
  rewrite Hcr3, Hcj3, Hr, Hj, !fmap_app, Hcr, Hcj.
  rewrite ar_trace_body_res, ar_trace_body_jobs.
  change (List.map ?f ?l) with (f <$> l).
  rewrite (fmap_filter_fmap (λ r, AR.r_state r ≠ AR.LEAVING)) by done.
  rewrite (fmap_filter_fmap (λ j, AR.j_state j ≠ AR.DONE));
    [|intros j; by destruct (ar_waits j)..].
  split_and!; try done; lia.
Qed.

Lemma ar_tick_keeps_pool_order_witness :
  ∃ s s', AR.run 40 (AR.init demo_random demo_malloc) = Running s ∧
    AR.tick s = Running s' ∧
    AR.j_code <$> AR.first_job s'
    = (AR.j_code <$> filter (λ j, AR.j_state j ≠ AR.DONE) (AR.first_job s))
      ++ seqZ (AR.job_number s + 1) (AR.job_number s' - AR.job_number s).
Proof.
  eexists _, _. split; [vm_compute; reflexivity|]. split; [vm_compute; reflexivity|].
  apply (ar_tick_keeps_pool_order demo_random demo_malloc 40); vm_compute; reflexivity.
Defined.
(** * Mixed: a bound job is served in bounded time *)

Lemma mixed_left_active j :
  mixed_job_range j → mixed_active j → 1 ≤ mixed_left j ≤ 1028.
Proof.
  unfold mixed_job_range, mixed_active, mixed_left.
  destruct (Mixed.j_state j); simpl; intros (Hw & Hr) [st Hst]; try done; lia.
Qed.

Lemma mixed_job_step_left rs j j' :
  Forall (λ r, 1 ≤ Mixed.r_level r ≤ 5) rs →
  mixed_job_range j → mixed_active j → mixed_job_step rs j j' →
  (Mixed.j_state j' = Mixed.DONE ∨ mixed_active j') ∧ mixed_left j' ≤ mixed_left j - 1.
Proof.
  intros Hlv Hrg Hact (_ & _ & _ & _ & Hst).
  unfold mixed_job_range in Hrg. unfold mixed_active, mixed_left in *.
  destruct (Mixed.j_state j) eqn:E; simpl in Hact; try by destruct Hact.
  - destruct Hst as (a & r & _ & Hd & _ & Hw & Hs).
    apply deref_Some in Hd as [Hr _]. eapply Forall_forall in Hlv; [|done].
    rewrite Hs. destruct (Z.leb_spec (Mixed.j_workload j') 0); simpl.
    + split; [by left|lia].
    + split; [right; by eexists|lia].
  - destruct Hst as (Hw & Hsd & Hs).
    rewrite Hs. destruct (Z.leb_spec (Mixed.j_send_data j') 0); simpl.
    + split; [right; by eexists|lia].
    + split; [right; by eexists|lia].
Qed.

(** Where a job of the pool comes from, one tick back: it has been
    created in the tick, or it was in the pool and not DONE, and if it
    was bound it has come one pass nearer to DONE. *)
Lemma mixed_tick_job_back s s' :
  mixed_wf s → mixed_books s → mixed_census false s → Mixed.tick s = Running s' →
  Mixed.job_number s ≤ Mixed.job_number s' ∧
  ∀ j', j' ∈ Mixed.first_job s' →
    Mixed.job_number s < Mixed.j_code j' ∨
    ∃ j, j ∈ Mixed.first_job s ∧ Mixed.j_state j ≠ Mixed.DONE ∧
      Mixed.j_code j' = Mixed.j_code j ∧
      (mixed_active j →
       (Mixed.j_state j' = Mixed.DONE ∨ mixed_active j') ∧
       mixed_left j' ≤ mixed_left j - 1).
Proof.
  intros Hwf Hb Hc Htick. unfold Mixed.tick in Htick.
  destruct (Mixed.traceall s) as [s1| |] eqn:Htr; [|done..].
  apply mixed_traceall_Running in Htr as ->.
  destruct (Mixed.add_remove (Mixed.trace_body s)) as [s2|] eqn:Har; [|done].
  destruct (Mixed.run_send s2) as [s3|] eqn:Hrs; [|done]. injection Htick as <-.
  pose proof (mixed_trace_body_mid s Hwf) as Hmid1.
  pose proof (mixed_trace_body_books s Hb) as Hb1.
  pose proof (mixed_trace_body_census s Hc) as Hc1.
  destruct (mixed_add_remove_books _ _ Hmid1 Hb1 Hc1 Har) as [Hb2 _].
  destruct (mixed_add_remove_pools _ _ Hmid1 Hb1 Hc1 Har)
    as (nr & nj & _ & Hj2 & _ & Hcj & _ & H0j & _).
  destruct (mixed_trace_body_globals s) as (_ & _ & _ & Hjn & _).
  rewrite Hjn in Hcj, H0j. rewrite mixed_trace_body_jobs in Hj2.
  change (List.map ?f ?l) with (f <$> l) in Hj2.
  apply mixed_run_send_step in Hrs as (Hjs & _ & Hl & _). unfold mixed_ledger in Hl.
  assert (Mixed.job_number s3 = Mixed.job_number s2) as Hjn3 by congruence.
  assert (Mixed.job_number (Mixed.schedule s3) = Mixed.job_number s3) as Hjn4.
  { destruct (mixed_schedule_cases s3)
      as [[-> _]|(ri & r & k & j0 & b & jb & _ & _ & _ & _ & _ & _ & _ & ->)]; done. }
  split; [lia|].
  intros j4 Hj4.
  (* the scheduler *)
  assert (∃ j3, j3 ∈ Mixed.first_job s3 ∧ Mixed.j_code j4 = Mixed.j_code j3 ∧
            (Mixed.j_state j3 ≠ Mixed.WAITING → j4 = j3)) as (j3 & Hj3 & Hc43 & He43).
  { destruct (mixed_schedule_cases s3)
      as [[Hs _]|(ri & r & k & j0 & b & jb & _ & _ & _ & _ & _ & _ & (Hjb & Hw & _) & Hs)];
      rewrite Hs in Hj4.
    - by exists j4.
    - unfold mixed_bind in Hj4. simpl in Hj4.
      apply list_elem_of_lookup_1 in Hj4 as [i Hi].
      destruct (decide (i = b)) as [->|Hne].
      + rewrite list_lookup_alter_eq, Hjb in Hi. simpl in Hi. injection Hi as <-.
        exists jb. split; [by eapply list_elem_of_lookup_2|]. split; [done|]. by intros [].
      + rewrite list_lookup_alter_ne in Hi by done.
        exists j4. split; [by eapply list_elem_of_lookup_2|done]. }
  (* the executor *)
  apply list_elem_of_lookup_1 in Hj3 as [i Hi3].
  destruct (Forall2_lookup_r _ _ _ _ _ Hjs Hi3) as (j2 & Hi2 & Hstep).
  assert (Mixed.j_code j3 = Mixed.j_code j2) as Hc32 by apply Hstep.
  (* the admission step *)
  apply list_elem_of_lookup_2 in Hi2. rewrite Hj2 in Hi2.
  apply elem_of_app in Hi2 as [Hold|Hnew].
  2: { left. rewrite Hc43, Hc32.
       assert (Mixed.j_code j2 ∈ Mixed.j_code <$> nj) as Hin by by apply list_elem_of_fmap_2.
       rewrite Hcj in Hin. apply elem_of_seqZ in Hin. lia. }
  right. apply list_elem_of_filter in Hold as [Hnd Hin].
  apply list_elem_of_fmap in Hin as (j & -> & Hj).
  exists j. split; [done|].
  assert (mixed_job_range j) as Hrg by (eapply Forall_forall; [apply (mb_ranges _ Hb)|done]).
  split; [by destruct (mixed_waits j)|]. split.
  { rewrite Hc43, Hc32. by destruct (mixed_waits j). }
  intros Hact.
  assert (mixed_waits j = false) as Hnw.
  { unfold mixed_waits. unfold mixed_active in Hact.
    destruct (Mixed.j_state j); try done. by destruct Hact. }
  rewrite Hnw in Hstep, Hnd.
  destruct (mixed_job_step_left _ _ _ (mb_levels _ Hb2) Hrg Hact Hstep) as [Hst3 Hleft3].
  assert (j4 = j3) as ->; [|done].
  apply He43. intros Hw3. destruct Hst3 as [Hd|[st Hst]]; [congruence|].
  by rewrite Hw3 in Hst.
Qed.

Lemma mixed_run_job_done k : ∀ s s' c p,
  mixed_wf s → mixed_books s → mixed_census false s →
  c ≤ Mixed.job_number s →
  (∀ j, j ∈ Mixed.first_job s → Mixed.j_code j = c →
     Mixed.j_state j = Mixed.DONE ∨ (mixed_active j ∧ mixed_left j ≤ p)) →
  Mixed.run k s = Running s' → p ≤ Z.of_nat k →
  ∀ j', j' ∈ Mixed.first_job s' → Mixed.j_code j' = c → Mixed.j_state j' = Mixed.DONE.
Proof.
  induction k as [|k IH]; intros s s' c p Hwf Hb Hc Hcn Hinv; simpl.
  - intros [= <-] Hp j Hj Hjc. destruct (Hinv j Hj Hjc) as [?|[Hact Hleft]]; [done|].
    assert (mixed_job_range j) as Hrg by (eapply Forall_forall; [apply (mb_ranges _ Hb)|done]).
    pose proof (mixed_left_active j Hrg Hact). lia.
  - destruct (Mixed.tick s) as [s1| |] eqn:Htick; [|done..].
    intros Hrun Hp.
    destruct (mixed_tick_books _ _ Hwf Hb Hc Htick) as [Hb1 Hc1].
    destruct (mixed_tick_job_back _ _ Hwf Hb Hc Htick) as [Hjn Hback].
    apply (IH s1 s' c (p - 1)); [by eapply mixed_tick_Running_wf|done..|lia| |done|lia].
    intros j1 Hj1 Hjc1.
    destruct (Hback j1 Hj1) as [Hnew|(j & Hj & Hnd & Hcode & Hstep)]; [lia|].
    destruct (Hinv j Hj) as [?|[Hact Hleft]]; [congruence|done|].
    destruct (Hstep Hact) as [[Hd|Hact1] Hleft1]; [by left|right].
    split; [done|lia].
Qed.

Lemma codes_between_same_code {A} (code : A → Z) lo hi (l : list A) x y :
  codes_between lo hi (code <$> l) → x ∈ l → y ∈ l → code x = code y → x = y.
Proof.
  intros Hc [i Hi]%list_elem_of_lookup_1 [k Hk]%list_elem_of_lookup_1 Heq.
  assert (∀ a b u v, (a < b)%nat → l !! a = Some u → l !! b = Some v → code u < code v) as Hlt.
  { intros a b u v Hab Hu Hv.
    eapply (codes_between_increasing _ _ _ a b); [exact Hc|done|..];
      by rewrite list_lookup_fmap, ?Hu, ?Hv. }
  destruct (lt_eq_lt_dec i k) as [[Hik|Hik]|Hik].
  - pose proof (Hlt _ _ _ _ Hik Hi Hk). lia.
  - subst k. congruence.
  - pose proof (Hlt _ _ _ _ Hik Hk Hi). lia.
Qed.

(** X25: in the mixed simulator a job that has been bound to a resource
    is served in bounded time.  [j] being a job that is SENDING_DATA or
    RUNNING in a state [s] a run reaches between two ticks, and
    [mixed_left j] the units of data it still has to send (at least 1)
    plus its workload, which is at most 1028: in every state the run
    reaches [mixed_left j] ticks later or more, the job with the code of
    [j] is DONE if it is still in the pool. *)
Theorem mixed_bound_job_is_done_in_time
    (rnd : nat → N) (mal : nat → bool) (n k : nat) (s s' : Mixed.sim) (j : Mixed.job) :
  Mixed.run n (Mixed.init rnd mal) = Running s →
  j ∈ Mixed.first_job s →
  Mixed.j_state j = Mixed.SENDING_DATA ∨ Mixed.j_state j = Mixed.RUNNING →
  Mixed.run k s = Running s' → mixed_left j ≤ Z.of_nat k →
  mixed_left j ≤ 1028 ∧
  ∀ j', j' ∈ Mixed.first_job s' → Mixed.j_code j' = Mixed.j_code j →
    Mixed.j_state j' = Mixed.DONE.
Proof.
  intros Hrun Hj Hst Hrun' Hk. destruct (mixed_init_books rnd mal) as [Hb0 Hc0].
  pose proof (mixed_run_wf n _ _ (mixed_init_wf rnd mal) Hrun) as Hwf.
  destruct (mixed_run_books n _ _ (mixed_init_wf rnd mal) Hb0 Hc0 Hrun) as [Hb Hc].
  assert (mixed_active j) as Hact.
  { unfold mixed_active. destruct Hst as [-> | ->]; by eexists. }
  assert (mixed_job_range j) as Hrg by (eapply Forall_forall; [apply (mb_ranges _ Hb)|done]).
  split; [by apply mixed_left_active|].
  apply (mixed_run_job_done k s s' (Mixed.j_code j) (mixed_left j)); try done.
  - apply list_elem_of_lookup_1 in Hj as [i Hi].
    pose proof (codes_between_lookup _ _ _ i (Mixed.j_code j) (mb_job_codes _ Hb)) as H.
    rewrite list_lookup_fmap, Hi in H. specialize (H eq_refl). lia.
  - intros j0 Hj0 Hcode. right.
    rewrite (codes_between_same_code Mixed.j_code _ _ _ j0 j (mb_job_codes _ Hb) Hj0 Hj Hcode).
    split; [done|lia].
Qed.

Lemma mixed_bound_job_is_done_in_time_witness :
  ∃ s', Mixed.run 89 mixed_demo_12 = Running s' ∧
    ∀ j', j' ∈ Mixed.first_job s' → Mixed.j_code j' = 1 → Mixed.j_state j' = Mixed.DONE.
Proof.
  eexists. split; [vm_compute; reflexivity|].
  apply (mixed_bound_job_is_done_in_time demo_random demo_malloc 12 89 mixed_demo_12 _
           (Mixed.mkJob 6 1 Mixed.RUNNING 89 0 0 (Some 1%nat))).
  - vm_compute; reflexivity.
  - apply list_elem_of_here.
  - by right.
  - vm_compute; reflexivity.
  - vm_compute. discriminate.
Defined.
(** * AR: a reserved job is served in bounded time *)

(** ** One pass over the jobs of a chain *)

Lemma ar_nearer_refl_all L : Forall2 ar_nearer L L.
Proof. induction L; constructor; [by split|done]. Qed.

Lemma ar_cost_range j :
  ar_job_range j → 0 ≤ ar_cost j ≤ 1031 ∧ (ar_in_service j → 1 ≤ ar_cost j).
Proof.
  unfold ar_job_range, ar_cost, ar_in_service.
  destruct (AR.j_state j); intros (Hw & _ & Hr); (split; [lia|]); intros [? ?]; try done; lia.
Qed.

Lemma ar_walk_step_nearer L :
  ar_ready_then L ∨ Forall (λ x, AR.j_state x = AR.WAITING_TO_SEND_DATA) L →
  Forall ar_job_range L →
  Forall2 ar_nearer L (ar_walk_step L) ∧
  ∀ j L', L = j :: L' →
    AR.j_state j = AR.SENDING_DATA ∨ AR.j_state j = AR.WAITING_TO_SEND_DATA →
    ∃ y Ly, ar_walk_step L = y :: Ly ∧ AR.j_code y = AR.j_code j ∧
      ar_cost y ≤ ar_cost j - 1 ∧ Forall2 ar_nearer L' Ly.
Proof.
  induction L as [|j L IH]; [intros _ _; split; [constructor|done]|].
  intros Hp [Hj HL]%Forall_cons.
  assert (Forall (λ x, AR.j_state x = AR.WAITING_TO_SEND_DATA) L →
          Forall2 ar_nearer L
            match L with [] => [] | n :: L'' => AR.set_j_state AR.SENDING_DATA n :: L'' end)
    as Hnext.
  { destruct L as [|n L']; [constructor|]. intros [Hn _]%Forall_cons.
    constructor; [|apply ar_nearer_refl_all].
    unfold ar_nearer, ar_cost. simpl. rewrite Hn. split; [done|lia]. }
  assert (AR.j_state j ≠ AR.SENDING_DATA → AR.j_state j ≠ AR.WAITING_TO_SEND_DATA →
          ar_ready_then L ∨ Forall (λ x, AR.j_state x = AR.WAITING_TO_SEND_DATA) L) as Hrest.
  { intros Hs Hw. destruct Hp as [Hp|Hp].
    - simpl in Hp. destruct (AR.j_state j); try done. by left.
    - apply Forall_cons in Hp as [? ?]. congruence. }
  assert (AR.j_state j = AR.SENDING_DATA →
          Forall (λ x, AR.j_state x = AR.WAITING_TO_SEND_DATA) L) as Hq.
  { intros Hst. destruct Hp as [Hp|Hp]; [simpl in Hp; by rewrite Hst in Hp|].
    by apply Forall_cons in Hp as [? ?]. }
  unfold ar_job_range in Hj. simpl.
  destruct (AR.j_state j) eqn:Hst.
  1,2,3,6: (split; [constructor; [by split|by apply IH; [apply Hrest|]]
                   |intros j0 L0 [= <- <-] [?|?]; congruence]).
  - (* SENDING_DATA *)
    specialize (Hq eq_refl).
    destruct (Z.leb_spec (AR.j_send_data j - 1) 0) as [Hsd|Hsd].
    + assert (ar_cost (AR.set_j_state AR.READY_TO_RUN
                         (AR.set_j_send_data (AR.j_send_data j - 1) j)) ≤ ar_cost j - 1) as Hc.
      { unfold ar_cost. simpl. rewrite Hst. lia. }
      split.
      * constructor; [split; [done|lia]|by apply Hnext].
      * intros j0 L0 [= <- <-] _. eexists _, _. split; [done|]. split; [done|].
        split; [done|by apply Hnext].
    + assert (ar_cost (AR.set_j_send_data (AR.j_send_data j - 1) j) ≤ ar_cost j - 1) as Hc.
      { unfold ar_cost. simpl. rewrite Hst. lia. }
      split.
      * constructor; [split; [done|lia]|apply ar_nearer_refl_all].
      * intros j0 L0 [= <- <-] _. eexists _, _. split; [done|]. split; [done|].
        split; [done|apply ar_nearer_refl_all].
  - (* WAITING_TO_SEND_DATA *)
    assert (ar_cost (AR.set_j_state AR.SENDING_DATA j) ≤ ar_cost j - 1) as Hc.
    { unfold ar_cost. simpl. rewrite Hst. lia. }
    split.
    + constructor; [split; [done|lia]|apply ar_nearer_refl_all].
    + intros j0 L0 [= <- <-] _. eexists _, _. split; [done|]. split; [done|].
      split; [done|apply ar_nearer_refl_all].
Qed.

(** One pass of the executor over a chain: the head comes at least one
    unit nearer to DONE, or it is DONE and unlinked; no job behind it is
    set back. *)
Lemma ar_pass_nearer lv L :
  1 ≤ lv ≤ 5 → ar_pattern L → Forall ar_job_range L →
  match (ar_head_step lv L).2 with
  | None =>
      L = [] ∨
      ∃ j L' y Ly, L = j :: L' ∧ ar_walk_step (ar_head_step lv L).1 = y :: Ly ∧
        AR.j_code y = AR.j_code j ∧ ar_cost y ≤ ar_cost j - 1 ∧ Forall2 ar_nearer L' Ly
  | Some jd =>
      ∃ j L', L = j :: L' ∧ AR.j_code jd = AR.j_code j ∧ AR.j_state jd = AR.DONE ∧
        1 ≤ ar_cost j ∧ Forall2 ar_nearer L' (ar_walk_step (ar_head_step lv L).1)
  end.
Proof.
  intros Hlv Hpat Hrg. destruct L as [|j L]; [by left|].
  apply Forall_cons in Hrg as [Hj HL]. unfold ar_head_step.
  pose proof Hj as Hjr. unfold ar_job_range in Hj.
  destruct Hpat as [[Hr Hrt]|Hrt].
  - rewrite Hr in *. destruct (Z.ltb_spec (AR.j_workload j - lv) 0) as [Hw|Hw]; simpl.
    + exists j, L. split_and!; try done.
      * unfold ar_cost. rewrite Hr. lia.
      * apply ar_walk_step_nearer; [by left|done].
    + right. rewrite Hr. eexists j, L, _, _. split_and!; [done|done|done| |].
      * unfold ar_cost. simpl. rewrite Hr. lia.
      * apply ar_walk_step_nearer; [by left|done].
  - simpl in Hrt. destruct (AR.j_state j) eqn:Hst; try done; simpl.
    + (* SENDING_DATA *)
      right. destruct (ar_walk_step_nearer (j :: L)) as [_ Hhead].
      { left. simpl. by rewrite Hst. }
      { by constructor. }
      destruct (Hhead j L eq_refl) as (y & Ly & Hy & Hc & Hcost & Hrest); [by left|].
      by exists j, L, y, Ly.
    + (* WAITING_TO_SEND_DATA *)
      right. destruct (ar_walk_step_nearer (j :: L)) as [_ Hhead].
      { left. simpl. by rewrite Hst. }
      { by constructor. }
      destruct (Hhead j L eq_refl) as (y & Ly & Hy & Hc & Hcost & Hrest); [by right|].
      by exists j, L, y, Ly.
    + (* READY_TO_RUN *)
      right. eexists j, L, _, _. split_and!; [done|done|done| |].
      * unfold ar_cost. simpl. rewrite Hst. lia.
      * apply ar_walk_step_nearer; [by left|done].
Qed.

Lemma ar_costs_take_nearer L L' m :
  Forall2 ar_nearer L L' → ar_costs (take m L') ≤ ar_costs (take m L).
Proof.
  intros H. revert m. induction H as [|x y L L' [_ Hxy] _ IH]; intros m.
  - by rewrite !take_nil.
  - destruct m as [|m]; simpl; [lia|]. specialize (IH m). lia.
Qed.

Lemma ar_costs_nonneg L : Forall ar_job_range L → 0 ≤ ar_costs L.
Proof.
  induction 1 as [|j L Hj _ IH]; simpl; [lia|].
  pose proof (ar_cost_range j Hj). lia.
Qed.

(** The job at position [i] of the chain after one pass: it is DONE and
    unlinked, or it is in the chain and the bound on the passes it needs
    has gone down. *)
Lemma ar_pass_position lv L i j :
  1 ≤ lv ≤ 5 → ar_pattern L → Forall ar_job_range L → L !! i = Some j →
  (∃ jd, (ar_head_step lv L).2 = Some jd ∧ i = 0%nat ∧ AR.j_code jd = AR.j_code j ∧
         AR.j_state jd = AR.DONE) ∨
  ∃ i' j', ar_walk_step (ar_head_step lv L).1 !! i' = Some j' ∧
    AR.j_code j' = AR.j_code j ∧
    ar_costs (take (S i') (ar_walk_step (ar_head_step lv L).1))
    ≤ ar_costs (take (S i) L) - 1.
Proof.
  intros Hlv Hpat Hrg Hi. pose proof (ar_pass_nearer lv L Hlv Hpat Hrg) as H.
  destruct (ar_head_step lv L).2 as [jd|].
  - destruct H as (j0 & L' & -> & Hc & Hd & Hcost & Hrest).
    destruct i as [|i]; simpl in Hi.
    + injection Hi as <-. left. by exists jd.
    + right. destruct (Forall2_lookup_l _ _ _ _ _ Hrest Hi) as (j' & Hj' & Hcj & _).
      exists i, j'. split; [done|]. split; [done|].
      pose proof (ar_costs_take_nearer _ _ (S i) Hrest). simpl in *. lia.
  - destruct H as [->|(j0 & L' & y & Ly & -> & Hy & Hc & Hcost & Hrest)]; [done|].
    right. rewrite Hy. destruct i as [|i]; simpl in Hi.
    + injection Hi as <-. exists 0%nat, y. split; [done|]. split; [done|].
      simpl. rewrite ?take_0. simpl. lia.
    + destruct (Forall2_lookup_l _ _ _ _ _ Hrest Hi) as (j' & Hj' & Hcj & _).
      exists (S i), j'. split; [done|]. split; [done|].
      pose proof (ar_costs_take_nearer _ _ (S i) Hrest). simpl in *. lia.
Qed.

(** ** The bound from one step to the next *)

Lemma ar_chain_at_fun jobs q L L' :
  ar_chain_at jobs q L → ar_chain_at jobs q L' → L = L'.
Proof.
  intros H. revert L'. induction H as [|a j q L Hj _ IH]; intros L' H'.
  - by inversion H'.
  - inversion H' as [|? j' ? L'' Hj' Hrest]; subst. f_equal; [congruence|by apply IH].
Qed.

Lemma ar_chain_at_in jobs q L j : ar_chain_at jobs q L → j ∈ L → j ∈ jobs.
Proof.
  intros Hch [i Hi]%list_elem_of_lookup_1.
  destruct (Forall2_lookup_r _ _ _ _ _ Hch Hi) as (a & _ & Hd).
  by apply deref_Some in Hd as [? _].
Qed.

(** What the audit tells of the chain of a resource. *)
Lemma ar_audit_chain rs jobs r L :
  ar_audit rs jobs → r ∈ rs → ar_chain_at jobs (AR.r_rsv r) L →
  ar_pattern L ∧ Forall ar_job_range L ∧ Forall ar_in_service L ∧
  1 ≤ AR.r_level r ≤ 5 ∧ (L ≠ [] → AR.r_state r ≠ AR.LEAVING).
Proof.
  intros [Hch Hrg Hlv _] Hr HL.
  eapply Forall_forall in Hch; [|done]. eapply Forall_forall in Hlv; [|done].
  destruct Hch as [(L0 & HL0 & Hpat & _) Hleave].
  rewrite (ar_chain_at_fun _ _ _ _ HL HL0) in *.
  split; [done|]. split; [by eapply ar_chain_at_Forall|].
  split; [by apply ar_pattern_in_service|]. split; [done|].
  intros Hne Hl. rewrite (Hleave Hl) in HL0. inversion HL0. by subst.
Qed.

Lemma ar_within_mono c p p' rs jobs : p ≤ p' → ar_within c p rs jobs → ar_within c p' rs jobs.
Proof.
  intros Hp H j Hj Hc. destruct (H j Hj Hc) as [?|(r & L & i & Hr & HL & Hi & Hcost)]; [by left|].
  right. exists r, L, i. split_and!; [done..|lia].
Qed.

Lemma ar_costs_fmap (g : AR.job → AR.job) L :
  (∀ x, ar_cost (g x) = ar_cost x) → ar_costs (g <$> L) = ar_costs L.
Proof.
  intros Hg. induction L as [|x L IH]; [done|]. rewrite fmap_cons.
  change (ar_cost (g x) + ar_costs (g <$> L) = ar_cost x + ar_costs L). by rewrite Hg, IH.
Qed.

Lemma ar_within_fmap c p rs jobs (f : AR.resource → AR.resource) (g : AR.job → AR.job) :
  (∀ r, AR.r_rsv (f r) = AR.r_rsv r) →
  (∀ x, AR.j_addr (g x) = AR.j_addr x ∧ AR.j_code (g x) = AR.j_code x ∧
        AR.j_state (g x) = AR.j_state x ∧ ar_cost (g x) = ar_cost x) →
  ar_within c p rs jobs → ar_within c p (f <$> rs) (g <$> jobs).
Proof.
  intros Hf Hg H j' Hj' Hc. apply list_elem_of_fmap in Hj' as (j & -> & Hj).
  destruct (Hg j) as (Ha & Hcd & Hst & Hcost). rewrite Hcd in Hc.
  destruct (H j Hj Hc) as [Hd|(r & L & i & Hr & HL & Hi & Hp)]; [left; congruence|].
  right. exists (f r), (g <$> L), i. split_and!.
  - by apply list_elem_of_fmap_2.
  - rewrite Hf. apply ar_chain_at_fmap; [|done]. intros x. apply Hg.
  - by rewrite list_lookup_fmap, Hi.
  - rewrite <- fmap_take, ar_costs_fmap; [done|]. intros x. apply Hg.
Qed.

Lemma ar_within_filter c p rs jobs :
  NoDup (AR.j_addr <$> jobs) → ar_audit rs jobs → ar_within c p rs jobs →
  ar_within c p (filter (λ r, AR.r_state r ≠ AR.LEAVING) rs)
    (filter (λ j, AR.j_state j ≠ AR.DONE) jobs).
Proof.
  intros Hnd Hau H j [Hnd' Hj]%list_elem_of_filter Hc.
  destruct (H j Hj Hc) as [?|(r & L & i & Hr & HL & Hi & Hp)]; [done|].
  destruct (ar_audit_chain _ _ _ _ Hau Hr HL) as (_ & _ & Hserv & _ & Hleave).
  right. exists r, L, i. split_and!; [|..|done|done].
  - apply list_elem_of_filter. split; [|done]. apply Hleave. intros ->. done.
  - apply ar_chain_at_filter; [done| |done].
    eapply Forall_impl; [exact Hserv|]. by intros x [_ ?].
Qed.

Lemma ar_within_new_res c p rs jobs r :
  ar_within c p rs jobs → ar_within c p (rs ++ [r]) jobs.
Proof.
  intros H j Hj Hc. destruct (H j Hj Hc) as [?|(r0 & L & i & Hr & Hrest)]; [by left|].
  right. exists r0, L, i. split; [apply elem_of_app; by left|done].
Qed.

Lemma ar_within_new_job c p rs jobs x :
  AR.j_code x ≠ c → ar_within c p rs jobs → ar_within c p rs (jobs ++ [x]).
Proof.
  intros Hx H j [Hj|Hj]%elem_of_app Hc.
  2: { apply list_elem_of_singleton in Hj as ->. done. }
  destruct (H j Hj Hc) as [?|(r & L & i & Hr & HL & Hrest)]; [by left|].
  right. exists r, L, i. split; [done|]. split; [|done].
  eapply Forall2_impl; [exact HL|]. intros a y Hy. simpl. by apply deref_app_l.
Qed.

(** ** The steps of a tick *)

Lemma ar_cost_waits j :
  ar_cost (if ar_waits j then AR.set_j_wait_time (AR.j_wait_time j + 1) j else j) = ar_cost j.
Proof. by destruct (ar_waits j). Qed.

Lemma ar_trace_body_within c p s :
  ar_within c p (AR.first_res s) (AR.first_job s) →
  ar_within c p (AR.first_res (AR.trace_body s)) (AR.first_job (AR.trace_body s)).
Proof.
  intros H. rewrite ar_trace_body_jobs, ar_trace_body_res.
  apply (ar_within_fmap c p _ _ _ _); [done| |done].
  intros x. split_and!; [by destruct (ar_waits x)..|apply ar_cost_waits].
Qed.

Lemma ar_add_res_within c p s s' :
  ar_mid s → ar_books s → AR.add_res s = Some s' →
  ar_within c p (AR.first_res s) (AR.first_job s) →
  ar_within c p (AR.first_res s') (AR.first_job s').
Proof.
  intros [[Hres _ _ _ _ _] _] [Ht _ _ _] H Hw.
  destruct (ar_add_res_inv s s' (proj1 Hres) Ht H) as [[Hm ->]|[Hm ->]].
  - unfold AR.malloc. by rewrite Hm.
  - simpl. by apply ar_within_new_res.
Qed.

Lemma ar_add_job_within c p s s' :
  ar_mid s → AR.add_job s = Some s' → c ≤ AR.job_number s →
  ar_within c p (AR.first_res s) (AR.first_job s) →
  ar_within c p (AR.first_res s') (AR.first_job s').
Proof.
  intros [[_ Hjobs Htl _ _ _] _] H Hc Hw.
  destruct (ar_add_job_inv s s' (proj1 Hjobs) Htl H) as [[Hm ->]|[Hm ->]].
  - unfold AR.malloc. by rewrite Hm.
  - simpl. apply ar_within_new_job; [simpl; lia|done].
Qed.

Lemma ar_repeat_add_res_within c p n : ∀ s s',
  ar_mid s → ar_books s → AR.repeat_add_res n s = Some s' →
  ar_within c p (AR.first_res s) (AR.first_job s) →
  ar_within c p (AR.first_res s') (AR.first_job s').
Proof.
  induction n as [|n IH]; intros s s' Hmid Hb; simpl; [by intros [= <-]|].
  intros H Hw. apply bind_Some in H as (s1 & H1 & H).
  eapply (IH s1); [by eapply ar_add_res_mid|by eapply ar_add_res_books|done|].
  by eapply ar_add_res_within.
Qed.

Lemma ar_add_remove_within c p s s' :
  ar_mid s → ar_books s → ar_census true s →
  ar_audit (AR.first_res s) (AR.first_job s) →
  AR.add_remove s = Some s' → c ≤ AR.job_number s →
  ar_within c p (AR.first_res s) (AR.first_job s) →
  ar_within c p (AR.first_res s') (AR.first_job s').
Proof.
  intros Hmid Hb Hc Hau. unfold AR.add_remove. intros H Hcn Hw.
  apply bind_Some in H as (s1 & H1 & H).
  assert (ar_mid s1 ∧ ar_books s1 ∧ ar_audit (AR.first_res s1) (AR.first_job s1) ∧
          c ≤ AR.job_number s1 ∧ ar_within c p (AR.first_res s1) (AR.first_job s1))
    as (Hmid1 & Hb1 & Hau1 & Hcn1 & Hw1).
  { destruct (AR.begin s); [|by injection H1 as <-].
    apply fmap_Some in H1 as (s0 & H0 & ->).
    pose proof (ar_repeat_add_res_keep _ _ _ Hmid Hb H0) as Hb0.
    split_and!.
    - eapply ar_mid_ext; [by eapply ar_repeat_add_res_mid|done..|simpl; lia].
    - by eapply ar_books_ext.
    - exact (ar_repeat_add_res_audit _ _ _ Hmid Hb Hau H0).
    - simpl. destruct (ar_repeat_add_res_log _ _ _ H0) as (_ & _ & ?). lia.
    - simpl. by eapply ar_repeat_add_res_within. }
  pose proof (ar_removals_audit s1 (proj1 (awf_jobs _ (proj1 Hmid1))) Hau1) as Hau3.
  pose proof (ar_within_filter c p _ _ (proj1 (awf_jobs _ (proj1 Hmid1))) Hau1 Hw1) as Hw3.
  apply ar_remove_done_jobs_mid, ar_remove_leaving_resources_mid in Hmid1.
  apply ar_removals_books in Hb1.
  simpl in H.
  match type of H with AR.add_on_draw _ ?s4 = _ =>
    assert (ar_mid s4 ∧ ar_books s4 ∧ c ≤ AR.job_number s4 ∧
            ar_within c p (AR.first_res s4) (AR.first_job s4))
      as (Hmid4 & Hb4 & Hcn4 & Hw4)
  end.
  { split_and!; [eapply ar_mid_ext; [exact Hmid1|done..|simpl; lia]
                |by eapply ar_books_ext|done|done]. }
  unfold AR.add_on_draw in H.
  destruct (AR.admission_of_draw _).
  - by eapply ar_add_res_within.
  - by eapply ar_add_job_within.
  - by injection H as <-.
Qed.

Lemma ar_run_send_within c p s s' :
  ar_mid s → ar_books s → ar_audit (AR.first_res s) (AR.first_job s) →
  AR.run_send s = Some s' →
  ar_within c p (AR.first_res s) (AR.first_job s) →
  ar_within c (p - 1) (AR.first_res s') (AR.first_job s').
Proof.
  intros Hmid Hb Hau Hrun Hw.
  destruct (ar_run_send_passes s Hmid Hau) as (s'' & Hrun' & Hpass & Hfr).
  rewrite Hrun in Hrun'. injection Hrun' as <-.
  pose proof (ar_run_send_books _ _ (proj1 Hmid) Hb Hrun) as Hb'.
  destruct (ar_run_send_frame _ _ Hrun) as (_ & Hkept & _).
  destruct (ar_run_send_wf s Hmid) as (s'' & Hf & Hrun'' & Hwf' & _).
  rewrite Hrun in Hrun''. injection Hrun'' as <-.
  assert (∀ x y, x ∈ AR.first_job s' → y ∈ AR.first_job s' →
            AR.j_code x = AR.j_code y → x = y) as Huniq.
  { intros x y. apply (codes_between_same_code AR.j_code _ _ _ x y (ab_job_codes _ Hb')). }
  intros j' Hj' Hc.
  apply list_elem_of_lookup_1 in Hj' as [m Hm].
  destruct (Forall2_lookup_r _ _ _ _ _ Hkept Hm) as (j & Hj & Ha & Hcd & _).
  assert (j ∈ AR.first_job s) as Hjin by by eapply list_elem_of_lookup_2.
  assert (j' ∈ AR.first_job s') as Hjin' by by eapply list_elem_of_lookup_2.
  rewrite Hcd in Hc.
  destruct (Hw j Hjin Hc) as [Hd|(r & L & i & Hr & HL & Hi & Hp)].
  - left.
    pose proof (deref_NoDup AR.j_addr _ _ (proj1 (awf_jobs _ (proj1 Hmid))) Hjin) as Hdj.
    pose proof (ar_done_not_queued s j (proj1 Hmid) Hdj Hd) as Hnq.
    pose proof (Hfr _ Hnq) as Hsame. unfold AR.job_at in Hsame. rewrite Hdj in Hsame.
    pose proof (deref_NoDup AR.j_addr _ _ (proj1 (awf_jobs _ Hwf')) Hjin') as Hdj'.
    rewrite Ha, Hsame in Hdj'. injection Hdj' as <-. done.
  - destruct (ar_audit_chain _ _ _ _ Hau Hr HL) as (Hpat & Hrg & _ & Hlv & _).
    apply list_elem_of_lookup_1 in Hr as [k Hk].
    destruct (Forall2_lookup_l _ _ _ _ _ Hpass Hk) as (r' & Hk' & L0 & HL0 & HL' & _ & Hpop).
    rewrite <- (ar_chain_at_fun _ _ _ _ HL HL0) in *.
    destruct (ar_pass_position (AR.r_level r) L i j Hlv Hpat Hrg Hi)
      as [(jd & Hjd & -> & Hcjd & Hdn)|(i' & j'' & Hi' & Hcj & Hcost)].
    + left. rewrite Hjd in Hpop. destruct Hpop as (Hdjd & _).
      apply deref_Some in Hdjd as [Hjdin _].
      rewrite (Huniq j' jd Hjin' Hjdin); [done|congruence].
    + right.
      assert (j'' ∈ AR.first_job s') as Hin''.
      { eapply ar_chain_at_in; [exact HL'|]. by eapply list_elem_of_lookup_2. }
      rewrite (Huniq j' j'' Hjin' Hin''); [|congruence].
      exists r', (ar_walk_step (ar_head_step (AR.r_level r) L).1), i'.
      split_and!; [by eapply list_elem_of_lookup_2|done|done|lia].
Qed.

Lemma ar_chain_at_addr jobs q L i j :
  ar_chain_at jobs q L → L !! i = Some j → AR.j_addr j ∈ q.
Proof.
  intros Hch Hi. destruct (Forall2_lookup_r _ _ _ _ _ Hch Hi) as (a & Ha & Hd).
  apply deref_Some in Hd as [_ ->]. by eapply list_elem_of_lookup_2.
Qed.

Lemma ar_bind_within c p s k j bi :
  ar_wf s → AR.first_job s !! k = Some j → AR.j_state j = AR.WAITING →
  ar_within c p (AR.first_res s) (AR.first_job s) →
  ar_within c p (AR.first_res (AR.bind_job k bi j s)) (AR.first_job (AR.bind_job k bi j s)).
Proof.
  intros Hwf Hj Hst Hw.
  assert (j ∈ AR.first_job s) as Hjin by by eapply list_elem_of_lookup_2.
  pose proof (ar_waiting_not_queued s j Hwf Hjin Hst) as Hfresh.
  pose proof (awf_jobs _ Hwf) as Hjobs.
  unfold AR.bind_job. simpl.
  set (jobs' := alter (AR.set_j_state AR.WAITING_TO_SEND_DATA) k (AR.first_job s)).
  assert (∀ b, b ≠ AR.j_addr j →
            deref AR.j_addr b jobs' = deref AR.j_addr b (AR.first_job s)) as Hother.
  { intros b Hb. unfold jobs'.
    rewrite (alter_store_at AR.j_addr _ _ _ j) by (done || apply Hjobs).
    rewrite deref_store_at by done. by destruct (Nat.eqb_spec b (AR.j_addr j)). }
  assert (∀ x, x ∈ AR.first_job s → AR.j_code x = c →
            AR.j_state x = AR.DONE ∨
            ∃ r L (i : nat), r ∈ alter (λ r, AR.set_r_rsv (AR.r_rsv r ++ [AR.j_addr j])
                 (AR.set_r_total_workload (AR.r_total_workload r + AR.j_workload j)
                    (AR.set_r_state AR.HAS_JOBS r))) bi (AR.first_res s) ∧
              ar_chain_at jobs' (AR.r_rsv r) L ∧ L !! i = Some x ∧
              ar_costs (take (S i) L) ≤ p) as Hold.
  { intros x Hx Hc. destruct (Hw x Hx Hc) as [Hd|(r & L & i & Hr & HL & Hi & Hp)]; [by left|].
    right.
    assert (ar_chain_at jobs' (AR.r_rsv r) L) as HL'.
    { eapply ar_chain_at_ext; [|exact HL]. intros b Hb. apply Hother.
      intros ->. apply Hfresh. by eapply ar_queued_elem. }
    apply list_elem_of_lookup_1 in Hr as [m Hm].
    destruct (decide (bi = m)) as [->|Hne].
    - eexists _, (L ++ [AR.set_j_state AR.WAITING_TO_SEND_DATA j]), i. split_and!.
      + eapply list_elem_of_lookup_2. by rewrite list_lookup_alter_eq, Hm.
      + simpl. apply Forall2_app; [done|]. constructor; [|constructor].
        unfold jobs'. rewrite (alter_store_at AR.j_addr _ _ _ j) by (done || apply Hjobs).
        rewrite deref_store_at, Nat.eqb_refl by done.
        by rewrite (deref_NoDup AR.j_addr _ _ (proj1 Hjobs) Hjin).
      + by apply lookup_app_l_Some.
      + rewrite take_app_le; [done|]. apply lookup_lt_Some in Hi. lia.
    - exists r, L, i. split_and!; [|done..].
      eapply list_elem_of_lookup_2. by rewrite list_lookup_alter_ne.
  }
  intros x' Hx' Hc.
  apply elem_of_alter in Hx' as [Hx'|(x & Hx & ->)]; [by apply Hold|].
  rewrite Hj in Hx. injection Hx as <-. simpl in Hc.
  destruct (Hw j Hjin Hc) as [Hd|(r & L & i & Hr & HL & Hi & _)]; [congruence|].
  exfalso. apply Hfresh. eapply ar_queued_elem; [done|]. by eapply ar_chain_at_addr.
Qed.

Lemma ar_schedule_within c p s :
  ar_wf s → ar_within c p (AR.first_res s) (AR.first_job s) →
  ar_within c p (AR.first_res (AR.schedule s)) (AR.first_job (AR.schedule s)).
Proof.
  intros Hwf Hw.
  destruct (ar_schedule_shape s)
    as [[-> _]|(k & j & _ & Hj & Hst & [[-> _]|(_ & bi & r & _ & ->)])]; [done..|].
  apply ar_bind_within; [|done..].
  eapply ar_wf_ext; [done|done..|]. unfold AR.malloc. simpl.
  destruct (AR.malloc_src s (AR.malloc_pos s)); lia.
Qed.

Lemma ar_tick_within c p s s' :
  ar_wf s → ar_books s → ar_census false s →
  ar_audit (AR.first_res s) (AR.first_job s) → AR.tick s = Running s' →
  c ≤ AR.job_number s → ar_within c p (AR.first_res s) (AR.first_job s) →
  c ≤ AR.job_number s' ∧ ar_within c (p - 1) (AR.first_res s') (AR.first_job s').
Proof.
  intros Hwf Hb Hc Hau Ht Hcn Hw. pose proof (ar_tick_wf s Hwf) as Hstep.
  destruct (ar_tick_log _ _ Ht) as (_ & _ & Hjn).
  destruct (ar_trace_body_globals s) as (_ & _ & _ & Hjn0 & _).
  split; [lia|].
  unfold AR.tick in Ht.
  destruct (AR.traceall s) as [s1| |] eqn:Htr; [|done..].
  apply ar_traceall_Running in Htr as ->.
  destruct (AR.add_remove (AR.trace_body s)) as [s2|] eqn:Har; [|done].
  destruct Hstep as (Hmid2 & s3 & Hrs & Hwf3 & _). rewrite Hrs in Ht. injection Ht as <-.
  pose proof (ar_trace_body_mid s Hwf) as Hmid1.
  pose proof (ar_trace_body_books s Hwf Hb) as Hb1.
  pose proof (ar_trace_body_census s Hc) as Hc1.
  pose proof (ar_trace_body_audit s Hau) as Hau1.
  destruct (ar_add_remove_books _ _ Hmid1 Hb1 Hc1 Har) as [Hb2 _].
  pose proof (ar_add_remove_audit _ _ Hmid1 Hb1 Hau1 Har) as Hau2.
  apply ar_schedule_within; [done|].
  apply (ar_run_send_within c p s2); [done..|].
  apply (ar_add_remove_within c p (AR.trace_body s)); [done..|lia|].
  by apply ar_trace_body_within.
Qed.

Lemma ar_run_within c k : ∀ p s s',
  ar_wf s → ar_books s → ar_census false s →
  ar_audit (AR.first_res s) (AR.first_job s) → AR.run k s = Running s' →
  c ≤ AR.job_number s → ar_within c p (AR.first_res s) (AR.first_job s) →
  ar_within c (p - Z.of_nat k) (AR.first_res s') (AR.first_job s').
Proof.
  induction k as [|k IH]; intros p s s' Hwf Hb Hc Hau; simpl.
  { intros [= <-] _. apply ar_within_mono. lia. }
  destruct (AR.tick s) as [s1| |] eqn:Ht; [|done..]. intros Hrun Hcn Hw.
  destruct (ar_tick_books _ _ Hwf Hb Hc Ht) as [Hb1 Hc1].
  destruct (ar_tick_within c p _ _ Hwf Hb Hc Hau Ht Hcn Hw) as [Hcn1 Hw1].
  eapply ar_within_mono; [|apply (IH (p - 1) s1 s')]; try done; [lia| |].
  - by eapply ar_tick_Running_wf.
  - by eapply ar_tick_audit.
Qed.

Lemma ar_costs_take_pos L i j :
  Forall ar_job_range L → Forall ar_in_service L → L !! i = Some j →
  1 ≤ ar_costs (take (S i) L).
Proof.
  intros Hrg Hsv Hi. destruct L as [|x L]; [done|].
  apply Forall_cons in Hrg as [Hx Hrg]. apply Forall_cons in Hsv as [Hsx _].
  rewrite firstn_cons. simpl.
  pose proof (ar_cost_range x Hx) as [_ H1]. specialize (H1 Hsx).
  pose proof (ar_costs_nonneg (take i L)) as H2.
  assert (Forall ar_job_range (take i L)) as H3 by by apply Forall_take.
  specialize (H2 H3). lia.
Qed.

(** X26: a reserved job is served in bounded time.  In a state reached
    from the initial state of the AR simulator, let [j] be the job at
    position [i] of the reservation chain of a resource, and give every job
    of the chain a cost by its state: workload + 1 when RUNNING,
    workload + 2 when READY_TO_RUN, max(send_data, 1) + workload + 2 when
    SENDING_DATA, and max(send_data, 1) + workload + 3 when
    WAITING_TO_SEND_DATA.  If the run goes on for [k] more ticks and [k] is
    at least the sum of the costs of [j] and of the jobs before it in the
    chain, then afterwards no job of the pool with the code of [j] is still
    to be served: [j] is DONE if it is still in the pool.  The sum is at
    least 1 and at most 1031 for each of the [i + 1] jobs. *)
Theorem ar_reserved_job_is_done_in_time
    (rnd : nat → N) (mal : nat → bool) (n k i : nat) (s s' : AR.sim)
    (r : AR.resource) (L : list AR.job) (j : AR.job) :
  AR.run n (AR.init rnd mal) = Running s →
  r ∈ AR.first_res s → ar_chain_at (AR.first_job s) (AR.r_rsv r) L → L !! i = Some j →
  AR.run k s = Running s' → ar_costs (take (S i) L) ≤ Z.of_nat k →
  1 ≤ ar_costs (take (S i) L) ≤ 1031 * Z.of_nat (S i) ∧
  ∀ j', j' ∈ AR.first_job s' → AR.j_code j' = AR.j_code j → AR.j_state j' = AR.DONE.
Proof.
  intros Hrun Hr HL Hi Hrun' Hk.
  destruct (ar_run_from_init _ _ _ _ Hrun) as (Hwf & Hb & Hc & Hau).
  destruct (ar_audit_chain _ _ _ _ Hau Hr HL) as (_ & Hrg & Hsv & _).
  assert (j ∈ AR.first_job s) as Hj.
  { eapply ar_chain_at_in; [exact HL|]. by eapply list_elem_of_lookup_2. }
  split.
  { split; [by eapply ar_costs_take_pos|].
    assert (∀ (M : list AR.job), Forall ar_job_range M →
              ar_costs M ≤ 1031 * Z.of_nat (length M)) as Hup.
    { induction 1 as [|x M Hx _ IH]; simpl; [lia|].
      pose proof (ar_cost_range x Hx). lia. }
    etrans; [apply Hup; by apply Forall_take|].
    rewrite length_take. lia. }
  assert (ar_within (AR.j_code j) (Z.of_nat k) (AR.first_res s) (AR.first_job s)) as Hw.
  { intros x Hx Hcode. right.
    rewrite (codes_between_same_code AR.j_code _ _ _ x j (ab_job_codes _ Hb) Hx Hj Hcode).
    by exists r, L, i. }
  assert (AR.j_code j ≤ AR.job_number s) as Hcn.
  { apply list_elem_of_lookup_1 in Hj as [m Hm].
    pose proof (codes_between_lookup _ _ _ m (AR.j_code j) (ab_job_codes _ Hb)) as H.
    rewrite list_lookup_fmap, Hm in H. specialize (H eq_refl). lia. }
  pose proof (ar_run_within _ k _ _ _ Hwf Hb Hc Hau Hrun' Hcn Hw) as Hw'.
  destruct (ar_run_books k _ _ Hwf Hb Hc Hrun') as [Hb' Hc'].
  pose proof (ar_run_audit k _ _ Hwf Hb Hc Hau Hrun') as Hau'.
  intros j' Hj' Hcode.
  destruct (Hw' j' Hj' Hcode) as [Hd|(r' & L' & i' & Hr' & HL' & Hi' & Hcost)]; [done|].
  destruct (ar_audit_chain _ _ _ _ Hau' Hr' HL') as (_ & Hrg' & Hsv' & _).
  pose proof (ar_costs_take_pos _ _ _ Hrg' Hsv' Hi'). lia.
Qed.

Lemma ar_reserved_job_is_done_in_time_witness :
  ∃ s', AR.run 209 ar_demo_12 = Running s' ∧
    ∀ j', j' ∈ AR.first_job s' → AR.j_code j' = 6 → AR.j_state j' = AR.DONE.
Proof.
  eexists. split; [vm_compute; reflexivity|].
  apply (ar_reserved_job_is_done_in_time demo_random demo_malloc 12 209 1 ar_demo_12 _
           ar_demo_12_first ar_demo_12_chain
           (AR.mkJob 16 6 AR.SENDING_DATA 99 8 5 None)).
  - vm_compute; reflexivity.
  - apply list_elem_of_here.
  - repeat constructor.
  - reflexivity.
  - vm_compute; reflexivity.
  - vm_compute. discriminate.
Defined.
